(** * nfx-datatypes: Int128 and Decimal

    A shallow embedding of [src/Int128.cpp], [detail/datatypes/Int128.inl],
    [src/Decimal.cpp] and [detail/datatypes/Decimal.inl], and the properties
    of the two types that the specification states.

    Conventions.
    - A [std::uint32_t] / [std::uint64_t] is a [Z] with the wrap-around
      ([mod 2^32], [mod 2^64]) written at every place where the C++ code
      converts or overflows.
    - [Int128] is embedded on the branch [NFX_DATATYPES_HAS_NATIVE_INT128]
      (one [__int128] word, the GCC/Clang build): a [Z] in [-2^127, 2^127)
      with two's-complement wrap-around.  The portable two-word division of
      [Int128.cpp] is embedded next to it in [Int128Portable].
    - A C++ exception is a value [Error e] of the [Result] type; functions
      that may throw are written in the error monad.
    - [std::string] / [std::string_view] is [list ascii]. *)

From Stdlib Require Import ZArith List Ascii String Lia Bool Arith.
Import ListNotations.
Open Scope Z_scope.

(** ** Exceptions *)

Inductive exception : Type :=
| overflow_error
| domain_error
| invalid_argument.

Inductive Result (A : Type) : Type :=
| Ok (a : A)
| Error (e : exception).
Arguments Ok {A} a.
Arguments Error {A} e.

Definition bind {A B : Type} (r : Result A) (k : A -> Result B) : Result B :=
  match r with
  | Ok a => k a
  | Error e => Error e
  end.

Notation "x <- e ;; k" := (bind e (fun x => k))
  (at level 61, e at next level, right associativity).
Notation "' pat <- e ;; k" := (bind e (fun x => match x with pat => k end))
  (at level 61, pat pattern, e at next level, right associativity).

Definition returns_normally {A : Type} (r : Result A) : Prop :=
  exists a, r = Ok a.

(** ** Fixed-width helpers *)

Definition u8 (z : Z) : Z := z mod 2 ^ 8.
Definition u32 (z : Z) : Z := z mod 2 ^ 32.
Definition u64 (z : Z) : Z := z mod 2 ^ 64.

(** ** Constants.h

    The header [nfx/detail/datatypes/Constants.h] is not among the sources.
    The constants whose value is fixed by their name, by the comments at
    their uses or by the specification are defined here; the others are
    section variables of the functions that use them. *)
Module constants.

(** Modelled from the spec: [Constants.h] is missing; "bits 16-23 = scale,
    bit 31 = sign" (spec 3, [Decimal.h] layout table). *)
Definition DECIMAL_SCALE_MASK : Z := 0x00FF0000.
Definition DECIMAL_SCALE_SHIFT : Z := 16.
Definition DECIMAL_SIGN_MASK : Z := 0x80000000.

(** Modelled from the spec: [Constants.h] is missing; decimal digits and
    "scale in [0, 28]", "more than 28 significant digits are truncated". *)
Definition DECIMAL_BASE : Z := 10.
Definition INT128_BASE : Z := 10.
Definition DECIMAL_MAXIMUM_PLACES : Z := 28.
Definition DECIMAL_ROUNDING_THRESHOLD : Z := 5.

(** Modelled from the spec: [Constants.h] is missing; word sizes named by
    the constants themselves. *)
Definition BITS_PER_UINT64 : Z := 64.
Definition BITS_PER_UINT32 : Z := 32.
Definition BITS_PER_UINT16 : Z := 16.
Definition BITS_PER_UINT8 : Z := 8.
Definition BITS_PER_NIBBLE : Z := 4.
Definition BITS_PER_PAIR : Z := 2.
Definition BIT_MASK_ONE : Z := 1.
Definition BIT_MASK_ZERO : Z := 0.
Definition UINT32_MAX_VALUE : Z := 0xFFFFFFFF.
Definition INT128_MAX_BIT_INDEX : Z := 127.

(** Modelled from the spec: [Constants.h] is missing; the masks select the
    upper 32, 16, 8, 4, 2 and 1 bits of a 64-bit word ("count leading
    zeros in high word using binary search", [Int128::isqrt]). *)
Definition BIT_MASK_UPPER_32 : Z := 0xFFFFFFFF00000000.
Definition BIT_MASK_UPPER_16 : Z := 0xFFFF000000000000.
Definition BIT_MASK_UPPER_8 : Z := 0xFF00000000000000.
Definition BIT_MASK_UPPER_4 : Z := 0xF000000000000000.
Definition BIT_MASK_UPPER_2 : Z := 0xC000000000000000.
Definition BIT_MASK_MSB : Z := 0x8000000000000000.

(** Modelled from the spec: [Constants.h] is missing; "2^96 - 1" is the
    largest mantissa, given as low and high 64-bit words
    ([Decimal::operator*]). *)
Definition DECIMAL_96BIT_MAX_LOW : Z := 0xFFFFFFFFFFFFFFFF.
Definition DECIMAL_96BIT_MAX_HIGH : Z := 0xFFFFFFFF.

(** Modelled from the spec: [Constants.h] is missing; the bounds of the
    128-bit two's-complement range ([numeric_limits<Int128>], comments
    "-2^127 = -170141183460469231731687303715884105728" and
    "2^127 - 1 = 170141183460469231731687303715884105727"), and the
    39 digits of their decimal literals ("For exactly 39 digits",
    [Int128::fromString]). *)
Definition INT128_MIN_NEGATIVE_LOW : Z := 0.
Definition INT128_MIN_NEGATIVE_HIGH : Z := 0x8000000000000000.
Definition INT128_MAX_POSITIVE_LOW : Z := 0xFFFFFFFFFFFFFFFF.
Definition INT128_MAX_POSITIVE_HIGH : Z := 0x7FFFFFFFFFFFFFFF.
Definition INT128_MAX_DIGIT_COUNT : nat := 39.
Definition INT128_MAX_POSITIVE_STRING : list ascii :=
  list_ascii_of_string "170141183460469231731687303715884105727".
Definition INT128_MAX_NEGATIVE_STRING : list ascii :=
  list_ascii_of_string "170141183460469231731687303715884105728".

(** Modelled from the spec: [Constants.h] is missing; "64-bit lookup table
    for powers 0-19" and "pre-computed 128-bit values for powers 20-28"
    ([internal::powerOf10], which returns "Int128 representing 10^power").
    The extended table holds (low, high) word pairs. *)
Definition DECIMAL_POWER_TABLE_SIZE : Z := 20.
Definition DECIMAL_POWERS_OF_10 (i : Z) : Z := 10 ^ i.
Definition DECIMAL_EXTENDED_POWER_MIN : Z := 20.
Definition DECIMAL_EXTENDED_POWER_MAX : Z := 28.
Definition DECIMAL_EXTENDED_POWERS_OF_10 (i : Z) : Z * Z :=
  ((10 ^ (20 + i)) mod 2 ^ 64, (10 ^ (20 + i)) / 2 ^ 64).

End constants.

(** ** Int128, native representation ([Int128.inl], first branch) *)
Module Int128.

(** [m_value], a [__int128]. *)
Definition t : Type := Z.

Definition valid (x : t) : Prop := - 2 ^ 127 <= x < 2 ^ 127.

(** Conversion of an integer to [__int128]: two's-complement wrap. *)
Definition wrap (z : Z) : t := (z + 2 ^ 127) mod 2 ^ 128 - 2 ^ 127.

(** [Int128( std::uint64_t low, std::uint64_t high )]. *)
Definition of_words (low high : Z) : t :=
  wrap (Z.lor (Z.shiftl high constants.BITS_PER_UINT64) low).

Definition min : t :=
  of_words constants.INT128_MIN_NEGATIVE_LOW constants.INT128_MIN_NEGATIVE_HIGH.
Definition max : t :=
  of_words constants.INT128_MAX_POSITIVE_LOW constants.INT128_MAX_POSITIVE_HIGH.

Definition eqb (x y : t) : bool := x =? y.
Definition ltb (x y : t) : bool := x <? y.
Definition gtb (x y : t) : bool := x >? y.

Definition add (x y : t) : t := wrap (x + y).
Definition sub (x y : t) : t := wrap (x - y).
Definition mul (x y : t) : t := wrap (x * y).

(** [operator/]: C++ division truncates toward zero. *)
Definition div (x y : t) : Result t :=
  if y =? 0 then Error overflow_error else Ok (wrap (Z.quot x y)).

(** [operator%]. *)
Definition rem (x y : t) : Result t :=
  if y =? 0 then Error overflow_error else Ok (wrap (Z.rem x y)).

(** [operator-()]. *)
Definition neg (x : t) : t := wrap (- x).

Definition abs (x : t) : t := wrap (if x <? 0 then - x else x).

Definition toLow (x : t) : Z := u64 x.
Definition toHigh (x : t) : Z := u64 (Z.shiftr x constants.BITS_PER_UINT64).

(** *** Characters of a decimal literal *)

Definition code (c : ascii) : Z := Z.of_N (N_of_ascii c).
Definition char_of (z : Z) : ascii := ascii_of_N (Z.to_N (u8 z)).

(** [c < '0' || c > '9']. *)
Definition not_digit (c : ascii) : bool := (code c <? 48) || (code c >? 57).

(** Comparison of two [std::string_view]s: lexicographic on the characters,
    the shorter one first when one is a prefix of the other. *)
Fixpoint compare_view (a b : list ascii) : comparison :=
  match a, b with
  | [], [] => Eq
  | [], _ :: _ => Lt
  | _ :: _, [] => Gt
  | x :: a', y :: b' =>
      match code x ?= code y with
      | Eq => compare_view a' b'
      | c => c
      end
  end.

(** *** [Int128::fromString] *)

(** The digit loop: [result = result * 10 + digit], failing on the first
    character that is not a digit. *)
Fixpoint fromString_digits (cs : list ascii) (result : t) : option t :=
  match cs with
  | [] => Some result
  | c :: cs' =>
      if not_digit c then None
      else
        let digit := code c - 48 in
        fromString_digits cs' (add (mul result constants.INT128_BASE) (wrap digit))
  end.

(** [bool Int128::fromString( std::string_view str, Int128& result )]:
    [None] is the return value [false], [Some r] is [true] with [result = r]. *)
Definition fromString (str : list ascii) : option t :=
  match str with
  | [] => None
  | c0 :: _ =>
      let isNegative := (code c0 =? 45) in
      let pos := if code c0 =? 45 then 1%nat else if code c0 =? 43 then 1%nat else 0%nat in
      if (List.length str <=? pos)%nat then None
      else
        let digitCount := (List.length str - pos)%nat in
        if (constants.INT128_MAX_DIGIT_COUNT <? digitCount)%nat then None
        else
          let digits := skipn pos str in
          let parse :=
            match fromString_digits digits 0 with
            | None => None
            | Some r => Some (if isNegative then neg r else r)
            end in
          if (digitCount =? constants.INT128_MAX_DIGIT_COUNT)%nat then
            if negb isNegative then
              match compare_view digits constants.INT128_MAX_POSITIVE_STRING with
              | Gt => None
              | _ => parse
              end
            else
              match compare_view digits constants.INT128_MAX_NEGATIVE_STRING with
              | Eq => Some min
              | Gt => None
              | Lt => parse
              end
          else parse
  end.

(** *** [Int128::toString] *)

(** The loop [while ( temp != Int128{} )], one decimal digit per iteration,
    each digit put in front of [result].  [fuel] bounds the number of
    iterations of the model; the C++ loop has no bound of its own and stops
    when [temp] reaches zero. *)
Fixpoint toString_loop (fuel : nat) (temp : t) (result : list ascii)
  : Result (list ascii) :=
  match fuel with
  | O => Ok result
  | S fuel' =>
      if eqb temp 0 then Ok result
      else
        quotient <- div temp constants.INT128_BASE ;;
        remainder <- rem temp constants.INT128_BASE ;;
        let digit := char_of (48 + toLow remainder) in
        toString_loop fuel' quotient (digit :: result)
  end.

(** A value of magnitude below [2^127] has at most 39 decimal digits. *)
Definition toString_fuel : nat := 39.

Definition toString (x : t) : Result (list ascii) :=
  if eqb x 0 then Ok (list_ascii_of_string "0")
  else if eqb x min then
    Ok (list_ascii_of_string "-" ++ constants.INT128_MAX_NEGATIVE_STRING)
  else
    result <- toString_loop toString_fuel (abs x) [] ;;
    Ok (if ltb x 0 then list_ascii_of_string "-" ++ result else result).

(** *** [Int128::isqrt] *)

(** The binary search for the highest set bit of one 64-bit word; the source
    writes it out twice, for [toHigh()] and for [toLow()].  The value
    returned is what the cascade adds to [bitLength]. *)
Definition bitLength_word (word : Z) : Z :=
  let '(b1, w1) :=
    if Z.land word constants.BIT_MASK_UPPER_32 =? 0
    then (0, u64 (Z.shiftl word constants.BITS_PER_UINT32))
    else (constants.BITS_PER_UINT32, word) in
  let '(b2, w2) :=
    if Z.land w1 constants.BIT_MASK_UPPER_16 =? 0
    then (b1, u64 (Z.shiftl w1 constants.BITS_PER_UINT16))
    else (b1 + constants.BITS_PER_UINT16, w1) in
  let '(b3, w3) :=
    if Z.land w2 constants.BIT_MASK_UPPER_8 =? 0
    then (b2, u64 (Z.shiftl w2 constants.BITS_PER_UINT8))
    else (b2 + constants.BITS_PER_UINT8, w2) in
  let '(b4, w4) :=
    if Z.land w3 constants.BIT_MASK_UPPER_4 =? 0
    then (b3, u64 (Z.shiftl w3 constants.BITS_PER_NIBBLE))
    else (b3 + constants.BITS_PER_NIBBLE, w3) in
  let '(b5, w5) :=
    if Z.land w4 constants.BIT_MASK_UPPER_2 =? 0
    then (b4, u64 (Z.shiftl w4 constants.BITS_PER_PAIR))
    else (b4 + constants.BITS_PER_PAIR, w4) in
  if Z.land w5 constants.BIT_MASK_MSB =? 0 then b5 else b5 + 1.

Definition bitLength (x : t) : Z :=
  if negb (toHigh x =? 0)
  then constants.BITS_PER_UINT64 + bitLength_word (toHigh x)
  else bitLength_word (toLow x).

(** Initial guess [2^(bitLength/2)]. *)
Definition isqrt_guess (x : t) : t :=
  let initialShift := Z.quot (bitLength x) 2 in
  if initialShift >=? constants.BITS_PER_UINT64
  then of_words 0 (u64 (Z.shiftl constants.BIT_MASK_ONE
                                 (initialShift - constants.BITS_PER_UINT64)))
  else of_words (u64 (Z.shiftl constants.BIT_MASK_ONE initialShift)) 0.

(** The Heron loop [for ( int i = 0; i < INT128_ISQRT_MAX_ITERATIONS; ++i )];
    [fuel] is the number of iterations left, and the value after the loop is
    [div] ([return div;]). *)
Fixpoint isqrt_loop (fuel : nat) (x div div2 : t) : Result t :=
  match fuel with
  | O => Ok div
  | S fuel' =>
      q <- Int128.div x div ;;
      y <- Int128.div (add div q) 2 ;;
      if eqb y div || eqb y div2
      then Ok (if ltb y div then y else div)
      else isqrt_loop fuel' x y div
  end.

Section isqrt.

(** [constants::INT128_ISQRT_MAX_ITERATIONS]; its value is in [Constants.h],
    which is not among the sources. *)
Variable INT128_ISQRT_MAX_ITERATIONS : nat.

Definition isqrt (x : t) : Result t :=
  if ltb x 0 then Error domain_error
  else if eqb x 0 || eqb x 1 then Ok x
  else
    let div := isqrt_guess x in
    isqrt_loop INT128_ISQRT_MAX_ITERATIONS x div div.

End isqrt.

(** *** Comparison with [std::uint64_t] ([Int128.inl], native branch) *)

(** [operator==( std::uint64_t )]:
    [m_value >= 0 && static_cast<std::uint64_t>( m_value ) == val]. *)
Definition eqb_uint64 (x : t) (val : Z) : bool :=
  (x >=? 0) && (u64 x =? val).

(** [operator<( std::uint64_t )]:
    [m_value < 0 || static_cast<std::uint64_t>( m_value ) < val]. *)
Definition ltb_uint64 (x : t) (val : Z) : bool :=
  (x <? 0) || (u64 x <? val).

(** [operator>( std::uint64_t )]:
    [m_value >= 0 && static_cast<std::uint64_t>( m_value ) > val]. *)
Definition gtb_uint64 (x : t) (val : Z) : bool :=
  (x >=? 0) && (u64 x >? val).

(** [operator<=( std::uint64_t )] and [operator>=( std::uint64_t )]. *)
Definition leb_uint64 (x : t) (val : Z) : bool :=
  ltb_uint64 x val || eqb_uint64 x val.
Definition geb_uint64 (x : t) (val : Z) : bool :=
  gtb_uint64 x val || eqb_uint64 x val.

End Int128.

(** ** Decimal ([Decimal.h], [Decimal.inl], [Decimal.cpp]) *)
Module Decimal.

(** [m_layout]: the [flags] word and the three 32-bit limbs of [mantissa]. *)
Record t : Type := mk
  { flags : Z;
    mantissa_0 : Z;
    mantissa_1 : Z;
    mantissa_2 : Z }.

Definition valid (d : t) : Prop :=
  0 <= flags d < 2 ^ 32 /\
  0 <= mantissa_0 d < 2 ^ 32 /\
  0 <= mantissa_1 d < 2 ^ 32 /\
  0 <= mantissa_2 d < 2 ^ 32.

Inductive RoundingMode : Type :=
| ToNearest
| ToNearestTiesAway
| ToZero
| ToPositiveInfinity
| ToNegativeInfinity.

(** [Decimal{}]. *)
Definition zero : t := mk 0 0 0 0.

Definition with_flags (d : t) (f : Z) : t :=
  mk f (mantissa_0 d) (mantissa_1 d) (mantissa_2 d).

(** [scale()]. *)
Definition scale (d : t) : Z :=
  u8 (Z.shiftr (Z.land (flags d) constants.DECIMAL_SCALE_MASK)
               constants.DECIMAL_SCALE_SHIFT).

(** [( m_layout.flags & DECIMAL_SIGN_MASK ) != 0]. *)
Definition sign_bit (d : t) : bool :=
  negb (Z.land (flags d) constants.DECIMAL_SIGN_MASK =? 0).

(** [mantissa[0] == 0 && mantissa[1] == 0 && mantissa[2] == 0]. *)
Definition mantissa_is_zero (d : t) : bool :=
  (mantissa_0 d =? 0) && (mantissa_1 d =? 0) && (mantissa_2 d =? 0).

(** [flags |= DECIMAL_SIGN_MASK]. *)
Definition set_sign (d : t) : t :=
  with_flags d (Z.lor (flags d) constants.DECIMAL_SIGN_MASK).

(** [( flags & ~DECIMAL_SCALE_MASK ) | ( s << DECIMAL_SCALE_SHIFT )]. *)
Definition replace_scale (f s : Z) : Z :=
  Z.lor (Z.land f (u32 (Z.lnot constants.DECIMAL_SCALE_MASK)))
        (u32 (Z.shiftl (u32 s) constants.DECIMAL_SCALE_SHIFT)).

(** *** Internal helpers *)

(** [internal::powerOf10]. *)
Definition powerOf10 (power : Z) : Int128.t :=
  if (power <? constants.DECIMAL_POWER_TABLE_SIZE)
     && negb (constants.DECIMAL_POWERS_OF_10 power =? 0)
  then constants.DECIMAL_POWERS_OF_10 power
  else if (constants.DECIMAL_EXTENDED_POWER_MIN <=? power)
          && (power <=? constants.DECIMAL_EXTENDED_POWER_MAX)
  then
    let extended :=
      constants.DECIMAL_EXTENDED_POWERS_OF_10
        (power - constants.DECIMAL_EXTENDED_POWER_MIN) in
    Int128.of_words (fst extended) (snd extended)
  else
    Nat.iter (Z.to_nat power)
             (fun result => Int128.mul result constants.DECIMAL_BASE) 1.

(** [internal::mantissaAsInt128]. *)
Definition mantissaAsInt128 (decimal : t) : Int128.t :=
  Z.lor (Z.lor (Z.shiftl (mantissa_2 decimal) constants.BITS_PER_UINT64)
               (Z.shiftl (mantissa_1 decimal) constants.BITS_PER_UINT32))
        (mantissa_0 decimal).

(** [internal::alignScale]. *)
Definition alignScale (decimal other : t) : Int128.t * Int128.t :=
  let left := mantissaAsInt128 decimal in
  let right := mantissaAsInt128 other in
  let leftScale := scale decimal in
  let rightScale := scale other in
  if leftScale <? rightScale then
    let scaleDiff := u8 (rightScale - leftScale) in
    (Int128.mul left (powerOf10 scaleDiff), right)
  else if rightScale <? leftScale then
    let scaleDiff := u8 (leftScale - rightScale) in
    (left, Int128.mul right (powerOf10 scaleDiff))
  else (left, right).

(** [internal::setMantissa]. *)
Definition setMantissa (decimal : t) (value : Int128.t) : t :=
  mk (flags decimal)
     (u32 value)
     (u32 (Z.shiftr value constants.BITS_PER_UINT32))
     (u32 (Z.shiftr value constants.BITS_PER_UINT64)).

(** [internal::divideByPowerOf10]. *)
Definition divideByPowerOf10 (decimal : t) (power : Z) : Result t :=
  mantissa <- Int128.div (mantissaAsInt128 decimal) (powerOf10 power) ;;
  Ok (setMantissa decimal mantissa).

(** [internal::normalize]: the loop runs while [scale() > 0] and lowers the
    scale by one each time, so [fuel = scale()] iterations are all it can
    make. *)
Fixpoint normalize_loop (fuel : nat) (decimal : t) : Result t :=
  match fuel with
  | O => Ok decimal
  | S fuel' =>
      if scale decimal >? 0 then
        r <- Int128.rem (mantissaAsInt128 decimal) constants.DECIMAL_BASE ;;
        if Int128.eqb r 0 then
          decimal1 <- divideByPowerOf10 decimal 1 ;;
          let currentScale := scale decimal1 in
          let currentFlags := flags decimal1 in
          let newFlags := replace_scale currentFlags (currentScale - 1) in
          normalize_loop fuel' (with_flags decimal1 newFlags)
        else Ok decimal
      else Ok decimal
  end.

Definition normalize (decimal : t) : Result t :=
  normalize_loop (Z.to_nat (scale decimal)) decimal.

(** *** Comparison *)

(** [operator<=>( const Decimal& )]. *)
Definition compare (d other : t) : comparison :=
  let thisNeg := sign_bit d in
  let otherNeg := sign_bit other in
  if negb (Bool.eqb thisNeg otherNeg) then
    if thisNeg then Lt else Gt
  else
    let '(leftMantissa, rightMantissa) := alignScale d other in
    if thisNeg then
      if Int128.gtb leftMantissa rightMantissa then Lt
      else if Int128.ltb leftMantissa rightMantissa then Gt
      else Eq
    else
      if Int128.ltb leftMantissa rightMantissa then Lt
      else if Int128.gtb leftMantissa rightMantissa then Gt
      else Eq.

(** [a < b], rewritten by the compiler from [operator<=>]. *)
Definition ltb (d other : t) : bool :=
  match compare d other with
  | Lt => true
  | _ => false
  end.

(** [operator==( const Decimal& )]. *)
Definition eqb (d other : t) : bool :=
  let thisZero := mantissa_is_zero d in
  let otherZero := mantissa_is_zero other in
  if thisZero && otherZero then true
  else
    let thisNeg := sign_bit d in
    let otherNeg := sign_bit other in
    if negb (Bool.eqb thisNeg otherNeg) then false
    else
      let '(left_, right_) := alignScale d other in
      Int128.eqb left_ right_.

(** *** Construction *)

(** [Decimal( std::int32_t )] / [Decimal( std::int64_t )], for a value above
    the minimum of its type. *)
Definition of_int64 (value : Z) : t :=
  let fl := if value <? 0 then Z.lor 0 constants.DECIMAL_SIGN_MASK else 0 in
  let value := if value <? 0 then - value else value in
  mk fl (u32 value) (u32 (Z.shiftr value constants.BITS_PER_UINT32)) 0.

(** [Decimal( const Int128& )]. *)
Definition of_Int128 (val : Int128.t) : Result t :=
  if Int128.eqb val 0 then Ok zero
  else
    let isNegative := Int128.ltb val 0 in
    if Int128.eqb val Int128.min then Error overflow_error
    else
      let absoluteValue := Int128.abs val in
      let d :=
        if isNegative
        then with_flags zero (Z.lor (flags zero) constants.DECIMAL_SIGN_MASK)
        else zero in
      let high64 := Int128.toHigh absoluteValue in
      if high64 >? constants.UINT32_MAX_VALUE then Error overflow_error
      else Ok (setMantissa d absoluteValue).

(** *** Arithmetic *)

(** Unary [operator-()]. *)
Definition neg (d : t) : t :=
  with_flags d (Z.lxor (flags d) constants.DECIMAL_SIGN_MASK).

(** [operator+]. *)
Definition add (d other : t) : Result t :=
  if eqb d zero then Ok other
  else if eqb other zero then Ok d
  else
    let '(left_, right_) := alignScale d other in
    let result := setMantissa zero (Int128.add left_ right_) in
    let result :=
      with_flags result
        (Z.lor (Z.land (flags d) (u32 (Z.lnot constants.DECIMAL_SCALE_MASK)))
               (u32 (Z.shiftl (Z.max (scale d) (scale other))
                              constants.DECIMAL_SCALE_SHIFT))) in
    let result :=
      if Bool.eqb (ltb d zero) (ltb other zero) then
        if ltb d zero then set_sign result else result
      else if Int128.gtb left_ right_ then
        let result := setMantissa result (Int128.sub left_ right_) in
        if ltb d zero then set_sign result else result
      else
        let result := setMantissa result (Int128.sub right_ left_) in
        if ltb other zero then set_sign result else result in
    normalize result.

(** Binary [operator-]. *)
Definition sub (d other : t) : Result t :=
  let negatedOther :=
    with_flags other (Z.lxor (flags other) constants.DECIMAL_SIGN_MASK) in
  add d negatedOther.

(** [operator*]: the loop [while ( productMantissa > max96bit && newScale > 0 )]
    lowers [newScale] each time, so [fuel = newScale] bounds it. *)
Fixpoint mul_reduce (fuel : nat) (productMantissa : Int128.t) (newScale : Z)
  : Result (Int128.t * Z) :=
  let max96bit :=
    Int128.of_words constants.DECIMAL_96BIT_MAX_LOW
                    constants.DECIMAL_96BIT_MAX_HIGH in
  match fuel with
  | O => Ok (productMantissa, newScale)
  | S fuel' =>
      if Int128.gtb productMantissa max96bit && (newScale >? 0) then
        p <- Int128.div (Int128.add productMantissa 5) constants.DECIMAL_BASE ;;
        mul_reduce fuel' p (u8 (newScale - 1))
      else Ok (productMantissa, newScale)
  end.

(** [operator*]: the safety loop [while ( productMantissa > max96bit )]; a
    value above [max96bit] is positive and loses a digit each time, so 39
    iterations exhaust any 128-bit value. *)
Fixpoint mul_truncate (fuel : nat) (productMantissa : Int128.t)
  : Result Int128.t :=
  let max96bit :=
    Int128.of_words constants.DECIMAL_96BIT_MAX_LOW
                    constants.DECIMAL_96BIT_MAX_HIGH in
  match fuel with
  | O => Ok productMantissa
  | S fuel' =>
      if Int128.gtb productMantissa max96bit then
        p <- Int128.div productMantissa constants.DECIMAL_BASE ;;
        mul_truncate fuel' p
      else Ok productMantissa
  end.

(** [operator*]. *)
Definition mul (d other : t) : Result t :=
  if eqb d zero || eqb other zero then Ok zero
  else
    let left_ := mantissaAsInt128 d in
    let right_ := mantissaAsInt128 other in
    let newScale := u8 (scale d + scale other) in
    '(left_, right_, newScale) <-
      (if newScale >? constants.DECIMAL_MAXIMUM_PLACES then
         let excessScale := u8 (newScale - constants.DECIMAL_MAXIMUM_PLACES) in
         let leftReduction := u8 (Z.quot excessScale 2) in
         let rightReduction := u8 (excessScale - leftReduction) in
         left_ <-
           (if leftReduction >? 0 then
              let leftDivisor := powerOf10 leftReduction in
              leftHalf <- Int128.div leftDivisor 2 ;;
              Int128.div (Int128.add left_ leftHalf) leftDivisor
            else Ok left_) ;;
         right_ <-
           (if rightReduction >? 0 then
              let rightDivisor := powerOf10 rightReduction in
              rightHalf <- Int128.div rightDivisor 2 ;;
              Int128.div (Int128.add right_ rightHalf) rightDivisor
            else Ok right_) ;;
         Ok (left_, right_, constants.DECIMAL_MAXIMUM_PLACES)
       else Ok (left_, right_, newScale)) ;;
    let productMantissa := Int128.mul left_ right_ in
    '(productMantissa, newScale) <-
      mul_reduce (Z.to_nat newScale) productMantissa newScale ;;
    productMantissa <- mul_truncate 39 productMantissa ;;
    let result := setMantissa zero productMantissa in
    let result :=
      with_flags result (u32 (Z.shiftl (u32 newScale) constants.DECIMAL_SCALE_SHIFT)) in
    let result :=
      if negb (Bool.eqb (ltb d zero) (ltb other zero))
      then set_sign result else result in
    normalize result.

Section division.

(** [constants::DECIMAL_DIVISION_EXTRA_PRECISION] (an [int]) and
    [constants::INT128_MUL10_OVERFLOW_THRESHOLD] (a 64-bit word); their
    values are in [Constants.h], which is not among the sources. *)
Variable DECIMAL_DIVISION_EXTRA_PRECISION : Z.
Variable INT128_MUL10_OVERFLOW_THRESHOLD : Z.

(** [operator/]: the loop [for ( i = 0; i < scaleUpBy; ++i )] that scales
    the dividend up; [count] is the number of iterations left and the
    result is the pair [(dividend, targetPrecision)]. *)
Fixpoint div_scale_up (count : nat) (i : Z) (dividendScale divisorScale : Z)
  (dividend : Int128.t) (targetPrecision : Z) : Int128.t * Z :=
  match count with
  | O => (dividend, targetPrecision)
  | S count' =>
      let backoff :=
        let tp := i + dividendScale - divisorScale in
        if tp <? 0 then 0 else tp in
      if Int128.toHigh dividend >? INT128_MUL10_OVERFLOW_THRESHOLD then
        (dividend, backoff)
      else
        let newDividend := Int128.mul dividend constants.DECIMAL_BASE in
        if Int128.ltb newDividend dividend then (dividend, backoff)
        else
          div_scale_up count' (i + 1) dividendScale divisorScale
                       newDividend targetPrecision
  end.

(** [operator/]: the loop
    [while ( quotientMantissa.toHigh() > 0xFFFFFFFF && targetPrecision > 0 )],
    bounded by [fuel = targetPrecision]. *)
Fixpoint div_reduce (fuel : nat) (quotientMantissa : Int128.t)
  (targetPrecision : Z) : Result (Int128.t * Z) :=
  match fuel with
  | O => Ok (quotientMantissa, targetPrecision)
  | S fuel' =>
      if (Int128.toHigh quotientMantissa >? 0xFFFFFFFF) && (targetPrecision >? 0)
      then
        q <- Int128.div quotientMantissa constants.DECIMAL_BASE ;;
        div_reduce fuel' q (targetPrecision - 1)
      else Ok (quotientMantissa, targetPrecision)
  end.

(** [operator/]. *)
Definition div (d other : t) : Result t :=
  if eqb other zero then Error overflow_error
  else if eqb d zero then Ok zero
  else
    let dividend := mantissaAsInt128 d in
    let divisor := mantissaAsInt128 other in
    let dividendScale := scale d in
    let divisorScale := scale other in
    let targetPrecision :=
      Z.max dividendScale divisorScale + DECIMAL_DIVISION_EXTRA_PRECISION in
    let targetPrecision :=
      if targetPrecision >? constants.DECIMAL_MAXIMUM_PLACES
      then constants.DECIMAL_MAXIMUM_PLACES else targetPrecision in
    let scaleUpBy := divisorScale + targetPrecision - dividendScale in
    let '(dividend, targetPrecision) :=
      if scaleUpBy >? 0 then
        div_scale_up (Z.to_nat scaleUpBy) 0 dividendScale divisorScale
                     dividend targetPrecision
      else if scaleUpBy <? 0 then
        let tp := dividendScale - divisorScale in
        (dividend, if tp <? 0 then 0 else tp)
      else (dividend, targetPrecision) in
    quotientMantissa <- Int128.div dividend divisor ;;
    '(quotientMantissa, targetPrecision) <-
      div_reduce (Z.to_nat targetPrecision) quotientMantissa targetPrecision ;;
    let result := setMantissa zero quotientMantissa in
    let result :=
      with_flags result
        (u32 (Z.shiftl (u32 targetPrecision) constants.DECIMAL_SCALE_SHIFT)) in
    let result :=
      if negb (Bool.eqb (ltb d zero) (ltb other zero))
      then set_sign result else result in
    normalize result.

End division.

(** *** Rounding *)

(** [internal::shouldRoundUpToNearest]. *)
Definition shouldRoundUpToNearest (roundingDigit mantissa divisor : Int128.t)
  (digitsToRemove : Z) (result : t) : Result bool :=
  if Int128.toLow roundingDigit >? constants.DECIMAL_ROUNDING_THRESHOLD then
    Ok true
  else if Int128.toLow roundingDigit =? constants.DECIMAL_ROUNDING_THRESHOLD then
    hasRemainingFraction <-
      (if digitsToRemove >? 1 then
         let remainderDivisor := divisor in
         remainder <- Int128.rem mantissa remainderDivisor ;;
         tenth <- Int128.div divisor constants.DECIMAL_BASE ;;
         let roundingDigitContribution := Int128.mul roundingDigit tenth in
         Ok (negb (Int128.eqb remainder roundingDigitContribution))
       else Ok false) ;;
    if hasRemainingFraction : bool then Ok true
    else
      let resultMantissa := mantissaAsInt128 result in
      parity <- Int128.rem resultMantissa 2 ;;
      let isEven := Int128.eqb parity 0 in
      Ok (negb isEven)
  else Ok false.

(** [internal::shouldRoundUpToNearestTiesAway]. *)
Definition shouldRoundUpToNearestTiesAway (roundingDigit : Int128.t) : bool :=
  Int128.toLow roundingDigit >=? constants.DECIMAL_ROUNDING_THRESHOLD.

(** [internal::shouldRoundUpToPositiveInfinity]. *)
Definition shouldRoundUpToPositiveInfinity (mantissa : Int128.t)
  (digitsToRemove : Z) (isNegative : bool) : Result bool :=
  if isNegative then Ok false
  else if digitsToRemove >? 0 then
    let fractionalDivisor := powerOf10 digitsToRemove in
    fractionalPart <- Int128.rem mantissa fractionalDivisor ;;
    Ok (negb (Int128.eqb fractionalPart 0))
  else Ok false.

(** [internal::shouldRoundUpToNegativeInfinity]. *)
Definition shouldRoundUpToNegativeInfinity (mantissa : Int128.t)
  (digitsToRemove : Z) (isNegative : bool) : Result bool :=
  if negb isNegative then Ok false
  else if digitsToRemove >? 0 then
    let fractionalDivisor := powerOf10 digitsToRemove in
    fractionalPart <- Int128.rem mantissa fractionalDivisor ;;
    Ok (negb (Int128.eqb fractionalPart 0))
  else Ok false.

(** [for ( i = 0; i < digitsToRemove; ++i ) divideByPowerOf10( result, 1U )]. *)
Fixpoint round_truncate (count : nat) (result : t) : Result t :=
  match count with
  | O => Ok result
  | S count' =>
      result1 <- divideByPowerOf10 result 1 ;;
      round_truncate count' result1
  end.

(** [Decimal::round]; [decimalsPlacesCount] is an [int32_t]. *)
Definition round (d : t) (decimalsPlacesCount : Z) (mode : RoundingMode)
  : Result t :=
  let decimalsPlacesCount :=
    if decimalsPlacesCount <? 0 then 0 else decimalsPlacesCount in
  let thisZero := mantissa_is_zero d in
  if (decimalsPlacesCount >=? scale d) || thisZero then Ok d
  else
    let result := d in
    let currentScale := scale d in
    let targetScale := u8 decimalsPlacesCount in
    let digitsToRemove := u8 (currentScale - targetScale) in
    let mantissa := mantissaAsInt128 d in
    let divisor :=
      if digitsToRemove >? 1 then
        let divisorPowers := u8 (digitsToRemove - 1) in
        Nat.iter (Z.to_nat divisorPowers)
                 (fun divisor => Int128.mul divisor constants.DECIMAL_BASE) 1
      else 1 in
    q <- Int128.div mantissa divisor ;;
    roundingDigit <- Int128.rem q constants.DECIMAL_BASE ;;
    result <- round_truncate (Z.to_nat digitsToRemove) result ;;
    let result :=
      with_flags result (replace_scale (flags result) targetScale) in
    shouldRoundUp <-
      match mode with
      | ToNearest =>
          shouldRoundUpToNearest roundingDigit mantissa divisor
                                 digitsToRemove result
      | ToNearestTiesAway => Ok (shouldRoundUpToNearestTiesAway roundingDigit)
      | ToZero => Ok false
      | ToPositiveInfinity =>
          let thisNeg := sign_bit d in
          shouldRoundUpToPositiveInfinity mantissa digitsToRemove thisNeg
      | ToNegativeInfinity =>
          let thisNeg := sign_bit d in
          shouldRoundUpToNegativeInfinity mantissa digitsToRemove thisNeg
      end ;;
    if shouldRoundUp : bool then
      let resultMantissa := mantissaAsInt128 result in
      let thisNeg := sign_bit d in
      let resultMantissa :=
        if thisNeg then Int128.add resultMantissa 1
        else Int128.add resultMantissa 1 in
      Ok (setMantissa result resultMantissa)
    else Ok result.

(** *** [Decimal::fromString] *)

(** The first loop: position and number of the decimal points from index
    [i] on; [None] is [return false] (a second decimal point). *)
Fixpoint find_decimal_point (cs : list ascii) (i : nat)
  (decimalPos : option nat) (decimalCount : nat) : option (option nat) :=
  match cs with
  | [] => Some decimalPos
  | c :: cs' =>
      if Int128.code c =? 46 then
        let decimalCount := S decimalCount in
        if (1 <? decimalCount)%nat then None
        else find_decimal_point cs' (S i) (Some i) decimalCount
      else find_decimal_point cs' (S i) decimalPos decimalCount
  end.

(** The local variables of the digit loop. *)
Record digits_state : Type := mk_state
  { mantissaValue : Int128.t;
    hasDigits : bool;
    significantDigits : Z;
    decimalDigitsProcessed : Z;
    currentScale : Z }.

(** The digit loop, from index [i] on; [None] is [return false] (an invalid
    character), and the [break] at the 29th significant digit ends the
    recursion. *)
Fixpoint accumulate_digits (decimalPos : option nat) (cs : list ascii)
  (i : nat) (st : digits_state) : option digits_state :=
  match cs with
  | [] => Some st
  | c :: cs' =>
      if Int128.code c =? 46 then accumulate_digits decimalPos cs' (S i) st
      else if Int128.not_digit c then None
      else
        let digit := Int128.code c - 48 in
        let afterPoint :=
          match decimalPos with
          | Some p => (p <? i)%nat
          | None => false
          end in
        if significantDigits st >=? constants.DECIMAL_MAXIMUM_PLACES then
          Some (mk_state (mantissaValue st) true (significantDigits st)
                         (decimalDigitsProcessed st)
                         (match decimalPos with
                          | Some _ => decimalDigitsProcessed st
                          | None => currentScale st
                          end))
        else
          let significantDigits' :=
            if negb (digit =? 0) || negb (Int128.eqb (mantissaValue st) 0)
               || afterPoint
            then u8 (significantDigits st + 1) else significantDigits st in
          let decimalDigitsProcessed' :=
            if afterPoint then u8 (decimalDigitsProcessed st + 1)
            else decimalDigitsProcessed st in
          let mantissaValue' :=
            Int128.add (Int128.mul (mantissaValue st) constants.DECIMAL_BASE)
                       digit in
          accumulate_digits decimalPos cs' (S i)
            (mk_state mantissaValue' true significantDigits'
                      decimalDigitsProcessed' (currentScale st))
  end.

(** [while ( mantissaValue.toHigh() > UINT32_MAX_VALUE && currentScale > 0 )],
    bounded by [fuel = currentScale]. *)
Fixpoint fit_by_scale (fuel : nat) (mantissaValue : Int128.t)
  (currentScale : Z) : Result (Int128.t * Z) :=
  match fuel with
  | O => Ok (mantissaValue, currentScale)
  | S fuel' =>
      if (Int128.toHigh mantissaValue >? constants.UINT32_MAX_VALUE)
         && (currentScale >? 0)
      then
        m <- Int128.div mantissaValue constants.DECIMAL_BASE ;;
        fit_by_scale fuel' m (u8 (currentScale - 1))
      else Ok (mantissaValue, currentScale)
  end.

(** [while ( mantissaValue.toHigh() > UINT32_MAX_VALUE )]: each iteration
    removes a decimal digit, so 39 iterations exhaust any 128-bit value. *)
Fixpoint fit_by_truncation (fuel : nat) (mantissaValue : Int128.t)
  : Result Int128.t :=
  match fuel with
  | O => Ok mantissaValue
  | S fuel' =>
      if Int128.toHigh mantissaValue >? constants.UINT32_MAX_VALUE then
        m <- Int128.div mantissaValue constants.DECIMAL_BASE ;;
        fit_by_truncation fuel' m
      else Ok mantissaValue
  end.

(** The body of the [try] block of [Decimal::fromString], after the sign. *)
Definition fromString_body (str : list ascii) (negative : bool) (pos : nat)
  : Result (option t) :=
  match find_decimal_point (skipn pos str) pos None 0 with
  | None => Ok None
  | Some decimalPos =>
      let currentScale :=
        match decimalPos with
        | Some p =>
            let cs := u8 (Z.of_nat (List.length str) - Z.of_nat p - 1) in
            if cs >? constants.DECIMAL_MAXIMUM_PLACES
            then constants.DECIMAL_MAXIMUM_PLACES else cs
        | None => 0
        end in
      match accumulate_digits decimalPos (skipn pos str) pos
                              (mk_state 0 false 0 0 currentScale) with
      | None => Ok None
      | Some st =>
          if negb (hasDigits st) then Ok None
          else
            '(mantissaValue, currentScale) <-
              (if Int128.toHigh (mantissaValue st) >? constants.UINT32_MAX_VALUE
               then
                 '(m, sc) <- fit_by_scale (Z.to_nat (Decimal.currentScale st))
                                          (mantissaValue st)
                                          (Decimal.currentScale st) ;;
                 m <- fit_by_truncation 39 m ;;
                 Ok (m, sc)
               else Ok (mantissaValue st, Decimal.currentScale st)) ;;
            let fl :=
              if negative then Z.lor (flags zero) constants.DECIMAL_SIGN_MASK
              else flags zero in
            let fl :=
              Z.lor fl (u32 (Z.shiftl (u32 currentScale)
                                      constants.DECIMAL_SCALE_SHIFT)) in
            let low := Int128.toLow mantissaValue in
            let high := Int128.toHigh mantissaValue in
            let result :=
              mk fl (u32 low)
                 (u32 (Z.shiftr low constants.BITS_PER_UINT32))
                 (u32 high) in
            result <- normalize result ;;
            Ok (Some result)
      end
  end.

(** [bool Decimal::fromString( std::string_view str, Decimal& result )]:
    [None] is the return value [false] (also taken by [catch ( ... )]),
    [Some r] is [true] with [result = r]. *)
Definition fromString (str : list ascii) : option t :=
  match str with
  | [] => None
  | c0 :: _ =>
      let negative := (Int128.code c0 =? 45) in
      let pos :=
        if Int128.code c0 =? 45 then 1%nat
        else if Int128.code c0 =? 43 then 1%nat else 0%nat in
      if (List.length str <=? pos)%nat then None
      else
        match fromString_body str negative pos with
        | Ok r => r
        | Error _ => None
        end
  end.

(** *** [Decimal::toString] (branch [NFX_DATATYPES_HAS_NATIVE_INT128]) *)

(** The fast path [while ( value > 0 && digitCount < digits.size() )] on a
    64-bit [value]; [room] is [digits.size() - digitCount], and the result
    lists [digits[digitCount..]] in index order (least significant first). *)
Fixpoint extract_digits64 (room : nat) (value : Z) : list ascii :=
  match room with
  | O => []
  | S room' =>
      if value >? 0 then
        Int128.char_of (48 + value mod constants.DECIMAL_BASE)
          :: extract_digits64 room' (value / constants.DECIMAL_BASE)
      else []
  end.

(** The full path [while ( mantissa != 0 && digitCount < digits.size() )]. *)
Fixpoint extract_digits128 (room : nat) (mantissa : Int128.t) : list ascii :=
  match room with
  | O => []
  | S room' =>
      if negb (Int128.eqb mantissa 0) then
        Int128.char_of (48 + Z.rem mantissa constants.DECIMAL_BASE)
          :: extract_digits128 room' (Z.quot mantissa constants.DECIMAL_BASE)
      else []
  end.

Section toString.

(** [constants::DECIMAL_MAX_STRING_LENGTH], the size of the [digits] array;
    its value is in [Constants.h], which is not among the sources. *)
Variable DECIMAL_MAX_STRING_LENGTH : nat.

Definition toString (d : t) : list ascii :=
  if mantissa_is_zero d then list_ascii_of_string "0"
  else
    let mantissa := Int128.abs (mantissaAsInt128 d) in
    let currentScale := Z.to_nat (scale d) in
    let digits :=
      if mantissa <=? 2 ^ 64 - 1
      then extract_digits64 DECIMAL_MAX_STRING_LENGTH (u64 mantissa)
      else extract_digits128 DECIMAL_MAX_STRING_LENGTH mantissa in
    let digits := match digits with [] => ["0"%char] | _ => digits end in
    let digitCount := List.length digits in
    let sign := if sign_bit d then ["-"%char] else [] in
    sign ++
    (if (0 <? currentScale)%nat then
       if (digitCount <=? currentScale)%nat then
         ["0"%char; "."%char]
           ++ repeat "0"%char (currentScale - digitCount)
           ++ rev digits
       else
         rev (skipn currentScale digits)
           ++ ["."%char]
           ++ rev (firstn currentScale digits)
     else rev digits).

End toString.

(** *** Mathematical operations ([Decimal.inl]) *)

(** [Decimal::abs]. *)
Definition abs (d : t) : t :=
  if ltb d zero then neg d else d.

(** [Decimal::ceil], [Decimal::floor] and [Decimal::trunc]. *)
Definition ceil (d : t) : Result t := round d 0 ToPositiveInfinity.
Definition floor (d : t) : Result t := round d 0 ToNegativeInfinity.
Definition trunc (d : t) : Result t := round d 0 ToZero.

(** *** [Decimal::decimalPlacesCount] *)

(** The loop [while ( trailingZeros < currentScale )]: [trailingZeros]
    grows by one each time, so [fuel = currentScale] iterations are all it
    can make. *)
Fixpoint decimalPlacesCount_loop (fuel : nat) (mantissa128 : Int128.t)
  (trailingZeros currentScale : Z) : Result Z :=
  let ten := constants.DECIMAL_BASE in
  match fuel with
  | O => Ok trailingZeros
  | S fuel' =>
      if trailingZeros <? currentScale then
        r <- Int128.rem mantissa128 ten ;;
        if negb (Int128.eqb r 0) then Ok trailingZeros
        else
          q <- Int128.div mantissa128 ten ;;
          decimalPlacesCount_loop fuel' q (u8 (trailingZeros + 1)) currentScale
      else Ok trailingZeros
  end.

Definition decimalPlacesCount (d : t) : Result Z :=
  if mantissa_is_zero d then Ok 0
  else
    let currentScale := scale d in
    if currentScale =? 0 then Ok 0
    else
      let mantissa128 :=
        Z.lor (Z.lor (Z.shiftl (mantissa_2 d) constants.BITS_PER_UINT64)
                     (Z.shiftl (mantissa_1 d) constants.BITS_PER_UINT32))
              (mantissa_0 d) in
      trailingZeros <-
        decimalPlacesCount_loop (Z.to_nat currentScale) mantissa128 0
                                currentScale ;;
      Ok (u8 (currentScale - trailingZeros)).

(** *** [internal::multiplyMantissaBy10AndAdd] *)

(** The first loop, [temp = mantissa[i] * 10 + carry], on the limbs from
    index [i] on, least significant first. *)
Fixpoint multiplyMantissaBy10 (mantissa : list Z) (carry : Z) : list Z :=
  match mantissa with
  | [] => []
  | limb :: rest =>
      let temp := u64 (limb * constants.DECIMAL_BASE + carry) in
      u32 temp
        :: multiplyMantissaBy10 rest (Z.shiftr temp constants.BITS_PER_UINT32)
  end.

(** The second loop, [for ( ...; i < size && carry > 0; ++i )]. *)
Fixpoint addToMantissa (mantissa : list Z) (carry : Z) : list Z :=
  match mantissa with
  | [] => []
  | limb :: rest =>
      if carry >? 0 then
        let temp := u64 (limb + carry) in
        u32 temp :: addToMantissa rest (Z.shiftr temp constants.BITS_PER_UINT32)
      else limb :: rest
  end.

(** [mantissa] points to the [DECIMAL_MANTISSA_ARRAY_SIZE] limbs of a
    decimal, here the list of them. *)
Definition multiplyMantissaBy10AndAdd (mantissa : list Z) (digit : Z) : list Z :=
  addToMantissa (multiplyMantissaBy10 mantissa 0) digit.

(** *** Comparison with built-in integers and with Int128 *)

(** [a > b], rewritten by the compiler from [operator<=>]. *)
Definition gtb (d other : t) : bool :=
  match compare d other with
  | Gt => true
  | _ => false
  end.

(** [Decimal( std::uint32_t )] / [Decimal( std::uint64_t )]. *)
Definition of_uint64 (value : Z) : t :=
  mk 0 (u32 value) (u32 (Z.shiftr value constants.BITS_PER_UINT32)) 0.

(** [operator==( std::int64_t )], [operator<( std::int64_t )] and
    [operator>( std::int64_t )]. *)
Definition eqb_int64 (d : t) (val : Z) : bool :=
  if scale d >? 0 then false
  else
    let temp := of_int64 val in
    eqb d temp.

Definition ltb_int64 (d : t) (val : Z) : bool :=
  let temp := of_int64 val in
  ltb d temp.

Definition gtb_int64 (d : t) (val : Z) : bool :=
  let temp := of_int64 val in
  gtb d temp.

(** [operator==( std::uint64_t )], [operator<( std::uint64_t )] and
    [operator>( std::uint64_t )]. *)
Definition eqb_uint64 (d : t) (val : Z) : bool :=
  if scale d >? 0 then false
  else if ltb d zero then false
  else
    let temp := of_uint64 val in
    eqb d temp.

Definition ltb_uint64 (d : t) (val : Z) : bool :=
  if ltb d zero then true
  else
    let temp := of_uint64 val in
    ltb d temp.

Definition gtb_uint64 (d : t) (val : Z) : bool :=
  if ltb d zero then false
  else
    let temp := of_uint64 val in
    gtb d temp.

(** [Decimal::operator==( const Int128& )]. *)
Definition eqb_Int128 (d : t) (val : Int128.t) : bool :=
  if scale d >? 0 then false
  else
    let mantissa := mantissaAsInt128 d in
    if ltb d zero then
      if negb (Int128.ltb val 0) then false
      else Int128.eqb mantissa (Int128.neg val)
    else
      if Int128.ltb val 0 then false
      else Int128.eqb mantissa val.

(** [Decimal::operator<( const Int128& )]. *)
Definition ltb_Int128 (d : t) (val : Int128.t) : bool :=
  if ltb d zero && negb (Int128.ltb val 0) then true
  else if negb (ltb d zero) && Int128.ltb val 0 then false
  else
    let mantissa := mantissaAsInt128 d in
    if scale d >? 0 then
      let scaledVal := Int128.mul val (powerOf10 (scale d)) in
      if ltb d zero then Int128.gtb mantissa (Int128.abs scaledVal)
      else Int128.ltb mantissa scaledVal
    else
      if ltb d zero then Int128.gtb mantissa (Int128.abs val)
      else Int128.ltb mantissa val.

(** [operator!=], [operator<=], [operator>] and [operator>=] with an Int128
    ([Decimal.inl]). *)
Definition neqb_Int128 (d : t) (val : Int128.t) : bool :=
  negb (eqb_Int128 d val).
Definition leb_Int128 (d : t) (val : Int128.t) : bool :=
  ltb_Int128 d val || eqb_Int128 d val.
Definition gtb_Int128 (d : t) (val : Int128.t) : bool :=
  negb (leb_Int128 d val).
Definition geb_Int128 (d : t) (val : Int128.t) : bool :=
  negb (ltb_Int128 d val).

End Decimal.

(** ** Int128 and Decimal together ([Int128.cpp])

    The constructor [Int128( const Decimal& )] and the comparisons
    [Int128::operator==( const Decimal& )], [Int128::operator<( const Decimal& )]. *)
Module Int128_Decimal.

(** [Int128{ low, high }] from the three limbs of a decimal. *)
Definition limbs_to_Int128 (val : Decimal.t) : Int128.t :=
  let low :=
    Z.lor (u64 (Z.shiftl (Decimal.mantissa_1 val) constants.BITS_PER_UINT32))
          (Decimal.mantissa_0 val) in
  let high := Decimal.mantissa_2 val in
  Int128.of_words low high.

(** [for ( std::uint8_t i = 0; i < scale; ++i ) v = v * Int128{ INT128_BASE }]. *)
Definition times_ten (count : Z) (v : Int128.t) : Int128.t :=
  Nat.iter (Z.to_nat count) (fun v => Int128.mul v constants.INT128_BASE) v.

(** [Int128::Int128( const Decimal& )]. *)
Definition of_Decimal (decimal : Decimal.t) : Result Int128.t :=
  if Decimal.eqb decimal Decimal.zero then Ok 0
  else
    let integerPart := limbs_to_Int128 decimal in
    integerPart <-
      (if Decimal.scale decimal >? 0 then
         let divisor := times_ten (Decimal.scale decimal) 1 in
         Int128.div integerPart divisor
       else Ok integerPart) ;;
    let isNegative := Decimal.ltb decimal Decimal.zero in
    Ok (if isNegative then Int128.neg integerPart else integerPart).

(** [Int128::operator==( const Decimal& )]. *)
Definition eqb (x : Int128.t) (val : Decimal.t) : bool :=
  if Decimal.scale val >? 0 then false
  else if negb (Bool.eqb (Int128.ltb x 0) (Decimal.ltb val Decimal.zero)) then
    Int128.eqb x 0 && Decimal.eqb val Decimal.zero
  else
    let decimalMantissa := limbs_to_Int128 val in
    let thisAbs := Int128.abs x in
    Int128.eqb thisAbs decimalMantissa.

(** [Int128::operator<( const Decimal& )]. *)
Definition ltb (x : Int128.t) (val : Decimal.t) : bool :=
  if Int128.ltb x 0 && negb (Decimal.ltb val Decimal.zero) then true
  else if negb (Int128.ltb x 0) && Decimal.ltb val Decimal.zero then false
  else
    let decimalMantissa := limbs_to_Int128 val in
    if Decimal.scale val >? 0 then
      let scaledThis := times_ten (Decimal.scale val) x in
      if Int128.ltb x 0
      then Int128.gtb (Int128.abs scaledThis) decimalMantissa
      else Int128.ltb scaledThis decimalMantissa
    else
      if Int128.ltb x 0
      then Int128.gtb (Int128.abs x) decimalMantissa
      else Int128.ltb (Int128.abs x) decimalMantissa.

(** [operator!=], [operator<=], [operator>] and [operator>=] with a Decimal
    ([Int128.inl]). *)
Definition neqb (x : Int128.t) (val : Decimal.t) : bool := negb (eqb x val).
Definition leb (x : Int128.t) (val : Decimal.t) : bool := ltb x val || eqb x val.
Definition gtb (x : Int128.t) (val : Decimal.t) : bool := negb (leb x val).
Definition geb (x : Int128.t) (val : Decimal.t) : bool := negb (ltb x val).

End Int128_Decimal.

(** ** Int128, portable representation: [operator/] of [Int128.cpp]

    The branch [!NFX_DATATYPES_HAS_NATIVE_INT128]: a pair of 64-bit words,
    with the operators of [Int128.inl] that the division uses. *)
Module Int128Portable.

(** [m_layout]. *)
Record t : Type := mk
  { lower64bits : Z;
    upper64bits : Z }.

Definition valid (x : t) : Prop :=
  0 <= lower64bits x < 2 ^ 64 /\ 0 <= upper64bits x < 2 ^ 64.

(** [static_cast<std::int64_t>] of a 64-bit word. *)
Definition int64 (w : Z) : Z := if w <? 2 ^ 63 then w else w - 2 ^ 64.

(** [Int128{}] and [Int128( int val )]. *)
Definition zero : t := mk 0 0.
Definition of_int (val : Z) : t :=
  mk (u64 val) (if val <? 0 then u64 (-1) else 0).

(** The two-word value read as a two's-complement integer. *)
Definition to_Z (x : t) : Z := int64 (upper64bits x) * 2 ^ 64 + lower64bits x.

Definition eqb (x other : t) : bool :=
  (lower64bits x =? lower64bits other) && (upper64bits x =? upper64bits other).

(** [operator<=>]. *)
Definition compare (x other : t) : comparison :=
  let thisNeg := int64 (upper64bits x) <? 0 in
  let otherNeg := int64 (upper64bits other) <? 0 in
  if thisNeg && negb otherNeg then Lt
  else if negb thisNeg && otherNeg then Gt
  else if upper64bits x <? upper64bits other then Lt
  else if upper64bits x >? upper64bits other then Gt
  else if lower64bits x <? lower64bits other then Lt
  else if lower64bits x >? lower64bits other then Gt
  else Eq.

Definition ltb (x other : t) : bool :=
  match compare x other with
  | Lt => true
  | _ => false
  end.

(** [operator+]. *)
Definition add (x other : t) : t :=
  let resultLow := u64 (lower64bits x + lower64bits other) in
  let carry :=
    if resultLow <? lower64bits x
    then constants.BIT_MASK_ONE else constants.BIT_MASK_ZERO in
  let resultHigh := u64 (upper64bits x + upper64bits other + carry) in
  mk resultLow resultHigh.

(** [operator-]. *)
Definition sub (x other : t) : t :=
  let resultLow := u64 (lower64bits x - lower64bits other) in
  let borrow :=
    if lower64bits x <? lower64bits other
    then constants.BIT_MASK_ONE else constants.BIT_MASK_ZERO in
  let resultHigh := u64 (upper64bits x - upper64bits other - borrow) in
  mk resultLow resultHigh.

(** [operator-()]. *)
Definition neg (x : t) : t :=
  let result := mk (u64 (Z.lnot (lower64bits x))) (u64 (Z.lnot (upper64bits x))) in
  add result (of_int 1).

(** The 128-by-64 path, [for ( int shift = 32; shift >= 0; shift -= 32 )]:
    [None] is [canUseOptimizedPath = false]. *)
Fixpoint div_chunks (shifts : list Z) (low divisor : Z)
  (quotientAccumulator remainder : Z) : option Z :=
  match shifts with
  | [] => Some quotientAccumulator
  | shift :: shifts' =>
      let chunk := Z.land (Z.shiftr low shift) constants.UINT32_MAX_VALUE in
      if remainder >=? Z.shiftl 1 32 then None
      else
        let dividendPart := Z.lor (u64 (Z.shiftl remainder 32)) chunk in
        let q := dividendPart / divisor in
        let remainder := dividendPart mod divisor in
        let quotientAccumulator :=
          Z.lor (u64 (Z.shiftl quotientAccumulator 32)) q in
        div_chunks shifts' low divisor quotientAccumulator remainder
  end.

(** Binary long division, [for ( int i = INT128_MAX_BIT_INDEX; i >= 0; --i )];
    [n] is [i + 1]. *)
Fixpoint div_bits (n : nat) (absDividend absDivisor quotient remainder : t) : t :=
  match n with
  | O => quotient
  | S i' =>
      let i := Z.of_nat i' in
      let remainder := add remainder remainder in
      let bit :=
        ((i >=? constants.BITS_PER_UINT64)
         && negb (Z.land (Z.shiftr (upper64bits absDividend)
                                   (i - constants.BITS_PER_UINT64)) 1 =? 0))
        || ((i <? constants.BITS_PER_UINT64)
            && negb (Z.land (Z.shiftr (lower64bits absDividend) i) 1 =? 0)) in
      let remainder := if bit then add remainder (mk 1 0) else remainder in
      if negb (ltb remainder absDivisor) then
        let remainder := sub remainder absDivisor in
        let quotient :=
          if i >=? constants.BITS_PER_UINT64 then
            mk (lower64bits quotient)
               (Z.lor (upper64bits quotient)
                      (u64 (Z.shiftl constants.BIT_MASK_ONE
                                     (i - constants.BITS_PER_UINT64))))
          else
            mk (Z.lor (lower64bits quotient)
                      (u64 (Z.shiftl constants.BIT_MASK_ONE i)))
               (upper64bits quotient) in
        div_bits i' absDividend absDivisor quotient remainder
      else div_bits i' absDividend absDivisor quotient remainder
  end.

(** The general case of [operator/], after the fast paths. *)
Definition div_general (x other : t) : t :=
  let resultNegative := false in
  let absDividend := x in
  let absDivisor := other in
  let '(resultNegative, absDividend) :=
    if ltb absDividend zero then (negb resultNegative, neg absDividend)
    else (resultNegative, absDividend) in
  let '(resultNegative, absDivisor) :=
    if ltb absDivisor zero then (negb resultNegative, neg absDivisor)
    else (resultNegative, absDivisor) in
  if ltb absDividend absDivisor then mk 0 0
  else if eqb absDividend absDivisor then
    if resultNegative : bool then sub (mk 0 0) (mk 1 0) else mk 1 0
  else
    let quotient :=
      div_bits (Z.to_nat constants.INT128_MAX_BIT_INDEX + 1)
               absDividend absDivisor (mk 0 0) (mk 0 0) in
    if resultNegative then sub (mk 0 0) quotient else quotient.

(** [Int128::operator/] of [Int128.cpp]. *)
Definition div (x other : t) : Result t :=
  if eqb other zero then Error overflow_error
  else if (upper64bits x =? 0) && (upper64bits other =? 0) then
    Ok (mk (lower64bits x / lower64bits other) 0)
  else if upper64bits other =? 0 then
    let divisor := lower64bits other in
    let highQuotient := upper64bits x / divisor in
    let highRemainder := upper64bits x mod divisor in
    if highRemainder =? 0 then
      let lowQuotient := lower64bits x / divisor in
      Ok (mk lowQuotient highQuotient)
    else if highRemainder <? Z.shiftl 1 32 then
      match div_chunks [32; 0] (lower64bits x) divisor 0 highRemainder with
      | Some quotientAccumulator => Ok (mk quotientAccumulator highQuotient)
      | None => Ok (div_general x other)
      end
    else Ok (div_general x other)
  else Ok (div_general x other).

(** [Int128::operator*] of [Int128.cpp]: four 32-by-32 products. *)
Definition mul (x other : t) : t :=
  let aLow := Z.land (lower64bits x) constants.UINT32_MAX_VALUE in
  let aHigh := Z.shiftr (lower64bits x) constants.BITS_PER_UINT32 in
  let bLow := Z.land (lower64bits other) constants.UINT32_MAX_VALUE in
  let bHigh := Z.shiftr (lower64bits other) constants.BITS_PER_UINT32 in
  let p0 := u64 (aLow * bLow) in
  let p1 := u64 (aLow * bHigh) in
  let p2 := u64 (aHigh * bLow) in
  let p3 := u64 (aHigh * bHigh) in
  let carry :=
    Z.shiftr
      (u64 (Z.shiftr p0 constants.BITS_PER_UINT32
            + Z.land p1 constants.UINT32_MAX_VALUE
            + Z.land p2 constants.UINT32_MAX_VALUE))
      constants.BITS_PER_UINT32 in
  let resultLow :=
    u64 (p0
         + u64 (Z.shiftl p1 constants.BITS_PER_UINT32)
         + u64 (Z.shiftl p2 constants.BITS_PER_UINT32)) in
  let resultHigh :=
    u64 (p3
         + Z.shiftr p1 constants.BITS_PER_UINT32
         + Z.shiftr p2 constants.BITS_PER_UINT32
         + carry
         + u64 (upper64bits x * lower64bits other)
         + u64 (lower64bits x * upper64bits other)) in
  mk resultLow resultHigh.

(** [Int128::operator%] of [Int128.inl]. *)
Definition rem (x other : t) : Result t :=
  if eqb other zero then Error overflow_error
  else if (upper64bits x =? 0) && (upper64bits other =? 0) then
    Ok (mk (lower64bits x mod lower64bits other) 0)
  else
    quotient <- div x other ;;
    Ok (sub x (mul quotient other)).

(** [Int128::abs]. *)
Definition abs (x : t) : t :=
  if negb (ltb x zero) then x else neg x.

(** [operator==( std::int64_t )], [operator<( std::int64_t )] and
    [operator>( std::int64_t )]; [val] is the value of the [std::int64_t]. *)
Definition eqb_int64 (x : t) (val : Z) : bool :=
  let expected_upper := if val <? 0 then u64 (-1) else 0 in
  (upper64bits x =? expected_upper) && (lower64bits x =? u64 val).

Definition ltb_int64 (x : t) (val : Z) : bool :=
  let expected_upper := if val <? 0 then u64 (-1) else 0 in
  if negb (upper64bits x =? expected_upper) then
    int64 (upper64bits x) <? int64 expected_upper
  else lower64bits x <? u64 val.

Definition gtb_int64 (x : t) (val : Z) : bool :=
  let expected_upper := if val <? 0 then u64 (-1) else 0 in
  if negb (upper64bits x =? expected_upper) then
    int64 (upper64bits x) >? int64 expected_upper
  else lower64bits x >? u64 val.

(** [operator==( std::uint64_t )], [operator<( std::uint64_t )] and
    [operator>( std::uint64_t )]. *)
Definition eqb_uint64 (x : t) (val : Z) : bool :=
  (upper64bits x =? 0) && (lower64bits x =? val).

Definition ltb_uint64 (x : t) (val : Z) : bool :=
  if ltb x zero then true
  else if negb (upper64bits x =? 0) then false
  else lower64bits x <? val.

Definition gtb_uint64 (x : t) (val : Z) : bool :=
  if ltb x zero then false
  else if negb (upper64bits x =? 0) then true
  else lower64bits x >? val.

End Int128Portable.

(** ** Vocabulary of the specification

    The notions in which the properties below are stated: the mantissa as
    an integer, the canonical form, decimal numerals and the text that
    [toString] lays out, and the bounds of the Heron iteration. *)

Definition mantissa_value (d : Decimal.t) : Z :=
  Decimal.mantissa_2 d * 2 ^ 64 + Decimal.mantissa_1 d * 2 ^ 32
  + Decimal.mantissa_0 d.

Definition limbs_valid (d : Decimal.t) : Prop :=
  0 <= Decimal.mantissa_0 d < 2 ^ 32 /\
  0 <= Decimal.mantissa_1 d < 2 ^ 32 /\
  0 <= Decimal.mantissa_2 d < 2 ^ 32.

(** The canonical form of the specification, without the sign of zero:
    the scale is 0 or the mantissa is not divisible by 10. *)
Definition normalized (d : Decimal.t) : Prop :=
  Decimal.scale d = 0 \/ mantissa_value d mod 10 <> 0.

(** The characters after the optional sign. *)
Definition sign_length (str : list ascii) : nat :=
  match str with
  | [] => 0%nat
  | c0 :: _ =>
      if Int128.code c0 =? 45 then 1%nat
      else if Int128.code c0 =? 43 then 1%nat else 0%nat
  end.

Definition digit_run (str : list ascii) : list ascii :=
  skipn (sign_length str) str.

Definition is_digit (c : ascii) : Prop := Int128.not_digit c = false.

(** [Decimal( "..." )], for a literal that parses. *)
Definition literal (s : string) : Decimal.t :=
  match Decimal.fromString (list_ascii_of_string s) with
  | Some d => d
  | None => Decimal.zero
  end.

(** [std::numeric_limits<Decimal>::max()]: the mantissa [2^96 - 1]. *)
Definition Decimal_max : Decimal.t :=
  Decimal.mk 0 0xFFFFFFFF 0xFFFFFFFF 0xFFFFFFFF.

(** The canonical form as the specification states it: normalized, and a
    zero has scale 0 and a clear sign bit. *)
Definition canonical (d : Decimal.t) : Prop :=
  normalized d /\
  (mantissa_value d = 0 -> Decimal.scale d = 0 /\ Decimal.sign_bit d = false).

(** One Heron step on integers: [(d + x / d) / 2]. *)
Definition heron (x d : Z) : Z := (d + x / d) / 2.

(** A bound on the distance to the root after one more step, from a bound
    [b] before it, for estimates at or above a root that is at least [D]:
    the distance decreases, and it is squared and divided by [2 * D]. *)
Definition err_next (D b : Z) : Z :=
  if b <=? 0 then 0 else Z.min (b - 1) (b * b / (2 * D) + 1).

Fixpoint err_iter (K : nat) (D b : Z) : Z :=
  match K with
  | O => b
  | S K' => err_iter K' D (err_next D b)
  end.

Definition digit_of (c : ascii) : Z := Int128.code c - 48.

(** The number that a string of digits denotes, most significant first. *)
Definition digits_value (ds : list ascii) : Z :=
  fold_left (fun a c => a * 10 + digit_of c) ds 0.

(** [ds] is the decimal numeral of [n], without leading zeros (the empty
    string for 0). *)
Definition numeral (ds : list ascii) (n : Z) : Prop :=
  Forall is_digit ds /\ digits_value ds = n /\
  (ds = [] \/ 10 ^ (Z.of_nat (List.length ds) - 1) <= n).

(** The text that [toString] lays out from the digits [ds] of the mantissa
    and the scale [sc]. *)
Definition layout (ds : list ascii) (sc : nat) : list ascii :=
  if (0 <? sc)%nat then
    if (List.length ds <=? sc)%nat then
      ["0"%char; "."%char] ++ repeat "0"%char (sc - List.length ds) ++ ds
    else
      firstn (List.length ds - sc) ds ++ ["."%char]
        ++ skipn (List.length ds - sc) ds
  else ds.

(** [i > decimalPos]. *)
Definition after_point (decimalPos : option nat) (i : nat) : bool :=
  match decimalPos with
  | Some p => (p <? i)%nat
  | None => false
  end.

(** The outcome of the two loops of [fromString] on a laid-out numeral. *)
Definition scanned (str : list ascii) (pos : nat) (m sc : Z) : Prop :=
  exists dp sig dec,
    Decimal.find_decimal_point (skipn pos str) pos None 0 = Some dp /\
    match dp with
    | Some p =>
        let cs := u8 (Z.of_nat (List.length str) - Z.of_nat p - 1) in
        if cs >? constants.DECIMAL_MAXIMUM_PLACES
        then constants.DECIMAL_MAXIMUM_PLACES else cs
    | None => 0
    end = sc /\
    Decimal.accumulate_digits dp (skipn pos str) pos
      (Decimal.mk_state 0 false 0 0 sc)
    = Some (Decimal.mk_state m true sig dec sc).

(** The decimal that [fromString] assembles before it normalizes. *)
Definition parsed (negative : bool) (m sc : Z) : Decimal.t :=
  Decimal.mk
    (Z.lor (if negative
            then Z.lor (Decimal.flags Decimal.zero) constants.DECIMAL_SIGN_MASK
            else Decimal.flags Decimal.zero)
           (u32 (Z.shiftl (u32 sc) constants.DECIMAL_SCALE_SHIFT)))
    (u32 (Int128.toLow m))
    (u32 (Z.shiftr (Int128.toLow m) constants.BITS_PER_UINT32))
    (u32 (Int128.toHigh m)).

(** The mantissa with its sign. *)
Definition signed_mantissa (d : Decimal.t) : Z :=
  if Decimal.sign_bit d then - mantissa_value d else mantissa_value d.

(** The value of [d] counted in units of [10^-s], for [s] at least the scale
    of [d]: the integer [value d * 10^s]. *)
Definition units (s : Z) (d : Decimal.t) : Z :=
  signed_mantissa d * 10 ^ (s - Decimal.scale d).

(** The class invariant of a decimal: 32-bit limbs and a scale of at most
    28. *)
Definition well_formed (d : Decimal.t) : Prop :=
  limbs_valid d /\ Decimal.scale d <= 28.

(** Both mantissas, brought to the larger of the two scales, fit in an
    Int128: [alignScale] does not overflow. *)
Definition alignable (d other : Decimal.t) : Prop :=
  let s := Z.max (Decimal.scale d) (Decimal.scale other) in
  mantissa_value d * 10 ^ (s - Decimal.scale d) < 2 ^ 127 /\
  mantissa_value other * 10 ^ (s - Decimal.scale other) < 2 ^ 127.

(** The number that a list of 32-bit limbs denotes, least significant
    first. *)
Fixpoint limbs_value (limbs : list Z) : Z :=
  match limbs with
  | [] => 0
  | limb :: rest => limb + 2 ^ 32 * limbs_value rest
  end.

(** A literal that starts with a minus sign. *)
Definition minus_sign (str : list ascii) : bool :=
  match str with
  | [] => false
  | c0 :: _ => Int128.code c0 =? 45
  end.

(** The two words of a portable Int128 read as an unsigned number. *)
Definition unsigned_value (x : Int128Portable.t) : Z :=
  Int128Portable.upper64bits x * 2 ^ 64 + Int128Portable.lower64bits x.

(** * Properties *)

(** ** Machine arithmetic *)

Lemma wrap_small (z : Z) : Int128.valid z -> Int128.wrap z = z.
Proof.
  unfold Int128.valid, Int128.wrap. intros H.
  rewrite Z.mod_small by lia. lia.
Qed.

Lemma wrap_valid (z : Z) : Int128.valid (Int128.wrap z).
Proof.
  unfold Int128.valid, Int128.wrap.
  pose proof (Z.mod_pos_bound (z + 2 ^ 127) (2 ^ 128) ltac:(lia)). lia.
Qed.

Lemma wrap_eqm (z : Z) : Int128.wrap z mod 2 ^ 128 = z mod 2 ^ 128.
Proof.
  unfold Int128.wrap.
  rewrite Zminus_mod, Zmod_mod, <- Zminus_mod.
  f_equal. lia.
Qed.

(** Disjoint words: [hi << n | lo] is [hi * 2^n + lo]. *)
Lemma lor_shiftl_add (hi lo n : Z) :
  0 <= n -> 0 <= lo < 2 ^ n -> Z.lor (Z.shiftl hi n) lo = hi * 2 ^ n + lo.
Proof.
  intros Hn Hlo.
  rewrite <- Z.lxor_lor, <- Z.add_nocarry_lxor, Z.shiftl_mul_pow2; trivial.
  all: apply Z.bits_inj'; intros k Hk;
    rewrite Z.land_spec, Z.bits_0;
    destruct (Z.ltb_spec k n) as [Hlt | Hge].
  1, 3: rewrite Z.shiftl_spec_low by lia; reflexivity.
  all: destruct (Z.eq_dec lo 0) as [-> | Hnz];
    [ rewrite Z.bits_0; apply andb_false_r | ].
  all: rewrite (Z.bits_above_log2 lo k), andb_false_r; trivial; try lia.
  all: apply Z.log2_lt_pow2; try lia;
    apply Z.lt_le_trans with (2 ^ n); try lia;
    apply Z.pow_le_mono_r; lia.
Qed.

Lemma shiftr_div (z n : Z) : 0 <= n -> Z.shiftr z n = z / 2 ^ n.
Proof. intros. apply Z.shiftr_div_pow2; assumption. Qed.

(** ** The mantissa as an integer *)

(** Reduce the projections of a record that is written out, and nothing
    else (the 64- and 96-bit constants stay folded). *)
Ltac fields :=
  cbn [Decimal.flags Decimal.mantissa_0 Decimal.mantissa_1 Decimal.mantissa_2
       Decimal.with_flags Decimal.set_sign
       Int128Portable.lower64bits Int128Portable.upper64bits fst snd] in *.

Lemma valid_limbs (d : Decimal.t) : Decimal.valid d -> limbs_valid d.
Proof. unfold Decimal.valid, limbs_valid. tauto. Qed.

Lemma mantissaAsInt128_value (d : Decimal.t) :
  limbs_valid d -> Decimal.mantissaAsInt128 d = mantissa_value d.
Proof.
  intros (H0 & H1 & H2).
  unfold Decimal.mantissaAsInt128, mantissa_value,
    constants.BITS_PER_UINT64, constants.BITS_PER_UINT32.
  rewrite (lor_shiftl_add (Decimal.mantissa_2 d) _ 64);
    [ | lia | rewrite Z.shiftl_mul_pow2 by lia; lia ].
  replace (Decimal.mantissa_2 d * 2 ^ 64 + Z.shiftl (Decimal.mantissa_1 d) 32)
    with (Z.shiftl (Decimal.mantissa_2 d * 2 ^ 32 + Decimal.mantissa_1 d) 32)
    by (rewrite !Z.shiftl_mul_pow2 by lia; lia).
  rewrite lor_shiftl_add; lia.
Qed.

Lemma mantissa_value_range (d : Decimal.t) :
  limbs_valid d -> 0 <= mantissa_value d < 2 ^ 96.
Proof. unfold limbs_valid, mantissa_value. lia. Qed.

Lemma mantissa_value_zero (d : Decimal.t) :
  limbs_valid d ->
  Decimal.mantissa_is_zero d = (mantissa_value d =? 0).
Proof.
  intros (H0 & H1 & H2). unfold Decimal.mantissa_is_zero, mantissa_value.
  destruct (Z.eqb_spec (Decimal.mantissa_0 d) 0);
  destruct (Z.eqb_spec (Decimal.mantissa_1 d) 0);
  destruct (Z.eqb_spec (Decimal.mantissa_2 d) 0); simpl;
  symmetry; try (apply Z.eqb_eq; lia); apply Z.eqb_neq; lia.
Qed.

Lemma setMantissa_limbs (d : Decimal.t) (v : Z) :
  limbs_valid (Decimal.setMantissa d v).
Proof.
  unfold limbs_valid, Decimal.setMantissa, u32; fields.
  repeat split; apply Z.mod_pos_bound; lia.
Qed.

(** [setMantissa] keeps the low 96 bits of the value it is given. *)
Lemma setMantissa_value (d : Decimal.t) (v : Z) :
  mantissa_value (Decimal.setMantissa d v) = v mod 2 ^ 96.
Proof.
  unfold mantissa_value, Decimal.setMantissa, u32,
    constants.BITS_PER_UINT64, constants.BITS_PER_UINT32; fields.
  rewrite !shiftr_div by lia.
  pose proof (Z.div_mod v (2 ^ 32) ltac:(lia)) as E0.
  pose proof (Z.div_mod (v / 2 ^ 32) (2 ^ 32) ltac:(lia)) as E1.
  pose proof (Z.div_mod (v / 2 ^ 64) (2 ^ 32) ltac:(lia)) as E2.
  pose proof (Z.mod_pos_bound v (2 ^ 32) ltac:(lia)) as B0.
  pose proof (Z.mod_pos_bound (v / 2 ^ 32) (2 ^ 32) ltac:(lia)) as B1.
  pose proof (Z.mod_pos_bound (v / 2 ^ 64) (2 ^ 32) ltac:(lia)) as B2.
  assert (E3 : v / 2 ^ 32 / 2 ^ 32 = v / 2 ^ 64)
    by (rewrite Z.div_div by lia; reflexivity).
  rewrite E3 in E1.
  apply (Z.mod_unique_pos _ _ (v / 2 ^ 64 / 2 ^ 32)); lia.
Qed.

Lemma setMantissa_flags (d : Decimal.t) (v : Z) :
  Decimal.flags (Decimal.setMantissa d v) = Decimal.flags d.
Proof. reflexivity. Qed.

(** ** The flags word *)

Lemma scale_range (d : Decimal.t) : 0 <= Decimal.scale d < 256.
Proof. unfold Decimal.scale, u8. apply Z.mod_pos_bound. lia. Qed.

Lemma land_shiftl_16 (s m : Z) :
  Z.land (Z.shiftl s 16) (Z.shiftl m 16) = Z.shiftl (Z.land s m) 16.
Proof. symmetry. apply Z.shiftl_land. Qed.

Lemma shifted_scale_u32 (s : Z) :
  0 <= s < 256 -> u32 (Z.shiftl (u32 s) 16) = Z.shiftl s 16.
Proof.
  intros H. unfold u32. rewrite (Z.mod_small s) by lia.
  rewrite Z.shiftl_mul_pow2 by lia. apply Z.mod_small. lia.
Qed.

Lemma scale_of_lor (a s : Z) :
  0 <= s < 256 ->
  Z.land a constants.DECIMAL_SCALE_MASK = 0 ->
  u8 (Z.shiftr (Z.land (Z.lor a (Z.shiftl s 16)) constants.DECIMAL_SCALE_MASK)
               constants.DECIMAL_SCALE_SHIFT) = s.
Proof.
  intros Hs Ha.
  rewrite Z.land_lor_distr_l, Ha, Z.lor_0_l.
  change constants.DECIMAL_SCALE_MASK with (Z.shiftl 255 16).
  rewrite land_shiftl_16.
  change 255 with (Z.ones 8). rewrite Z.land_ones by lia.
  rewrite (Z.mod_small s) by lia.
  unfold constants.DECIMAL_SCALE_SHIFT.
  rewrite Z.shiftr_shiftl_l by lia. rewrite Z.sub_diag, Z.shiftl_0_r.
  unfold u8. apply Z.mod_small. lia.
Qed.

Lemma sign_of_lor_scale (a s : Z) :
  0 <= s < 256 ->
  Z.land (Z.lor a (Z.shiftl s 16)) constants.DECIMAL_SIGN_MASK
  = Z.land a constants.DECIMAL_SIGN_MASK.
Proof.
  intros Hs.
  rewrite Z.land_lor_distr_l.
  change constants.DECIMAL_SIGN_MASK with (Z.shiftl 32768 16) at 2.
  rewrite land_shiftl_16.
  replace (Z.land s 32768) with 0; [ rewrite Z.shiftl_0_l; apply Z.lor_0_r | ].
  symmetry. apply Z.bits_inj'. intros k Hk.
  rewrite Z.land_spec, Z.bits_0.
  destruct (Z.eq_dec k 15) as [-> | Hne].
  - rewrite (Z.bits_above_log2 s 15); trivial; try lia.
    destruct (Z.eq_dec s 0) as [-> | Hnz]; [ simpl; lia | ].
    apply Z.log2_lt_pow2; lia.
  - change 32768 with (2 ^ 15). rewrite Z.pow2_bits_false by lia.
    apply andb_false_r.
Qed.

Lemma scale_replace (d : Decimal.t) (f s : Z) :
  0 <= s < 256 ->
  Decimal.scale (Decimal.with_flags d (Decimal.replace_scale f s)) = s.
Proof.
  intros Hs. unfold Decimal.scale, Decimal.replace_scale; fields.
  unfold constants.DECIMAL_SCALE_SHIFT at 1.
  rewrite shifted_scale_u32 by assumption.
  apply scale_of_lor; trivial.
  rewrite <- Z.land_assoc.
  replace (Z.land (u32 (Z.lnot constants.DECIMAL_SCALE_MASK))
                  constants.DECIMAL_SCALE_MASK) with 0 by reflexivity.
  apply Z.land_0_r.
Qed.

Lemma sign_replace (d : Decimal.t) (f s : Z) :
  0 <= s < 256 ->
  Decimal.sign_bit (Decimal.with_flags d (Decimal.replace_scale f s))
  = negb (Z.land f constants.DECIMAL_SIGN_MASK =? 0).
Proof.
  intros Hs. unfold Decimal.sign_bit, Decimal.replace_scale; fields.
  unfold constants.DECIMAL_SCALE_SHIFT.
  rewrite shifted_scale_u32 by assumption.
  rewrite sign_of_lor_scale by assumption.
  rewrite <- Z.land_assoc.
  replace (Z.land (u32 (Z.lnot constants.DECIMAL_SCALE_MASK))
                  constants.DECIMAL_SIGN_MASK)
    with constants.DECIMAL_SIGN_MASK by reflexivity.
  reflexivity.
Qed.

(** ** Powers of ten *)

Lemma powerOf10_table (p : Z) : 0 <= p <= 28 -> Decimal.powerOf10 p = 10 ^ p.
Proof.
  intros H.
  assert (Hc : In (Z.to_nat p) (seq 0 29)) by (apply in_seq; lia).
  replace p with (Z.of_nat (Z.to_nat p)) by lia.
  revert Hc. generalize (Z.to_nat p). intros n Hn.
  assert (Hall : forallb (fun n => Decimal.powerOf10 (Z.of_nat n)
                                   =? 10 ^ Z.of_nat n) (seq 0 29) = true)
    by (vm_compute; reflexivity).
  rewrite forallb_forall in Hall. apply Z.eqb_eq. apply Hall. exact Hn.
Qed.

Lemma powerOf10_nonzero (p : Z) : 0 <= p < 128 -> Decimal.powerOf10 p <> 0.
Proof.
  intros H.
  assert (Hc : In (Z.to_nat p) (seq 0 128)) by (apply in_seq; lia).
  replace p with (Z.of_nat (Z.to_nat p)) by lia.
  revert Hc. generalize (Z.to_nat p). intros n Hn.
  assert (Hall : forallb (fun n => negb (Decimal.powerOf10 (Z.of_nat n) =? 0))
                         (seq 0 128) = true)
    by (vm_compute; reflexivity).
  rewrite forallb_forall in Hall. specialize (Hall n Hn).
  apply negb_true_iff in Hall. apply Z.eqb_neq. exact Hall.
Qed.

(** ** Division by ten on a non-negative mantissa *)

Lemma rem10 (m : Z) :
  0 <= m -> Int128.rem m constants.DECIMAL_BASE = Ok (m mod 10).
Proof.
  intros H. unfold Int128.rem, constants.DECIMAL_BASE.
  change (10 =? 0) with false. cbv iota.
  rewrite Z.rem_mod_nonneg by lia.
  rewrite wrap_small; trivial.
  pose proof (Z.mod_pos_bound m 10 ltac:(lia)). unfold Int128.valid. lia.
Qed.

Lemma div10 (m : Z) :
  0 <= m < 2 ^ 127 -> Int128.div m constants.DECIMAL_BASE = Ok (m / 10).
Proof.
  intros H. unfold Int128.div, constants.DECIMAL_BASE.
  change (10 =? 0) with false. cbv iota.
  rewrite Z.quot_div_nonneg by lia.
  rewrite wrap_small; trivial.
  pose proof (Z.div_pos m 10 ltac:(lia) ltac:(lia)).
  pose proof (Z.div_le_upper_bound m 10 m ltac:(lia) ltac:(lia)).
  unfold Int128.valid. lia.
Qed.

(** ** Normalization *)

(** The loop leaves [d] as it is: all parts of the invariant but
    [normalized d], which is left to the caller. *)
Ltac stays d :=
  pose proof (scale_range d);
  split; [ reflexivity | ];
  split; [ assumption | ];
  split; [ | split; [ reflexivity | split; [ lia | rewrite Z.sub_diag; lia ] ] ].

Lemma normalize_loop_spec (fuel : nat) :
  forall d : Decimal.t,
    limbs_valid d ->
    Decimal.scale d <= Z.of_nat fuel ->
    exists r,
      Decimal.normalize_loop fuel d = Ok r /\
      limbs_valid r /\
      normalized r /\
      Decimal.sign_bit r = Decimal.sign_bit d /\
      0 <= Decimal.scale r <= Decimal.scale d /\
      mantissa_value d = mantissa_value r * 10 ^ (Decimal.scale d - Decimal.scale r).
Proof.
  induction fuel as [ | fuel IH]; intros d Hl Hs.
  - pose proof (scale_range d). exists d. cbn [Decimal.normalize_loop].
    stays d; left; lia.
  - pose proof (scale_range d) as Hr.
    pose proof (mantissa_value_range d Hl) as Hm.
    cbn [Decimal.normalize_loop].
    destruct (Z.gtb_spec (Decimal.scale d) 0) as [Hpos | Hz].
    2:{ exists d. stays d; left; lia. }
    rewrite mantissaAsInt128_value by assumption.
    rewrite rem10 by lia. cbn [bind]. unfold Int128.eqb.
    destruct (Z.eqb_spec (mantissa_value d mod 10) 0) as [Hdiv | Hnd].
    2:{ exists d. stays d; right; assumption. }
    unfold Decimal.divideByPowerOf10.
    rewrite mantissaAsInt128_value by assumption.
    rewrite (powerOf10_table 1) by lia.
    change (10 ^ 1) with constants.DECIMAL_BASE.
    rewrite div10 by lia. cbn [bind].
    set (d1 := Decimal.setMantissa d (mantissa_value d / 10)).
    assert (Hs1 : Decimal.scale d1 = Decimal.scale d) by reflexivity.
    set (d2 := Decimal.with_flags d1 _).
    assert (Hs2 : Decimal.scale d2 = Decimal.scale d - 1).
    { unfold d2. rewrite scale_replace; lia. }
    assert (Hl2 : limbs_valid d2) by (apply setMantissa_limbs).
    assert (Hv2 : mantissa_value d2 = mantissa_value d / 10).
    { change (mantissa_value d2) with (mantissa_value d1).
      unfold d1. rewrite setMantissa_value. apply Z.mod_small.
      pose proof (Z.div_pos (mantissa_value d) 10 ltac:(lia) ltac:(lia)).
      pose proof (Z.div_le_upper_bound (mantissa_value d) 10 (mantissa_value d)
                    ltac:(lia) ltac:(lia)). lia. }
    destruct (IH d2 Hl2 ltac:(lia)) as (r & Hr1 & Hr2 & Hr3 & Hr4 & Hr5 & Hr6).
    exists r.
    split; [ exact Hr1 | split; [ exact Hr2 | split; [ exact Hr3 | ] ] ].
    split; [ | split; [ lia | ] ].
    + rewrite Hr4. unfold d2. rewrite sign_replace by lia. reflexivity.
    + rewrite Hs2 in Hr6.
      replace (Decimal.scale d - Decimal.scale r)
        with (Decimal.scale d - 1 - Decimal.scale r + 1) by lia.
      rewrite Z.pow_add_r by lia.
      pose proof (Z.div_mod (mantissa_value d) 10 ltac:(lia)) as E.
      rewrite Hdiv in E. rewrite Hv2 in Hr6. lia.
Qed.

Lemma normalize_spec (d : Decimal.t) :
  limbs_valid d ->
  exists r,
    Decimal.normalize d = Ok r /\
    limbs_valid r /\
    normalized r /\
    Decimal.sign_bit r = Decimal.sign_bit d /\
    0 <= Decimal.scale r <= Decimal.scale d /\
    mantissa_value d = mantissa_value r * 10 ^ (Decimal.scale d - Decimal.scale r).
Proof.
  intros Hl. apply normalize_loop_spec; trivial.
  pose proof (scale_range d). lia.
Qed.

(** ** Equality with zero *)

Lemma limbs_with_flags (d : Decimal.t) (f : Z) :
  limbs_valid d -> limbs_valid (Decimal.with_flags d f).
Proof. intros H. exact H. Qed.

Lemma limbs_set_sign (d : Decimal.t) :
  limbs_valid d -> limbs_valid (Decimal.set_sign d).
Proof. intros H. exact H. Qed.

Lemma mul_0_l (x : Z) : Int128.mul 0 x = 0.
Proof. reflexivity. Qed.

(** [other == Decimal{}] holds exactly for a zero mantissa. *)
Lemma eqb_zero_r (o : Decimal.t) :
  limbs_valid o -> Decimal.eqb o Decimal.zero = Decimal.mantissa_is_zero o.
Proof.
  intros Hl. unfold Decimal.eqb.
  change (Decimal.mantissa_is_zero Decimal.zero) with true.
  rewrite andb_true_r.
  destruct (Decimal.mantissa_is_zero o) eqn:Hz; trivial.
  change (Decimal.sign_bit Decimal.zero) with false.
  destruct (Decimal.sign_bit o); cbn [Bool.eqb negb]; trivial.
  rewrite (mantissa_value_zero o Hl) in Hz.
  pose proof (scale_range o) as Hr.
  unfold Decimal.alignScale.
  change (Decimal.scale Decimal.zero) with 0.
  change (Decimal.mantissaAsInt128 Decimal.zero) with 0.
  rewrite mantissaAsInt128_value by assumption.
  destruct (Z.ltb_spec (Decimal.scale o) 0); [ lia | ].
  destruct (Z.ltb_spec 0 (Decimal.scale o)); rewrite ?mul_0_l;
    unfold Int128.eqb; exact Hz.
Qed.

Lemma eqb_both_zero (d other : Decimal.t) :
  Decimal.mantissa_is_zero d = true ->
  Decimal.mantissa_is_zero other = true ->
  Decimal.eqb d other = true.
Proof.
  intros Hd Ho. unfold Decimal.eqb. rewrite Hd, Ho. reflexivity.
Qed.

(** ** C8: all zeros are equal *)

(** C8. [Decimal::operator==] returns [true] whenever the three mantissa
    words of both operands are zero, whatever their sign and scale bits; in
    particular the negation of [Decimal{}], whose sign bit is set, is equal
    to [Decimal{}]. *)
Theorem eqb_zero_mantissas :
  (forall d other : Decimal.t,
      Decimal.mantissa_is_zero d = true ->
      Decimal.mantissa_is_zero other = true ->
      Decimal.eqb d other = true)
  /\ Decimal.sign_bit (Decimal.neg Decimal.zero) = true
  /\ Decimal.eqb (Decimal.neg Decimal.zero) Decimal.zero = true.
Proof.
  split; [ exact eqb_both_zero | split; reflexivity ].
Qed.

Lemma eqb_zero_mantissas_witness :
  Decimal.eqb (Decimal.mk constants.DECIMAL_SIGN_MASK 0 0 0)
              (Decimal.mk 0x00030000 0 0 0) = true.
Proof.
  apply (proj1 eqb_zero_mantissas); reflexivity.
Defined.

(** ** C9: negative place counts *)

(** C9. For every decimal, rounding mode and negative place count [n],
    [round(n, m)] is [round(0, m)]: the count is clamped to zero. *)
Theorem round_negative_places (d : Decimal.t) (m : Decimal.RoundingMode) (n : Z) :
  n < 0 -> Decimal.round d n m = Decimal.round d 0 m.
Proof.
  intros Hn. unfold Decimal.round.
  destruct (Z.ltb_spec n 0) as [_ | Hge]; [ reflexivity | lia ].
Qed.

Lemma round_negative_places_witness :
  Decimal.round (Decimal.mk 0x00030000 123456 0 0) (-1) Decimal.ToNearest
  = Decimal.round (Decimal.mk 0x00030000 123456 0 0) 0 Decimal.ToNearest.
Proof.
  apply round_negative_places. lia.
Defined.

(** ** C3: division by zero *)

Lemma div_reduce_ok (fuel : nat) :
  forall q tp, exists r, Decimal.div_reduce fuel q tp = Ok r.
Proof.
  induction fuel as [ | fuel IH]; intros q tp; cbn [Decimal.div_reduce].
  - eexists; reflexivity.
  - destruct (_ && _); [ | eexists; reflexivity ].
    unfold Int128.div, constants.DECIMAL_BASE.
    change (10 =? 0) with false. cbv iota. cbn [bind]. apply IH.
Qed.

Lemma normalize_ok (d : Decimal.t) :
  limbs_valid d -> returns_normally (Decimal.normalize d).
Proof.
  intros Hl. destruct (normalize_spec d Hl) as (r & Hr & _).
  exists r. exact Hr.
Qed.

Lemma Decimal_div_by_zero (E T : Z) (d o : Decimal.t) :
  Decimal.mantissa_is_zero o = true ->
  Decimal.div E T d o = Error overflow_error.
Proof.
  intros Hz. unfold Decimal.div, Decimal.eqb.
  rewrite Hz. reflexivity.
Qed.

Lemma Decimal_div_nonzero (E T : Z) (d o : Decimal.t) :
  limbs_valid o ->
  Decimal.mantissa_is_zero o = false ->
  exists r, Decimal.div E T d o = Ok r /\ limbs_valid r /\ normalized r.
Proof.
  intros Hl Hz. unfold Decimal.div.
  rewrite (eqb_zero_r o Hl), Hz.
  destruct (Decimal.eqb d Decimal.zero).
  { exists Decimal.zero. split; [ reflexivity | ].
    split; [ unfold limbs_valid; cbn; lia | left; reflexivity ]. }
  match goal with
  | |- context [ let '(_, _) := ?e in _ ] => destruct e as [dividend tp]
  end.
  rewrite (mantissaAsInt128_value o Hl).
  rewrite (mantissa_value_zero o Hl) in Hz. apply Z.eqb_neq in Hz.
  unfold Int128.div at 1.
  destruct (Z.eqb_spec (mantissa_value o) 0) as [ | _]; [ contradiction | ].
  cbn [bind].
  destruct (div_reduce_ok (Z.to_nat tp) (Int128.wrap (dividend ÷ mantissa_value o)) tp)
    as ([q tp'] & Hq).
  rewrite Hq. cbn [bind].
  match goal with
  | |- context [ Decimal.normalize ?x ] =>
      destruct (normalize_spec x) as (r & Hr & Hrl & Hrn & _)
  end.
  { destruct (negb _);
      [ apply limbs_set_sign | ]; apply limbs_with_flags, setMantissa_limbs. }
  exists r. auto.
Qed.

Lemma Int128Portable_div_nonzero (x other : Int128Portable.t) :
  Int128Portable.eqb other Int128Portable.zero = false ->
  returns_normally (Int128Portable.div x other).
Proof.
  intros Hz. unfold Int128Portable.div, returns_normally. rewrite Hz.
  repeat match goal with
         | |- context [ if ?b then _ else _ ] => destruct b
         | |- context [ match ?o with Some _ => _ | None => _ end ] => destruct o
         end; eexists; reflexivity.
Qed.

(** C3. Division by zero fails with an overflow error for both types, and
    division by a non-zero divisor returns normally: for [Decimal::operator/]
    (whatever the two constants of [Constants.h] it uses), for the native
    [Int128::operator/] and for the portable one of [Int128.cpp]; so
    [Decimal("5") / Decimal("0")] and [Int128(5) / Int128(0)] fail with
    [std::overflow_error]. *)
Theorem division_by_zero :
  (forall (E T : Z) (d o : Decimal.t),
      limbs_valid o ->
      (Decimal.mantissa_is_zero o = true ->
       Decimal.div E T d o = Error overflow_error)
      /\ (Decimal.mantissa_is_zero o = false ->
          returns_normally (Decimal.div E T d o)))
  /\ (forall x y : Int128.t,
         (y = 0 -> Int128.div x y = Error overflow_error)
         /\ (y <> 0 -> returns_normally (Int128.div x y)))
  /\ (forall x y : Int128Portable.t,
         (Int128Portable.eqb y Int128Portable.zero = true ->
          Int128Portable.div x y = Error overflow_error)
         /\ (Int128Portable.eqb y Int128Portable.zero = false ->
             returns_normally (Int128Portable.div x y)))
  /\ (forall E T : Z,
         match Decimal.fromString (list_ascii_of_string "5"),
               Decimal.fromString (list_ascii_of_string "0") with
         | Some five, Some nought =>
             Decimal.div E T five nought = Error overflow_error
         | _, _ => False
         end)
  /\ Int128.div 5 0 = Error overflow_error
  /\ Int128Portable.div (Int128Portable.of_int 5) (Int128Portable.of_int 0)
     = Error overflow_error.
Proof.
  split; [ | split; [ | split; [ | split; [ | split ] ] ] ].
  - intros E T d o Hl. split; intros Hz.
    + apply Decimal_div_by_zero; assumption.
    + destruct (Decimal_div_nonzero E T d o Hl Hz) as (r & Hr & _).
      exists r. exact Hr.
  - intros x y. split; intros Hy; unfold Int128.div.
    + subst y. reflexivity.
    + destruct (Z.eqb_spec y 0); [ contradiction | ]. eexists; reflexivity.
  - intros x y. split; intros Hy.
    + unfold Int128Portable.div. rewrite Hy. reflexivity.
    + apply Int128Portable_div_nonzero; assumption.
  - intros E T.
    replace (Decimal.fromString (list_ascii_of_string "5"))
      with (Some (Decimal.mk 0 5 0 0)) by (vm_compute; reflexivity).
    replace (Decimal.fromString (list_ascii_of_string "0"))
      with (Some (Decimal.mk 0 0 0 0)) by (vm_compute; reflexivity).
    apply Decimal_div_by_zero. reflexivity.
  - reflexivity.
  - reflexivity.
Qed.

Lemma division_by_zero_witness :
  returns_normally
    (Decimal.div 18 0x1999999999999999
                 (Decimal.mk 0 1 0 0) (Decimal.mk 0 3 0 0))
  /\ returns_normally (Int128.div 7 2)
  /\ returns_normally (Int128Portable.div (Int128Portable.mk 7 0)
                                          (Int128Portable.mk 2 0)).
Proof.
  split; [ | split ].
  - apply (proj1 division_by_zero 18 0x1999999999999999
             (Decimal.mk 0 1 0 0) (Decimal.mk 0 3 0 0)).
    + unfold limbs_valid; cbn; lia.
    + reflexivity.
  - apply (proj1 (proj2 division_by_zero) 7 2). lia.
  - apply (proj1 (proj2 (proj2 division_by_zero))). reflexivity.
Defined.

(** ** C5: construction from an Int128 *)

Lemma Int128_min_value : Int128.min = - 2 ^ 127.
Proof. reflexivity. Qed.

Lemma Int128_max_value : Int128.max = 2 ^ 127 - 1.
Proof. reflexivity. Qed.

Lemma abs_value (x : Int128.t) :
  Int128.valid x -> x <> - 2 ^ 127 -> Int128.abs x = Z.abs x.
Proof.
  unfold Int128.valid, Int128.abs. intros H Hm.
  destruct (Z.ltb_spec x 0); rewrite wrap_small; unfold Int128.valid; lia.
Qed.

Lemma toHigh_nonneg (x : Z) :
  0 <= x < 2 ^ 127 -> Int128.toHigh x = x / 2 ^ 64.
Proof.
  intros H. unfold Int128.toHigh, u64, constants.BITS_PER_UINT64.
  rewrite shiftr_div by lia. apply Z.mod_small.
  split; [ apply Z.div_pos; lia | apply Z.div_lt_upper_bound; lia ].
Qed.

Lemma toLow_nonneg (x : Z) : 0 <= x < 2 ^ 64 -> Int128.toLow x = x.
Proof. intros H. unfold Int128.toLow, u64. apply Z.mod_small. lia. Qed.

(** C5. [Decimal( const Int128& )] succeeds exactly when the magnitude of
    the argument is at most [2^96 - 1]; it then stores the absolute value as
    the mantissa, with scale 0 and the sign of the argument.  For every
    larger magnitude, the minimum [-2^127] included, it fails with
    [std::overflow_error]. *)
Theorem of_Int128_range (val : Int128.t) :
  Int128.valid val ->
  (Z.abs val <= 2 ^ 96 - 1 ->
   exists d,
     Decimal.of_Int128 val = Ok d /\
     limbs_valid d /\
     mantissa_value d = Z.abs val /\
     Decimal.scale d = 0 /\
     Decimal.sign_bit d = (val <? 0))
  /\ (2 ^ 96 - 1 < Z.abs val -> Decimal.of_Int128 val = Error overflow_error).
Proof.
  intros Hv. unfold Decimal.of_Int128, Int128.eqb, Int128.ltb.
  rewrite Int128_min_value.
  destruct (Z.eqb_spec val 0) as [-> | Hnz].
  { split; [ intros _ | simpl; lia ].
    exists Decimal.zero. repeat split; try reflexivity; cbn; lia. }
  destruct (Z.eqb_spec val (- 2 ^ 127)) as [-> | Hnm].
  { split; [ simpl; lia | reflexivity ]. }
  rewrite abs_value by assumption.
  assert (Ha : 0 <= Z.abs val < 2 ^ 127) by (unfold Int128.valid in Hv; lia).
  rewrite toHigh_nonneg by assumption.
  unfold constants.UINT32_MAX_VALUE.
  pose proof (Z.div_mod (Z.abs val) (2 ^ 64) ltac:(lia)) as E.
  pose proof (Z.mod_pos_bound (Z.abs val) (2 ^ 64) ltac:(lia)) as B.
  destruct (Z.gtb_spec (Z.abs val / 2 ^ 64) 0xFFFFFFFF) as [Hbig | Hfit].
  { split; [ | reflexivity ]. intros Hle. exfalso. lia. }
  split; [ intros _ | intros Hgt; exfalso; lia ].
  eexists. split; [ reflexivity | ].
  split; [ apply setMantissa_limbs | ].
  split; [ rewrite setMantissa_value; apply Z.mod_small; lia | ].
  destruct (Z.ltb_spec val 0); split; reflexivity.
Qed.

Lemma of_Int128_range_witness :
  (exists d,
      Decimal.of_Int128 79228162514264337593543950335 = Ok d /\
      limbs_valid d /\
      mantissa_value d = Z.abs 79228162514264337593543950335 /\
      Decimal.scale d = 0 /\
      Decimal.sign_bit d = (79228162514264337593543950335 <? 0))
  /\ Decimal.of_Int128 79228162514264337593543950336 = Error overflow_error
  /\ Decimal.of_Int128 Int128.min = Error overflow_error.
Proof.
  split; [ | split ].
  - apply (of_Int128_range 79228162514264337593543950335).
    + unfold Int128.valid. lia.
    + simpl. lia.
  - apply (of_Int128_range 79228162514264337593543950336).
    + unfold Int128.valid. lia.
    + simpl. lia.
  - apply (of_Int128_range Int128.min).
    + rewrite Int128_min_value. unfold Int128.valid. lia.
    + rewrite Int128_min_value. simpl. lia.
Defined.

(** ** C10: the 39-digit limit of [Int128::fromString] *)

Lemma code_inj (x y : ascii) : Int128.code x = Int128.code y -> x = y.
Proof.
  unfold Int128.code. intros H. apply N2Z.inj in H.
  rewrite <- (ascii_N_embedding x), <- (ascii_N_embedding y), H. reflexivity.
Qed.

Lemma compare_view_eq (a : list ascii) :
  forall b, Int128.compare_view a b = Eq -> a = b.
Proof.
  induction a as [ | x a IH]; intros [ | y b]; cbn [Int128.compare_view];
    try discriminate; trivial.
  destruct (Z.compare_spec (Int128.code x) (Int128.code y)) as [E | | ];
    try discriminate.
  intros H. f_equal; [ apply code_inj; exact E | apply IH; exact H ].
Qed.

Lemma fromString_digits_all (cs : list ascii) :
  forall r x, Int128.fromString_digits cs r = Some x -> Forall is_digit cs.
Proof.
  induction cs as [ | c cs IH]; intros r x H; [ constructor | ].
  cbn [Int128.fromString_digits] in H.
  destruct (Int128.not_digit c) eqn:Hc; [ discriminate | ].
  constructor; [ exact Hc | eapply IH; exact H ].
Qed.

Lemma fromString_run (str : list ascii) (x : Int128.t) :
  Int128.fromString str = Some x ->
  (0 < List.length (digit_run str) <= 39)%nat /\ Forall is_digit (digit_run str).
Proof.
  unfold Int128.fromString, digit_run, sign_length.
  destruct str as [ | c0 str']; [ discriminate | ].
  set (str := c0 :: str').
  set (pos := if Int128.code c0 =? 45 then 1%nat
              else if Int128.code c0 =? 43 then 1%nat else 0%nat).
  destruct (Nat.leb_spec (List.length str) pos) as [ | Hlen]; [ discriminate | ].
  destruct (Nat.ltb_spec constants.INT128_MAX_DIGIT_COUNT
                         (List.length str - pos)) as [ | Hmax];
    [ discriminate | ].
  unfold constants.INT128_MAX_DIGIT_COUNT in Hmax.
  rewrite length_skipn. intros H.
  split; [ lia | ].
  assert (Hparse : forall y,
             match Int128.fromString_digits (skipn pos str) 0 with
             | Some r => Some (if Int128.code c0 =? 45 then Int128.neg r else r)
             | None => None
             end = Some y -> Forall is_digit (skipn pos str)).
  { intros y Hy.
    destruct (Int128.fromString_digits (skipn pos str) 0) eqn:Hd;
      [ | discriminate ].
    eapply fromString_digits_all; exact Hd. }
  destruct (_ =? constants.INT128_MAX_DIGIT_COUNT)%nat;
    [ | eapply Hparse; exact H ].
  destruct (negb (Int128.code c0 =? 45)).
  - destruct (Int128.compare_view _ _); try discriminate;
      eapply Hparse; exact H.
  - destruct (Int128.compare_view _ _) eqn:Hcmp; try discriminate.
    + apply compare_view_eq in Hcmp. rewrite Hcmp.
      repeat constructor.
    + eapply Hparse; exact H.
Qed.

(** C10. [Int128::fromString] fails on every input whose digit run after
    the optional sign has more than 39 characters, also when leading zeros
    make the value representable (thirty-nine ['0'] and a ['5'] is
    rejected); every accepted input has between 1 and 39 characters after the
    sign, all of them digits. *)
Theorem fromString_digit_limit :
  (forall str : list ascii,
      (39 < List.length (digit_run str))%nat -> Int128.fromString str = None)
  /\ (forall (str : list ascii) (x : Int128.t),
         Int128.fromString str = Some x ->
         (0 < List.length (digit_run str) <= 39)%nat
         /\ Forall is_digit (digit_run str))
  /\ Int128.fromString
       (list_ascii_of_string "0000000000000000000000000000000000000005") = None.
Proof.
  split; [ | split; [ exact fromString_run | reflexivity ] ].
  intros str Hlong.
  destruct (Int128.fromString str) as [x | ] eqn:Hx; [ | reflexivity ].
  apply fromString_run in Hx. lia.
Qed.

Lemma fromString_digit_limit_witness :
  Int128.fromString
    (list_ascii_of_string "+1000000000000000000000000000000000000000") = None
  /\ (0 < List.length (digit_run (list_ascii_of_string "-42")) <= 39)%nat.
Proof.
  split.
  - apply (proj1 fromString_digit_limit). cbn. lia.
  - apply (proj1 (proj2 fromString_digit_limit) _ (-42)). reflexivity.
Defined.

(** ** C4: rounding to nearest *)

(** C4. The three examples of banker's rounding hold:
    [Decimal("2.5").round(0, ToNearest)] is 2,
    [Decimal("3.5").round(0, ToNearest)] is 4 and
    [Decimal("2.5").round(0, ToNearestTiesAway)] is 3.  The rule itself does
    not: at [Decimal("2.55").round(0, ToNearest)] the rounding digit is 5 and
    a non-zero digit follows it, and the code returns 2, not 3
    ([shouldRoundUpToNearest] compares [mantissa % divisor], the digits
    below the rounding digit, with [roundingDigit * (divisor / 10)] and not
    with zero). *)
Theorem round_ToNearest_at_tie :
  Decimal.round (literal "2.5") 0 Decimal.ToNearest = Ok (literal "2")
  /\ Decimal.round (literal "3.5") 0 Decimal.ToNearest = Ok (literal "4")
  /\ Decimal.round (literal "2.5") 0 Decimal.ToNearestTiesAway = Ok (literal "3")
  /\ Decimal.round (literal "2.51") 0 Decimal.ToNearest = Ok (literal "3")
  /\ literal "2.55" = Decimal.mk 0x00020000 255 0 0
  /\ Decimal.round (literal "2.55") 0 Decimal.ToNearest = Ok (literal "2").
Proof.
  repeat split; vm_compute; reflexivity.
Qed.

(** ** C2: the 96-bit bound of the mantissa *)

(** C2. Every mantissa that [setMantissa] stores is below [2^96], because
    it keeps the low 96 bits of the value it is given; and [operator+] hands
    it the unchecked 128-bit sum: [max() + Decimal(1)] is zero and
    [max() + max()] is [2^96 - 2], with no error. *)
Theorem add_wraps_at_96_bits :
  (forall (d : Decimal.t) (v : Int128.t),
      mantissa_value (Decimal.setMantissa d v) = v mod 2 ^ 96)
  /\ mantissa_value Decimal_max = 2 ^ 96 - 1
  /\ Decimal.add Decimal_max (Decimal.of_int64 1) = Ok Decimal.zero
  /\ Decimal.add Decimal_max Decimal_max
     = Ok (Decimal.mk 0 0xFFFFFFFE 0xFFFFFFFF 0xFFFFFFFF).
Proof.
  split; [ exact setMantissa_value | ].
  repeat split; vm_compute; reflexivity.
Qed.

(** ** C6: the canonical form *)

Lemma land_lxor_disjoint (f s m : Z) :
  Z.land s m = 0 -> Z.land (Z.lxor f s) m = Z.land f m.
Proof.
  intros H. apply Z.bits_inj'. intros k Hk.
  rewrite !Z.land_spec, Z.lxor_spec.
  assert (Hb : Z.testbit (Z.land s m) k = false) by (rewrite H; apply Z.bits_0).
  rewrite Z.land_spec in Hb.
  destruct (Z.testbit m k); [ | rewrite !andb_false_r; reflexivity ].
  rewrite andb_true_r in Hb. rewrite Hb, xorb_false_r. reflexivity.
Qed.

Lemma scale_flip_sign (d : Decimal.t) :
  Decimal.scale (Decimal.with_flags d
                   (Z.lxor (Decimal.flags d) constants.DECIMAL_SIGN_MASK))
  = Decimal.scale d.
Proof.
  unfold Decimal.scale; fields.
  rewrite land_lxor_disjoint by reflexivity. reflexivity.
Qed.

Lemma normalized_flip_sign (d : Decimal.t) :
  normalized d ->
  normalized (Decimal.with_flags d
                (Z.lxor (Decimal.flags d) constants.DECIMAL_SIGN_MASK)).
Proof.
  unfold normalized. rewrite scale_flip_sign. intros H. exact H.
Qed.

Lemma normalized_zero : normalized Decimal.zero.
Proof. left. reflexivity. Qed.

Lemma div_ok (x y : Z) :
  y <> 0 -> Int128.div x y = Ok (Int128.wrap (x ÷ y)).
Proof.
  intros Hy. unfold Int128.div.
  destruct (Z.eqb_spec y 0); [ contradiction | reflexivity ].
Qed.

(** Every decimal handed to [normalize] comes from [setMantissa]. *)
Ltac limbs :=
  repeat match goal with
         | |- context [ if ?b then _ else _ ] => destruct b
         end;
  repeat first [ apply limbs_set_sign | apply limbs_with_flags ];
  apply setMantissa_limbs.

Lemma normalize_result (d : Decimal.t) :
  limbs_valid d ->
  exists r, Decimal.normalize d = Ok r /\ limbs_valid r /\ normalized r.
Proof.
  intros Hl. destruct (normalize_spec d Hl) as (r & H1 & H2 & H3 & _).
  exists r. auto.
Qed.

Lemma add_normalized (d other : Decimal.t) :
  limbs_valid d -> limbs_valid other -> normalized d -> normalized other ->
  exists r, Decimal.add d other = Ok r /\ limbs_valid r /\ normalized r.
Proof.
  intros Hld Hlo Hd Ho. unfold Decimal.add.
  destruct (Decimal.eqb d Decimal.zero); [ exists other; auto | ].
  destruct (Decimal.eqb other Decimal.zero); [ exists d; auto | ].
  destruct (Decimal.alignScale d other) as [l r].
  apply normalize_result. limbs.
Qed.

Lemma mul_reduce_ok (fuel : nat) :
  forall p ns, exists r, Decimal.mul_reduce fuel p ns = Ok r.
Proof.
  induction fuel as [ | fuel IH]; intros p ns; cbn [Decimal.mul_reduce].
  - eexists; reflexivity.
  - destruct (_ && _); [ | eexists; reflexivity ].
    rewrite div_ok by (unfold constants.DECIMAL_BASE; lia).
    cbn [bind]. apply IH.
Qed.

Lemma mul_truncate_ok (fuel : nat) :
  forall p, exists r, Decimal.mul_truncate fuel p = Ok r.
Proof.
  induction fuel as [ | fuel IH]; intros p; cbn [Decimal.mul_truncate].
  - eexists; reflexivity.
  - destruct (Int128.gtb _ _); [ | eexists; reflexivity ].
    rewrite div_ok by (unfold constants.DECIMAL_BASE; lia).
    cbn [bind]. apply IH.
Qed.

Lemma mul_normalized (d other : Decimal.t) :
  exists r, Decimal.mul d other = Ok r /\ limbs_valid r /\ normalized r.
Proof.
  unfold Decimal.mul.
  destruct (_ || _).
  { exists Decimal.zero. split; [ reflexivity | ].
    split; [ unfold limbs_valid; cbn; lia | apply normalized_zero ]. }
  pose proof (scale_range d) as Hd. pose proof (scale_range other) as Ho.
  set (newScale := u8 (Decimal.scale d + Decimal.scale other)).
  assert (Hns : 0 <= newScale < 256) by (apply Z.mod_pos_bound; lia).
  match goal with
  | |- exists r, bind ?e _ = _ /\ _ =>
      assert (Hpre : exists l r ns, e = Ok (l, r, ns))
  end.
  { destruct (Z.gtb_spec newScale constants.DECIMAL_MAXIMUM_PLACES)
      as [Hgt | Hle]; [ | do 3 eexists; reflexivity ].
    unfold constants.DECIMAL_MAXIMUM_PLACES in *.
    set (excess := u8 (newScale - 28)).
    assert (He : excess = newScale - 28) by (apply Z.mod_small; lia).
    set (lr := u8 (excess ÷ 2)).
    assert (Hhalf : 0 <= excess / 2 /\ 2 * (excess / 2) <= excess
                    /\ excess < 2 * Z.succ (excess / 2)).
    { split; [ apply Z.div_pos; lia | ].
      split; [ apply Z.mul_div_le; lia | apply Z.mul_succ_div_gt; lia ]. }
    assert (Hlr : lr = excess / 2).
    { unfold lr, u8. rewrite Z.quot_div_nonneg by lia.
      apply Z.mod_small. lia. }
    set (rr := u8 (excess - lr)).
    assert (Hrr : rr = excess - lr) by (apply Z.mod_small; lia).
    destruct (lr >? 0); destruct (rr >? 0);
      rewrite ?(div_ok _ 2) by lia; cbn [bind];
      rewrite ?(div_ok _ (Decimal.powerOf10 lr))
        by (apply powerOf10_nonzero; lia);
      cbn [bind];
      rewrite ?(div_ok _ (Decimal.powerOf10 rr))
        by (apply powerOf10_nonzero; lia);
      cbn [bind]; do 3 eexists; reflexivity. }
  destruct Hpre as (l & r & ns & ->). cbn [bind].
  destruct (mul_reduce_ok (Z.to_nat ns) (Int128.mul l r) ns) as ([p ns'] & ->).
  cbn [bind].
  destruct (mul_truncate_ok 39 p) as (p' & ->). cbn [bind].
  apply normalize_result. limbs.
Qed.

Lemma fit_by_scale_ok (fuel : nat) :
  forall m sc, exists r, Decimal.fit_by_scale fuel m sc = Ok r.
Proof.
  induction fuel as [ | fuel IH]; intros m sc; cbn [Decimal.fit_by_scale].
  - eexists; reflexivity.
  - destruct (_ && _); [ | eexists; reflexivity ].
    rewrite div_ok by (unfold constants.DECIMAL_BASE; lia).
    cbn [bind]. apply IH.
Qed.

Lemma fit_by_truncation_ok (fuel : nat) :
  forall m, exists r, Decimal.fit_by_truncation fuel m = Ok r.
Proof.
  induction fuel as [ | fuel IH]; intros m; cbn [Decimal.fit_by_truncation].
  - eexists; reflexivity.
  - destruct (_ >? _); [ | eexists; reflexivity ].
    rewrite div_ok by (unfold constants.DECIMAL_BASE; lia).
    cbn [bind]. apply IH.
Qed.

Lemma limbs_mk_u32 (f a b c : Z) :
  limbs_valid (Decimal.mk f (u32 a) (u32 b) (u32 c)).
Proof.
  unfold limbs_valid, u32; fields.
  repeat split; apply Z.mod_pos_bound; lia.
Qed.

Lemma fromString_normalized (str : list ascii) (r : Decimal.t) :
  Decimal.fromString str = Some r -> limbs_valid r /\ normalized r.
Proof.
  unfold Decimal.fromString.
  destruct str as [ | c0 str']; [ discriminate | ].
  destruct (_ <=? _)%nat; [ discriminate | ].
  unfold Decimal.fromString_body.
  destruct (Decimal.find_decimal_point _ _ _ _) as [decimalPos | ];
    [ | discriminate ].
  destruct (Decimal.accumulate_digits _ _ _ _) as [st | ]; [ | discriminate ].
  destruct (negb (Decimal.hasDigits st)); [ discriminate | ].
  match goal with
  | |- match bind ?e _ with _ => _ end = _ -> _ =>
      assert (Hfit : exists m sc, e = Ok (m, sc))
  end.
  { destruct (_ >? _); [ | do 2 eexists; reflexivity ].
    destruct (fit_by_scale_ok (Z.to_nat (Decimal.currentScale st))
                (Decimal.mantissaValue st) (Decimal.currentScale st))
      as ([m sc] & ->).
    cbn [bind].
    destruct (fit_by_truncation_ok 39 m) as (m' & ->). cbn [bind].
    do 2 eexists; reflexivity. }
  destruct Hfit as (m & sc & ->). cbn [bind].
  match goal with
  | |- context [ Decimal.normalize ?x ] =>
      destruct (normalize_result x) as (r' & -> & Hl & Hn)
  end.
  { apply limbs_mk_u32. }
  cbn [bind]. intros H. injection H as <-. auto.
Qed.

(** The part of the canonical form that the code keeps.  The operations
    that end in [internal::normalize] - addition, subtraction,
    multiplication, division by a non-zero divisor, construction from a
    string - return a normalized decimal (scale 0, or a mantissa that 10
    does not divide) when their operands are normalized, and so do the
    constructors from integers; a zero that they return has mantissa 0 and
    scale 0.  The sign bit of a zero and the results of [round] are another
    matter: see [zero_sign_not_canonical]. *)
Theorem results_normalized :
  (forall d other : Decimal.t,
      limbs_valid d -> limbs_valid other -> normalized d -> normalized other ->
      (exists r, Decimal.add d other = Ok r /\ normalized r)
      /\ (exists r, Decimal.sub d other = Ok r /\ normalized r))
  /\ (forall d other : Decimal.t,
         exists r, Decimal.mul d other = Ok r /\ normalized r)
  /\ (forall (E T : Z) (d other : Decimal.t),
         limbs_valid other -> Decimal.mantissa_is_zero other = false ->
         exists r, Decimal.div E T d other = Ok r /\ normalized r)
  /\ (forall (str : list ascii) (r : Decimal.t),
         Decimal.fromString str = Some r -> normalized r)
  /\ (forall (val : Int128.t) (r : Decimal.t),
         Decimal.of_Int128 val = Ok r -> normalized r)
  /\ (forall value : Z, normalized (Decimal.of_int64 value))
  /\ (forall r : Decimal.t,
         normalized r -> mantissa_value r = 0 -> Decimal.scale r = 0).
Proof.
  split; [ | split; [ | split; [ | split; [ | split; [ | split ] ] ] ] ].
  - intros d other Hld Hlo Hd Ho. split.
    + destruct (add_normalized d other Hld Hlo Hd Ho) as (r & H1 & _ & H2).
      exists r. auto.
    + unfold Decimal.sub.
      destruct (add_normalized d _ Hld (limbs_with_flags other _ Hlo) Hd
                  (normalized_flip_sign other Ho)) as (r & H1 & _ & H2).
      exists r. auto.
  - intros d other. destruct (mul_normalized d other) as (r & H1 & _ & H2).
    exists r. auto.
  - intros E T d other Hl Hz.
    destruct (Decimal_div_nonzero E T d other Hl Hz) as (r & H1 & _ & H2).
    exists r. auto.
  - intros str r H. apply (fromString_normalized str r H).
  - intros val r. unfold Decimal.of_Int128.
    destruct (Int128.eqb val 0); [ intros H; injection H as <-; left; reflexivity | ].
    destruct (Int128.eqb val Int128.min); [ discriminate | ].
    destruct (_ >? _); [ discriminate | ].
    intros H. injection H as <-. left.
    destruct (Int128.ltb val 0); reflexivity.
  - intros value. left. unfold Decimal.of_int64.
    destruct (value <? 0); reflexivity.
  - intros r [Hs | Hm] Hz; [ exact Hs | ].
    rewrite Hz in Hm. exfalso. apply Hm. reflexivity.
Qed.

Lemma results_normalized_witness :
  (exists r, Decimal.add (literal "0.25") (literal "0.75") = Ok r /\ normalized r)
  /\ (exists r, Decimal.sub (literal "5") (literal "5") = Ok r /\ normalized r)
  /\ (exists r, Decimal.div 18 0x1999999999999999 (literal "1") (literal "8") = Ok r
                /\ normalized r)
  /\ normalized (literal "123.4500").
Proof.
  split; [ | split; [ | split ] ].
  - apply (proj1 results_normalized (literal "0.25") (literal "0.75"));
      first [ left; reflexivity
            | right; vm_compute; discriminate
            | vm_compute; intuition discriminate ].
  - apply (proj1 results_normalized (literal "5") (literal "5"));
      first [ left; reflexivity
            | vm_compute; intuition discriminate ].
  - apply (proj1 (proj2 (proj2 results_normalized))).
    + vm_compute; intuition discriminate.
    + reflexivity.
  - apply (proj1 (proj2 (proj2 (proj2 results_normalized)))
             (list_ascii_of_string "123.4500")).
    reflexivity.
Defined.

(** ** C7: the integer square root *)

Section Heron.

Variables x s D : Z.
Hypothesis Hs : 0 <= s.
Hypothesis Hx : s * s <= x < (s + 1) * (s + 1).
Hypothesis HD : 0 < D <= s.
Hypothesis Hx4 : x < 4 * D * D.
Hypothesis HD63 : D <= 2 ^ 63.

Lemma heron_parts (d : Z) :
  0 < d ->
  exists q n, x / d = q /\ heron x d = n /\
              d * q <= x < d * (q + 1) /\ 2 * n <= d + q < 2 * n + 2.
Proof.
  intros Hd. exists (x / d), (heron x d). unfold heron.
  split; [ reflexivity | split; [ reflexivity | ] ].
  pose proof (Z.mul_div_le x d Hd).
  pose proof (Z.mul_succ_div_gt x d Hd).
  pose proof (Z.mul_div_le (d + x / d) 2 ltac:(lia)).
  pose proof (Z.mul_succ_div_gt (d + x / d) 2 ltac:(lia)).
  lia.
Qed.

Lemma heron_lower (d : Z) : 0 < d -> s <= heron x d.
Proof.
  intros Hd. destruct (heron_parts d Hd) as (q & n & _ & -> & Hq & Hn).
  destruct (Z.le_gt_cases s n) as [ | Hlt]; trivial. exfalso.
  assert (q + 1 <= 2 * s - d) by lia.
  assert (d * (q + 1) <= d * (2 * s - d)) by (apply Z.mul_le_mono_nonneg_l; lia).
  pose proof (Z.square_nonneg (s - d)).
  nia.
Qed.

Lemma heron_decreases (d : Z) : s < d -> heron x d < d.
Proof.
  intros Hd. destruct (heron_parts d ltac:(lia)) as (q & n & _ & -> & Hq & Hn).
  assert (q < d) by nia. lia.
Qed.

Lemma heron_error (d : Z) :
  s <= d -> heron x d - s <= (d - s) * (d - s) / (2 * D) + 1.
Proof.
  intros Hd. destruct (heron_parts d ltac:(lia)) as (q & n & _ & -> & Hq & Hn).
  set (e := d - s). set (t := e * e / (2 * D)).
  pose proof (Z.mul_div_le (e * e) (2 * D) ltac:(lia)) as Ht1.
  pose proof (Z.mul_succ_div_gt (e * e) (2 * D) ltac:(lia)) as Ht2.
  fold t in Ht1, Ht2.
  assert (Ht0 : 0 <= t) by (apply Z.div_pos; [ apply Z.square_nonneg | lia ]).
  destruct (Z.le_gt_cases (n - s) (t + 1)) as [ | Hgt]; trivial. exfalso.
  assert (H1 : (2 * n) * d <= (d + q) * d)
    by (apply Z.mul_le_mono_nonneg_r; lia).
  assert (H2 : 2 * d * (n - s - 1) <= e * e) by (unfold e; lia).
  assert (H3 : 2 * D * (n - s - 1) <= 2 * d * (n - s - 1))
    by (apply Z.mul_le_mono_nonneg_r; lia).
  assert (H4 : 2 * D * (t + 1) <= 2 * D * (n - s - 1))
    by (apply Z.mul_le_mono_nonneg_l; lia).
  lia.
Qed.

Lemma heron_at_root : heron x s = s \/ heron x s = s + 1.
Proof.
  destruct (heron_parts s ltac:(lia)) as (q & n & _ & -> & Hq & Hn).
  assert (s <= q) by nia. assert (q <= s + 2) by nia. lia.
Qed.

Lemma heron_next_error (d b : Z) :
  s < d -> d - s <= b -> heron x d - s <= err_next D b.
Proof.
  intros Hd Hb. unfold err_next.
  destruct (Z.leb_spec b 0); [ lia | ].
  pose proof (heron_decreases d Hd).
  pose proof (heron_error d ltac:(lia)) as He.
  assert ((d - s) * (d - s) / (2 * D) <= b * b / (2 * D)).
  { apply Z.div_le_mono; [ lia | nia ]. }
  lia.
Qed.

Lemma root_below_2D : s < 2 * D.
Proof.
  destruct (Z.lt_ge_cases s (2 * D)) as [ | Hge]; trivial. exfalso.
  assert (2 * D * (2 * D) <= s * s) by (apply Z.mul_le_mono_nonneg; lia).
  lia.
Qed.

Lemma quotient_bound (d : Z) : D <= d -> 0 <= x / d < 4 * D.
Proof.
  intros Hd. split; [ apply Z.div_pos; nia | ].
  apply Z.div_lt_upper_bound; [ lia | ].
  assert (D * (4 * D) <= d * (4 * D)) by (apply Z.mul_le_mono_nonneg_r; lia).
  lia.
Qed.

Lemma heron_step (fuel : nat) (d d2 : Z) :
  D <= d <= 4 * D ->
  Int128.isqrt_loop (S fuel) x d d2
  = if Int128.eqb (heron x d) d || Int128.eqb (heron x d) d2
    then Ok (if Int128.ltb (heron x d) d then heron x d else d)
    else Int128.isqrt_loop fuel x (heron x d) d.
Proof.
  intros Hd. pose proof (quotient_bound d ltac:(lia)) as Hq.
  assert (Hx0 : 0 <= x) by nia.
  cbn [Int128.isqrt_loop].
  rewrite div_ok by lia. rewrite Z.quot_div_nonneg by lia.
  rewrite wrap_small by (unfold Int128.valid; lia). cbn [bind].
  unfold Int128.add. rewrite wrap_small by (unfold Int128.valid; lia).
  rewrite div_ok by lia. rewrite Z.quot_div_nonneg by lia.
  fold (heron x d).
  assert (0 <= heron x d <= 4 * D).
  { unfold heron. split; [ apply Z.div_pos; lia | ].
    apply Z.div_le_upper_bound; lia. }
  rewrite wrap_small by (unfold Int128.valid; lia). cbn [bind].
  reflexivity.
Qed.

Lemma loop_at_root (fuel : nat) (d2 : Z) :
  (2 <= fuel)%nat -> Int128.isqrt_loop fuel x s d2 = Ok s.
Proof.
  intros Hf. destruct fuel as [ | [ | fuel]]; try lia.
  pose proof root_below_2D as Hr.
  rewrite heron_step by lia. unfold Int128.eqb, Int128.ltb.
  destruct heron_at_root as [-> | ->].
  - rewrite Z.eqb_refl. cbn [orb]. rewrite Z.ltb_irrefl. reflexivity.
  - destruct (Z.eqb_spec (s + 1) s); [ lia | ]. cbn [orb].
    destruct (Z.eqb_spec (s + 1) d2).
    + destruct (Z.ltb_spec (s + 1) s); [ lia | reflexivity ].
    + rewrite heron_step by lia. unfold Int128.eqb, Int128.ltb.
      pose proof (heron_lower (s + 1) ltac:(lia)).
      pose proof (heron_decreases (s + 1) ltac:(lia)).
      assert (E : heron x (s + 1) = s) by lia. rewrite E.
      rewrite Z.eqb_refl, orb_true_r.
      destruct (Z.ltb_spec s (s + 1)); [ reflexivity | lia ].
Qed.

Lemma loop_from_above (K : nat) :
  forall (b d d2 : Z) (fuel : nat),
    s <= d <= 4 * D ->
    d2 <= s \/ d < d2 ->
    d - s <= b ->
    err_iter K D b = 0 ->
    (K + 2 <= fuel)%nat ->
    Int128.isqrt_loop fuel x d d2 = Ok s.
Proof.
  induction K as [ | K IH]; intros b d d2 fuel Hd Hd2 Hb HK Hf.
  - cbn [err_iter] in HK. replace d with s by lia. apply loop_at_root. lia.
  - destruct (Z.eq_dec d s) as [-> | Hne]; [ apply loop_at_root; lia | ].
    destruct fuel as [ | fuel]; [ lia | ].
    rewrite heron_step by lia. unfold Int128.eqb, Int128.ltb.
    pose proof (heron_lower d ltac:(lia)) as Hlo.
    pose proof (heron_decreases d ltac:(lia)) as Hdec.
    destruct (Z.eqb_spec (heron x d) d); [ lia | ]. cbn [orb].
    destruct (Z.eqb_spec (heron x d) d2) as [E | NE].
    + destruct (Z.ltb_spec (heron x d) d); [ | lia ]. f_equal. lia.
    + apply (IH (err_next D b)); try lia.
      * apply heron_next_error; lia.
      * exact HK.
Qed.

Lemma first_step_error : heron x D - s <= D / 2 + 1.
Proof.
  destruct (heron_parts D ltac:(lia)) as (q & n & _ & -> & Hq & Hn).
  pose proof root_below_2D as Hr.
  pose proof (Z.mul_succ_div_gt D 2 ltac:(lia)) as Hh.
  assert (H1 : (2 * n) * D <= (D + q) * D)
    by (apply Z.mul_le_mono_nonneg_r; lia).
  assert (H2 : (s - D) * (s - D) <= (D - 1) * (D - 1))
    by (apply Z.mul_le_mono_nonneg; lia).
  assert (H3 : D * (2 * (n - s)) < D * (D + 2)) by lia.
  apply Z.mul_lt_mono_pos_l in H3; lia.
Qed.

Lemma loop_from_guess (K fuel : nat) :
  err_iter K D (D / 2 + 1) = 0 ->
  (K + 3 <= fuel)%nat ->
  Int128.isqrt_loop fuel x D D = Ok s.
Proof.
  intros HK Hf. destruct fuel as [ | fuel]; [ lia | ].
  rewrite heron_step by lia. unfold Int128.eqb, Int128.ltb.
  pose proof (heron_lower D ltac:(lia)) as Hlo.
  rewrite orb_diag.
  destruct (Z.eqb_spec (heron x D) D) as [E | NE].
  - rewrite E, Z.ltb_irrefl. f_equal. lia.
  - pose proof (quotient_bound D ltac:(lia)) as Hq.
    apply (loop_from_above K (D / 2 + 1)); try lia.
    + split; [ lia | ]. unfold heron. apply Z.div_le_upper_bound; lia.
    + apply first_step_error.
Qed.

End Heron.

(** The bit length and the initial guess *)

Lemma land_shifted_mask (v m n : Z) :
  0 <= n -> Z.land v (Z.shiftl m n) = Z.shiftl (Z.land (Z.shiftr v n) m) n.
Proof.
  intros Hn. apply Z.bits_inj'. intros k Hk.
  rewrite Z.land_spec.
  destruct (Z.ltb_spec k n).
  - rewrite !Z.shiftl_spec_low by lia. apply andb_false_r.
  - rewrite !Z.shiftl_spec by lia. rewrite Z.land_spec, Z.shiftr_spec by lia.
    f_equal. f_equal. lia.
Qed.

Lemma upper_mask_test (v j : Z) :
  0 <= v < 2 ^ 64 -> 0 < j <= 64 ->
  (Z.land v (Z.shiftl (Z.ones j) (64 - j)) =? 0) = (v <? 2 ^ (64 - j)).
Proof.
  intros Hv Hj.
  rewrite land_shifted_mask by lia.
  rewrite Z.land_ones by lia. rewrite shiftr_div by lia.
  assert (Hp : 0 < 2 ^ (64 - j)) by (apply Z.pow_pos_nonneg; lia).
  assert (Hsplit : 2 ^ 64 = 2 ^ (64 - j) * 2 ^ j)
    by (rewrite <- Z.pow_add_r by lia; f_equal; lia).
  assert (Hq : 0 <= v / 2 ^ (64 - j) < 2 ^ j).
  { split; [ apply Z.div_pos; lia | apply Z.div_lt_upper_bound; lia ]. }
  rewrite Z.mod_small by lia. rewrite Z.shiftl_mul_pow2 by lia.
  destruct (Z.ltb_spec v (2 ^ (64 - j))) as [Hlt | Hge].
  - rewrite Z.div_small by lia. reflexivity.
  - apply Z.eqb_neq.
    assert (1 <= v / 2 ^ (64 - j)) by (apply Z.div_le_lower_bound; lia).
    nia.
Qed.

Lemma u64_shiftl_small (w n : Z) :
  0 <= n -> 0 <= w -> w * 2 ^ n < 2 ^ 64 -> u64 (Z.shiftl w n) = w * 2 ^ n.
Proof.
  intros Hn Hw Hb. unfold u64. rewrite Z.shiftl_mul_pow2 by lia.
  apply Z.mod_small. split; [ | lia ].
  apply Z.mul_nonneg_nonneg; [ lia | apply Z.pow_nonneg; lia ].
Qed.

Ltac cascade_step mask j :=
  match goal with
  | |- context [ Z.land ?w mask =? 0 ] =>
      change mask with (Z.shiftl (Z.ones j) (64 - j));
      rewrite (upper_mask_test w j) by lia;
      destruct (Z.ltb_spec w (2 ^ (64 - j)));
      [ rewrite (u64_shiftl_small w) by lia | ]
  end.

Lemma bitLength_word_spec (w : Z) :
  0 < w < 2 ^ 64 ->
  exists b, Int128.bitLength_word w = b /\ 0 <= b <= 63 /\ 2 ^ b <= w < 2 ^ (b + 1).
Proof.
  intros Hw. unfold Int128.bitLength_word.
  unfold constants.BITS_PER_UINT32, constants.BITS_PER_UINT16,
    constants.BITS_PER_UINT8, constants.BITS_PER_NIBBLE, constants.BITS_PER_PAIR.
  cascade_step constants.BIT_MASK_UPPER_32 32;
  cascade_step constants.BIT_MASK_UPPER_16 16;
  cascade_step constants.BIT_MASK_UPPER_8 8;
  cascade_step constants.BIT_MASK_UPPER_4 4;
  cascade_step constants.BIT_MASK_UPPER_2 2;
  (change constants.BIT_MASK_MSB with (Z.shiftl (Z.ones 1) (64 - 1));
   match goal with
   | |- context [ Z.land ?w _ =? 0 ] =>
       rewrite (upper_mask_test w 1) by lia;
       destruct (Z.ltb_spec w (2 ^ (64 - 1)))
   end);
  eexists; (split; [ reflexivity | ]); cbn; lia.
Qed.

Lemma toHigh_toLow (x : Z) :
  0 <= x < 2 ^ 127 ->
  x = Int128.toHigh x * 2 ^ 64 + Int128.toLow x
  /\ 0 <= Int128.toHigh x < 2 ^ 63 /\ 0 <= Int128.toLow x < 2 ^ 64.
Proof.
  intros Hx. rewrite toHigh_nonneg by lia. unfold Int128.toLow, u64.
  pose proof (Z.div_mod x (2 ^ 64) ltac:(lia)).
  pose proof (Z.mod_pos_bound x (2 ^ 64) ltac:(lia)).
  assert (0 <= x / 2 ^ 64 < 2 ^ 63).
  { split; [ apply Z.div_pos; lia | apply Z.div_lt_upper_bound; lia ]. }
  lia.
Qed.

Lemma bitLength_spec (x : Z) :
  0 < x < 2 ^ 127 ->
  exists k, Int128.bitLength x = k /\ 0 <= k <= 126 /\ 2 ^ k <= x < 2 ^ (k + 1).
Proof.
  intros Hx. destruct (toHigh_toLow x ltac:(lia)) as (E & Hh & Hl).
  unfold Int128.bitLength, constants.BITS_PER_UINT64.
  destruct (Z.eqb_spec (Int128.toHigh x) 0) as [Hz | Hnz]; cbn [negb].
  - destruct (bitLength_word_spec (Int128.toLow x) ltac:(lia))
      as (b & -> & Hb & Hw).
    exists b. split; [ reflexivity | ]. split; [ lia | ]. lia.
  - destruct (bitLength_word_spec (Int128.toHigh x) ltac:(lia))
      as (b & -> & Hb & Hw).
    exists (64 + b). split; [ reflexivity | ].
    assert (b <= 62).
    { destruct (Z.le_gt_cases b 62); trivial. exfalso.
      replace b with 63 in Hw by lia. lia. }
    split; [ lia | ].
    replace (2 ^ (64 + b + 1)) with (2 ^ 64 * (2 * 2 ^ b))
      by (rewrite <- (Z.pow_1_r 2) at 2;
          rewrite <- !Z.pow_add_r by lia; f_equal; lia).
    rewrite (Z.pow_add_r 2 64 b) by lia.
    rewrite (Z.pow_add_r 2 b 1) in Hw by lia. rewrite Z.pow_1_r in Hw.
    lia.
Qed.

Lemma isqrt_guess_spec (x : Z) :
  0 < x < 2 ^ 127 ->
  exists h, Int128.isqrt_guess x = 2 ^ h /\ 0 <= h <= 63
            /\ 2 ^ h * 2 ^ h <= x < 4 * 2 ^ h * 2 ^ h.
Proof.
  intros Hx. destruct (bitLength_spec x Hx) as (k & Hk & Hr & Hp).
  unfold Int128.isqrt_guess. rewrite Hk.
  rewrite Z.quot_div_nonneg by lia.
  set (h := k / 2).
  assert (Hh : 2 * h <= k < 2 * h + 2).
  { pose proof (Z.mul_div_le k 2 ltac:(lia)).
    pose proof (Z.mul_succ_div_gt k 2 ltac:(lia)). unfold h. lia. }
  exists h.
  unfold constants.BITS_PER_UINT64, constants.BIT_MASK_ONE.
  destruct (Z.geb_spec h 64); [ lia | ].
  assert (Hpow : 0 < 2 ^ h <= 2 ^ 63).
  { split; [ apply Z.pow_pos_nonneg; lia | apply Z.pow_le_mono_r; lia ]. }
  split.
  { unfold Int128.of_words, constants.BITS_PER_UINT64.
    rewrite Z.shiftl_0_l, Z.lor_0_l.
    rewrite u64_shiftl_small by lia. rewrite Z.mul_1_l.
    apply wrap_small. unfold Int128.valid. lia. }
  split; [ lia | ].
  rewrite <- Z.mul_assoc, <- Z.pow_add_r by lia.
  assert (2 ^ (h + h) <= 2 ^ k) by (apply Z.pow_le_mono_r; lia).
  assert (2 ^ (k + 1) <= 2 ^ (h + h + 2)) by (apply Z.pow_le_mono_r; lia).
  rewrite (Z.pow_add_r 2 (h + h) 2) in * by lia.
  change (2 ^ 2) with 4 in *. lia.
Qed.

Lemma err_iter_table (h : Z) :
  0 <= h <= 63 -> err_iter 7 (2 ^ h) (2 ^ h / 2 + 1) = 0.
Proof.
  intros H.
  assert (Hc : In (Z.to_nat h) (seq 0 64)) by (apply in_seq; lia).
  replace h with (Z.of_nat (Z.to_nat h)) by lia.
  revert Hc. generalize (Z.to_nat h). intros n Hn.
  assert (Hall : forallb (fun n => err_iter 7 (2 ^ Z.of_nat n)
                                     (2 ^ Z.of_nat n / 2 + 1) =? 0)
                         (seq 0 64) = true)
    by (vm_compute; reflexivity).
  rewrite forallb_forall in Hall. apply Z.eqb_eq. apply Hall. exact Hn.
Qed.

(** C7. For every non-negative Int128 [x], [isqrt()] returns
    [floor(sqrt(x))], the largest [r] with [r * r <= x], when the loop is
    given at least 10 iterations ([INT128_ISQRT_MAX_ITERATIONS], a constant of
    [Constants.h]); for every negative [x] it fails with
    [std::domain_error]. *)
Theorem isqrt_floor (N : nat) (x : Int128.t) :
  (10 <= N)%nat ->
  Int128.valid x ->
  (0 <= x ->
   exists r, Int128.isqrt N x = Ok r /\ r = Z.sqrt x /\
             0 <= r /\ r * r <= x < (r + 1) * (r + 1))
  /\ (x < 0 -> Int128.isqrt N x = Error domain_error).
Proof.
  intros HN Hv. unfold Int128.isqrt, Int128.ltb, Int128.eqb.
  destruct (Z.ltb_spec x 0) as [Hneg | Hpos].
  { split; [ lia | reflexivity ]. }
  split; [ intros _ | lia ].
  pose proof (Z.sqrt_spec x Hpos) as Hs. cbv zeta in Hs.
  pose proof (Z.sqrt_nonneg x) as Hs0.
  exists (Z.sqrt x).
  split; [ | split; [ reflexivity | split; [ lia | lia ] ] ].
  destruct (Z.eqb_spec x 0) as [-> | Hx0]; [ reflexivity | ].
  destruct (Z.eqb_spec x 1) as [-> | Hx1]; [ reflexivity | ].
  cbn [orb].
  unfold Int128.valid in Hv.
  destruct (isqrt_guess_spec x ltac:(lia)) as (h & -> & Hh & HD).
  assert (Hpow : 0 < 2 ^ h <= 2 ^ 63).
  { split; [ apply Z.pow_pos_nonneg; lia | apply Z.pow_le_mono_r; lia ]. }
  apply (loop_from_guess x (Z.sqrt x) (2 ^ h)) with (K := 7%nat); try lia.
  - split; [ lia | ]. apply Z.sqrt_le_square; lia.
  - apply err_iter_table. lia.
Qed.

Lemma isqrt_floor_witness :
  (exists r, Int128.isqrt 10 150 = Ok r /\ r = Z.sqrt 150 /\
             0 <= r /\ r * r <= 150 < (r + 1) * (r + 1))
  /\ Int128.isqrt 10 (-4) = Error domain_error.
Proof.
  split.
  - apply (isqrt_floor 10 150); [ lia | unfold Int128.valid; lia | lia ].
  - apply (isqrt_floor 10 (-4)); [ lia | unfold Int128.valid; lia | lia ].
Defined.

(** With fewer than 7 iterations the loop can end before it settles: after
    6 iterations on [2^126 - 1] the estimate is still above the root. *)
Lemma isqrt_six_iterations :
  Int128.isqrt 6 (2 ^ 126 - 1) = Ok 9223372036854775808
  /\ Z.sqrt (2 ^ 126 - 1) = 9223372036854775807.
Proof. split; vm_compute; reflexivity. Qed.

(** ** Decimal digit strings *)

Lemma is_digit_range (c : ascii) : is_digit c <-> 0 <= digit_of c <= 9.
Proof.
  unfold is_digit, Int128.not_digit, digit_of.
  destruct (Z.ltb_spec (Int128.code c) 48); destruct (Z.gtb_spec (Int128.code c) 57);
    cbn [orb]; split; intros; try discriminate; try reflexivity; lia.
Qed.

Lemma code_char_of (r : Z) : 0 <= r <= 9 -> Int128.code (Int128.char_of (48 + r)) = 48 + r.
Proof.
  intros H. unfold Int128.code, Int128.char_of, u8.
  rewrite Z.mod_small by lia.
  rewrite N_ascii_embedding by lia. lia.
Qed.

Lemma digit_char_of (r : Z) :
  0 <= r <= 9 -> is_digit (Int128.char_of (48 + r)) /\ digit_of (Int128.char_of (48 + r)) = r.
Proof.
  intros H. rewrite is_digit_range. unfold digit_of. rewrite code_char_of by lia. lia.
Qed.

Lemma fold_digits_acc (ds : list ascii) :
  forall r, fold_left (fun a c => a * 10 + digit_of c) ds r
            = r * 10 ^ Z.of_nat (List.length ds) + digits_value ds.
Proof.
  unfold digits_value.
  induction ds as [ | c ds IH]; intros r; cbn [fold_left List.length].
  - cbn. lia.
  - rewrite IH, (IH (0 * 10 + digit_of c)).
    rewrite Nat2Z.inj_succ, Z.pow_succ_r by lia. lia.
Qed.

Lemma digits_value_cons (c : ascii) (ds : list ascii) :
  digits_value (c :: ds) = digit_of c * 10 ^ Z.of_nat (List.length ds) + digits_value ds.
Proof.
  unfold digits_value at 1. cbn [fold_left]. rewrite fold_digits_acc. lia.
Qed.

Lemma digits_value_single (c : ascii) : digits_value [c] = digit_of c.
Proof. unfold digits_value. cbn [fold_left]. lia. Qed.

Lemma digits_value_app (a b : list ascii) :
  digits_value (a ++ b)
  = digits_value a * 10 ^ Z.of_nat (List.length b) + digits_value b.
Proof.
  unfold digits_value at 1. rewrite fold_left_app.
  fold (digits_value a). apply fold_digits_acc.
Qed.

Lemma digits_value_bound (ds : list ascii) :
  Forall is_digit ds -> 0 <= digits_value ds < 10 ^ Z.of_nat (List.length ds).
Proof.
  induction 1 as [ | c ds Hc _ IH].
  - cbn. lia.
  - rewrite digits_value_cons. apply is_digit_range in Hc.
    cbn [List.length]. rewrite Nat2Z.inj_succ, Z.pow_succ_r by lia.
    assert (0 < 10 ^ Z.of_nat (List.length ds)) by (apply Z.pow_pos_nonneg; lia).
    nia.
Qed.

Lemma numeral_zero (ds : list ascii) : numeral ds 0 -> ds = [].
Proof.
  intros (_ & _ & [H | H]); trivial.
  destruct ds as [ | c ds]; [ reflexivity | exfalso ].
  assert (0 < 10 ^ (Z.of_nat (List.length (c :: ds)) - 1))
    by (apply Z.pow_pos_nonneg; cbn [List.length]; lia).
  lia.
Qed.

Lemma numeral_snoc (ds : list ascii) (q r : Z) :
  numeral ds q -> 0 <= r <= 9 -> 0 < q * 10 + r ->
  numeral (ds ++ [Int128.char_of (48 + r)]) (q * 10 + r).
Proof.
  intros (Hd & Hv & Hl) Hr Hpos.
  destruct (digit_char_of r Hr) as [Hc Hdc].
  split; [ apply Forall_app; split; [ exact Hd | repeat constructor; exact Hc ] | ].
  split.
  - rewrite digits_value_app, Hv, digits_value_single, Hdc.
    cbn [List.length]. lia.
  - right. rewrite length_app. cbn [List.length].
    replace (Z.of_nat (List.length ds + 1) - 1) with (Z.of_nat (List.length ds)) by lia.
    destruct Hl as [-> | Hl].
    + cbn. cbn in Hv. lia.
    + destruct ds as [ | c ds]; [ cbn in *; lia | ].
      cbn [List.length] in *. rewrite Nat2Z.inj_succ in *.
      rewrite Z.pow_succ_r by lia.
      replace (Z.succ (Z.of_nat (List.length ds)) - 1)
        with (Z.of_nat (List.length ds)) in Hl by lia.
      lia.
Qed.

Lemma numeral_length (ds : list ascii) (n : Z) (k : nat) :
  numeral ds n -> n < 10 ^ Z.of_nat k -> (List.length ds <= k)%nat.
Proof.
  intros (Hd & Hv & Hl) Hn. destruct Hl as [-> | Hl]; [ cbn; lia | ].
  destruct (Nat.le_gt_cases (List.length ds) k) as [ | Hgt]; trivial. exfalso.
  assert (10 ^ Z.of_nat k <= 10 ^ (Z.of_nat (List.length ds) - 1))
    by (apply Z.pow_le_mono_r; lia).
  lia.
Qed.

(** ** Int128: toString then fromString *)

Lemma toString_loop_spec (fuel : nat) :
  forall (temp : Z) (acc : list ascii),
    0 <= temp < 10 ^ Z.of_nat fuel -> temp < 2 ^ 127 ->
    exists ds, Int128.toString_loop fuel temp acc = Ok (ds ++ acc)
               /\ numeral ds temp.
Proof.
  induction fuel as [ | fuel IH]; intros temp acc Ht Hr.
  - exists []. cbn in Ht. replace temp with 0 by lia.
    split; [ reflexivity | ].
    split; [ constructor | split; [ reflexivity | left; reflexivity ] ].
  - cbn [Int128.toString_loop]. unfold Int128.eqb.
    destruct (Z.eqb_spec temp 0) as [-> | Hnz].
    { exists []. split; [ reflexivity | ].
      split; [ constructor | split; [ reflexivity | left; reflexivity ] ]. }
    unfold constants.INT128_BASE.
    change 10 with constants.DECIMAL_BASE at 1 2.
    rewrite div10, rem10 by lia. cbn [bind].
    pose proof (Z.div_mod temp 10 ltac:(lia)) as E.
    pose proof (Z.mod_pos_bound temp 10 ltac:(lia)) as B.
    rewrite toLow_nonneg by lia.
    rewrite Nat2Z.inj_succ, Z.pow_succ_r in Ht by lia.
    assert (Hq : 0 <= temp / 10 < 10 ^ Z.of_nat fuel).
    { split; [ apply Z.div_pos; lia | apply Z.div_lt_upper_bound; lia ]. }
    destruct (IH (temp / 10) (Int128.char_of (48 + temp mod 10) :: acc)
                Hq ltac:(lia)) as (ds & Hds & Hn).
    exists (ds ++ [Int128.char_of (48 + temp mod 10)]).
    split; [ rewrite Hds, <- app_assoc; reflexivity | ].
    replace temp with (temp / 10 * 10 + temp mod 10) at 2 by lia.
    apply numeral_snoc; trivial; lia.
Qed.

Lemma fromString_digits_value (ds : list ascii) :
  forall r,
    Forall is_digit ds -> 0 <= r ->
    r * 10 ^ Z.of_nat (List.length ds) + digits_value ds < 2 ^ 127 ->
    Int128.fromString_digits ds r
    = Some (r * 10 ^ Z.of_nat (List.length ds) + digits_value ds).
Proof.
  induction ds as [ | c ds IH]; intros r Hd Hr Hb.
  - cbn. f_equal. lia.
  - inversion Hd as [ | ? ? Hc Hd']; subst.
    cbn [Int128.fromString_digits]. rewrite Hc.
    apply is_digit_range in Hc. fold (digit_of c).
    pose proof (digits_value_bound ds Hd') as Hv.
    rewrite digits_value_cons in Hb |- *.
    cbn [List.length] in Hb |- *.
    rewrite Nat2Z.inj_succ, Z.pow_succ_r in Hb |- * by lia.
    assert (Hp : 0 < 10 ^ Z.of_nat (List.length ds))
      by (apply Z.pow_pos_nonneg; lia).
    assert (Hsmall : r * 10 + digit_of c < 2 ^ 127) by nia.
    unfold Int128.add, Int128.mul, constants.INT128_BASE.
    rewrite (wrap_small (digit_of c)) by (unfold Int128.valid; lia).
    rewrite (wrap_small (r * 10)) by (unfold Int128.valid; lia).
    rewrite (wrap_small (r * 10 + digit_of c)) by (unfold Int128.valid; lia).
    rewrite IH; trivial; try lia.
    f_equal. lia.
Qed.

Lemma compare_view_digits (a : list ascii) :
  forall b,
    Forall is_digit a -> Forall is_digit b -> List.length a = List.length b ->
    Int128.compare_view a b = (digits_value a ?= digits_value b).
Proof.
  induction a as [ | x a IH]; intros [ | y b] Ha Hb Hlen;
    try discriminate Hlen.
  - reflexivity.
  - inversion Ha as [ | ? ? Hx Ha']; inversion Hb as [ | ? ? Hy Hb']; subst.
    cbn [Int128.compare_view]. rewrite !digits_value_cons.
    cbn [List.length] in Hlen. injection Hlen as Hlen. rewrite <- Hlen.
    pose proof (digits_value_bound a Ha') as Hva.
    pose proof (digits_value_bound b Hb') as Hvb. rewrite <- Hlen in Hvb.
    set (P := 10 ^ Z.of_nat (List.length a)) in *.
    unfold digit_of.
    destruct (Z.compare_spec (Int128.code x) (Int128.code y)) as [E | L | G].
    + rewrite E, IH by assumption.
      symmetry. apply Z.add_compare_mono_l.
    + symmetry. apply Z.compare_lt_iff. nia.
    + symmetry. apply Z.compare_gt_iff. nia.
Qed.

Lemma numeral_nonempty (ds : list ascii) (n : Z) :
  numeral ds n -> 0 < n -> exists c ds', ds = c :: ds' /\ is_digit c.
Proof.
  intros (Hd & Hv & _) Hn. destruct ds as [ | c ds'].
  - cbn in Hv. lia.
  - inversion Hd; subst. eauto.
Qed.

Lemma digit_not_sign (c : ascii) :
  is_digit c -> (Int128.code c =? 45) = false /\ (Int128.code c =? 43) = false.
Proof.
  intros H. apply is_digit_range in H. unfold digit_of in H.
  split; apply Z.eqb_neq; lia.
Qed.

Lemma Int128_roundtrip (x : Int128.t) :
  Int128.valid x ->
  exists s, Int128.toString x = Ok s /\ Int128.fromString s = Some x.
Proof.
  intros Hv. unfold Int128.toString, Int128.eqb.
  destruct (Z.eqb_spec x 0) as [-> | Hnz].
  { eexists. split; reflexivity. }
  rewrite Int128_min_value.
  destruct (Z.eqb_spec x (- 2 ^ 127)) as [-> | Hnm].
  { eexists. split; reflexivity. }
  rewrite abs_value by assumption.
  unfold Int128.valid in Hv.
  destruct (toString_loop_spec Int128.toString_fuel (Z.abs x) [])
    as (ds & Hds & Hn);
    [ change (Z.of_nat Int128.toString_fuel) with 39; lia | lia | ].
  rewrite Hds, app_nil_r. cbn [bind].
  eexists. split; [ reflexivity | ].
  assert (Hlen : (List.length ds <= 39)%nat).
  { apply (numeral_length ds (Z.abs x) 39 Hn).
    change (Z.of_nat 39) with 39. lia. }
  destruct (numeral_nonempty ds (Z.abs x) Hn ltac:(lia)) as (c & ds' & Eds & Hc).
  destruct Hn as (Hd & Hval & _).
  assert (Hparse : Int128.fromString_digits ds 0 = Some (Z.abs x)).
  { rewrite (fromString_digits_value ds 0 Hd ltac:(lia)).
    - f_equal. lia.
    - rewrite Hval. lia. }
  assert (Hmaxpos : List.length ds = 39%nat ->
                    Int128.compare_view ds constants.INT128_MAX_POSITIVE_STRING
                    = (Z.abs x ?= 2 ^ 127 - 1)).
  { intros H39. rewrite compare_view_digits; trivial.
    - rewrite Hval. reflexivity.
    - repeat constructor. }
  assert (Hmaxneg : List.length ds = 39%nat ->
                    Int128.compare_view ds constants.INT128_MAX_NEGATIVE_STRING
                    = (Z.abs x ?= 2 ^ 127)).
  { intros H39. rewrite compare_view_digits; trivial.
    - rewrite Hval. reflexivity.
    - repeat constructor. }
  unfold Int128.ltb, Int128.fromString.
  destruct (Z.ltb_spec x 0) as [Hneg | Hpos].
  - cbn [app list_ascii_of_string].
    change (Int128.code "-" =? 45) with true. cbv iota.
    cbn [List.length skipn negb].
    destruct (Nat.leb_spec (S (List.length ds)) 1) as [Hle | _];
      [ rewrite Eds in Hle; cbn [List.length] in Hle; lia | ].
    replace (S (List.length ds) - 1)%nat with (List.length ds) by lia.
    destruct (Nat.ltb_spec constants.INT128_MAX_DIGIT_COUNT (List.length ds));
      [ unfold constants.INT128_MAX_DIGIT_COUNT in *; lia | ].
    rewrite Hparse.
    replace (Int128.neg (Z.abs x)) with x
      by (unfold Int128.neg; rewrite wrap_small; unfold Int128.valid; lia).
    destruct (Nat.eqb_spec (List.length ds) constants.INT128_MAX_DIGIT_COUNT)
      as [H39 | ]; [ | reflexivity ].
    rewrite (Hmaxneg H39).
    destruct (Z.compare_spec (Z.abs x) (2 ^ 127)); try lia. reflexivity.
  - subst ds. destruct (digit_not_sign c Hc) as [H45 H43].
    rewrite H45, H43. cbv iota. cbn [skipn negb].
    set (ds := c :: ds') in *.
    destruct (Nat.leb_spec (List.length ds) 0) as [Hle | _];
      [ unfold ds in Hle; cbn [List.length] in Hle; lia | ].
    rewrite Nat.sub_0_r.
    destruct (Nat.ltb_spec constants.INT128_MAX_DIGIT_COUNT (List.length ds));
      [ unfold constants.INT128_MAX_DIGIT_COUNT in *; lia | ].
    rewrite Hparse.
    replace (Z.abs x) with x by lia.
    destruct (Nat.eqb_spec (List.length ds) constants.INT128_MAX_DIGIT_COUNT)
      as [H39 | ]; [ | reflexivity ].
    rewrite (Hmaxpos H39).
    destruct (Z.compare_spec (Z.abs x) (2 ^ 127 - 1)); try lia; reflexivity.
Qed.

(** ** Decimal: toString *)

Lemma numeral_nil : numeral [] 0.
Proof. split; [ constructor | split; [ reflexivity | left; reflexivity ] ]. Qed.

Lemma extract_digits64_spec (room : nat) :
  forall v, 0 <= v < 10 ^ Z.of_nat room ->
            exists ds, Decimal.extract_digits64 room v = rev ds /\ numeral ds v.
Proof.
  induction room as [ | room IH]; intros v Hv.
  - exists []. cbn in Hv. replace v with 0 by lia.
    split; [ reflexivity | apply numeral_nil ].
  - cbn [Decimal.extract_digits64].
    destruct (Z.gtb_spec v 0) as [Hpos | Hz].
    2:{ exists []. replace v with 0 by lia.
        split; [ reflexivity | apply numeral_nil ]. }
    unfold constants.DECIMAL_BASE.
    pose proof (Z.div_mod v 10 ltac:(lia)) as E.
    pose proof (Z.mod_pos_bound v 10 ltac:(lia)) as B.
    rewrite Nat2Z.inj_succ, Z.pow_succ_r in Hv by lia.
    assert (Hq : 0 <= v / 10 < 10 ^ Z.of_nat room).
    { split; [ apply Z.div_pos; lia | apply Z.div_lt_upper_bound; lia ]. }
    destruct (IH (v / 10) Hq) as (ds & Hds & Hn).
    exists (ds ++ [Int128.char_of (48 + v mod 10)]).
    split; [ rewrite rev_unit, Hds; reflexivity | ].
    replace v with (v / 10 * 10 + v mod 10) at 2 by lia.
    apply numeral_snoc; trivial; lia.
Qed.

Lemma extract_digits128_spec (room : nat) :
  forall v, 0 <= v < 10 ^ Z.of_nat room ->
            exists ds, Decimal.extract_digits128 room v = rev ds /\ numeral ds v.
Proof.
  induction room as [ | room IH]; intros v Hv.
  - exists []. cbn in Hv. replace v with 0 by lia.
    split; [ reflexivity | apply numeral_nil ].
  - cbn [Decimal.extract_digits128]. unfold Int128.eqb.
    destruct (Z.eqb_spec v 0) as [-> | Hnz]; cbn [negb].
    { exists []. split; [ reflexivity | apply numeral_nil ]. }
    unfold constants.DECIMAL_BASE.
    rewrite Z.rem_mod_nonneg, Z.quot_div_nonneg by lia.
    pose proof (Z.div_mod v 10 ltac:(lia)) as E.
    pose proof (Z.mod_pos_bound v 10 ltac:(lia)) as B.
    rewrite Nat2Z.inj_succ, Z.pow_succ_r in Hv by lia.
    assert (Hq : 0 <= v / 10 < 10 ^ Z.of_nat room).
    { split; [ apply Z.div_pos; lia | apply Z.div_lt_upper_bound; lia ]. }
    destruct (IH (v / 10) Hq) as (ds & Hds & Hn).
    exists (ds ++ [Int128.char_of (48 + v mod 10)]).
    split; [ rewrite rev_unit, Hds; reflexivity | ].
    replace v with (v / 10 * 10 + v mod 10) at 2 by lia.
    apply numeral_snoc; trivial; lia.
Qed.

Lemma toString_layout (L : nat) (d : Decimal.t) :
  (28 <= L)%nat -> limbs_valid d ->
  0 < mantissa_value d < 10 ^ 28 ->
  exists ds,
    numeral ds (mantissa_value d) /\
    Decimal.toString L d
    = (if Decimal.sign_bit d then ["-"%char] else [])
        ++ layout ds (Z.to_nat (Decimal.scale d)).
Proof.
  intros HL Hl Hm. unfold Decimal.toString.
  rewrite (mantissa_value_zero d Hl).
  destruct (Z.eqb_spec (mantissa_value d) 0) as [ | _]; [ lia | ].
  rewrite mantissaAsInt128_value by assumption.
  rewrite abs_value by (unfold Int128.valid; lia).
  rewrite Z.abs_eq by lia.
  assert (Hpow : 10 ^ 28 <= 10 ^ Z.of_nat L) by (apply Z.pow_le_mono_r; lia).
  assert (Hdig : exists ds,
             numeral ds (mantissa_value d) /\
             (if mantissa_value d <=? 2 ^ 64 - 1
              then Decimal.extract_digits64 L (u64 (mantissa_value d))
              else Decimal.extract_digits128 L (mantissa_value d)) = rev ds).
  { destruct (Z.leb_spec (mantissa_value d) (2 ^ 64 - 1)).
    - unfold u64. rewrite Z.mod_small by lia.
      destruct (extract_digits64_spec L (mantissa_value d) ltac:(lia))
        as (ds & H1 & H2). eauto.
    - destruct (extract_digits128_spec L (mantissa_value d) ltac:(lia))
        as (ds & H1 & H2). eauto. }
  destruct Hdig as (ds & Hn & ->).
  exists ds. split; [ exact Hn | ].
  destruct (numeral_nonempty ds _ Hn ltac:(lia)) as (c & ds' & Eds & _).
  assert (Hrev : match rev ds with [] => ["0"%char] | _ :: _ => rev ds end = rev ds).
  { destruct (rev ds) eqn:Er; [ | reflexivity ].
    apply (f_equal (@List.length ascii)) in Er.
    rewrite length_rev, Eds in Er. discriminate Er. }
  rewrite Hrev. f_equal. unfold layout.
  rewrite length_rev, rev_involutive.
  rewrite skipn_rev, firstn_rev, !rev_involutive.
  reflexivity.
Qed.

(** ** Decimal: fromString on a laid-out numeral *)

Lemma digit_not_point (c : ascii) : is_digit c -> (Int128.code c =? 46) = false.
Proof.
  intros H. apply is_digit_range in H. unfold digit_of in H.
  apply Z.eqb_neq. lia.
Qed.

Lemma find_point_digits (cs : list ascii) :
  forall i dp cnt,
    Forall is_digit cs -> Decimal.find_decimal_point cs i dp cnt = Some dp.
Proof.
  induction cs as [ | c cs IH]; intros i dp cnt Hd; [ reflexivity | ].
  inversion Hd as [ | ? ? Hc Hd']; subst.
  cbn [Decimal.find_decimal_point]. rewrite (digit_not_point c Hc).
  apply IH. exact Hd'.
Qed.

Lemma find_point_one (a b : list ascii) :
  forall i,
    Forall is_digit a -> Forall is_digit b ->
    Decimal.find_decimal_point (a ++ "."%char :: b) i None 0
    = Some (Some (i + List.length a)%nat).
Proof.
  induction a as [ | c a IH]; intros i Ha Hb.
  - cbn [app Decimal.find_decimal_point List.length].
    change (Int128.code "." =? 46) with true. cbv iota.
    change (1 <? 1)%nat with false. cbv iota.
    rewrite find_point_digits by assumption. f_equal. f_equal. lia.
  - inversion Ha as [ | ? ? Hc Ha']; subst.
    cbn [app Decimal.find_decimal_point List.length].
    rewrite (digit_not_point c Hc). rewrite IH by assumption.
    f_equal. f_equal. lia.
Qed.

Lemma accumulate_point (dp : option nat) (rest : list ascii) (i : nat)
  (st : Decimal.digits_state) :
  Decimal.accumulate_digits dp ("."%char :: rest) i st
  = Decimal.accumulate_digits dp rest (S i) st.
Proof. reflexivity. Qed.

(** A run of digits that lies on one side of the decimal point. *)
Lemma accumulate_run (dp : option nat) (ap : bool) (ds : list ascii) :
  forall (rest : list ascii) (i : nat) (M sig dec cs : Z) (hd : bool),
    Forall is_digit ds ->
    (forall j, (i <= j < i + List.length ds)%nat -> after_point dp j = ap) ->
    0 <= M -> 0 <= sig -> 0 <= dec ->
    sig + Z.of_nat (List.length ds) <= 28 ->
    dec + Z.of_nat (List.length ds) <= 28 ->
    M * 10 ^ Z.of_nat (List.length ds) + digits_value ds < 2 ^ 127 ->
    exists sig',
      sig <= sig' <= sig + Z.of_nat (List.length ds) /\
      Decimal.accumulate_digits dp (ds ++ rest) i
        (Decimal.mk_state M hd sig dec cs)
      = Decimal.accumulate_digits dp rest (i + List.length ds)
          (Decimal.mk_state
             (M * 10 ^ Z.of_nat (List.length ds) + digits_value ds)
             (hd || negb (List.length ds =? 0)%nat)
             sig'
             (if ap then dec + Z.of_nat (List.length ds) else dec)
             cs).
Proof.
  induction ds as [ | c ds IH]; intros rest i M sig dec cs hd Hd Hap HM Hsig Hdec Hs28 Hd28 Hb.
  - exists sig. split; [ cbn; lia | ].
    cbn [app List.length Nat.eqb negb]. rewrite orb_false_r, Nat.add_0_r.
    unfold digits_value. cbn [fold_left Z.of_nat]. rewrite Z.pow_0_r.
    rewrite Z.mul_1_r, !Z.add_0_r. destruct ap; reflexivity.
  - inversion Hd as [ | ? ? Hc Hd']; subst.
    pose proof (digits_value_bound ds Hd') as Hv.
    assert (Hc' := Hc). apply is_digit_range in Hc'.
    rewrite digits_value_cons in Hb |- *.
    cbn [List.length] in *.
    rewrite Nat2Z.inj_succ in *. rewrite Z.pow_succ_r in Hb |- * by lia.
    assert (Hp : 0 < 10 ^ Z.of_nat (List.length ds))
      by (apply Z.pow_pos_nonneg; lia).
    assert (Hsmall : M * 10 + digit_of c < 2 ^ 127) by nia.
    cbn [app Decimal.accumulate_digits].
    rewrite (digit_not_point c Hc), Hc.
    cbn [Decimal.significantDigits Decimal.mantissaValue
         Decimal.decimalDigitsProcessed Decimal.currentScale].
    unfold constants.DECIMAL_MAXIMUM_PLACES.
    destruct (Z.geb_spec sig 28); [ lia | ].
    fold (after_point dp i). rewrite (Hap i) by lia.
    fold (digit_of c).
    unfold Int128.add, Int128.mul, constants.DECIMAL_BASE.
    rewrite (wrap_small (M * 10)) by (unfold Int128.valid; lia).
    rewrite (wrap_small (M * 10 + digit_of c)) by (unfold Int128.valid; lia).
    match goal with
    | |- context [ if ?b then u8 (sig + 1) else sig ] =>
        set (sig1 := if b then u8 (sig + 1) else sig)
    end.
    assert (Hsig1 : sig <= sig1 <= sig + 1).
    { unfold sig1.
      match goal with |- context [ if ?b then _ else _ ] => destruct b end;
        [ | lia ].
      unfold u8. rewrite Z.mod_small by lia. lia. }
    set (dec1 := if ap then u8 (dec + 1) else dec).
    assert (Hdec1 : dec1 = if ap then dec + 1 else dec).
    { unfold dec1. destruct ap; [ | reflexivity ].
      unfold u8. apply Z.mod_small. lia. }
    destruct (IH rest (S i) (M * 10 + digit_of c) sig1 dec1 cs true Hd')
      as (sig' & Hsig' & Heq); try lia.
    { intros j Hj. apply Hap. lia. }
    { destruct ap; lia. }
    { destruct ap; lia. }
    exists sig'. split; [ lia | ].
    rewrite Heq. f_equal; [ lia | ].
    rewrite orb_true_r. cbn [orb].
    f_equal; try lia.
    rewrite Hdec1. destruct ap; lia.
Qed.

Lemma accumulate_leading_zero (p : nat) (rest : list ascii) (i : nat) (cs : Z) :
  (i <= p)%nat ->
  Decimal.accumulate_digits (Some p) ("0"%char :: rest) i
    (Decimal.mk_state 0 false 0 0 cs)
  = Decimal.accumulate_digits (Some p) rest (S i)
      (Decimal.mk_state 0 true 0 0 cs).
Proof.
  intros Hi. cbn [Decimal.accumulate_digits].
  change (Int128.code "0" =? 46) with false.
  change (Int128.not_digit "0") with false. cbv iota.
  cbn [Decimal.significantDigits Decimal.mantissaValue
       Decimal.decimalDigitsProcessed Decimal.currentScale].
  change (0 >=? constants.DECIMAL_MAXIMUM_PLACES) with false. cbv iota.
  destruct (Nat.ltb_spec p i); [ lia | ]. reflexivity.
Qed.

Lemma zeros_digits (k : nat) :
  Forall is_digit (repeat "0"%char k) /\ digits_value (repeat "0"%char k) = 0.
Proof.
  induction k as [ | k [IH1 IH2]]; [ split; [ constructor | reflexivity ] | ].
  cbn [repeat]. split; [ constructor; [ reflexivity | exact IH1 ] | ].
  rewrite digits_value_cons, IH2. reflexivity.
Qed.

Lemma scan_layout (ds : list ascii) (m : Z) (sc pos : nat) (str : list ascii) :
  numeral ds m -> 0 < m < 10 ^ 28 -> (sc <= 28)%nat ->
  skipn pos str = layout ds sc ->
  List.length str = (pos + List.length (layout ds sc))%nat ->
  scanned str pos m (Z.of_nat sc).
Proof.
  intros Hn Hm Hsc Hskip Hlen. unfold scanned. rewrite Hskip, Hlen.
  assert (Hn28 : (List.length ds <= 28)%nat)
    by (apply (numeral_length ds m 28 Hn); change (Z.of_nat 28) with 28; lia).
  destruct Hn as (Hd & Hv & _).
  unfold layout, constants.DECIMAL_MAXIMUM_PLACES.
  destruct (Nat.ltb_spec 0 sc) as [Hpos | Hz].
  2:{ (* scale 0: the digits alone *)
    replace sc with 0%nat by lia. change (Z.of_nat 0) with 0.
    exists None.
    destruct (accumulate_run None false ds [] pos 0 0 0 0 false Hd)
      as (sig & _ & Heq); [ intros j _; reflexivity | lia .. | ].
    do 2 eexists. split; [ apply find_point_digits; exact Hd | ].
    split; [ reflexivity | ].
    rewrite <- (app_nil_r ds) at 1. rewrite Heq.
    cbn [Decimal.accumulate_digits]. rewrite Hv.
    destruct ds; [ cbn in Hv; lia | ]. reflexivity. }
  destruct (Nat.leb_spec (List.length ds) sc) as [Hle | Hgt].
  - (* "0." zeros digits *)
    set (zs := repeat "0"%char (sc - List.length ds)).
    destruct (zeros_digits (sc - List.length ds)) as [Hz1 Hz2]. fold zs in Hz1, Hz2.
    assert (Hzl : List.length (zs ++ ds) = sc)
      by (rewrite length_app; unfold zs; rewrite repeat_length; lia).
    assert (Hzd : Forall is_digit (zs ++ ds)) by (apply Forall_app; auto).
    assert (Hzv : digits_value (zs ++ ds) = m)
      by (rewrite digits_value_app, Hz2, Hv; lia).
    change (["0"%char; "."%char] ++ zs ++ ds)
      with (["0"%char] ++ "."%char :: (zs ++ ds)).
    exists (Some (pos + 1)%nat).
    destruct (accumulate_run (Some (pos + 1)%nat) true (zs ++ ds) []
                (S (S pos)) 0 0 0 (Z.of_nat sc) true Hzd)
      as (sig & _ & Heq);
      [ intros j Hj; cbn [after_point]; apply Nat.ltb_lt; lia | lia .. | ].
    do 2 eexists. split; [ apply find_point_one; [ repeat constructor | exact Hzd ] | ].
    split.
    { cbv zeta. rewrite length_app. cbn [List.length]. rewrite Hzl.
      match goal with
      | |- context [ u8 ?e ] => replace e with (Z.of_nat sc) by lia
      end.
      unfold u8. rewrite Z.mod_small by lia.
      destruct (Z.gtb_spec (Z.of_nat sc) 28); [ lia | reflexivity ]. }
    cbn [app]. rewrite accumulate_leading_zero by lia.
    rewrite accumulate_point.
    rewrite <- (app_nil_r (zs ++ ds)). rewrite Heq.
    cbn [Decimal.accumulate_digits]. rewrite Hzv, Hzl.
    destruct sc; [ lia | ]. reflexivity.
  - (* integer digits "." fraction digits *)
    set (k := (List.length ds - sc)%nat).
    set (ip := firstn k ds). set (fp := skipn k ds).
    assert (Hsplit : ds = ip ++ fp) by (symmetry; apply firstn_skipn).
    assert (Hil : List.length ip = k) by (apply firstn_length_le; lia).
    assert (Hfl : List.length fp = sc)
      by (unfold fp; rewrite length_skipn; lia).
    assert (Hdd : Forall is_digit ip /\ Forall is_digit fp)
      by (apply Forall_app; rewrite <- Hsplit; exact Hd).
    destruct Hdd as [Hid Hfd].
    pose proof (digits_value_bound ip Hid) as Hib.
    pose proof (digits_value_bound fp Hfd) as Hfb.
    assert (Hval : digits_value ip * 10 ^ Z.of_nat sc + digits_value fp = m).
    { rewrite <- Hv, Hsplit, digits_value_app, Hfl. reflexivity. }
    assert (Hp : 0 < 10 ^ Z.of_nat sc) by (apply Z.pow_pos_nonneg; lia).
    assert (Hism : digits_value ip <= m) by nia.
    assert (Hval' : digits_value ip * 10 ^ Z.of_nat (List.length fp)
                    + digits_value fp = m) by (rewrite Hfl; exact Hval).
    exists (Some (pos + k)%nat).
    destruct (accumulate_run (Some (pos + k)%nat) false ip ("."%char :: fp)
                pos 0 0 0 (Z.of_nat sc) false Hid)
      as (sig1 & Hsig1 & Heq1);
      [ intros j Hj; cbn [after_point]; apply Nat.ltb_ge; lia | lia .. | ].
    destruct (accumulate_run (Some (pos + k)%nat) true fp []
                (S (pos + k)) (0 * 10 ^ Z.of_nat (List.length ip) + digits_value ip)
                sig1 0 (Z.of_nat sc)
                (false || negb (List.length ip =? 0)%nat) Hfd)
      as (sig2 & _ & Heq2);
      [ intros j Hj; cbn [after_point]; apply Nat.ltb_lt; lia | lia .. | ].
    do 2 eexists.
    split; [ rewrite <- Hil; apply find_point_one; assumption | ].
    split.
    { cbv zeta. rewrite !length_app. cbn [List.length]. rewrite Hil, Hfl.
      match goal with
      | |- context [ u8 ?e ] => replace e with (Z.of_nat sc) by lia
      end.
      unfold u8. rewrite Z.mod_small by lia.
      destruct (Z.gtb_spec (Z.of_nat sc) 28); [ lia | reflexivity ]. }
    cbn [app]. rewrite Heq1, Hil, accumulate_point.
    rewrite Hil in Heq2.
    rewrite <- (app_nil_r fp). rewrite Heq2.
    cbn [Decimal.accumulate_digits]. rewrite Hfl.
    replace ((0 * 10 ^ Z.of_nat k + digits_value ip) * 10 ^ Z.of_nat sc
             + digits_value fp)
      with m by lia.
    destruct sc; [ lia | ]. rewrite orb_true_r. reflexivity.
Qed.

Lemma fromString_body_scanned (str : list ascii) (negative : bool) (pos : nat)
  (m sc : Z) :
  scanned str pos m sc -> 0 <= m < 2 ^ 96 ->
  Decimal.fromString_body str negative pos
  = (r <- Decimal.normalize (parsed negative m sc) ;; Ok (Some r)).
Proof.
  intros (dp & sig & dec & Hfind & Hsc & Hacc) Hm.
  unfold Decimal.fromString_body. rewrite Hfind.
  cbv zeta in Hsc. cbv zeta. rewrite Hsc, Hacc.
  cbn [Decimal.hasDigits Decimal.mantissaValue Decimal.currentScale negb].
  rewrite toHigh_nonneg by lia.
  unfold constants.UINT32_MAX_VALUE.
  destruct (Z.gtb_spec (m / 2 ^ 64) 0xFFFFFFFF) as [Hbig | _].
  { exfalso.
    assert (m / 2 ^ 64 < 2 ^ 32) by (apply Z.div_lt_upper_bound; lia). lia. }
  cbn [bind]. unfold parsed. rewrite toHigh_nonneg by lia. reflexivity.
Qed.

Lemma parsed_spec (negative : bool) (m sc : Z) :
  0 <= m < 2 ^ 96 -> 0 <= sc < 256 ->
  limbs_valid (parsed negative m sc)
  /\ mantissa_value (parsed negative m sc) = m
  /\ Decimal.scale (parsed negative m sc) = sc
  /\ Decimal.sign_bit (parsed negative m sc) = negative.
Proof.
  intros Hm Hsc.
  split; [ apply limbs_mk_u32 | ].
  split.
  { unfold mantissa_value, parsed; fields.
    rewrite toHigh_nonneg by lia.
    unfold Int128.toLow, u64, u32, constants.BITS_PER_UINT32.
    rewrite shiftr_div by lia.
    pose proof (Z.div_mod m (2 ^ 64) ltac:(lia)) as E.
    pose proof (Z.mod_pos_bound m (2 ^ 64) ltac:(lia)) as B.
    set (lo := m mod 2 ^ 64) in *. set (hi := m / 2 ^ 64) in *.
    assert (Hhi : 0 <= hi < 2 ^ 32).
    { split; [ apply Z.div_pos; lia | apply Z.div_lt_upper_bound; lia ]. }
    pose proof (Z.div_mod lo (2 ^ 32) ltac:(lia)) as E1.
    pose proof (Z.mod_pos_bound lo (2 ^ 32) ltac:(lia)) as B1.
    assert (Hl1 : 0 <= lo / 2 ^ 32 < 2 ^ 32).
    { split; [ apply Z.div_pos; lia | apply Z.div_lt_upper_bound; lia ]. }
    rewrite (Z.mod_small hi), (Z.mod_small (lo / 2 ^ 32)) by lia.
    lia. }
  split.
  { unfold Decimal.scale, parsed; fields.
    unfold constants.DECIMAL_SCALE_SHIFT at 1.
    rewrite shifted_scale_u32 by lia.
    apply scale_of_lor; [ lia | destruct negative; reflexivity ]. }
  { unfold Decimal.sign_bit, parsed; fields.
    unfold constants.DECIMAL_SCALE_SHIFT.
    rewrite shifted_scale_u32 by lia.
    rewrite sign_of_lor_scale by lia.
    destruct negative; reflexivity. }
Qed.

(** A normalized copy of [d] is equal to [d]. *)
Lemma eqb_normalized_copy (r d : Decimal.t) :
  limbs_valid r -> limbs_valid d ->
  0 < mantissa_value d < 2 ^ 96 ->
  Decimal.scale d <= 28 ->
  Decimal.sign_bit r = Decimal.sign_bit d ->
  0 <= Decimal.scale r <= Decimal.scale d ->
  mantissa_value d
  = mantissa_value r * 10 ^ (Decimal.scale d - Decimal.scale r) ->
  Decimal.eqb r d = true.
Proof.
  intros Hlr Hld Hm Hs28 Hsign Hsc Hval.
  unfold Decimal.eqb.
  rewrite (mantissa_value_zero d Hld).
  destruct (Z.eqb_spec (mantissa_value d) 0); [ lia | ].
  rewrite andb_false_r, Hsign, eqb_reflx. cbn [negb].
  unfold Decimal.alignScale.
  rewrite !mantissaAsInt128_value by assumption.
  destruct (Z.ltb_spec (Decimal.scale r) (Decimal.scale d)) as [Hlt | Hge].
  - unfold u8. rewrite Z.mod_small by lia.
    rewrite powerOf10_table by lia.
    unfold Int128.mul. rewrite <- Hval.
    rewrite wrap_small by (unfold Int128.valid; lia).
    apply Z.eqb_refl.
  - destruct (Z.ltb_spec (Decimal.scale d) (Decimal.scale r)); [ lia | ].
    replace (Decimal.scale d - Decimal.scale r) with 0 in Hval by lia.
    rewrite Z.pow_0_r, Z.mul_1_r in Hval. rewrite Hval.
    apply Z.eqb_refl.
Qed.

Lemma layout_head (ds : list ascii) (m : Z) (sc : nat) :
  numeral ds m -> 0 < m ->
  exists c body, layout ds sc = c :: body /\ is_digit c.
Proof.
  intros Hn Hm.
  destruct (numeral_nonempty ds m Hn Hm) as (c & ds' & -> & Hc).
  unfold layout.
  destruct (0 <? sc)%nat; [ | eauto ].
  destruct (Nat.leb_spec (List.length (c :: ds')) sc) as [ | Hgt].
  - exists "0"%char. eexists. split; [ reflexivity | reflexivity ].
  - cbn [List.length] in *.
    replace (S (List.length ds') - sc)%nat
      with (S (List.length ds' - sc)) by lia.
    cbn [firstn app]. eauto.
Qed.

Lemma Decimal_roundtrip (L : nat) (d : Decimal.t) :
  (28 <= L)%nat ->
  limbs_valid d ->
  Decimal.scale d <= 28 ->
  mantissa_value d < 10 ^ 28 ->
  exists r, Decimal.fromString (Decimal.toString L d) = Some r
            /\ Decimal.eqb r d = true.
Proof.
  intros HL Hl Hs Hm.
  pose proof (mantissa_value_range d Hl) as Hr.
  pose proof (scale_range d) as Hsr.
  destruct (Z.eq_dec (mantissa_value d) 0) as [Hz | Hnz].
  { (* zero prints as "0" *)
    assert (Hmz : Decimal.mantissa_is_zero d = true)
      by (rewrite (mantissa_value_zero d Hl); apply Z.eqb_eq; exact Hz).
    unfold Decimal.toString. rewrite Hmz.
    exists Decimal.zero. split; [ reflexivity | ].
    apply eqb_both_zero; [ reflexivity | exact Hmz ]. }
  destruct (toString_layout L d HL Hl ltac:(lia)) as (ds & Hn & ->).
  set (sc := Z.to_nat (Decimal.scale d)).
  set (sign := if Decimal.sign_bit d then ["-"%char] else []).
  set (str := sign ++ layout ds sc).
  destruct (layout_head ds _ sc Hn ltac:(lia)) as (c & body & Hlay & Hc).
  destruct (digit_not_sign c Hc) as [H45 H43].
  set (pos := List.length sign).
  assert (Hskip : skipn pos str = layout ds sc).
  { unfold str, pos. rewrite skipn_app, skipn_all, Nat.sub_diag. reflexivity. }
  assert (Hlen : List.length str = (pos + List.length (layout ds sc))%nat)
    by (unfold str, pos; apply length_app).
  assert (Hscan : scanned str pos (mantissa_value d) (Decimal.scale d)).
  { replace (Decimal.scale d) with (Z.of_nat sc) by (unfold sc; lia).
    apply (scan_layout ds); trivial; unfold sc; lia. }
  assert (Hfrom : Decimal.fromString str
                  = match Decimal.fromString_body str (Decimal.sign_bit d) pos with
                    | Ok r => r
                    | Error _ => None
                    end).
  { unfold Decimal.fromString, str, sign, pos. rewrite Hlay.
    destruct (Decimal.sign_bit d); cbn [app List.length].
    - change (Int128.code "-" =? 45) with true. cbv iota. reflexivity.
    - rewrite H45, H43. cbv iota. reflexivity. }
  rewrite Hfrom.
  rewrite (fromString_body_scanned str _ pos _ _ Hscan) by lia.
  destruct (parsed_spec (Decimal.sign_bit d) (mantissa_value d) (Decimal.scale d))
    as (Hpl & Hpv & Hps & Hpn); [ lia | lia | ].
  destruct (normalize_spec _ Hpl) as (r & -> & Hrl & _ & Hrs & Hrsc & Hrv).
  cbn [bind]. exists r. split; [ reflexivity | ].
  rewrite Hps in Hrsc, Hrv. rewrite Hpv in Hrv. rewrite Hpn in Hrs.
  apply eqb_normalized_copy; trivial; lia.
Qed.

(** ** C1: the round trip through text *)

(** C1, as the code has it.  For every decimal whose mantissa has at most
    28 decimal digits (mantissa below [10^28], scale at most 28, either
    sign), [Decimal::fromString(d.toString())] succeeds and the parsed value
    is equal to [d], whatever the size of the digit buffer of [toString]
    from 28 on ([DECIMAL_MAX_STRING_LENGTH], a constant of
    [Constants.h]); and for every Int128 [x],
    [Int128::fromString(x.toString())] succeeds and yields [x]. *)
Theorem string_roundtrip :
  (forall (L : nat) (d : Decimal.t),
      (28 <= L)%nat ->
      limbs_valid d ->
      Decimal.scale d <= 28 ->
      mantissa_value d < 10 ^ 28 ->
      exists r, Decimal.fromString (Decimal.toString L d) = Some r
                /\ Decimal.eqb r d = true)
  /\ (forall x : Int128.t,
         Int128.valid x ->
         exists s, Int128.toString x = Ok s /\ Int128.fromString s = Some x).
Proof.
  split; [ exact Decimal_roundtrip | exact Int128_roundtrip ].
Qed.

Lemma string_roundtrip_witness :
  (exists r,
      Decimal.fromString
        (Decimal.toString 32 (Decimal.mk 0x80020000 12345 0 0)) = Some r
      /\ Decimal.eqb r (Decimal.mk 0x80020000 12345 0 0) = true)
  /\ (exists s, Int128.toString (-42) = Ok s /\ Int128.fromString s = Some (-42)).
Proof.
  split.
  - apply (proj1 string_roundtrip 32%nat (Decimal.mk 0x80020000 12345 0 0)).
    + lia.
    + unfold limbs_valid; cbn; lia.
    + vm_compute. discriminate.
    + vm_compute. reflexivity.
  - apply (proj2 string_roundtrip (-42)). unfold Int128.valid. lia.
Defined.

(** C1, the counterexample.  [std::numeric_limits<Decimal>::max()] prints
    its 29 digits, and [fromString] stops after 28 significant digits: the
    parsed value is [7922816251426433759354395033], a tenth of the original.
    With a scale, [7.9228162514264337593543950335] comes back without its
    last digit. *)
Lemma string_roundtrip_29_digits :
  Decimal.toString 29 Decimal_max
  = list_ascii_of_string "79228162514264337593543950335"
  /\ Decimal.toString 64 Decimal_max = Decimal.toString 29 Decimal_max
  /\ Decimal.fromString (Decimal.toString 29 Decimal_max)
     = Some (literal "7922816251426433759354395033")
  /\ Decimal.eqb (literal "7922816251426433759354395033") Decimal_max = false
  /\ Decimal.fromString
       (Decimal.toString 29 (Decimal.with_flags Decimal_max 0x001C0000))
     = Some (literal "7.922816251426433759354395033")
  /\ Decimal.eqb (literal "7.922816251426433759354395033")
                 (Decimal.with_flags Decimal_max 0x001C0000) = false.
Proof.
  repeat split; vm_compute; reflexivity.
Qed.

(** * Further properties

    Properties of the functions around the ones above: the order and the
    arithmetic of decimals as values, rounding, the conversions between the
    two types, the portable Int128, and the text forms of both types. *)

(** ** Decimals as values *)

Lemma alignScale_exact (d o : Decimal.t) :
  well_formed d -> well_formed o -> alignable d o ->
  Decimal.alignScale d o
  = (mantissa_value d
       * 10 ^ (Z.max (Decimal.scale d) (Decimal.scale o) - Decimal.scale d),
     mantissa_value o
       * 10 ^ (Z.max (Decimal.scale d) (Decimal.scale o) - Decimal.scale o)).
Proof.
  intros [Hld Hsd] [Hlo Hso] [Ha Hb].
  pose proof (scale_range d) as Hrd. pose proof (scale_range o) as Hro.
  pose proof (mantissa_value_range d Hld) as Hmd.
  pose proof (mantissa_value_range o Hlo) as Hmo.
  cbv zeta in Ha, Hb.
  unfold Decimal.alignScale. rewrite !mantissaAsInt128_value by assumption.
  destruct (Z.ltb_spec (Decimal.scale d) (Decimal.scale o)) as [Hlt | Hge].
  - rewrite Z.max_r in * by lia. rewrite Z.sub_diag, Z.mul_1_r.
    unfold u8. rewrite Z.mod_small by lia.
    rewrite powerOf10_table by lia.
    unfold Int128.mul. rewrite wrap_small; [ reflexivity | ].
    unfold Int128.valid.
    assert (0 < 10 ^ (Decimal.scale o - Decimal.scale d))
      by (apply Z.pow_pos_nonneg; lia).
    nia.
  - destruct (Z.ltb_spec (Decimal.scale o) (Decimal.scale d)) as [Hlt | Hge'].
    + rewrite Z.max_l in * by lia. rewrite Z.sub_diag, Z.mul_1_r.
      unfold u8. rewrite Z.mod_small by lia.
      rewrite powerOf10_table by lia.
      unfold Int128.mul. rewrite wrap_small; [ reflexivity | ].
      unfold Int128.valid.
      assert (0 < 10 ^ (Decimal.scale d - Decimal.scale o))
        by (apply Z.pow_pos_nonneg; lia).
      nia.
    + replace (Decimal.scale o) with (Decimal.scale d) by lia.
      rewrite Z.max_id, Z.sub_diag, !Z.mul_1_r. reflexivity.
Qed.

Lemma ltb_zero_sign (d : Decimal.t) :
  limbs_valid d -> Decimal.ltb d Decimal.zero = Decimal.sign_bit d.
Proof.
  intros Hl. unfold Decimal.ltb, Decimal.compare.
  change (Decimal.sign_bit Decimal.zero) with false.
  destruct (Decimal.sign_bit d); cbn [Bool.eqb negb]; [ reflexivity | ].
  pose proof (scale_range d) as Hr.
  pose proof (mantissa_value_range d Hl) as Hm.
  unfold Decimal.alignScale.
  change (Decimal.scale Decimal.zero) with 0.
  change (Decimal.mantissaAsInt128 Decimal.zero) with 0.
  rewrite mantissaAsInt128_value by assumption.
  destruct (Z.ltb_spec (Decimal.scale d) 0); [ lia | ].
  destruct (Z.ltb_spec 0 (Decimal.scale d)); rewrite ?mul_0_l;
    unfold Int128.ltb, Int128.gtb;
    (destruct (Z.ltb_spec (mantissa_value d) 0); [ lia | ]);
    destruct (mantissa_value d >? 0); reflexivity.
Qed.

Lemma signed_mantissa_abs (d : Decimal.t) :
  limbs_valid d -> Z.abs (signed_mantissa d) = mantissa_value d.
Proof.
  intros Hl. pose proof (mantissa_value_range d Hl).
  unfold signed_mantissa. destruct (Decimal.sign_bit d); lia.
Qed.

(** [operator<=>] compares the values, counted in units of the larger
    scale. *)
Lemma compare_units (d o : Decimal.t) :
  well_formed d -> well_formed o -> alignable d o ->
  (mantissa_value d = 0 -> mantissa_value o = 0 ->
   Decimal.sign_bit d = Decimal.sign_bit o) ->
  Decimal.compare d o
  = (units (Z.max (Decimal.scale d) (Decimal.scale o)) d
     ?= units (Z.max (Decimal.scale d) (Decimal.scale o)) o).
Proof.
  intros Hd Ho Ha Hz.
  pose proof (alignScale_exact d o Hd Ho Ha) as Hal.
  destruct Hd as [Hld Hsd], Ho as [Hlo Hso].
  pose proof (scale_range d) as Hrd. pose proof (scale_range o) as Hro.
  pose proof (mantissa_value_range d Hld) as Hmd.
  pose proof (mantissa_value_range o Hlo) as Hmo.
  unfold Decimal.compare. rewrite Hal. unfold units, signed_mantissa.
  set (S := Z.max (Decimal.scale d) (Decimal.scale o)) in *.
  assert (Hpd : 0 < 10 ^ (S - Decimal.scale d))
    by (apply Z.pow_pos_nonneg; lia).
  assert (Hpo : 0 < 10 ^ (S - Decimal.scale o))
    by (apply Z.pow_pos_nonneg; lia).
  set (A := mantissa_value d * 10 ^ (S - Decimal.scale d)).
  set (B := mantissa_value o * 10 ^ (S - Decimal.scale o)).
  assert (HA : 0 <= A) by (unfold A; nia).
  assert (HB : 0 <= B) by (unfold B; nia).
  assert (HA0 : A = 0 -> mantissa_value d = 0) by (unfold A; nia).
  assert (HB0 : B = 0 -> mantissa_value o = 0) by (unfold B; nia).
  unfold Int128.ltb, Int128.gtb.
  destruct (Decimal.sign_bit d) eqn:Sd, (Decimal.sign_bit o) eqn:So;
    cbn [Bool.eqb negb].
  - rewrite Z.mul_opp_l. fold A. rewrite Z.mul_opp_l. fold B.
    symmetry.
    destruct (Z.gtb_spec A B); [ apply Z.compare_lt_iff; lia | ].
    destruct (Z.ltb_spec A B); [ apply Z.compare_gt_iff; lia | ].
    apply Z.compare_eq_iff; lia.
  - rewrite Z.mul_opp_l. fold A. fold B. symmetry. apply Z.compare_lt_iff.
    destruct (Z.eq_dec A 0) as [HA' | ]; [ | lia ].
    destruct (Z.eq_dec B 0) as [HB' | ]; [ | lia ].
    specialize (Hz (HA0 HA') (HB0 HB')). discriminate.
  - rewrite Z.mul_opp_l. fold A. fold B. symmetry. apply Z.compare_gt_iff.
    destruct (Z.eq_dec A 0) as [HA' | ]; [ | lia ].
    destruct (Z.eq_dec B 0) as [HB' | ]; [ | lia ].
    specialize (Hz (HA0 HA') (HB0 HB')). discriminate.
  - fold A. fold B. symmetry.
    destruct (Z.ltb_spec A B); [ apply Z.compare_lt_iff; lia | ].
    destruct (Z.gtb_spec A B); [ apply Z.compare_gt_iff; lia | ].
    apply Z.compare_eq_iff; lia.
Qed.

(** [operator==] compares the values. *)
Lemma eqb_units (d o : Decimal.t) :
  well_formed d -> well_formed o -> alignable d o ->
  Decimal.eqb d o
  = (units (Z.max (Decimal.scale d) (Decimal.scale o)) d
     =? units (Z.max (Decimal.scale d) (Decimal.scale o)) o).
Proof.
  intros Hd Ho Ha.
  pose proof (alignScale_exact d o Hd Ho Ha) as Hal.
  destruct Hd as [Hld Hsd], Ho as [Hlo Hso].
  pose proof (scale_range d) as Hrd. pose proof (scale_range o) as Hro.
  pose proof (mantissa_value_range d Hld) as Hmd.
  pose proof (mantissa_value_range o Hlo) as Hmo.
  unfold Decimal.eqb. rewrite Hal. unfold units, signed_mantissa.
  rewrite (mantissa_value_zero d Hld), (mantissa_value_zero o Hlo).
  set (S := Z.max (Decimal.scale d) (Decimal.scale o)) in *.
  assert (Hpd : 0 < 10 ^ (S - Decimal.scale d))
    by (apply Z.pow_pos_nonneg; lia).
  assert (Hpo : 0 < 10 ^ (S - Decimal.scale o))
    by (apply Z.pow_pos_nonneg; lia).
  set (A := mantissa_value d * 10 ^ (S - Decimal.scale d)).
  set (B := mantissa_value o * 10 ^ (S - Decimal.scale o)).
  assert (HA : 0 <= A) by (unfold A; nia).
  assert (HB : 0 <= B) by (unfold B; nia).
  assert (HA0 : A = 0 <-> mantissa_value d = 0) by (unfold A; nia).
  assert (HB0 : B = 0 <-> mantissa_value o = 0) by (unfold B; nia).
  unfold Int128.eqb.
  destruct (Z.eqb_spec (mantissa_value d) 0) as [Zd | Nd];
  destruct (Z.eqb_spec (mantissa_value o) 0) as [Zo | No]; cbn [andb];
  destruct (Decimal.sign_bit d), (Decimal.sign_bit o); cbn [Bool.eqb negb];
    rewrite ?Z.mul_opp_l; fold A; fold B;
    repeat match goal with
           | |- context [ ?x =? ?y ] => destruct (Z.eqb_spec x y)
           end;
    try reflexivity; exfalso; lia.
Qed.

(** ** Addition and subtraction *)

Lemma land_lor_sign_scale (f : Z) :
  Z.land (Z.lor f constants.DECIMAL_SIGN_MASK) constants.DECIMAL_SCALE_MASK
  = Z.land f constants.DECIMAL_SCALE_MASK.
Proof.
  rewrite Z.land_lor_distr_l.
  replace (Z.land constants.DECIMAL_SIGN_MASK constants.DECIMAL_SCALE_MASK)
    with 0 by reflexivity.
  apply Z.lor_0_r.
Qed.

Lemma scale_set_sign (d : Decimal.t) :
  Decimal.scale (Decimal.set_sign d) = Decimal.scale d.
Proof.
  unfold Decimal.scale, Decimal.set_sign; fields.
  rewrite land_lor_sign_scale. reflexivity.
Qed.

Lemma sign_set_sign (d : Decimal.t) :
  Decimal.sign_bit (Decimal.set_sign d) = true.
Proof.
  unfold Decimal.sign_bit, Decimal.set_sign; fields.
  rewrite Z.land_lor_distr_l.
  replace (Z.land constants.DECIMAL_SIGN_MASK constants.DECIMAL_SIGN_MASK)
    with constants.DECIMAL_SIGN_MASK by reflexivity.
  destruct (Z.eqb_spec (Z.lor (Z.land (Decimal.flags d) constants.DECIMAL_SIGN_MASK)
                              constants.DECIMAL_SIGN_MASK) 0) as [E | ];
    [ | reflexivity ].
  apply Z.lor_eq_0_iff in E. destruct E as [_ E]. discriminate E.
Qed.

(** The decimal that [operator+] builds before the sign is settled. *)
Lemma add_flags (d x : Decimal.t) (s : Z) :
  0 <= s < 256 ->
  let res :=
    Decimal.with_flags x
      (Z.lor (Z.land (Decimal.flags d) (u32 (Z.lnot constants.DECIMAL_SCALE_MASK)))
             (u32 (Z.shiftl s constants.DECIMAL_SCALE_SHIFT))) in
  Decimal.scale res = s /\ Decimal.sign_bit res = Decimal.sign_bit d.
Proof.
  intros Hs res.
  assert (E : res = Decimal.with_flags x (Decimal.replace_scale (Decimal.flags d) s)).
  { unfold res, Decimal.replace_scale.
    replace (u32 s) with s by (unfold u32; rewrite Z.mod_small; lia).
    reflexivity. }
  rewrite E. split; [ apply scale_replace; lia | ].
  rewrite sign_replace by lia. reflexivity.
Qed.

Lemma units_of (S : Z) (r : Decimal.t) :
  units S r = (if Decimal.sign_bit r then -1 else 1)
              * (mantissa_value r * 10 ^ (S - Decimal.scale r)).
Proof. unfold units, signed_mantissa. destruct (Decimal.sign_bit r); lia. Qed.

(** [normalize] keeps the value. *)
Lemma normalize_units (x : Decimal.t) (S : Z) :
  limbs_valid x -> Decimal.scale x <= S ->
  exists r, Decimal.normalize x = Ok r /\ limbs_valid r /\ normalized r
            /\ 0 <= Decimal.scale r <= Decimal.scale x
            /\ Decimal.sign_bit r = Decimal.sign_bit x
            /\ units S r = units S x.
Proof.
  intros Hl Hs.
  destruct (normalize_spec x Hl) as (r & H1 & H2 & H3 & H4 & H5 & H6).
  exists r. repeat (split; [ assumption | ]).
  rewrite !units_of, H4, H6.
  replace (S - Decimal.scale r)
    with ((Decimal.scale x - Decimal.scale r) + (S - Decimal.scale x)) by lia.
  rewrite Z.pow_add_r by lia. lia.
Qed.

(** The value that [operator+] returns. *)
Lemma add_units (d o : Decimal.t) :
  well_formed d -> well_formed o -> alignable d o ->
  Z.abs (units (Z.max (Decimal.scale d) (Decimal.scale o)) d
         + units (Z.max (Decimal.scale d) (Decimal.scale o)) o) < 2 ^ 96 ->
  exists r,
    Decimal.add d o = Ok r /\
    limbs_valid r /\
    0 <= Decimal.scale r <= Z.max (Decimal.scale d) (Decimal.scale o) /\
    units (Z.max (Decimal.scale d) (Decimal.scale o)) r
    = if (units (Z.max (Decimal.scale d) (Decimal.scale o)) d <? 0)
         && (0 <? units (Z.max (Decimal.scale d) (Decimal.scale o)) d
                  + units (Z.max (Decimal.scale d) (Decimal.scale o)) o)
      then - (units (Z.max (Decimal.scale d) (Decimal.scale o)) d
              + units (Z.max (Decimal.scale d) (Decimal.scale o)) o)
      else units (Z.max (Decimal.scale d) (Decimal.scale o)) d
           + units (Z.max (Decimal.scale d) (Decimal.scale o)) o.
Proof.
  intros Hd Ho Ha Hfit.
  pose proof (alignScale_exact d o Hd Ho Ha) as Hal.
  destruct Hd as [Hld Hsd], Ho as [Hlo Hso].
  pose proof (scale_range d) as Hrd. pose proof (scale_range o) as Hro.
  pose proof (mantissa_value_range d Hld) as Hmd.
  pose proof (mantissa_value_range o Hlo) as Hmo.
  destruct Ha as [Ha Hb]. cbv zeta in Ha, Hb.
  set (S := Z.max (Decimal.scale d) (Decimal.scale o)) in *.
  assert (HS : 0 <= S < 256) by lia.
  assert (Hpd : 0 < 10 ^ (S - Decimal.scale d))
    by (apply Z.pow_pos_nonneg; lia).
  assert (Hpo : 0 < 10 ^ (S - Decimal.scale o))
    by (apply Z.pow_pos_nonneg; lia).
  rewrite (units_of S d), (units_of S o) in *.
  set (A := mantissa_value d * 10 ^ (S - Decimal.scale d)) in *.
  set (B := mantissa_value o * 10 ^ (S - Decimal.scale o)) in *.
  assert (HA : 0 <= A) by (unfold A; nia).
  assert (HB : 0 <= B) by (unfold B; nia).
  assert (HA0 : A = 0 <-> mantissa_value d = 0) by (unfold A; nia).
  assert (HB0 : B = 0 <-> mantissa_value o = 0) by (unfold B; nia).
  unfold Decimal.add.
  rewrite (eqb_zero_r d Hld), (eqb_zero_r o Hlo).
  rewrite (mantissa_value_zero d Hld), (mantissa_value_zero o Hlo).
  destruct (Z.eqb_spec (mantissa_value d) 0) as [Zd | Nd].
  { exists o. split; [ reflexivity | ]. split; [ assumption | ].
    split; [ lia | ].
    rewrite (units_of S o). fold B.
    replace A with 0 by lia. rewrite Z.mul_0_r.
    change (0 <? 0) with false. cbn [andb]. lia. }
  destruct (Z.eqb_spec (mantissa_value o) 0) as [Zo | No].
  { exists d. split; [ reflexivity | ]. split; [ assumption | ].
    split; [ lia | ].
    rewrite (units_of S d). fold A.
    replace B with 0 by lia. rewrite Z.mul_0_r, Z.add_0_r.
    destruct (Decimal.sign_bit d).
    - destruct (Z.ltb_spec (-1 * A) 0), (Z.ltb_spec 0 (-1 * A));
        cbn [andb]; lia.
    - destruct (Z.ltb_spec (1 * A) 0); cbn [andb]; lia. }
  rewrite Hal. rewrite !(ltb_zero_sign) by assumption.
  unfold Int128.add, Int128.sub, Int128.gtb.
  match goal with
  | |- context [ Decimal.with_flags ?x ?f ] =>
      destruct (add_flags d x S HS) as [Hsc Hsg];
      set (res := Decimal.with_flags x f) in *;
      change (Decimal.scale res = S) in Hsc;
      change (Decimal.sign_bit res = Decimal.sign_bit d) in Hsg
  end.
  assert (Hres : forall v, mantissa_value (Decimal.setMantissa res v) = v mod 2 ^ 96)
    by (intros v; apply setMantissa_value).
  assert (Hres0 : mantissa_value res = (Int128.wrap (A + B)) mod 2 ^ 96)
    by (apply setMantissa_value).
  assert (HAB : 0 < A /\ 0 < B) by lia.
  destruct (Decimal.sign_bit d) eqn:Sd, (Decimal.sign_bit o) eqn:So;
    cbn [Bool.eqb negb].
  - (* both negative *)
    assert (Hsum : A + B < 2 ^ 96) by lia.
    destruct (normalize_units (Decimal.set_sign res) S)
      as (r & Hr & Hlr & _ & Hscr & Hsgr & Hu);
      [ apply limbs_set_sign; apply setMantissa_limbs
      | rewrite scale_set_sign; lia | ].
    exists r. split; [ exact Hr | ]. split; [ exact Hlr | ].
    rewrite scale_set_sign in Hscr. split; [ lia | ].
    rewrite Hu, units_of, sign_set_sign, scale_set_sign, Hsc, Z.sub_diag.
    change (mantissa_value (Decimal.set_sign res)) with (mantissa_value res).
    rewrite Hres0, wrap_small by (unfold Int128.valid; lia).
    rewrite Z.mod_small by lia.
    destruct (Z.ltb_spec 0 (-1 * A + -1 * B)); [ lia | ].
    rewrite andb_false_r. lia.
  - (* d negative, o positive *)
    destruct (Z.gtb_spec A B) as [Hgt | Hle].
    + destruct (normalize_units
                  (Decimal.set_sign (Decimal.setMantissa res (Int128.wrap (A - B)))) S)
        as (r & Hr & Hlr & _ & Hscr & Hsgr & Hu);
        [ apply limbs_set_sign; apply setMantissa_limbs
        | rewrite scale_set_sign; change (Decimal.scale (Decimal.setMantissa res _))
            with (Decimal.scale res); lia | ].
      exists r. split; [ exact Hr | ]. split; [ exact Hlr | ].
      rewrite scale_set_sign in Hscr.
      change (Decimal.scale (Decimal.setMantissa res (Int128.wrap (A - B))))
        with (Decimal.scale res) in Hscr.
      split; [ lia | ].
      rewrite Hu, units_of, sign_set_sign, scale_set_sign.
      change (Decimal.scale (Decimal.setMantissa res (Int128.wrap (A - B))))
        with (Decimal.scale res).
      rewrite Hsc, Z.sub_diag.
      change (mantissa_value (Decimal.set_sign (Decimal.setMantissa res (Int128.wrap (A - B)))))
        with (mantissa_value (Decimal.setMantissa res (Int128.wrap (A - B)))).
      rewrite Hres, wrap_small by (unfold Int128.valid; lia).
      rewrite Z.mod_small by lia.
      destruct (Z.ltb_spec 0 (-1 * A + 1 * B)); [ lia | ].
      rewrite andb_false_r. lia.
    + destruct (normalize_units (Decimal.setMantissa res (Int128.wrap (B - A))) S)
        as (r & Hr & Hlr & _ & Hscr & Hsgr & Hu);
        [ apply setMantissa_limbs
        | change (Decimal.scale (Decimal.setMantissa res _))
            with (Decimal.scale res); lia | ].
      exists r. split; [ exact Hr | ]. split; [ exact Hlr | ].
      change (Decimal.scale (Decimal.setMantissa res (Int128.wrap (B - A))))
        with (Decimal.scale res) in Hscr.
      split; [ lia | ].
      rewrite Hu, units_of.
      change (Decimal.sign_bit (Decimal.setMantissa res (Int128.wrap (B - A))))
        with (Decimal.sign_bit res).
      change (Decimal.scale (Decimal.setMantissa res (Int128.wrap (B - A))))
        with (Decimal.scale res).
      rewrite Hsg, Hsc, Z.sub_diag.
      rewrite Hres, wrap_small by (unfold Int128.valid; lia).
      rewrite Z.mod_small by lia.
      destruct (Z.ltb_spec (-1 * A) 0); [ | lia ].
      destruct (Z.ltb_spec 0 (-1 * A + 1 * B)); cbn [andb]; lia.
  - (* d positive, o negative *)
    destruct (Z.gtb_spec A B) as [Hgt | Hle].
    + destruct (normalize_units (Decimal.setMantissa res (Int128.wrap (A - B))) S)
        as (r & Hr & Hlr & _ & Hscr & Hsgr & Hu);
        [ apply setMantissa_limbs
        | change (Decimal.scale (Decimal.setMantissa res _))
            with (Decimal.scale res); lia | ].
      exists r. split; [ exact Hr | ]. split; [ exact Hlr | ].
      change (Decimal.scale (Decimal.setMantissa res (Int128.wrap (A - B))))
        with (Decimal.scale res) in Hscr.
      split; [ lia | ].
      rewrite Hu, units_of.
      change (Decimal.sign_bit (Decimal.setMantissa res (Int128.wrap (A - B))))
        with (Decimal.sign_bit res).
      change (Decimal.scale (Decimal.setMantissa res (Int128.wrap (A - B))))
        with (Decimal.scale res).
      rewrite Hsg, Hsc, Z.sub_diag.
      rewrite Hres, wrap_small by (unfold Int128.valid; lia).
      rewrite Z.mod_small by lia.
      destruct (Z.ltb_spec (1 * A) 0); [ lia | ]. cbn [andb]. lia.
    + destruct (normalize_units
                  (Decimal.set_sign (Decimal.setMantissa res (Int128.wrap (B - A)))) S)
        as (r & Hr & Hlr & _ & Hscr & Hsgr & Hu);
        [ apply limbs_set_sign; apply setMantissa_limbs
        | rewrite scale_set_sign; change (Decimal.scale (Decimal.setMantissa res _))
            with (Decimal.scale res); lia | ].
      exists r. split; [ exact Hr | ]. split; [ exact Hlr | ].
      rewrite scale_set_sign in Hscr.
      change (Decimal.scale (Decimal.setMantissa res (Int128.wrap (B - A))))
        with (Decimal.scale res) in Hscr.
      split; [ lia | ].
      rewrite Hu, units_of, sign_set_sign, scale_set_sign.
      change (Decimal.scale (Decimal.setMantissa res (Int128.wrap (B - A))))
        with (Decimal.scale res).
      rewrite Hsc, Z.sub_diag.
      change (mantissa_value (Decimal.set_sign (Decimal.setMantissa res (Int128.wrap (B - A)))))
        with (mantissa_value (Decimal.setMantissa res (Int128.wrap (B - A)))).
      rewrite Hres, wrap_small by (unfold Int128.valid; lia).
      rewrite Z.mod_small by lia.
      destruct (Z.ltb_spec (1 * A) 0); [ lia | ]. cbn [andb]. lia.
  - (* both positive *)
    assert (Hsum : A + B < 2 ^ 96) by lia.
    destruct (normalize_units res S)
      as (r & Hr & Hlr & _ & Hscr & Hsgr & Hu);
      [ apply setMantissa_limbs | lia | ].
    exists r. split; [ exact Hr | ]. split; [ exact Hlr | ].
    split; [ lia | ].
    rewrite Hu, units_of, Hsg, Hsc, Z.sub_diag.
    rewrite Hres0, wrap_small by (unfold Int128.valid; lia).
    rewrite Z.mod_small by lia.
    destruct (Z.ltb_spec (1 * A) 0); [ lia | ]. cbn [andb]. lia.
Qed.

Lemma land_pow2_testbit (f n : Z) :
  0 <= n -> (Z.land f (2 ^ n) =? 0) = negb (Z.testbit f n).
Proof.
  intros Hn. destruct (Z.testbit f n) eqn:Hb; cbn [negb].
  - apply Z.eqb_neq. intros E.
    assert (Hc : Z.testbit (Z.land f (2 ^ n)) n = false)
      by (rewrite E; apply Z.bits_0).
    rewrite Z.land_spec, Hb, Z.pow2_bits_true in Hc by lia. discriminate.
  - apply Z.eqb_eq. apply Z.bits_inj'. intros k Hk.
    rewrite Z.land_spec, Z.bits_0.
    destruct (Z.eq_dec k n) as [-> | Hne].
    + rewrite Hb. reflexivity.
    + rewrite Z.pow2_bits_false by lia. apply andb_false_r.
Qed.

Lemma sign_bit_testbit (d : Decimal.t) :
  Decimal.sign_bit d = Z.testbit (Decimal.flags d) 31.
Proof.
  unfold Decimal.sign_bit.
  change constants.DECIMAL_SIGN_MASK with (2 ^ 31).
  rewrite land_pow2_testbit by lia. apply negb_involutive.
Qed.

Lemma sign_neg (d : Decimal.t) :
  Decimal.sign_bit (Decimal.neg d) = negb (Decimal.sign_bit d).
Proof.
  rewrite !sign_bit_testbit. unfold Decimal.neg; fields.
  rewrite Z.lxor_spec.
  change constants.DECIMAL_SIGN_MASK with (2 ^ 31).
  rewrite Z.pow2_bits_true by lia. apply xorb_true_r.
Qed.

Lemma scale_neg (d : Decimal.t) : Decimal.scale (Decimal.neg d) = Decimal.scale d.
Proof. apply scale_flip_sign. Qed.

Lemma units_neg (S : Z) (d : Decimal.t) :
  units S (Decimal.neg d) = - units S d.
Proof.
  rewrite !units_of, sign_neg, scale_neg.
  change (mantissa_value (Decimal.neg d)) with (mantissa_value d).
  destruct (Decimal.sign_bit d); cbn [negb]; lia.
Qed.

Lemma sub_units (d o : Decimal.t) :
  well_formed d -> well_formed o -> alignable d o ->
  Z.abs (units (Z.max (Decimal.scale d) (Decimal.scale o)) d
         - units (Z.max (Decimal.scale d) (Decimal.scale o)) o) < 2 ^ 96 ->
  exists r,
    Decimal.sub d o = Ok r /\
    limbs_valid r /\
    0 <= Decimal.scale r <= Z.max (Decimal.scale d) (Decimal.scale o) /\
    units (Z.max (Decimal.scale d) (Decimal.scale o)) r
    = if (units (Z.max (Decimal.scale d) (Decimal.scale o)) d <? 0)
         && (0 <? units (Z.max (Decimal.scale d) (Decimal.scale o)) d
                  - units (Z.max (Decimal.scale d) (Decimal.scale o)) o)
      then - (units (Z.max (Decimal.scale d) (Decimal.scale o)) d
              - units (Z.max (Decimal.scale d) (Decimal.scale o)) o)
      else units (Z.max (Decimal.scale d) (Decimal.scale o)) d
           - units (Z.max (Decimal.scale d) (Decimal.scale o)) o.
Proof.
  intros Hd Ho Ha Hfit.
  change (Decimal.sub d o) with (Decimal.add d (Decimal.neg o)).
  pose proof (scale_neg o) as Hs.
  assert (Hu : forall S, units S (Decimal.neg o) = - units S o)
    by (intros; apply units_neg).
  destruct (add_units d (Decimal.neg o)) as (r & H1 & H2 & H3 & H4).
  - exact Hd.
  - destruct Ho as [Hl Hsc]. split; [ exact Hl | rewrite Hs; exact Hsc ].
  - unfold alignable in *. rewrite Hs.
    change (mantissa_value (Decimal.neg o)) with (mantissa_value o). exact Ha.
  - rewrite Hs, Hu, Z.add_opp_r. exact Hfit.
  - exists r. rewrite Hs, Hu, !Z.add_opp_r in *. auto.
Qed.

(** ** C6: the zero that negation, subtraction and rounding leave *)

(** [a - a] for a non-zero [a]: the two aligned mantissas are equal, the
    branch for operands of different sign stores their difference, and the
    sign bit comes from the flags of [a] or from the negated operand. *)
Lemma sub_self (a : Decimal.t) :
  well_formed a -> mantissa_value a <> 0 ->
  exists r,
    Decimal.sub a a = Ok r /\ limbs_valid r
    /\ mantissa_value r = 0 /\ Decimal.scale r = 0
    /\ Decimal.sign_bit r = true.
Proof.
  intros Ha Hnz. pose proof Ha as [Hl Hs].
  pose proof (scale_range a) as Hr.
  pose proof (mantissa_value_range a Hl) as Hm.
  change (Decimal.sub a a) with (Decimal.add a (Decimal.neg a)).
  set (o := Decimal.neg a).
  assert (Hlo : limbs_valid o) by exact Hl.
  assert (Hso : Decimal.scale o = Decimal.scale a) by apply scale_neg.
  assert (Hgo : Decimal.sign_bit o = negb (Decimal.sign_bit a)) by apply sign_neg.
  assert (Hmo : mantissa_value o = mantissa_value a) by reflexivity.
  assert (Ho : well_formed o) by (split; [ exact Hlo | rewrite Hso; exact Hs ]).
  assert (Hmax : Z.max (Decimal.scale a) (Decimal.scale o) = Decimal.scale a)
    by (rewrite Hso; apply Z.max_id).
  assert (Hal : alignable a o).
  { unfold alignable. cbv zeta. rewrite Hmax, Hso, Hmo, Z.sub_diag. lia. }
  pose proof (alignScale_exact a o Ha Ho Hal) as E.
  rewrite Hmax, Hso, Hmo, Z.sub_diag, Z.pow_0_r, Z.mul_1_r in E.
  unfold Decimal.add.
  rewrite (eqb_zero_r a Hl), (eqb_zero_r o Hlo).
  rewrite (mantissa_value_zero a Hl), (mantissa_value_zero o Hlo), Hmo.
  destruct (Z.eqb_spec (mantissa_value a) 0) as [ | _]; [ contradiction | ].
  rewrite E, Hmax. rewrite !ltb_zero_sign by assumption. rewrite Hgo.
  unfold Int128.gtb. rewrite Z.gtb_ltb, Z.ltb_irrefl.
  unfold Int128.sub. rewrite Z.sub_diag.
  change (Int128.wrap 0) with 0.
  match goal with
  | |- context [ Decimal.with_flags ?x ?f ] =>
      destruct (add_flags a x (Decimal.scale a) Hr) as [Hsc Hsg];
      set (res := Decimal.with_flags x f) in *;
      change (Decimal.scale res = Decimal.scale a) in Hsc;
      change (Decimal.sign_bit res = Decimal.sign_bit a) in Hsg
  end.
  assert (Hfin : forall x : Decimal.t,
             limbs_valid x -> mantissa_value x = 0 -> Decimal.sign_bit x = true ->
             exists r, Decimal.normalize x = Ok r /\ limbs_valid r
                       /\ mantissa_value r = 0 /\ Decimal.scale r = 0
                       /\ Decimal.sign_bit r = true).
  { intros x Hlx Hx0 Hxs.
    destruct (normalize_spec x Hlx) as (r & Hn & Hlr & Hnr & Hsr & Hscr & Hv).
    exists r. split; [ exact Hn | ]. split; [ exact Hlr | ].
    pose proof (mantissa_value_range r Hlr) as Hmr.
    assert (Hp : 0 < 10 ^ (Decimal.scale x - Decimal.scale r))
      by (apply Z.pow_pos_nonneg; lia).
    assert (Hr0 : mantissa_value r = 0) by nia.
    split; [ exact Hr0 | ].
    split; [ | rewrite Hsr; exact Hxs ].
    destruct Hnr as [H0 | Hn0]; [ exact H0 | ].
    rewrite Hr0 in Hn0. exfalso. apply Hn0. reflexivity. }
  assert (Hz : mantissa_value (Decimal.setMantissa res 0) = 0)
    by (rewrite setMantissa_value; reflexivity).
  destruct (Decimal.sign_bit a) eqn:Sa; cbn [negb Bool.eqb].
  - apply Hfin; [ apply setMantissa_limbs | exact Hz | exact Hsg ].
  - apply Hfin; [ apply limbs_set_sign, setMantissa_limbs | exact Hz
                | apply sign_set_sign ].
Qed.

(** C6. The canonical form does not hold of every result.  Unary negation
    turns [Decimal{}] into a zero with the sign bit set.  [a - a] is, for
    every non-zero [a], a zero with the sign bit set: [operator==] finds it
    equal to [Decimal{}] and [operator<] finds it below [Decimal{}].
    [operator*] and [operator/] return [Decimal{}] itself for a zero
    operand and a zero dividend, so the sign of a zero depends on the
    operator that produced it.  [Decimal::round] returns without
    normalizing: [Decimal("2.95").round(1)] has mantissa 30 and scale 1, and
    [Decimal("0.04").round(1, ToZero)] is a zero of scale 1. *)
Theorem zero_sign_not_canonical :
  (Decimal.neg Decimal.zero = Decimal.mk constants.DECIMAL_SIGN_MASK 0 0 0
   /\ ~ canonical (Decimal.neg Decimal.zero))
  /\ (forall a : Decimal.t,
         well_formed a -> mantissa_value a <> 0 ->
         exists r,
           Decimal.sub a a = Ok r
           /\ mantissa_value r = 0 /\ Decimal.scale r = 0
           /\ Decimal.sign_bit r = true /\ ~ canonical r
           /\ Decimal.eqb r Decimal.zero = true
           /\ Decimal.ltb r Decimal.zero = true)
  /\ (forall d other : Decimal.t,
         Decimal.eqb d Decimal.zero = true
         \/ Decimal.eqb other Decimal.zero = true ->
         Decimal.mul d other = Ok Decimal.zero)
  /\ (forall (E T : Z) (d other : Decimal.t),
         Decimal.eqb other Decimal.zero = false ->
         Decimal.eqb d Decimal.zero = true ->
         Decimal.div E T d other = Ok Decimal.zero)
  /\ (Decimal.round (literal "2.95") 1 Decimal.ToNearest
      = Ok (Decimal.mk 0x00010000 30 0 0)
      /\ ~ normalized (Decimal.mk 0x00010000 30 0 0))
  /\ (Decimal.round (literal "0.04") 1 Decimal.ToZero
      = Ok (Decimal.mk 0x00010000 0 0 0)
      /\ ~ normalized (Decimal.mk 0x00010000 0 0 0)).
Proof.
  split; [ | split; [ | split; [ | split; [ | split ] ] ] ].
  - split; [ reflexivity | ].
    intros [_ H]. destruct (H eq_refl) as [_ Hs]. discriminate Hs.
  - intros a Ha Hnz.
    destruct (sub_self a Ha Hnz) as (r & Hr & Hl & Hm & Hsc & Hsg).
    exists r. split; [ exact Hr | ]. split; [ exact Hm | ].
    split; [ exact Hsc | ]. split; [ exact Hsg | ].
    split.
    { intros [_ H]. destruct (H Hm) as [_ Hs]. rewrite Hsg in Hs. discriminate Hs. }
    split.
    + rewrite (eqb_zero_r r Hl), (mantissa_value_zero r Hl), Hm. reflexivity.
    + rewrite (ltb_zero_sign r Hl). exact Hsg.
  - intros d other H. unfold Decimal.mul.
    destruct H as [-> | ->]; [ reflexivity | ].
    rewrite orb_true_r. reflexivity.
  - intros E T d other Ho Hd. unfold Decimal.div. rewrite Ho, Hd. reflexivity.
  - split; [ vm_compute; reflexivity | ].
    intros [H | H]; [ discriminate H | apply H; reflexivity ].
  - split; [ vm_compute; reflexivity | ].
    intros [H | H]; [ discriminate H | apply H; reflexivity ].
Qed.

Lemma zero_sign_not_canonical_witness :
  exists r,
    Decimal.sub (literal "5") (literal "5") = Ok r
    /\ mantissa_value r = 0 /\ Decimal.scale r = 0
    /\ Decimal.sign_bit r = true /\ ~ canonical r
    /\ Decimal.eqb r Decimal.zero = true
    /\ Decimal.ltb r Decimal.zero = true.
Proof.
  apply (proj1 (proj2 zero_sign_not_canonical) (literal "5")).
  - split; [ unfold limbs_valid; vm_compute; intuition discriminate
           | vm_compute; discriminate ].
  - vm_compute. discriminate.
Defined.

(** ** Multiplication *)






(** ** Absolute value *)

(** X5. [Decimal::abs] returns a decimal with the sign bit clear for every
    operand, a zero with the sign bit set included, and keeps the mantissa
    and the scale: its value is the absolute value of the operand, and
    [abs] is idempotent. *)
Theorem Decimal_abs_value (d : Decimal.t) :
  limbs_valid d ->
  Decimal.sign_bit (Decimal.abs d) = false
  /\ Decimal.scale (Decimal.abs d) = Decimal.scale d
  /\ mantissa_value (Decimal.abs d) = mantissa_value d
  /\ Decimal.abs (Decimal.abs d) = Decimal.abs d
  /\ (forall S, units S (Decimal.abs d) = Z.abs (units S d)).
Proof.
  intros Hl. pose proof (mantissa_value_range d Hl) as Hm.
  pose proof (scale_range d) as Hr.
  assert (H1 : Decimal.sign_bit (Decimal.abs d) = false).
  { unfold Decimal.abs. rewrite ltb_zero_sign by assumption.
    destruct (Decimal.sign_bit d) eqn:S; [ | exact S ].
    rewrite sign_neg, S. reflexivity. }
  assert (H2 : Decimal.scale (Decimal.abs d) = Decimal.scale d).
  { unfold Decimal.abs. destruct (Decimal.ltb d Decimal.zero);
      [ apply scale_neg | reflexivity ]. }
  assert (H3 : mantissa_value (Decimal.abs d) = mantissa_value d).
  { unfold Decimal.abs. destruct (Decimal.ltb d Decimal.zero); reflexivity. }
  assert (Hl' : limbs_valid (Decimal.abs d)).
  { unfold Decimal.abs. destruct (Decimal.ltb d Decimal.zero); exact Hl. }
  repeat split; trivial.
  - unfold Decimal.abs at 1. rewrite ltb_zero_sign, H1 by assumption. reflexivity.
  - intros S. rewrite !units_of, H1, H2, H3.
    destruct (Decimal.sign_bit d).
    + destruct (Z.le_gt_cases 0 (S - Decimal.scale d)) as [Hp | Hn].
      * assert (0 < 10 ^ (S - Decimal.scale d)) by (apply Z.pow_pos_nonneg; lia).
        nia.
      * rewrite Z.pow_neg_r by lia. lia.
    + destruct (Z.le_gt_cases 0 (S - Decimal.scale d)) as [Hp | Hn].
      * assert (0 < 10 ^ (S - Decimal.scale d)) by (apply Z.pow_pos_nonneg; lia).
        nia.
      * rewrite Z.pow_neg_r by lia. lia.
Qed.

(** ** Rounding *)

Lemma iter_times_ten (n : nat) :
  forall v : Z,
    - 2 ^ 127 <= v * 10 ^ Z.of_nat n < 2 ^ 127 ->
    Nat.iter n (fun v => Int128.mul v 10) v = v * 10 ^ Z.of_nat n.
Proof.
  induction n as [ | n IH]; intros v Hv.
  - change (Nat.iter 0 (fun v => Int128.mul v 10) v) with v.
    change (Z.of_nat 0) with 0. rewrite Z.pow_0_r. lia.
  - change (Nat.iter (S n) (fun v => Int128.mul v 10) v)
      with (Int128.mul (Nat.iter n (fun v => Int128.mul v 10) v) 10).
    rewrite Nat2Z.inj_succ, Z.pow_succ_r in * by lia.
    assert (Hp : 0 < 10 ^ Z.of_nat n) by (apply Z.pow_pos_nonneg; lia).
    rewrite IH by nia.
    unfold Int128.mul. rewrite wrap_small by (unfold Int128.valid; lia). lia.
Qed.

Lemma round_truncate_spec (k : nat) :
  forall x : Decimal.t,
    limbs_valid x ->
    exists r, Decimal.round_truncate k x = Ok r /\ limbs_valid r
              /\ Decimal.flags r = Decimal.flags x
              /\ mantissa_value r = mantissa_value x / 10 ^ Z.of_nat k.
Proof.
  induction k as [ | k IH]; intros x Hl.
  - exists x. cbn [Decimal.round_truncate]. change (Z.of_nat 0) with 0.
    rewrite Z.pow_0_r, Z.div_1_r. auto.
  - pose proof (mantissa_value_range x Hl) as Hm.
    cbn [Decimal.round_truncate]. unfold Decimal.divideByPowerOf10.
    rewrite mantissaAsInt128_value by assumption.
    rewrite (powerOf10_table 1) by lia.
    change (10 ^ 1) with constants.DECIMAL_BASE.
    rewrite div10 by lia. cbn [bind].
    set (x1 := Decimal.setMantissa x (mantissa_value x / 10)).
    assert (Hv1 : mantissa_value x1 = mantissa_value x / 10).
    { unfold x1. rewrite setMantissa_value. apply Z.mod_small.
      pose proof (Z.div_pos (mantissa_value x) 10 ltac:(lia) ltac:(lia)).
      pose proof (Z.div_le_upper_bound (mantissa_value x) 10 (mantissa_value x)
                    ltac:(lia) ltac:(lia)). lia. }
    destruct (IH x1 (setMantissa_limbs x _)) as (r & H1 & H2 & H3 & H4).
    exists r. split; [ exact H1 | ]. split; [ exact H2 | ].
    split; [ rewrite H3; reflexivity | ].
    rewrite H4, Hv1, Nat2Z.inj_succ, Z.pow_succ_r by lia.
    rewrite Z.div_div by (try apply Z.pow_pos_nonneg; lia). reflexivity.
Qed.

Lemma pow10_pos (k : Z) : 0 <= k -> 0 < 10 ^ k.
Proof. intros. apply Z.pow_pos_nonneg; lia. Qed.

Lemma pow10_le (a b : Z) : 0 <= a <= b -> 10 ^ a <= 10 ^ b.
Proof. intros. apply Z.pow_le_mono_r; lia. Qed.

Lemma rem_nonneg (m p : Z) :
  0 <= m -> 0 < p < 2 ^ 127 -> Int128.rem m p = Ok (m mod p).
Proof.
  intros Hm Hp. unfold Int128.rem.
  destruct (Z.eqb_spec p 0); [ lia | ].
  rewrite Z.rem_mod_nonneg by lia.
  rewrite wrap_small; [ reflexivity | ].
  pose proof (Z.mod_pos_bound m p ltac:(lia)). unfold Int128.valid. lia.
Qed.

Lemma div_nonneg (m p : Z) :
  0 <= m < 2 ^ 127 -> 0 < p -> Int128.div m p = Ok (m / p).
Proof.
  intros Hm Hp. unfold Int128.div.
  destruct (Z.eqb_spec p 0); [ lia | ].
  rewrite Z.quot_div_nonneg by lia.
  rewrite wrap_small; [ reflexivity | ].
  pose proof (Z.div_pos m p ltac:(lia) ltac:(lia)).
  pose proof (Z.div_le_upper_bound m p m ltac:(lia) ltac:(nia)).
  unfold Int128.valid. lia.
Qed.

(** [round], up to the decision to round up: the rounding digit, and the
    truncated result [res]. *)
Lemma round_prefix (d : Decimal.t) (n : Z) (mode : Decimal.RoundingMode) :
  well_formed d -> 0 <= n < Decimal.scale d -> mantissa_value d <> 0 ->
  exists res,
    limbs_valid res /\ Decimal.scale res = n
    /\ Decimal.sign_bit res = Decimal.sign_bit d
    /\ mantissa_value res = mantissa_value d / 10 ^ (Decimal.scale d - n)
    /\ Decimal.round d n mode
       = (shouldRoundUp <-
            match mode with
            | Decimal.ToNearest =>
                Decimal.shouldRoundUpToNearest
                  ((mantissa_value d / 10 ^ (Decimal.scale d - n - 1)) mod 10)
                  (mantissa_value d) (10 ^ (Decimal.scale d - n - 1))
                  (Decimal.scale d - n) res
            | Decimal.ToNearestTiesAway =>
                Ok (Decimal.shouldRoundUpToNearestTiesAway
                      ((mantissa_value d / 10 ^ (Decimal.scale d - n - 1)) mod 10))
            | Decimal.ToZero => Ok false
            | Decimal.ToPositiveInfinity =>
                Decimal.shouldRoundUpToPositiveInfinity
                  (mantissa_value d) (Decimal.scale d - n) (Decimal.sign_bit d)
            | Decimal.ToNegativeInfinity =>
                Decimal.shouldRoundUpToNegativeInfinity
                  (mantissa_value d) (Decimal.scale d - n) (Decimal.sign_bit d)
            end ;;
          Ok (if shouldRoundUp : bool
              then Decimal.setMantissa res (mantissa_value res + 1)
              else res)).
Proof.
  intros [Hl Hs] Hn Hm.
  pose proof (mantissa_value_range d Hl) as Hmr.
  set (k := Decimal.scale d - n) in *.
  assert (Hk : 1 <= k <= 28) by lia.
  unfold Decimal.round.
  destruct (Z.ltb_spec n 0); [ lia | ].
  destruct (Z.geb_spec n (Decimal.scale d)); [ lia | ].
  rewrite (mantissa_value_zero d Hl).
  destruct (Z.eqb_spec (mantissa_value d) 0); [ lia | ]. cbn [orb].
  replace (u8 n) with n by (unfold u8; rewrite Z.mod_small; lia).
  fold k. replace (u8 k) with k by (unfold u8; rewrite Z.mod_small; lia).
  rewrite mantissaAsInt128_value by assumption.
  assert (Hdiv : (if k >? 1
                  then Nat.iter (Z.to_nat (u8 (k - 1)))
                         (fun divisor => Int128.mul divisor constants.DECIMAL_BASE) 1
                  else 1) = 10 ^ (k - 1)).
  { destruct (Z.gtb_spec k 1) as [Hgt | Hle].
    - replace (u8 (k - 1)) with (k - 1) by (unfold u8; rewrite Z.mod_small; lia).
      change constants.DECIMAL_BASE with 10.
      rewrite iter_times_ten; rewrite Z2Nat.id by lia; [ lia | ].
      pose proof (pow10_pos (k - 1) ltac:(lia)).
      pose proof (pow10_le (k - 1) 28 ltac:(lia)).
      change (10 ^ 28) with 10000000000000000000000000000 in *. lia.
    - replace k with 1 by lia. reflexivity. }
  rewrite Hdiv. clear Hdiv.
  pose proof (pow10_pos (k - 1) ltac:(lia)) as Hp1.
  pose proof (pow10_pos k ltac:(lia)) as Hpk.
  rewrite div_nonneg by lia. cbn [bind].
  assert (Hq : 0 <= mantissa_value d / 10 ^ (k - 1) < 2 ^ 96).
  { split; [ apply Z.div_pos; lia | ].
    apply Z.div_lt_upper_bound; nia. }
  change constants.DECIMAL_BASE with 10.
  rewrite rem_nonneg by lia. cbn [bind].
  destruct (round_truncate_spec (Z.to_nat k) d Hl) as (t & Ht & Hlt & Hft & Hvt).
  rewrite Z2Nat.id in Hvt by lia.
  rewrite Ht. cbn [bind].
  set (res := Decimal.with_flags t (Decimal.replace_scale (Decimal.flags t) n)).
  assert (Hlres : limbs_valid res) by exact Hlt.
  assert (Hvres : mantissa_value res = mantissa_value d / 10 ^ k) by exact Hvt.
  assert (Hsres : Decimal.scale res = n) by (apply scale_replace; lia).
  assert (Hgres : Decimal.sign_bit res = Decimal.sign_bit d).
  { unfold res. rewrite sign_replace, Hft by lia. reflexivity. }
  exists res.
  split; [ exact Hlres | ]. split; [ exact Hsres | ].
  split; [ exact Hgres | ]. split; [ exact Hvres | ].
  rewrite mantissaAsInt128_value by assumption.
  assert (Hadd : Int128.add (mantissa_value res) 1 = mantissa_value res + 1).
  { unfold Int128.add. apply wrap_small. unfold Int128.valid.
    pose proof (mantissa_value_range res Hlres). lia. }
  rewrite Hadd.
  replace (k - 1) with (Decimal.scale d - n - 1) by lia.
  destruct mode; cbn [bind];
    try match goal with
        | |- bind ?e ?f = bind ?e ?g => destruct e as [[ | ] | ]; cbn [bind]
        end;
    try destruct (Decimal.shouldRoundUpToNearestTiesAway _);
    destruct (Decimal.sign_bit d); reflexivity.
Qed.

Lemma round_identity (d : Decimal.t) (n : Z) (mode : Decimal.RoundingMode) :
  limbs_valid d -> 0 <= n ->
  Decimal.scale d <= n \/ mantissa_value d = 0 ->
  Decimal.round d n mode = Ok d.
Proof.
  intros Hl Hn H. unfold Decimal.round.
  destruct (Z.ltb_spec n 0); [ lia | ].
  rewrite (mantissa_value_zero d Hl).
  destruct (Z.geb_spec n (Decimal.scale d)); [ reflexivity | ].
  destruct (Z.eqb_spec (mantissa_value d) 0); [ reflexivity | lia ].
Qed.

(** The result of [round] once the decision [up] is taken. *)
Lemma round_finish (d res : Decimal.t) (n k : Z) (up : bool) :
  limbs_valid d -> limbs_valid res -> 1 <= k ->
  mantissa_value res = mantissa_value d / 10 ^ k ->
  Decimal.scale res = n ->
  Decimal.sign_bit res = Decimal.sign_bit d ->
  let r := if up then Decimal.setMantissa res (mantissa_value res + 1) else res in
  limbs_valid r /\ Decimal.scale r = n
  /\ Decimal.sign_bit r = Decimal.sign_bit d
  /\ mantissa_value r = mantissa_value d / 10 ^ k + (if up then 1 else 0).
Proof.
  intros Hl Hlr Hk Hv Hs Hg r.
  pose proof (mantissa_value_range d Hl) as Hm.
  pose proof (pow10_pos k ltac:(lia)) as Hp.
  assert (H10 : 10 <= 10 ^ k).
  { change 10 with (10 ^ 1) at 1. apply pow10_le. lia. }
  assert (Hq : 0 <= mantissa_value d / 10 ^ k < 2 ^ 96 - 1).
  { split; [ apply Z.div_pos; lia | ].
    apply Z.div_lt_upper_bound; [ lia | nia ]. }
  unfold r. destruct up.
  - split; [ apply setMantissa_limbs | ].
    split; [ exact Hs | ]. split; [ exact Hg | ].
    rewrite setMantissa_value, Hv. apply Z.mod_small. lia.
  - split; [ exact Hlr | ].
    split; [ exact Hs | ]. split; [ exact Hg | ]. lia.
Qed.

Lemma shouldRoundUpToPositiveInfinity_spec (m k : Z) (negative : bool) :
  0 <= m -> 1 <= k <= 28 ->
  Decimal.shouldRoundUpToPositiveInfinity m k negative
  = Ok (negb negative && negb (m mod 10 ^ k =? 0)).
Proof.
  intros Hm Hk. unfold Decimal.shouldRoundUpToPositiveInfinity.
  destruct negative; [ reflexivity | ].
  destruct (Z.gtb_spec k 0); [ | lia ].
  rewrite powerOf10_table by lia.
  pose proof (pow10_pos k ltac:(lia)).
  pose proof (pow10_le k 28 ltac:(lia)).
  change (10 ^ 28) with 10000000000000000000000000000 in *.
  rewrite rem_nonneg by lia. reflexivity.
Qed.

Lemma shouldRoundUpToNegativeInfinity_spec (m k : Z) (negative : bool) :
  0 <= m -> 1 <= k <= 28 ->
  Decimal.shouldRoundUpToNegativeInfinity m k negative
  = Ok (negative && negb (m mod 10 ^ k =? 0)).
Proof.
  intros Hm Hk. unfold Decimal.shouldRoundUpToNegativeInfinity.
  destruct negative; [ | reflexivity ]. cbn [negb].
  destruct (Z.gtb_spec k 0); [ | lia ].
  rewrite powerOf10_table by lia.
  pose proof (pow10_pos k ltac:(lia)).
  pose proof (pow10_le k 28 ltac:(lia)).
  change (10 ^ 28) with 10000000000000000000000000000 in *.
  rewrite rem_nonneg by lia. reflexivity.
Qed.

(** The result of [round] in terms of the decision. *)
Lemma round_result (d : Decimal.t) (n : Z) (mode : Decimal.RoundingMode)
  (up : bool) :
  well_formed d -> 0 <= n < Decimal.scale d -> mantissa_value d <> 0 ->
  (forall res,
      limbs_valid res ->
      mantissa_value res = mantissa_value d / 10 ^ (Decimal.scale d - n) ->
      match mode with
      | Decimal.ToNearest =>
          Decimal.shouldRoundUpToNearest
            ((mantissa_value d / 10 ^ (Decimal.scale d - n - 1)) mod 10)
            (mantissa_value d) (10 ^ (Decimal.scale d - n - 1))
            (Decimal.scale d - n) res
      | Decimal.ToNearestTiesAway =>
          Ok (Decimal.shouldRoundUpToNearestTiesAway
                ((mantissa_value d / 10 ^ (Decimal.scale d - n - 1)) mod 10))
      | Decimal.ToZero => Ok false
      | Decimal.ToPositiveInfinity =>
          Decimal.shouldRoundUpToPositiveInfinity
            (mantissa_value d) (Decimal.scale d - n) (Decimal.sign_bit d)
      | Decimal.ToNegativeInfinity =>
          Decimal.shouldRoundUpToNegativeInfinity
            (mantissa_value d) (Decimal.scale d - n) (Decimal.sign_bit d)
      end = Ok up) ->
  exists r,
    Decimal.round d n mode = Ok r /\ limbs_valid r /\ Decimal.scale r = n
    /\ Decimal.sign_bit r = Decimal.sign_bit d
    /\ mantissa_value r
       = mantissa_value d / 10 ^ (Decimal.scale d - n) + (if up then 1 else 0).
Proof.
  intros Hd Hn Hm Hup.
  destruct (round_prefix d n mode Hd Hn Hm) as (res & H1 & H2 & H3 & H4 & H5).
  destruct Hd as [Hl Hs].
  rewrite H5, (Hup res H1 H4). cbn [bind].
  eexists. split; [ reflexivity | ].
  apply (round_finish d res n (Decimal.scale d - n) up); trivial. lia.
Qed.

Lemma units_self (d : Decimal.t) :
  units (Decimal.scale d) d = signed_mantissa d.
Proof. unfold units. rewrite Z.sub_diag. lia. Qed.

(** Quotients of a signed mantissa. *)
Lemma floor_split (m P : Z) (up : bool) :
  0 <= m -> 0 < P ->
  up = negb (m mod P =? 0) ->
  (- m) / P = - (m / P + (if up then 1 else 0)).
Proof.
  intros Hm HP Hup.
  pose proof (Z.div_mod m P ltac:(lia)) as E.
  pose proof (Z.mod_pos_bound m P ltac:(lia)) as B.
  destruct (Z.eqb_spec (m mod P) 0) as [Hz | Hnz]; subst up; cbn [negb].
  - symmetry. apply (Z.div_unique (- m) P _ 0); lia.
  - symmetry. apply (Z.div_unique (- m) P _ (P - m mod P)); lia.
Qed.

Section Directed.

Variables (d : Decimal.t) (n : Z).
Hypothesis Hd : well_formed d.
Hypothesis Hn : 0 <= n.

Let s := Decimal.scale d.
Let P := 10 ^ (s - Z.min n s).

Lemma round_ToZero_units :
  exists r, Decimal.round d n Decimal.ToZero = Ok r /\ limbs_valid r
            /\ Decimal.scale r <= s
            /\ (mantissa_value d <> 0 -> Decimal.scale r = Z.min n s)
            /\ units s r = (units s d ÷ P) * P.
Proof.
  pose proof Hd as [Hl Hs]. pose proof (scale_range d) as Hr.
  pose proof (mantissa_value_range d Hl) as Hm.
  destruct (Z.eq_dec (mantissa_value d) 0) as [Hz | Hnz].
  { exists d. split; [ apply round_identity; auto | ].
    split; [ exact Hl | ]. split; [ unfold s; lia | ].
    split; [ lia | ].
    assert (Hu0 : units s d = 0)
      by (unfold units, signed_mantissa; rewrite Hz;
          destruct (Decimal.sign_bit d); lia).
    rewrite Hu0. cbn [Z.opp]. unfold P.
    pose proof (pow10_pos (s - Z.min n s) ltac:(unfold s; lia)).
    rewrite Z.quot_0_l by lia. lia. }
  destruct (Z.le_gt_cases s n) as [Hge | Hlt].
  { exists d. split; [ apply round_identity; auto | ].
    split; [ exact Hl | ]. split; [ unfold s; lia | ].
    split; [ unfold s in *; lia | ].
    unfold P. rewrite Z.min_r, Z.sub_diag by lia.
    rewrite Z.pow_0_r, Z.quot_1_r. lia. }
  destruct (round_result d n Decimal.ToZero false Hd ltac:(unfold s in *; lia) Hnz)
    as (r & H1 & H2 & H3 & H4 & H5); [ reflexivity | ].
  exists r. split; [ exact H1 | ]. split; [ exact H2 | ].
  split; [ unfold s in *; lia | ]. split; [ unfold s in *; lia | ].
  unfold P. rewrite Z.min_l by lia. fold s in H5.
  pose proof (pow10_pos (s - n) ltac:(lia)) as Hp.
  rewrite (units_of s r), H3, H4, H5, Z.add_0_r.
  replace (s - n) with (s - n) by lia.
  replace (units s d) with (signed_mantissa d) by (symmetry; apply units_self).
  unfold signed_mantissa.
  destruct (Decimal.sign_bit d).
  - rewrite Z.quot_opp_l by lia. rewrite Z.quot_div_nonneg by lia. lia.
  - rewrite Z.quot_div_nonneg by lia. lia.
Qed.

Lemma round_ToNegativeInfinity_units :
  exists r, Decimal.round d n Decimal.ToNegativeInfinity = Ok r /\ limbs_valid r
            /\ Decimal.scale r <= s
            /\ (mantissa_value d <> 0 -> Decimal.scale r = Z.min n s)
            /\ units s r = (units s d / P) * P.
Proof.
  pose proof Hd as [Hl Hs]. pose proof (scale_range d) as Hr.
  pose proof (mantissa_value_range d Hl) as Hm.
  destruct (Z.eq_dec (mantissa_value d) 0) as [Hz | Hnz].
  { exists d. split; [ apply round_identity; auto | ].
    split; [ exact Hl | ]. split; [ unfold s; lia | ].
    split; [ lia | ].
    assert (Hu0 : units s d = 0)
      by (unfold units, signed_mantissa; rewrite Hz;
          destruct (Decimal.sign_bit d); lia).
    rewrite Hu0. cbn [Z.opp]. unfold P.
    pose proof (pow10_pos (s - Z.min n s) ltac:(unfold s; lia)).
    rewrite Z.div_0_l by lia. lia. }
  destruct (Z.le_gt_cases s n) as [Hge | Hlt].
  { exists d. split; [ apply round_identity; auto | ].
    split; [ exact Hl | ]. split; [ unfold s; lia | ].
    split; [ unfold s in *; lia | ].
    unfold P. rewrite Z.min_r, Z.sub_diag by lia.
    rewrite Z.pow_0_r, Z.div_1_r. lia. }
  pose proof (pow10_pos (s - n) ltac:(lia)) as Hp.
  destruct (round_result d n Decimal.ToNegativeInfinity
              (Decimal.sign_bit d && negb (mantissa_value d mod 10 ^ (s - n) =? 0))
              Hd ltac:(unfold s in *; lia) Hnz)
    as (r & H1 & H2 & H3 & H4 & H5).
  { intros res _ _. apply shouldRoundUpToNegativeInfinity_spec; unfold s in *; lia. }
  exists r. split; [ exact H1 | ]. split; [ exact H2 | ].
  split; [ unfold s in *; lia | ]. split; [ unfold s in *; lia | ].
  unfold P. rewrite Z.min_l by lia. fold s in H5.
  rewrite (units_of s r), H3, H4, H5.
  replace (units s d) with (signed_mantissa d) by (symmetry; apply units_self).
  unfold signed_mantissa.
  destruct (Decimal.sign_bit d); cbn [andb].
  - rewrite (floor_split (mantissa_value d) (10 ^ (s - n))
               (negb (mantissa_value d mod 10 ^ (s - n) =? 0))) by (trivial; lia).
    lia.
  - lia.
Qed.

Lemma round_ToPositiveInfinity_units :
  exists r, Decimal.round d n Decimal.ToPositiveInfinity = Ok r /\ limbs_valid r
            /\ Decimal.scale r <= s
            /\ (mantissa_value d <> 0 -> Decimal.scale r = Z.min n s)
            /\ units s r = - ((- units s d) / P) * P.
Proof.
  pose proof Hd as [Hl Hs]. pose proof (scale_range d) as Hr.
  pose proof (mantissa_value_range d Hl) as Hm.
  destruct (Z.eq_dec (mantissa_value d) 0) as [Hz | Hnz].
  { exists d. split; [ apply round_identity; auto | ].
    split; [ exact Hl | ]. split; [ unfold s; lia | ].
    split; [ lia | ].
    assert (Hu0 : units s d = 0)
      by (unfold units, signed_mantissa; rewrite Hz;
          destruct (Decimal.sign_bit d); lia).
    rewrite Hu0. cbn [Z.opp]. unfold P.
    pose proof (pow10_pos (s - Z.min n s) ltac:(unfold s; lia)).
    rewrite Z.div_0_l by lia. lia. }
  destruct (Z.le_gt_cases s n) as [Hge | Hlt].
  { exists d. split; [ apply round_identity; auto | ].
    split; [ exact Hl | ]. split; [ unfold s; lia | ].
    split; [ unfold s in *; lia | ].
    unfold P. rewrite Z.min_r, Z.sub_diag by lia.
    rewrite Z.pow_0_r, Z.div_1_r. lia. }
  pose proof (pow10_pos (s - n) ltac:(lia)) as Hp.
  destruct (round_result d n Decimal.ToPositiveInfinity
              (negb (Decimal.sign_bit d)
               && negb (mantissa_value d mod 10 ^ (s - n) =? 0))
              Hd ltac:(unfold s in *; lia) Hnz)
    as (r & H1 & H2 & H3 & H4 & H5).
  { intros res _ _. apply shouldRoundUpToPositiveInfinity_spec; unfold s in *; lia. }
  exists r. split; [ exact H1 | ]. split; [ exact H2 | ].
  split; [ unfold s in *; lia | ]. split; [ unfold s in *; lia | ].
  unfold P. rewrite Z.min_l by lia. fold s in H5.
  rewrite (units_of s r), H3, H4, H5.
  replace (units s d) with (signed_mantissa d) by (symmetry; apply units_self).
  unfold signed_mantissa.
  destruct (Decimal.sign_bit d); cbn [andb negb].
  - rewrite Z.opp_involutive. lia.
  - rewrite (floor_split (mantissa_value d) (10 ^ (s - n))
               (negb (mantissa_value d mod 10 ^ (s - n) =? 0))) by (trivial; lia).
    lia.
Qed.

End Directed.

(** The digits of [m] around position [k]: quotient, rounding digit, rest. *)
Lemma digit_split (m k : Z) :
  0 <= m -> 1 <= k ->
  exists q dgt b,
    m / 10 ^ k = q /\ (m / 10 ^ (k - 1)) mod 10 = dgt /\
    0 <= dgt <= 9 /\ 0 <= b < 10 ^ (k - 1) /\
    m mod 10 ^ (k - 1) = b /\
    m mod 10 ^ k = 10 ^ (k - 1) * dgt + b /\
    10 ^ k = 10 * 10 ^ (k - 1) /\
    m = 10 ^ k * q + 10 ^ (k - 1) * dgt + b.
Proof.
  intros Hm Hk.
  assert (HP : 10 ^ k = 10 * 10 ^ (k - 1)).
  { replace k with (Z.succ (k - 1)) at 1 by lia. rewrite Z.pow_succ_r; lia. }
  pose proof (pow10_pos (k - 1) ltac:(lia)) as Hp.
  set (p := 10 ^ (k - 1)) in *.
  pose proof (Z.div_mod m p ltac:(lia)) as E1.
  pose proof (Z.mod_pos_bound m p ltac:(lia)) as B1.
  pose proof (Z.div_mod (m / p) 10 ltac:(lia)) as E2.
  pose proof (Z.mod_pos_bound (m / p) 10 ltac:(lia)) as B2.
  set (a := m / p) in *. set (b := m mod p) in *.
  set (q := a / 10) in *. set (dgt := a mod 10) in *.
  assert (Hq : m / 10 ^ k = q).
  { symmetry. apply (Z.div_unique m (10 ^ k) q (p * dgt + b)); nia. }
  assert (Hr : m mod 10 ^ k = p * dgt + b).
  { symmetry. apply (Z.mod_unique m (10 ^ k) q (p * dgt + b)); nia. }
  exists q, dgt, b. repeat split; trivial; try lia; nia.
Qed.

Lemma toLow_digit (x : Z) : 0 <= x <= 9 -> Int128.toLow x = x.
Proof. intros. apply toLow_nonneg. lia. Qed.

(** X8. [Decimal::round] with the mode [ToNearestTiesAway] rounds half
    away from zero: when [k] digits are removed from a mantissa [m], the
    mantissa of the result is [(m + 5 * 10^(k-1)) / 10^k]; the scale is the
    number of places asked for and the sign is kept. *)
Theorem round_ties_away (d : Decimal.t) (n : Z) :
  well_formed d -> 0 <= n < Decimal.scale d -> mantissa_value d <> 0 ->
  exists r,
    Decimal.round d n Decimal.ToNearestTiesAway = Ok r /\ limbs_valid r
    /\ Decimal.scale r = n
    /\ Decimal.sign_bit r = Decimal.sign_bit d
    /\ mantissa_value r
       = (mantissa_value d + 5 * 10 ^ (Decimal.scale d - n - 1))
         / 10 ^ (Decimal.scale d - n).
Proof.
  intros Hd Hn Hm. pose proof Hd as [Hl Hs].
  pose proof (mantissa_value_range d Hl) as Hmr.
  set (k := Decimal.scale d - n) in *.
  destruct (digit_split (mantissa_value d) k ltac:(lia) ltac:(lia))
    as (q & dgt & b & Hq & Hdg & Hd9 & Hb & Hbm & Hr & HP & Hsum).
  replace (Decimal.scale d - n - 1) with (k - 1) by lia.
  pose proof (pow10_pos (k - 1) ltac:(lia)) as Hp.
  destruct (round_result d n Decimal.ToNearestTiesAway (dgt >=? 5) Hd Hn Hm)
    as (r & H1 & H2 & H3 & H4 & H5).
  { intros res _ _. fold k. replace (k - 1 + 1 - 1) with (k - 1) by lia.
    replace (Decimal.scale d - n - 1) with (k - 1) by lia.
    rewrite Hdg. unfold Decimal.shouldRoundUpToNearestTiesAway.
    rewrite toLow_digit by lia. reflexivity. }
  exists r. repeat (split; [ assumption | ]).
  rewrite H5. fold k. rewrite Hq.
  set (p := 10 ^ (k - 1)) in *.
  destruct (Z.geb_spec dgt 5).
  - apply (Z.div_unique _ (10 ^ k) (q + 1) (p * (dgt - 5) + b)); nia.
  - apply (Z.div_unique _ (10 ^ k) (q + 0) (p * (dgt + 5) + b)); nia.
Qed.

Lemma odd_mod2 (q : Z) : negb (q mod 2 =? 0) = Z.odd q.
Proof.
  rewrite Zodd_mod.
  pose proof (Z.mod_pos_bound q 2 ltac:(lia)).
  destruct (Z.eqb_spec (q mod 2) 0), (Z.eqb_spec (q mod 2) 1);
    cbn [negb]; trivial; lia.
Qed.

(** X9. [Decimal::round] with the mode [ToNearest] rounds to the nearest
    multiple, and a tie to the even one, whenever exactly one digit is
    removed or the rounding digit is not 5 (the first of the removed digits):
    the mantissa of the result is the quotient [m / 10^k], plus one when
    the removed part is more than half of [10^k], or exactly half of it with
    an odd quotient. *)
Theorem round_to_nearest (d : Decimal.t) (n : Z) :
  well_formed d -> 0 <= n < Decimal.scale d -> mantissa_value d <> 0 ->
  Decimal.scale d - n = 1
  \/ (mantissa_value d / 10 ^ (Decimal.scale d - n - 1)) mod 10 <> 5 ->
  exists r,
    Decimal.round d n Decimal.ToNearest = Ok r /\ limbs_valid r
    /\ Decimal.scale r = n
    /\ Decimal.sign_bit r = Decimal.sign_bit d
    /\ mantissa_value r
       = mantissa_value d / 10 ^ (Decimal.scale d - n)
         + (if (2 * (mantissa_value d mod 10 ^ (Decimal.scale d - n))
                >? 10 ^ (Decimal.scale d - n))
               || ((2 * (mantissa_value d mod 10 ^ (Decimal.scale d - n))
                    =? 10 ^ (Decimal.scale d - n))
                   && Z.odd (mantissa_value d / 10 ^ (Decimal.scale d - n)))
            then 1 else 0).
Proof.
  intros Hd Hn Hm Hcase. pose proof Hd as [Hl Hs].
  pose proof (mantissa_value_range d Hl) as Hmr.
  set (k := Decimal.scale d - n) in *.
  destruct (digit_split (mantissa_value d) k ltac:(lia) ltac:(lia))
    as (q & dgt & b & Hq & Hdg & Hd9 & Hb & Hbm & Hr & HP & Hsum).
  replace (Decimal.scale d - n - 1) with (k - 1) in * by lia.
  pose proof (pow10_pos (k - 1) ltac:(lia)) as Hp.
  rewrite Hdg in Hcase. rewrite Hq, Hr.
  set (p := 10 ^ (k - 1)) in *.
  destruct (round_result d n Decimal.ToNearest
              ((2 * (p * dgt + b) >? 10 ^ k)
               || ((2 * (p * dgt + b) =? 10 ^ k) && Z.odd q))
              Hd Hn Hm)
    as (r & H1 & H2 & H3 & H4 & H5).
  { intros res Hlres Hvres. fold k in Hvres |- *. rewrite Hq in Hvres.
    replace (Decimal.scale d - n - 1) with (k - 1) by lia. fold p.
    rewrite Hdg. unfold Decimal.shouldRoundUpToNearest.
    rewrite toLow_digit by lia.
    unfold constants.DECIMAL_ROUNDING_THRESHOLD.
    destruct (Z.gtb_spec dgt 5) as [Hgt | Hle].
    { destruct (Z.gtb_spec (2 * (p * dgt + b)) (10 ^ k)); [ reflexivity | nia ]. }
    destruct (Z.eqb_spec dgt 5) as [H5 | Hn5].
    2:{ destruct (Z.gtb_spec (2 * (p * dgt + b)) (10 ^ k)); [ nia | ].
        destruct (Z.eqb_spec (2 * (p * dgt + b)) (10 ^ k)); [ nia | ].
        reflexivity. }
    destruct Hcase as [Hk1 | ]; [ | lia ].
    destruct (Z.gtb_spec k 1); [ lia | ]. cbn [bind].
    rewrite mantissaAsInt128_value, Hvres by assumption.
    assert (Hq0 : 0 <= q) by (rewrite <- Hq; apply Z.div_pos; lia).
    rewrite rem_nonneg by lia. cbn [bind]. unfold Int128.eqb.
    rewrite odd_mod2.
    assert (Hp1 : p = 1) by (unfold p; rewrite Hk1; reflexivity).
    destruct (Z.gtb_spec (2 * (p * dgt + b)) (10 ^ k)); [ nia | ].
    destruct (Z.eqb_spec (2 * (p * dgt + b)) (10 ^ k)); [ reflexivity | nia ]. }
  exists r. repeat (split; [ assumption | ]).
  rewrite H5. fold k. rewrite Hq. reflexivity.
Qed.

Lemma integer_units (r : Decimal.t) (s v : Z) :
  limbs_valid r -> 0 <= s ->
  Decimal.scale r <= s ->
  (mantissa_value r <> 0 -> Decimal.scale r = 0) ->
  units s r = v * 10 ^ s ->
  (Decimal.scale r = 0 \/ mantissa_value r = 0) /\ signed_mantissa r = v.
Proof.
  intros Hl Hs Hsc Hz Hu.
  pose proof (mantissa_value_range r Hl) as Hm.
  pose proof (scale_range r) as Hr.
  pose proof (pow10_pos s Hs) as Hp.
  destruct (Z.eq_dec (mantissa_value r) 0) as [Hz' | Hnz].
  - split; [ right; exact Hz' | ].
    assert (Hsm : signed_mantissa r = 0)
      by (unfold signed_mantissa; rewrite Hz'; destruct (Decimal.sign_bit r); lia).
    unfold units in Hu. rewrite Hsm in *. nia.
  - specialize (Hz Hnz). split; [ left; exact Hz | ].
    unfold units in Hu. rewrite Hz, Z.sub_0_r in Hu. nia.
Qed.

(** ** Decimal places *)

Lemma decimalPlacesCount_loop_normalize (fuel : nat) :
  forall (x : Decimal.t) (tz cs : Z),
    limbs_valid x -> 0 <= tz -> cs <= 255 ->
    Decimal.scale x = cs - tz ->
    Decimal.scale x <= Z.of_nat fuel ->
    exists r,
      Decimal.normalize_loop fuel x = Ok r /\
      Decimal.decimalPlacesCount_loop fuel (mantissa_value x) tz cs
      = Ok (cs - Decimal.scale r).
Proof.
  induction fuel as [ | fuel IH]; intros x tz cs Hl Htz Hcs Hsc Hf.
  - pose proof (scale_range x). exists x.
    cbn [Decimal.normalize_loop Decimal.decimalPlacesCount_loop].
    split; [ reflexivity | ]. f_equal. lia.
  - pose proof (scale_range x) as Hr.
    pose proof (mantissa_value_range x Hl) as Hm.
    cbn [Decimal.normalize_loop Decimal.decimalPlacesCount_loop].
    destruct (Z.gtb_spec (Decimal.scale x) 0) as [Hpos | Hz].
    2:{ exists x. split; [ reflexivity | ].
        destruct (Z.ltb_spec tz cs); [ lia | ]. f_equal. lia. }
    destruct (Z.ltb_spec tz cs); [ | lia ].
    rewrite mantissaAsInt128_value by assumption.
    rewrite rem10 by lia. cbn [bind]. unfold Int128.eqb.
    destruct (Z.eqb_spec (mantissa_value x mod 10) 0) as [Hdiv | Hnd];
      cbn [negb].
    2:{ exists x. split; [ reflexivity | ]. f_equal. lia. }
    unfold Decimal.divideByPowerOf10.
    rewrite mantissaAsInt128_value by assumption.
    rewrite (powerOf10_table 1) by lia.
    change (10 ^ 1) with constants.DECIMAL_BASE.
    rewrite div10 by lia. cbn [bind].
    set (x1 := Decimal.setMantissa x (mantissa_value x / 10)).
    set (x2 := Decimal.with_flags x1 _).
    assert (Hs2 : Decimal.scale x2 = Decimal.scale x - 1).
    { unfold x2. rewrite scale_replace; change (Decimal.scale x1) with (Decimal.scale x); lia. }
    assert (Hl2 : limbs_valid x2) by (apply setMantissa_limbs).
    assert (Hv2 : mantissa_value x2 = mantissa_value x / 10).
    { change (mantissa_value x2) with (mantissa_value x1).
      unfold x1. rewrite setMantissa_value. apply Z.mod_small.
      pose proof (Z.div_pos (mantissa_value x) 10 ltac:(lia) ltac:(lia)).
      pose proof (Z.div_le_upper_bound (mantissa_value x) 10 (mantissa_value x)
                    ltac:(lia) ltac:(lia)). lia. }
    replace (u8 (tz + 1)) with (tz + 1)
      by (unfold u8; rewrite Z.mod_small; lia).
    destruct (IH x2 (tz + 1) cs Hl2 ltac:(lia) Hcs ltac:(lia) ltac:(lia))
      as (r & Hr1 & Hr2).
    exists r. split; [ exact Hr1 | ]. rewrite <- Hv2. exact Hr2.
Qed.

(** X10. [Decimal::decimalPlacesCount] is the scale that [normalize] would
    leave: the scale less the number of trailing zeros of the mantissa, as
    far as the scale allows; so it is 0, or the mantissa without those zeros
    is not divisible by 10. *)
Theorem decimalPlacesCount_normalize (d : Decimal.t) :
  limbs_valid d ->
  exists r, Decimal.normalize d = Ok r
            /\ Decimal.decimalPlacesCount d = Ok (Decimal.scale r)
            /\ 0 <= Decimal.scale r <= Decimal.scale d
            /\ mantissa_value d
               = mantissa_value r * 10 ^ (Decimal.scale d - Decimal.scale r)
            /\ (Decimal.scale r = 0 \/ mantissa_value r mod 10 <> 0).
Proof.
  intros Hl. pose proof (scale_range d) as Hr.
  pose proof (mantissa_value_range d Hl) as Hm.
  destruct (normalize_spec d Hl) as (r & H1 & H2 & H3 & H4 & H5 & H6).
  exists r. split; [ exact H1 | ].
  split; [ | split; [ exact H5 | split; [ exact H6 | exact H3 ] ] ].
  unfold Decimal.decimalPlacesCount.
  rewrite (mantissa_value_zero d Hl).
  destruct (Z.eqb_spec (mantissa_value d) 0) as [Hz | Hnz].
  { f_equal. destruct H3 as [H3 | H3]; [ lia | ].
    pose proof (pow10_pos (Decimal.scale d - Decimal.scale r) ltac:(lia)) as Hp.
    assert (Hr0 : mantissa_value r = 0) by nia.
    rewrite Hr0 in H3. cbn in H3. lia. }
  destruct (Z.eqb_spec (Decimal.scale d) 0) as [Hs0 | Hsn].
  { f_equal. lia. }
  fold (Decimal.mantissaAsInt128 d).
  rewrite mantissaAsInt128_value by assumption.
  destruct (decimalPlacesCount_loop_normalize (Z.to_nat (Decimal.scale d)) d 0
              (Decimal.scale d) Hl ltac:(lia) ltac:(lia) ltac:(lia) ltac:(lia))
    as (r' & Hr1 & Hr2).
  unfold Decimal.normalize in H1. rewrite H1 in Hr1. injection Hr1 as <-.
  rewrite Hr2. cbn [bind]. f_equal.
  replace (Decimal.scale d - (Decimal.scale d - Decimal.scale r))
    with (Decimal.scale r) by lia.
  unfold u8. apply Z.mod_small. lia.
Qed.

(** ** The limbs of a mantissa *)

Lemma multiplyMantissaBy10_spec (mantissa : list Z) :
  forall carry,
    Forall (fun limb => 0 <= limb < 2 ^ 32) mantissa -> 0 <= carry < 10 ->
    exists out,
      0 <= out < 10 /\
      Forall (fun limb => 0 <= limb < 2 ^ 32)
             (Decimal.multiplyMantissaBy10 mantissa carry) /\
      List.length (Decimal.multiplyMantissaBy10 mantissa carry)
      = List.length mantissa /\
      limbs_value (Decimal.multiplyMantissaBy10 mantissa carry)
      + out * 2 ^ (32 * Z.of_nat (List.length mantissa))
      = 10 * limbs_value mantissa + carry.
Proof.
  induction mantissa as [ | limb rest IH]; intros carry Hl Hc.
  - exists carry. cbn [Decimal.multiplyMantissaBy10 limbs_value List.length].
    change (32 * Z.of_nat 0) with 0. rewrite Z.pow_0_r.
    repeat split; trivial; lia.
  - inversion Hl as [ | ? ? Hlimb Hrest]; subst.
    cbn [Decimal.multiplyMantissaBy10 limbs_value List.length].
    unfold constants.DECIMAL_BASE, constants.BITS_PER_UINT32.
    set (temp := u64 (limb * 10 + carry)).
    assert (Ht : temp = limb * 10 + carry)
      by (unfold temp, u64; apply Z.mod_small; lia).
    rewrite shiftr_div by lia.
    pose proof (Z.div_mod temp (2 ^ 32) ltac:(lia)) as E.
    pose proof (Z.mod_pos_bound temp (2 ^ 32) ltac:(lia)) as B.
    assert (Hc' : 0 <= temp / 2 ^ 32 < 10).
    { split; [ apply Z.div_pos; lia | apply Z.div_lt_upper_bound; lia ]. }
    destruct (IH (temp / 2 ^ 32) Hrest Hc') as (out & Ho & Hf & Hlen & Hv).
    exists out. split; [ exact Ho | ].
    split; [ constructor; [ unfold u32; lia | exact Hf ] | ].
    split; [ rewrite Hlen; reflexivity | ].
    rewrite Nat2Z.inj_succ.
    replace (32 * Z.succ (Z.of_nat (List.length rest)))
      with (32 + 32 * Z.of_nat (List.length rest)) by lia.
    rewrite Z.pow_add_r by lia. unfold u32. nia.
Qed.

Lemma addToMantissa_spec (mantissa : list Z) :
  forall carry,
    Forall (fun limb => 0 <= limb < 2 ^ 32) mantissa -> 0 <= carry < 2 ^ 32 ->
    exists out,
      0 <= out /\
      Forall (fun limb => 0 <= limb < 2 ^ 32)
             (Decimal.addToMantissa mantissa carry) /\
      List.length (Decimal.addToMantissa mantissa carry) = List.length mantissa /\
      limbs_value (Decimal.addToMantissa mantissa carry)
      + out * 2 ^ (32 * Z.of_nat (List.length mantissa))
      = limbs_value mantissa + carry.
Proof.
  induction mantissa as [ | limb rest IH]; intros carry Hl Hc.
  - exists carry. cbn [Decimal.addToMantissa limbs_value List.length].
    change (32 * Z.of_nat 0) with 0. rewrite Z.pow_0_r.
    repeat split; trivial; lia.
  - inversion Hl as [ | ? ? Hlimb Hrest]; subst.
    cbn [Decimal.addToMantissa].
    destruct (Z.gtb_spec carry 0) as [Hpos | Hz].
    2:{ exists 0. repeat split; trivial; lia. }
    cbn [limbs_value List.length].
    unfold constants.BITS_PER_UINT32.
    set (temp := u64 (limb + carry)).
    assert (Ht : temp = limb + carry)
      by (unfold temp, u64; apply Z.mod_small; lia).
    rewrite shiftr_div by lia.
    pose proof (Z.div_mod temp (2 ^ 32) ltac:(lia)) as E.
    pose proof (Z.mod_pos_bound temp (2 ^ 32) ltac:(lia)) as B.
    assert (Hc' : 0 <= temp / 2 ^ 32 < 2 ^ 32).
    { split; [ apply Z.div_pos; lia | apply Z.div_lt_upper_bound; lia ]. }
    destruct (IH (temp / 2 ^ 32) Hrest Hc') as (out & Ho & Hf & Hlen & Hv).
    exists out. split; [ exact Ho | ].
    split; [ constructor; [ unfold u32; lia | exact Hf ] | ].
    split; [ rewrite Hlen; reflexivity | ].
    rewrite Nat2Z.inj_succ.
    replace (32 * Z.succ (Z.of_nat (List.length rest)))
      with (32 + 32 * Z.of_nat (List.length rest)) by lia.
    rewrite Z.pow_add_r by lia. unfold u32. nia.
Qed.

Lemma limbs_value_bound (limbs : list Z) :
  Forall (fun limb => 0 <= limb < 2 ^ 32) limbs ->
  0 <= limbs_value limbs < 2 ^ (32 * Z.of_nat (List.length limbs)).
Proof.
  induction limbs as [ | limb rest IH]; intros Hl.
  - cbn. lia.
  - inversion Hl as [ | ? ? Hlimb Hrest]; subst.
    specialize (IH Hrest).
    cbn [limbs_value List.length]. rewrite Nat2Z.inj_succ.
    replace (32 * Z.succ (Z.of_nat (List.length rest)))
      with (32 + 32 * Z.of_nat (List.length rest)) by lia.
    rewrite Z.pow_add_r by lia. nia.
Qed.

(** X14. [internal::multiplyMantissaBy10AndAdd] replaces the number [v]
    that the 32-bit limbs denote by [10 * v + digit], modulo [2^(32 * size)]
    ([2^96] for the three limbs of a decimal): the carries between the limbs
    lose nothing, and what does not fit in the limbs is dropped. *)
Theorem multiplyMantissaBy10AndAdd_value (mantissa : list Z) (digit : Z) :
  Forall (fun limb => 0 <= limb < 2 ^ 32) mantissa ->
  0 <= digit < 2 ^ 32 ->
  Forall (fun limb => 0 <= limb < 2 ^ 32)
         (Decimal.multiplyMantissaBy10AndAdd mantissa digit)
  /\ List.length (Decimal.multiplyMantissaBy10AndAdd mantissa digit)
     = List.length mantissa
  /\ limbs_value (Decimal.multiplyMantissaBy10AndAdd mantissa digit)
     = (10 * limbs_value mantissa + digit)
       mod 2 ^ (32 * Z.of_nat (List.length mantissa)).
Proof.
  intros Hl Hd. unfold Decimal.multiplyMantissaBy10AndAdd.
  destruct (multiplyMantissaBy10_spec mantissa 0 Hl ltac:(lia))
    as (o1 & Ho1 & Hf1 & Hn1 & Hv1).
  destruct (addToMantissa_spec _ digit Hf1 Hd) as (o2 & Ho2 & Hf2 & Hn2 & Hv2).
  split; [ exact Hf2 | ]. split; [ congruence | ].
  pose proof (limbs_value_bound _ Hf2) as Hb. rewrite Hn2, Hn1 in Hb.
  rewrite Hn1 in Hv2.
  apply (Z.mod_unique_pos _ _ (o1 + o2)); [ exact Hb | ]. lia.
Qed.

(** ** Conversions and comparisons between Int128 and Decimal *)

Lemma limbs_to_Int128_value (d : Decimal.t) :
  limbs_valid d -> Int128_Decimal.limbs_to_Int128 d = mantissa_value d.
Proof.
  intros Hl. pose proof (mantissa_value_range d Hl) as Hm.
  destruct Hl as (H0 & H1 & H2).
  unfold mantissa_value in Hm.
  unfold Int128_Decimal.limbs_to_Int128, Int128.of_words.
  unfold constants.BITS_PER_UINT32, constants.BITS_PER_UINT64.
  rewrite (Z.shiftl_mul_pow2 (Decimal.mantissa_1 d)) by lia.
  unfold u64. rewrite (Z.mod_small (Decimal.mantissa_1 d * 2 ^ 32)) by lia.
  rewrite <- (Z.shiftl_mul_pow2 (Decimal.mantissa_1 d)) by lia.
  rewrite (lor_shiftl_add (Decimal.mantissa_1 d) _ 32) by lia.
  rewrite (lor_shiftl_add (Decimal.mantissa_2 d) _ 64) by lia.
  rewrite wrap_small by (unfold Int128.valid; lia).
  unfold mantissa_value. lia.
Qed.

Lemma times_ten_value (s v : Z) :
  0 <= s -> - 2 ^ 127 <= v * 10 ^ s < 2 ^ 127 ->
  Int128_Decimal.times_ten s v = v * 10 ^ s.
Proof.
  intros Hs Hv. unfold Int128_Decimal.times_ten.
  change constants.INT128_BASE with 10.
  rewrite iter_times_ten; rewrite Z2Nat.id by lia; trivial.
Qed.

Lemma neg_small (x : Z) : - 2 ^ 127 < x < 2 ^ 127 -> Int128.neg x = - x.
Proof. intros H. unfold Int128.neg. apply wrap_small. unfold Int128.valid. lia. Qed.

Lemma abs_small (x : Z) : - 2 ^ 127 < x < 2 ^ 127 -> Int128.abs x = Z.abs x.
Proof. intros H. apply abs_value; unfold Int128.valid; lia. Qed.

Lemma of_Decimal_value (d : Decimal.t) :
  well_formed d ->
  Int128_Decimal.of_Decimal d
  = Ok (signed_mantissa d ÷ 10 ^ Decimal.scale d).
Proof.
  intros [Hl Hs]. pose proof (mantissa_value_range d Hl) as Hm.
  pose proof (scale_range d) as Hr.
  pose proof (pow10_pos (Decimal.scale d) ltac:(lia)) as Hp.
  pose proof (pow10_le (Decimal.scale d) 28 ltac:(lia)) as Hp28.
  change (10 ^ 28) with 10000000000000000000000000000 in Hp28.
  unfold Int128_Decimal.of_Decimal.
  rewrite (eqb_zero_r d Hl), (mantissa_value_zero d Hl).
  destruct (Z.eqb_spec (mantissa_value d) 0) as [Hz | Hnz].
  { unfold signed_mantissa. rewrite Hz.
    destruct (Decimal.sign_bit d); cbn [Z.opp]; rewrite Z.quot_0_l by lia;
      reflexivity. }
  rewrite limbs_to_Int128_value, ltb_zero_sign by assumption. cbv zeta.
  assert (Hq : 0 <= mantissa_value d / 10 ^ Decimal.scale d < 2 ^ 96).
  { split; [ apply Z.div_pos; lia | apply Z.div_lt_upper_bound; nia ]. }
  match goal with
  | |- bind ?e _ = _ =>
      assert (Hint : e = Ok (mantissa_value d / 10 ^ Decimal.scale d))
  end.
  { destruct (Z.gtb_spec (Decimal.scale d) 0) as [Hpos | Hz].
    - rewrite times_ten_value by lia. rewrite Z.mul_1_l.
      apply div_nonneg; lia.
    - replace (Decimal.scale d) with 0 by lia.
      rewrite Z.pow_0_r, Z.div_1_r. reflexivity. }
  rewrite Hint. cbn [bind]. f_equal. unfold signed_mantissa.
  destruct (Decimal.sign_bit d).
  - rewrite neg_small by lia. rewrite Z.quot_opp_l by lia.
    rewrite Z.quot_div_nonneg by lia. reflexivity.
  - rewrite Z.quot_div_nonneg by lia. reflexivity.
Qed.

Lemma of_Int128_fits (val : Int128.t) :
  Z.abs val < 2 ^ 96 ->
  exists d,
    Decimal.of_Int128 val = Ok d /\ limbs_valid d /\ Decimal.scale d = 0
    /\ signed_mantissa d = val.
Proof.
  intros Hv. unfold Decimal.of_Int128, Int128.eqb, Int128.ltb.
  destruct (Z.eqb_spec val 0) as [-> | Hnz].
  { exists Decimal.zero. split; [ reflexivity | ].
    split; [ unfold limbs_valid; cbn; lia | split; reflexivity ]. }
  rewrite Int128_min_value.
  destruct (Z.eqb_spec val (- 2 ^ 127)); [ lia | ].
  rewrite abs_small by lia.
  rewrite toHigh_nonneg by lia.
  unfold constants.UINT32_MAX_VALUE.
  assert (Hh : Z.abs val / 2 ^ 64 < 2 ^ 32)
    by (apply Z.div_lt_upper_bound; lia).
  destruct (Z.gtb_spec (Z.abs val / 2 ^ 64) 0xFFFFFFFF); [ lia | ].
  eexists. split; [ reflexivity | ].
  split; [ apply setMantissa_limbs | ].
  split; [ destruct (val <? 0); reflexivity | ].
  unfold signed_mantissa. rewrite setMantissa_value.
  rewrite Z.mod_small by lia.
  destruct (Z.ltb_spec val 0) as [Hneg | Hpos].
  - replace (Decimal.sign_bit _) with true by reflexivity. lia.
  - replace (Decimal.sign_bit _) with false by reflexivity. lia.
Qed.

Lemma of_Int128_of_Decimal (x : Int128.t) :
  Z.abs x < 2 ^ 96 ->
  exists d, Decimal.of_Int128 x = Ok d /\ Int128_Decimal.of_Decimal d = Ok x.
Proof.
  intros Hx. destruct (of_Int128_fits x Hx) as (d & H1 & H2 & H3 & H4).
  exists d. split; [ exact H1 | ].
  rewrite of_Decimal_value by (split; [ exact H2 | lia ]).
  rewrite H3, H4, Z.pow_0_r, Z.quot_1_r. reflexivity.
Qed.

Lemma Int128_eqb_Decimal (x : Int128.t) (val : Decimal.t) :
  Int128.valid x -> limbs_valid val ->
  Int128_Decimal.eqb x val
  = (Decimal.scale val =? 0) && (x =? signed_mantissa val).
Proof.
  intros Hx Hl. pose proof (mantissa_value_range val Hl) as Hm.
  pose proof (scale_range val) as Hr. unfold Int128.valid in Hx.
  unfold Int128_Decimal.eqb.
  destruct (Z.gtb_spec (Decimal.scale val) 0) as [Hpos | Hz].
  { destruct (Z.eqb_spec (Decimal.scale val) 0); [ lia | reflexivity ]. }
  destruct (Z.eqb_spec (Decimal.scale val) 0); [ | lia ]. cbn [andb].
  rewrite ltb_zero_sign, (eqb_zero_r val Hl), (mantissa_value_zero val Hl),
    limbs_to_Int128_value by assumption.
  unfold Int128.ltb, Int128.eqb, signed_mantissa.
  destruct (Z.ltb_spec x 0) as [Hneg | Hnn];
    destruct (Decimal.sign_bit val); cbn [Bool.eqb negb].
  - destruct (Z.eq_dec x (- 2 ^ 127)) as [-> | Hmin].
    + replace (Int128.abs (- 2 ^ 127)) with (- 2 ^ 127) by reflexivity.
      destruct (Z.eqb_spec (- 2 ^ 127) (mantissa_value val)),
               (Z.eqb_spec (- 2 ^ 127) (- mantissa_value val));
        trivial; lia.
    + rewrite abs_small by lia.
      destruct (Z.eqb_spec (Z.abs x) (mantissa_value val)),
               (Z.eqb_spec x (- mantissa_value val)); trivial; lia.
  - destruct (Z.eqb_spec x 0); [ lia | ]. cbn [andb].
    destruct (Z.eqb_spec x (mantissa_value val)); trivial; lia.
  - destruct (Z.eqb_spec x 0), (Z.eqb_spec (mantissa_value val) 0),
             (Z.eqb_spec x (- mantissa_value val)); cbn [andb]; trivial; lia.
  - rewrite abs_small by lia.
    destruct (Z.eqb_spec (Z.abs x) (mantissa_value val)),
             (Z.eqb_spec x (mantissa_value val)); trivial; lia.
Qed.

Lemma Int128_ltb_Decimal (x : Int128.t) (val : Decimal.t) :
  limbs_valid val ->
  - 2 ^ 127 < x * 10 ^ Decimal.scale val < 2 ^ 127 ->
  Int128_Decimal.ltb x val
  = (x * 10 ^ Decimal.scale val <? signed_mantissa val).
Proof.
  intros Hl Hx. pose proof (mantissa_value_range val Hl) as Hm.
  pose proof (scale_range val) as Hr.
  pose proof (pow10_pos (Decimal.scale val) ltac:(lia)) as Hp.
  assert (Hxs : - 2 ^ 127 < x < 2 ^ 127) by nia.
  unfold Int128_Decimal.ltb.
  rewrite ltb_zero_sign, limbs_to_Int128_value by assumption.
  unfold Int128.ltb, Int128.gtb, signed_mantissa.
  destruct (Z.ltb_spec x 0) as [Hneg | Hnn];
    destruct (Decimal.sign_bit val); cbn [andb negb].
  - destruct (Z.gtb_spec (Decimal.scale val) 0) as [Hpos | Hz].
    + rewrite times_ten_value by lia. rewrite abs_small by lia.
      destruct (Z.gtb_spec (Z.abs (x * 10 ^ Decimal.scale val)) (mantissa_value val)),
               (Z.ltb_spec (x * 10 ^ Decimal.scale val) (- mantissa_value val));
        trivial; nia.
    + replace (Decimal.scale val) with 0 in * by lia.
      rewrite Z.pow_0_r, Z.mul_1_r in *. rewrite abs_small by lia.
      destruct (Z.gtb_spec (Z.abs x) (mantissa_value val)),
               (Z.ltb_spec x (- mantissa_value val)); trivial; lia.
  - destruct (Z.ltb_spec (x * 10 ^ Decimal.scale val) (mantissa_value val));
      trivial; nia.
  - destruct (Z.ltb_spec (x * 10 ^ Decimal.scale val) (- mantissa_value val));
      trivial; nia.
  - destruct (Z.gtb_spec (Decimal.scale val) 0) as [Hpos | Hz].
    + rewrite times_ten_value by lia. reflexivity.
    + replace (Decimal.scale val) with 0 in * by lia.
      rewrite Z.pow_0_r, Z.mul_1_r in *. rewrite abs_small by lia.
      destruct (Z.ltb_spec (Z.abs x) (mantissa_value val)),
               (Z.ltb_spec x (mantissa_value val)); trivial; lia.
Qed.

Lemma normalized_scaled (val : Decimal.t) (x : Z) :
  limbs_valid val -> normalized val -> 0 < Decimal.scale val ->
  x * 10 ^ Decimal.scale val <> signed_mantissa val.
Proof.
  intros Hl [Hs | Hn] Hpos E; [ lia | ].
  apply Hn. pose proof (scale_range val) as Hr.
  assert (Hm : mantissa_value val = Z.abs (x * 10 ^ Decimal.scale val)).
  { rewrite E. symmetry. apply signed_mantissa_abs. exact Hl. }
  rewrite Hm, Z.abs_mul.
  replace (Decimal.scale val) with (Z.succ (Decimal.scale val - 1)) by lia.
  rewrite Z.pow_succ_r by lia.
  pose proof (pow10_pos (Decimal.scale val - 1) ltac:(lia)).
  rewrite (Z.abs_eq (10 * _)) by lia.
  replace (Z.abs x * (10 * 10 ^ (Decimal.scale val - 1)))
    with ((Z.abs x * 10 ^ (Decimal.scale val - 1)) * 10) by lia.
  apply Z.mod_mul. lia.
Qed.

(** X12. The six comparisons of an Int128 with a Decimal
    ([Int128::operator==( const Decimal& )], [operator<] and the four that
    [Int128.inl] derives from them) compare the integer with the value of
    the decimal, for a normalized decimal and an integer that can be scaled
    by [10^scale] within 128 bits. *)
Theorem Int128_compared_with_Decimal (x : Int128.t) (val : Decimal.t) :
  limbs_valid val -> normalized val ->
  - 2 ^ 127 < x * 10 ^ Decimal.scale val < 2 ^ 127 ->
  Int128_Decimal.eqb x val = (x * 10 ^ Decimal.scale val =? signed_mantissa val)
  /\ Int128_Decimal.neqb x val
     = negb (x * 10 ^ Decimal.scale val =? signed_mantissa val)
  /\ Int128_Decimal.ltb x val = (x * 10 ^ Decimal.scale val <? signed_mantissa val)
  /\ Int128_Decimal.leb x val = (x * 10 ^ Decimal.scale val <=? signed_mantissa val)
  /\ Int128_Decimal.gtb x val = (x * 10 ^ Decimal.scale val >? signed_mantissa val)
  /\ Int128_Decimal.geb x val = (x * 10 ^ Decimal.scale val >=? signed_mantissa val).
Proof.
  intros Hl Hn Hx.
  pose proof (scale_range val) as Hr.
  pose proof (pow10_pos (Decimal.scale val) ltac:(lia)) as Hp.
  assert (Hxs : Int128.valid x) by (unfold Int128.valid; nia).
  pose proof (Int128_eqb_Decimal x val Hxs Hl) as He.
  pose proof (Int128_ltb_Decimal x val Hl Hx) as Hlt.
  assert (He' : Int128_Decimal.eqb x val
                = (x * 10 ^ Decimal.scale val =? signed_mantissa val)).
  { rewrite He. destruct (Z.eqb_spec (Decimal.scale val) 0) as [E | Hpos].
    - rewrite E, Z.pow_0_r, Z.mul_1_r. reflexivity.
    - cbn [andb]. symmetry. apply Z.eqb_neq.
      apply normalized_scaled; trivial. lia. }
  unfold Int128_Decimal.neqb, Int128_Decimal.geb, Int128_Decimal.gtb,
    Int128_Decimal.leb.
  rewrite Hlt, He'.
  set (X := x * 10 ^ Decimal.scale val). set (M := signed_mantissa val).
  destruct (Z.ltb_spec X M), (Z.eqb_spec X M), (Z.leb_spec X M),
           (Z.gtb_spec X M), (Z.geb_spec X M);
    cbn [orb negb andb]; repeat split; trivial; lia.
Qed.

(** X13. The six comparisons of a Decimal with an Int128
    ([Decimal::operator==( const Int128& )], [operator<] and the four that
    [Decimal.inl] derives from them) compare the value of the decimal with
    the integer, for a normalized decimal that is not a zero with the sign
    bit set and an integer that can be scaled by [10^scale] within 128
    bits. *)
Theorem Decimal_compared_with_Int128 (d : Decimal.t) (val : Int128.t) :
  well_formed d -> normalized d ->
  (mantissa_value d = 0 -> Decimal.sign_bit d = false) ->
  - 2 ^ 127 < val * 10 ^ Decimal.scale d < 2 ^ 127 ->
  Decimal.eqb_Int128 d val = (signed_mantissa d =? val * 10 ^ Decimal.scale d)
  /\ Decimal.neqb_Int128 d val
     = negb (signed_mantissa d =? val * 10 ^ Decimal.scale d)
  /\ Decimal.ltb_Int128 d val = (signed_mantissa d <? val * 10 ^ Decimal.scale d)
  /\ Decimal.leb_Int128 d val = (signed_mantissa d <=? val * 10 ^ Decimal.scale d)
  /\ Decimal.gtb_Int128 d val = (signed_mantissa d >? val * 10 ^ Decimal.scale d)
  /\ Decimal.geb_Int128 d val = (signed_mantissa d >=? val * 10 ^ Decimal.scale d).
Proof.
  intros [Hl Hs] Hn Hz Hx.
  pose proof (scale_range d) as Hr.
  pose proof (mantissa_value_range d Hl) as Hm.
  pose proof (pow10_pos (Decimal.scale d) ltac:(lia)) as Hp.
  assert (Hxs : - 2 ^ 127 < val < 2 ^ 127) by nia.
  assert (He : Decimal.eqb_Int128 d val
               = (signed_mantissa d =? val * 10 ^ Decimal.scale d)).
  { unfold Decimal.eqb_Int128.
    destruct (Z.gtb_spec (Decimal.scale d) 0) as [Hpos | Hz0].
    { symmetry. apply Z.eqb_neq. intros E.
      apply (normalized_scaled d val Hl Hn Hpos). lia. }
    replace (Decimal.scale d) with 0 in * by lia.
    rewrite Z.pow_0_r, Z.mul_1_r in *.
    rewrite ltb_zero_sign, mantissaAsInt128_value by assumption.
    unfold Int128.ltb, Int128.eqb, signed_mantissa.
    destruct (Decimal.sign_bit d) eqn:Sg.
    - destruct (Z.ltb_spec val 0); cbn [negb].
      + rewrite neg_small by lia.
        destruct (Z.eqb_spec (mantissa_value d) (- val)),
                 (Z.eqb_spec (- mantissa_value d) val); trivial; lia.
      + destruct (Z.eqb_spec (- mantissa_value d) val); trivial.
        assert (Hm0 : mantissa_value d = 0) by lia.
        specialize (Hz Hm0). discriminate.
    - destruct (Z.ltb_spec val 0).
      + destruct (Z.eqb_spec (mantissa_value d) val); trivial; lia.
      + reflexivity. }
  assert (Hlt : Decimal.ltb_Int128 d val
                = (signed_mantissa d <? val * 10 ^ Decimal.scale d)).
  { unfold Decimal.ltb_Int128.
    rewrite ltb_zero_sign, mantissaAsInt128_value by assumption.
    unfold Int128.ltb, Int128.gtb, signed_mantissa.
    destruct (Decimal.sign_bit d) eqn:Sg; cbn [andb negb].
    - destruct (Z.ltb_spec val 0) as [Hneg | Hnn]; cbn [negb].
      + destruct (Z.gtb_spec (Decimal.scale d) 0) as [Hpos | Hz0].
        * rewrite powerOf10_table by lia. unfold Int128.mul.
          rewrite wrap_small by (unfold Int128.valid; lia).
          rewrite abs_small by lia.
          destruct (Z.gtb_spec (mantissa_value d)
                               (Z.abs (val * 10 ^ Decimal.scale d))),
                   (Z.ltb_spec (- mantissa_value d) (val * 10 ^ Decimal.scale d));
            trivial; lia.
        * replace (Decimal.scale d) with 0 in * by lia.
          rewrite Z.pow_0_r, Z.mul_1_r in *. rewrite abs_small by lia.
          destruct (Z.gtb_spec (mantissa_value d) (Z.abs val)),
                   (Z.ltb_spec (- mantissa_value d) val); trivial; lia.
      + destruct (Z.ltb_spec (- mantissa_value d) (val * 10 ^ Decimal.scale d));
          trivial.
        assert (Hm0 : mantissa_value d = 0) by nia.
        specialize (Hz Hm0). discriminate.
    - destruct (Z.ltb_spec val 0) as [Hneg | Hnn].
      + destruct (Z.ltb_spec (mantissa_value d) (val * 10 ^ Decimal.scale d));
          trivial; nia.
      + destruct (Z.gtb_spec (Decimal.scale d) 0) as [Hpos | Hz0].
        * rewrite powerOf10_table by lia. unfold Int128.mul.
          rewrite wrap_small by (unfold Int128.valid; lia). reflexivity.
        * replace (Decimal.scale d) with 0 in * by lia.
          rewrite Z.pow_0_r, Z.mul_1_r in *. reflexivity. }
  unfold Decimal.neqb_Int128, Decimal.geb_Int128, Decimal.gtb_Int128,
    Decimal.leb_Int128.
  rewrite Hlt, He.
  set (X := val * 10 ^ Decimal.scale d). set (M := signed_mantissa d).
  destruct (Z.ltb_spec M X), (Z.eqb_spec M X), (Z.leb_spec M X),
           (Z.gtb_spec M X), (Z.geb_spec M X);
    cbn [orb negb andb]; repeat split; trivial; lia.
Qed.

(** ** The properties, with their witnesses *)

Lemma alignable_sym (d o : Decimal.t) : alignable d o -> alignable o d.
Proof.
  unfold alignable. cbv zeta.
  rewrite (Z.max_comm (Decimal.scale o) (Decimal.scale d)). tauto.
Qed.

(** X1. [Decimal::operator<=>], and [<] and [>] that the compiler derives
    from it, order two decimals as their values are ordered, when bringing
    both mantissas to the larger scale does not overflow 128 bits and the
    operands are not two zeros of different sign (a zero with the sign bit
    set is below a zero without).  The values are compared in units of
    [10^-s], [s] the larger of the two scales. *)
Theorem compare_order (d o : Decimal.t) :
  well_formed d -> well_formed o -> alignable d o ->
  (mantissa_value d = 0 -> mantissa_value o = 0 ->
   Decimal.sign_bit d = Decimal.sign_bit o) ->
  Decimal.compare d o
  = (units (Z.max (Decimal.scale d) (Decimal.scale o)) d
     ?= units (Z.max (Decimal.scale d) (Decimal.scale o)) o)
  /\ Decimal.ltb d o
     = (units (Z.max (Decimal.scale d) (Decimal.scale o)) d
        <? units (Z.max (Decimal.scale d) (Decimal.scale o)) o)
  /\ Decimal.gtb d o
     = (units (Z.max (Decimal.scale d) (Decimal.scale o)) d
        >? units (Z.max (Decimal.scale d) (Decimal.scale o)) o).
Proof.
  intros Hd Ho Ha Hz.
  pose proof (compare_units d o Hd Ho Ha Hz) as Hc.
  split; [ exact Hc | ].
  unfold Decimal.ltb, Decimal.gtb, Z.ltb, Z.gtb. rewrite Hc.
  split; reflexivity.
Qed.

Lemma compare_order_witness :
  Decimal.compare (Decimal.mk 0x80010000 25 0 0) (Decimal.mk 0x00020000 125 0 0)
  = Lt
  /\ Decimal.ltb (Decimal.mk 0x80010000 25 0 0) (Decimal.mk 0x00020000 125 0 0)
     = true.
Proof.
  destruct (compare_order (Decimal.mk 0x80010000 25 0 0)
                          (Decimal.mk 0x00020000 125 0 0))
    as (H1 & H2 & _).
  - split; [ unfold limbs_valid; cbn; lia | vm_compute; discriminate ].
  - split; [ unfold limbs_valid; cbn; lia | vm_compute; discriminate ].
  - split; vm_compute; reflexivity.
  - intros H; vm_compute in H; discriminate H.
  - split; [ rewrite H1 | rewrite H2 ]; reflexivity.
Defined.

(** X2. [Decimal::operator==] holds exactly when the two values are equal,
    zeros of either sign included, when bringing both mantissas to the
    larger scale does not overflow 128 bits; and it is symmetric. *)
Theorem eqb_value (d o : Decimal.t) :
  well_formed d -> well_formed o -> alignable d o ->
  Decimal.eqb d o
  = (units (Z.max (Decimal.scale d) (Decimal.scale o)) d
     =? units (Z.max (Decimal.scale d) (Decimal.scale o)) o)
  /\ Decimal.eqb o d = Decimal.eqb d o.
Proof.
  intros Hd Ho Ha.
  pose proof (eqb_units d o Hd Ho Ha) as H1.
  pose proof (eqb_units o d Ho Hd (alignable_sym d o Ha)) as H2.
  split; [ exact H1 | ].
  rewrite H1, H2, (Z.max_comm (Decimal.scale o) (Decimal.scale d)).
  apply Z.eqb_sym.
Qed.

Lemma eqb_value_witness :
  Decimal.eqb (Decimal.mk 0x00010000 25 0 0) (Decimal.mk 0x00030000 2500 0 0)
  = true.
Proof.
  destruct (eqb_value (Decimal.mk 0x00010000 25 0 0)
                      (Decimal.mk 0x00030000 2500 0 0))
    as (H1 & _).
  - split; [ unfold limbs_valid; cbn; lia | vm_compute; discriminate ].
  - split; [ unfold limbs_valid; cbn; lia | vm_compute; discriminate ].
  - split; vm_compute; reflexivity.
  - rewrite H1. reflexivity.
Defined.

(** X3. [Decimal::operator+] and the binary [operator-] return the sum and
    the difference of the values, normalized, when the aligned mantissas fit
    in 128 bits and the result fits in 96, with one exception: when the left
    operand is negative and the exact result is positive, the result has the
    right magnitude and the sign bit set, because the flags of the result
    start as a copy of the left operand's ([-3 + 5] is [-2], [-3 - (-5)] is
    [-2]). *)
Theorem add_sub_value (d o : Decimal.t) :
  well_formed d -> well_formed o -> alignable d o ->
  (Z.abs (units (Z.max (Decimal.scale d) (Decimal.scale o)) d
          + units (Z.max (Decimal.scale d) (Decimal.scale o)) o) < 2 ^ 96 ->
   exists r,
     Decimal.add d o = Ok r /\
     limbs_valid r /\
     0 <= Decimal.scale r <= Z.max (Decimal.scale d) (Decimal.scale o) /\
     units (Z.max (Decimal.scale d) (Decimal.scale o)) r
     = if (units (Z.max (Decimal.scale d) (Decimal.scale o)) d <? 0)
          && (0 <? units (Z.max (Decimal.scale d) (Decimal.scale o)) d
                   + units (Z.max (Decimal.scale d) (Decimal.scale o)) o)
       then - (units (Z.max (Decimal.scale d) (Decimal.scale o)) d
               + units (Z.max (Decimal.scale d) (Decimal.scale o)) o)
       else units (Z.max (Decimal.scale d) (Decimal.scale o)) d
            + units (Z.max (Decimal.scale d) (Decimal.scale o)) o)
  /\ (Z.abs (units (Z.max (Decimal.scale d) (Decimal.scale o)) d
             - units (Z.max (Decimal.scale d) (Decimal.scale o)) o) < 2 ^ 96 ->
      exists r,
        Decimal.sub d o = Ok r /\
        limbs_valid r /\
        0 <= Decimal.scale r <= Z.max (Decimal.scale d) (Decimal.scale o) /\
        units (Z.max (Decimal.scale d) (Decimal.scale o)) r
        = if (units (Z.max (Decimal.scale d) (Decimal.scale o)) d <? 0)
             && (0 <? units (Z.max (Decimal.scale d) (Decimal.scale o)) d
                      - units (Z.max (Decimal.scale d) (Decimal.scale o)) o)
          then - (units (Z.max (Decimal.scale d) (Decimal.scale o)) d
                  - units (Z.max (Decimal.scale d) (Decimal.scale o)) o)
          else units (Z.max (Decimal.scale d) (Decimal.scale o)) d
               - units (Z.max (Decimal.scale d) (Decimal.scale o)) o).
Proof.
  intros Hd Ho Ha. split; intros Hfit.
  - apply add_units; assumption.
  - apply sub_units; assumption.
Qed.

Lemma add_sub_value_witness :
  (exists r,
      Decimal.add (Decimal.mk 0x80000000 3 0 0) (Decimal.mk 0 5 0 0) = Ok r
      /\ units 0 r = -2)
  /\ (exists r,
         Decimal.sub (Decimal.mk 0x00010000 15 0 0) (Decimal.mk 0x00020000 25 0 0)
         = Ok r
         /\ units 2 r = 125).
Proof.
  split.
  - destruct (proj1 (add_sub_value (Decimal.mk 0x80000000 3 0 0)
                                   (Decimal.mk 0 5 0 0)
                       ltac:(split; [ unfold limbs_valid; cbn; lia
                                    | vm_compute; discriminate ])
                       ltac:(split; [ unfold limbs_valid; cbn; lia
                                    | vm_compute; discriminate ])
                       ltac:(split; vm_compute; reflexivity))
                ltac:(vm_compute; reflexivity))
      as (r & H1 & _ & _ & H4).
    exists r. split; [ exact H1 | exact H4 ].
  - destruct (proj2 (add_sub_value (Decimal.mk 0x00010000 15 0 0)
                                   (Decimal.mk 0x00020000 25 0 0)
                       ltac:(split; [ unfold limbs_valid; cbn; lia
                                    | vm_compute; discriminate ])
                       ltac:(split; [ unfold limbs_valid; cbn; lia
                                    | vm_compute; discriminate ])
                       ltac:(split; vm_compute; reflexivity))
                ltac:(vm_compute; reflexivity))
      as (r & H1 & _ & _ & H4).
    exists r. split; [ exact H1 | exact H4 ].
Defined.


Lemma Decimal_abs_value_witness :
  Decimal.sign_bit (Decimal.abs (Decimal.mk 0x80000000 0 0 0)) = false
  /\ mantissa_value (Decimal.abs (Decimal.mk 0x80020000 314 0 0)) = 314.
Proof.
  split.
  - apply (Decimal_abs_value (Decimal.mk 0x80000000 0 0 0)).
    unfold limbs_valid; cbn; lia.
  - destruct (Decimal_abs_value (Decimal.mk 0x80020000 314 0 0))
      as (_ & _ & H & _); [ unfold limbs_valid; cbn; lia | exact H ].
Defined.

(** X6. [Decimal::round] with the modes [ToZero], [ToNegativeInfinity] and
    [ToPositiveInfinity] truncates the value, takes its floor, and takes its
    ceiling, at [n] decimal places: with the value counted in units of
    [10^-s], [s] the scale of the operand, the result is the multiple of
    [10^(s-n)] that the mode selects.  Asking for at least [s] places, or
    rounding a zero, returns the operand unchanged, flags included. *)
Theorem round_directed (d : Decimal.t) (n : Z) :
  well_formed d -> 0 <= n ->
  (exists r,
      Decimal.round d n Decimal.ToZero = Ok r /\ limbs_valid r
      /\ Decimal.scale r <= Decimal.scale d
      /\ (mantissa_value d <> 0 ->
          Decimal.scale r = Z.min n (Decimal.scale d))
      /\ units (Decimal.scale d) r
         = (units (Decimal.scale d) d
            ÷ 10 ^ (Decimal.scale d - Z.min n (Decimal.scale d)))
           * 10 ^ (Decimal.scale d - Z.min n (Decimal.scale d)))
  /\ (exists r,
         Decimal.round d n Decimal.ToNegativeInfinity = Ok r /\ limbs_valid r
         /\ Decimal.scale r <= Decimal.scale d
         /\ (mantissa_value d <> 0 ->
             Decimal.scale r = Z.min n (Decimal.scale d))
         /\ units (Decimal.scale d) r
            = (units (Decimal.scale d) d
               / 10 ^ (Decimal.scale d - Z.min n (Decimal.scale d)))
              * 10 ^ (Decimal.scale d - Z.min n (Decimal.scale d)))
  /\ (exists r,
         Decimal.round d n Decimal.ToPositiveInfinity = Ok r /\ limbs_valid r
         /\ Decimal.scale r <= Decimal.scale d
         /\ (mantissa_value d <> 0 ->
             Decimal.scale r = Z.min n (Decimal.scale d))
         /\ units (Decimal.scale d) r
            = - ((- units (Decimal.scale d) d)
                 / 10 ^ (Decimal.scale d - Z.min n (Decimal.scale d)))
              * 10 ^ (Decimal.scale d - Z.min n (Decimal.scale d)))
  /\ (Decimal.scale d <= n \/ mantissa_value d = 0 ->
      Decimal.round d n Decimal.ToZero = Ok d
      /\ Decimal.round d n Decimal.ToNegativeInfinity = Ok d
      /\ Decimal.round d n Decimal.ToPositiveInfinity = Ok d).
Proof.
  intros Hd Hn.
  split; [ exact (round_ToZero_units d n Hd Hn) | ].
  split; [ exact (round_ToNegativeInfinity_units d n Hd Hn) | ].
  split; [ exact (round_ToPositiveInfinity_units d n Hd Hn) | ].
  intros Hid. destruct Hd as [Hl _].
  repeat split; apply round_identity; assumption.
Qed.

Lemma round_directed_witness :
  (exists r, Decimal.round (Decimal.mk 0x80030000 123456 0 0) 1 Decimal.ToZero = Ok r
             /\ units 3 r = -123400)
  /\ (exists r, Decimal.round (Decimal.mk 0x80030000 123456 0 0) 1
                  Decimal.ToNegativeInfinity = Ok r
                /\ units 3 r = -123500)
  /\ Decimal.round (Decimal.mk 0x80030000 0 0 0) 1 Decimal.ToZero
     = Ok (Decimal.mk 0x80030000 0 0 0)
  /\ Decimal.round (Decimal.mk 0x80030000 123456 0 0) 5
       Decimal.ToPositiveInfinity
     = Ok (Decimal.mk 0x80030000 123456 0 0).
Proof.
  pose proof (round_directed (Decimal.mk 0x80030000 123456 0 0) 1
                ltac:(split; [ unfold limbs_valid; cbn; lia
                             | vm_compute; discriminate ])
                ltac:(lia)) as (H1 & H2 & _).
  pose proof (round_directed (Decimal.mk 0x80030000 0 0 0) 1
                ltac:(split; [ unfold limbs_valid; cbn; lia
                             | vm_compute; discriminate ])
                ltac:(lia)) as (_ & _ & _ & H3).
  pose proof (round_directed (Decimal.mk 0x80030000 123456 0 0) 5
                ltac:(split; [ unfold limbs_valid; cbn; lia
                             | vm_compute; discriminate ])
                ltac:(lia)) as (_ & _ & _ & H4).
  split; [ | split; [ | split ] ].
  - destruct H1 as (r & E & _ & _ & _ & U). exists r. split; [ exact E | exact U ].
  - destruct H2 as (r & E & _ & _ & _ & U). exists r. split; [ exact E | exact U ].
  - apply H3. right. reflexivity.
  - apply H4. left. vm_compute. discriminate.
Defined.

(** X7. [Decimal::floor], [Decimal::ceil] and [Decimal::trunc] return an
    integer (scale 0, or a zero mantissa), and it is the floor, the ceiling
    and the truncation toward zero of the value: of the signed mantissa
    divided by [10^scale]. *)
Theorem floor_ceil_trunc (d : Decimal.t) :
  well_formed d ->
  (exists r,
      Decimal.floor d = Ok r /\ limbs_valid r
      /\ (Decimal.scale r = 0 \/ mantissa_value r = 0)
      /\ signed_mantissa r = signed_mantissa d / 10 ^ Decimal.scale d)
  /\ (exists r,
         Decimal.ceil d = Ok r /\ limbs_valid r
         /\ (Decimal.scale r = 0 \/ mantissa_value r = 0)
         /\ signed_mantissa r = - ((- signed_mantissa d) / 10 ^ Decimal.scale d))
  /\ (exists r,
         Decimal.trunc d = Ok r /\ limbs_valid r
         /\ (Decimal.scale r = 0 \/ mantissa_value r = 0)
         /\ signed_mantissa r = signed_mantissa d ÷ 10 ^ Decimal.scale d).
Proof.
  intros Hd. pose proof (scale_range d) as Hr.
  assert (Hmin : Z.min 0 (Decimal.scale d) = 0) by lia.
  unfold Decimal.floor, Decimal.ceil, Decimal.trunc.
  split; [ | split ].
  - destruct (round_ToNegativeInfinity_units d 0 Hd ltac:(lia))
      as (r & H1 & H2 & H3 & H4 & H5).
    rewrite Hmin, Z.sub_0_r, units_self in *.
    exists r. split; [ exact H1 | ]. split; [ exact H2 | ].
    apply (integer_units r (Decimal.scale d)); trivial; try lia.
    intros Hnz. apply H4. intros Hz.
    assert (Hs0 : signed_mantissa d = 0)
      by (unfold signed_mantissa; rewrite Hz; destruct (Decimal.sign_bit d); lia).
    rewrite Hs0, Z.div_0_l in H5
      by (pose proof (pow10_pos (Decimal.scale d)); lia).
    destruct (integer_units r (Decimal.scale d) 0 H2 ltac:(lia) H3) as [_ E];
      [ | exact H5 | ].
    + intros Hm. exfalso.
      pose proof (mantissa_value_range r H2).
      pose proof (pow10_pos (Decimal.scale d - Decimal.scale r) ltac:(lia)).
      rewrite units_of in H5. destruct (Decimal.sign_bit r); nia.
    + unfold signed_mantissa in E. destruct (Decimal.sign_bit r); lia.
  - destruct (round_ToPositiveInfinity_units d 0 Hd ltac:(lia))
      as (r & H1 & H2 & H3 & H4 & H5).
    rewrite Hmin, Z.sub_0_r, units_self in *.
    exists r. split; [ exact H1 | ]. split; [ exact H2 | ].
    apply (integer_units r (Decimal.scale d)); trivial; try lia.
    intros Hnz. apply H4. intros Hz.
    assert (Hs0 : signed_mantissa d = 0)
      by (unfold signed_mantissa; rewrite Hz; destruct (Decimal.sign_bit d); lia).
    rewrite Hs0 in H5. cbn [Z.opp] in H5. rewrite Z.div_0_l in H5
      by (pose proof (pow10_pos (Decimal.scale d)); lia).
    pose proof (mantissa_value_range r H2).
    pose proof (pow10_pos (Decimal.scale d - Decimal.scale r) ltac:(lia)).
    rewrite units_of in H5. destruct (Decimal.sign_bit r); nia.
  - destruct (round_ToZero_units d 0 Hd ltac:(lia))
      as (r & H1 & H2 & H3 & H4 & H5).
    rewrite Hmin, Z.sub_0_r, units_self in *.
    exists r. split; [ exact H1 | ]. split; [ exact H2 | ].
    apply (integer_units r (Decimal.scale d)); trivial; try lia.
    intros Hnz. apply H4. intros Hz.
    assert (Hs0 : signed_mantissa d = 0)
      by (unfold signed_mantissa; rewrite Hz; destruct (Decimal.sign_bit d); lia).
    rewrite Hs0, Z.quot_0_l in H5
      by (pose proof (pow10_pos (Decimal.scale d)); lia).
    pose proof (mantissa_value_range r H2).
    pose proof (pow10_pos (Decimal.scale d - Decimal.scale r) ltac:(lia)).
    rewrite units_of in H5. destruct (Decimal.sign_bit r); nia.
Qed.

Lemma floor_ceil_trunc_witness :
  (exists r, Decimal.floor (Decimal.mk 0x80010000 25 0 0) = Ok r
             /\ signed_mantissa r = -3)
  /\ (exists r, Decimal.ceil (Decimal.mk 0x80010000 25 0 0) = Ok r
                /\ signed_mantissa r = -2)
  /\ (exists r, Decimal.trunc (Decimal.mk 0x80010000 25 0 0) = Ok r
                /\ signed_mantissa r = -2).
Proof.
  pose proof (floor_ceil_trunc (Decimal.mk 0x80010000 25 0 0)
                ltac:(split; [ unfold limbs_valid; cbn; lia
                             | vm_compute; discriminate ])) as (H1 & H2 & H3).
  split; [ | split ].
  - destruct H1 as (r & E & _ & _ & U). exists r. split; [ exact E | exact U ].
  - destruct H2 as (r & E & _ & _ & U). exists r. split; [ exact E | exact U ].
  - destruct H3 as (r & E & _ & _ & U). exists r. split; [ exact E | exact U ].
Defined.

Lemma round_ties_away_witness :
  exists r,
    Decimal.round (Decimal.mk 0x80020000 255 0 0) 0 Decimal.ToNearestTiesAway
    = Ok r
    /\ Decimal.sign_bit r = true /\ mantissa_value r = 3.
Proof.
  destruct (round_ties_away (Decimal.mk 0x80020000 255 0 0) 0)
    as (r & H1 & _ & _ & H4 & H5).
  - split; [ unfold limbs_valid; cbn; lia | vm_compute; discriminate ].
  - vm_compute. split; [ discriminate | reflexivity ].
  - vm_compute. discriminate.
  - exists r. split; [ exact H1 | ]. split; [ exact H4 | exact H5 ].
Defined.

Lemma round_to_nearest_witness :
  (exists r,
      Decimal.round (Decimal.mk 0x00010000 25 0 0) 0 Decimal.ToNearest = Ok r
      /\ mantissa_value r = 2)
  /\ (exists r,
         Decimal.round (Decimal.mk 0x00030000 2461 0 0) 1 Decimal.ToNearest = Ok r
         /\ mantissa_value r = 25).
Proof.
  split.
  - destruct (round_to_nearest (Decimal.mk 0x00010000 25 0 0) 0)
      as (r & H1 & _ & _ & _ & H5).
    + split; [ unfold limbs_valid; cbn; lia | vm_compute; discriminate ].
    + vm_compute. split; [ discriminate | reflexivity ].
    + vm_compute. discriminate.
    + left. reflexivity.
    + exists r. split; [ exact H1 | exact H5 ].
  - destruct (round_to_nearest (Decimal.mk 0x00030000 2461 0 0) 1)
      as (r & H1 & _ & _ & _ & H5).
    + split; [ unfold limbs_valid; cbn; lia | vm_compute; discriminate ].
    + vm_compute. split; [ discriminate | reflexivity ].
    + vm_compute. discriminate.
    + right. vm_compute. discriminate.
    + exists r. split; [ exact H1 | exact H5 ].
Defined.

Lemma decimalPlacesCount_normalize_witness :
  Decimal.decimalPlacesCount (Decimal.mk 0x00040000 1234500 0 0) = Ok 2.
Proof.
  destruct (decimalPlacesCount_normalize (Decimal.mk 0x00040000 1234500 0 0))
    as (r & H1 & H2 & _).
  - unfold limbs_valid; cbn; lia.
  - rewrite H2. vm_compute in H1. injection H1 as <-. reflexivity.
Defined.

Lemma multiplyMantissaBy10AndAdd_value_witness :
  limbs_value (Decimal.multiplyMantissaBy10AndAdd [0xFFFFFFFF; 0x19999999; 0] 7)
  = (10 * limbs_value [0xFFFFFFFF; 0x19999999; 0] + 7) mod 2 ^ 96.
Proof.
  apply (multiplyMantissaBy10AndAdd_value [0xFFFFFFFF; 0x19999999; 0] 7).
  - repeat constructor; lia.
  - lia.
Defined.

(** X11. [Int128( const Decimal& )] is the value truncated toward zero: the
    signed mantissa divided by [10^scale], with the quotient rounded toward
    zero; and it gives back every Int128 that [Decimal( const Int128& )]
    accepts. *)
Theorem of_Decimal_truncates :
  (forall d : Decimal.t,
      well_formed d ->
      Int128_Decimal.of_Decimal d
      = Ok (signed_mantissa d ÷ 10 ^ Decimal.scale d))
  /\ (forall x : Int128.t,
         Z.abs x < 2 ^ 96 ->
         exists d, Decimal.of_Int128 x = Ok d
                   /\ Int128_Decimal.of_Decimal d = Ok x).
Proof.
  split; [ exact of_Decimal_value | exact of_Int128_of_Decimal ].
Qed.

Lemma of_Decimal_truncates_witness :
  Int128_Decimal.of_Decimal (Decimal.mk 0x80010000 427 0 0) = Ok (-42)
  /\ (exists d, Decimal.of_Int128 (-54321) = Ok d
                /\ Int128_Decimal.of_Decimal d = Ok (-54321)).
Proof.
  split.
  - apply (proj1 of_Decimal_truncates (Decimal.mk 0x80010000 427 0 0)).
    split; [ unfold limbs_valid; cbn; lia | vm_compute; discriminate ].
  - apply (proj2 of_Decimal_truncates (-54321)). vm_compute. reflexivity.
Defined.

Lemma Int128_compared_with_Decimal_witness :
  Int128_Decimal.ltb (-3) (Decimal.mk 0x80010000 25 0 0) = true
  /\ Int128_Decimal.eqb 42 (Decimal.mk 0 42 0 0) = true.
Proof.
  split.
  - destruct (Int128_compared_with_Decimal (-3) (Decimal.mk 0x80010000 25 0 0))
      as (_ & _ & H & _).
    + unfold limbs_valid; cbn; lia.
    + right. vm_compute. discriminate.
    + vm_compute. split; reflexivity.
    + rewrite H. reflexivity.
  - destruct (Int128_compared_with_Decimal 42 (Decimal.mk 0 42 0 0))
      as (H & _).
    + unfold limbs_valid; cbn; lia.
    + left. reflexivity.
    + vm_compute. split; reflexivity.
    + rewrite H. reflexivity.
Defined.

Lemma Decimal_compared_with_Int128_witness :
  Decimal.ltb_Int128 (Decimal.mk 0x80010000 25 0 0) (-2) = true
  /\ Decimal.geb_Int128 (Decimal.mk 0x00010000 25 0 0) 3 = false.
Proof.
  split.
  - destruct (Decimal_compared_with_Int128 (Decimal.mk 0x80010000 25 0 0) (-2))
      as (_ & _ & H & _).
    + split; [ unfold limbs_valid; cbn; lia | vm_compute; discriminate ].
    + right. vm_compute. discriminate.
    + intros E. vm_compute in E. discriminate E.
    + vm_compute. split; reflexivity.
    + rewrite H. reflexivity.
  - destruct (Decimal_compared_with_Int128 (Decimal.mk 0x00010000 25 0 0) 3)
      as (_ & _ & _ & _ & _ & H).
    + split; [ unfold limbs_valid; cbn; lia | vm_compute; discriminate ].
    + right. vm_compute. discriminate.
    + intros _. reflexivity.
    + vm_compute. split; reflexivity.
    + rewrite H. reflexivity.
Defined.

(** ** Int128 from and to text *)

Lemma fromString_decided (str : list ascii) :
  (0 < List.length (digit_run str) <= 39)%nat ->
  Forall is_digit (digit_run str) ->
  Int128.fromString str
  = (let v := if minus_sign str then - digits_value (digit_run str)
              else digits_value (digit_run str) in
     if (- 2 ^ 127 <=? v) && (v <? 2 ^ 127) then Some v else None).
Proof.
  unfold digit_run, sign_length, minus_sign, Int128.fromString.
  destruct str as [ | c0 str']; [ cbn; lia | ].
  set (str := c0 :: str').
  set (pos := if Int128.code c0 =? 45 then 1%nat
              else if Int128.code c0 =? 43 then 1%nat else 0%nat).
  rewrite length_skipn. intros Hlen Hd.
  set (ds := skipn pos str) in *.
  destruct (Nat.leb_spec (List.length str) pos) as [ | _]; [ lia | ].
  destruct (Nat.ltb_spec constants.INT128_MAX_DIGIT_COUNT
                         (List.length str - pos)) as [Hmax | _];
    [ unfold constants.INT128_MAX_DIGIT_COUNT in Hmax; lia | ].
  assert (Hdl : List.length ds = (List.length str - pos)%nat)
    by (unfold ds; apply length_skipn).
  pose proof (digits_value_bound ds Hd) as Hb. rewrite Hdl in Hb.
  set (dv := digits_value ds) in *.
  assert (Hparse : dv < 2 ^ 127 -> Int128.fromString_digits ds 0 = Some dv).
  { intros Hs. rewrite (fromString_digits_value ds 0 Hd ltac:(lia)).
    - reflexivity.
    - fold dv. lia. }
  assert (Hmaxpos : (List.length str - pos)%nat = 39%nat ->
                    Int128.compare_view ds constants.INT128_MAX_POSITIVE_STRING
                    = (dv ?= 2 ^ 127 - 1)).
  { intros H39. rewrite compare_view_digits; trivial.
    - repeat constructor.
    - rewrite Hdl, H39. reflexivity. }
  assert (Hmaxneg : (List.length str - pos)%nat = 39%nat ->
                    Int128.compare_view ds constants.INT128_MAX_NEGATIVE_STRING
                    = (dv ?= 2 ^ 127)).
  { intros H39. rewrite compare_view_digits; trivial.
    - repeat constructor.
    - rewrite Hdl, H39. reflexivity. }
  assert (Hshort : (List.length str - pos)%nat <> 39%nat -> dv < 10 ^ 38).
  { intros H39. eapply Z.lt_le_trans; [ apply Hb | ].
    apply Z.pow_le_mono_r; lia. }
  assert (H38 : 10 ^ 38 < 2 ^ 127) by (vm_compute; reflexivity).
  cbv zeta.
  destruct (Nat.eqb_spec (List.length str - pos) constants.INT128_MAX_DIGIT_COUNT)
    as [H39 | H39]; unfold constants.INT128_MAX_DIGIT_COUNT in H39.
  - destruct (Int128.code c0 =? 45); cbn [negb].
    + rewrite (Hmaxneg H39).
      destruct (Z.compare_spec dv (2 ^ 127)) as [E | L | G].
      * rewrite E. reflexivity.
      * rewrite (Hparse L).
        unfold Int128.neg. rewrite wrap_small by (unfold Int128.valid; lia).
        destruct (Z.leb_spec (- 2 ^ 127) (- dv)); [ | lia ].
        destruct (Z.ltb_spec (- dv) (2 ^ 127)); [ | lia ]. reflexivity.
      * destruct (Z.leb_spec (- 2 ^ 127) (- dv)); [ lia | ]. reflexivity.
    + rewrite (Hmaxpos H39).
      destruct (Z.leb_spec (- 2 ^ 127) dv); [ | lia ].
      destruct (Z.compare_spec dv (2 ^ 127 - 1)) as [E | L | G].
      * rewrite Hparse by lia.
        destruct (Z.ltb_spec dv (2 ^ 127)); [ | lia ]. reflexivity.
      * rewrite Hparse by lia.
        destruct (Z.ltb_spec dv (2 ^ 127)); [ | lia ]. reflexivity.
      * destruct (Z.ltb_spec dv (2 ^ 127)); [ lia | ]. reflexivity.
  - specialize (Hshort H39). rewrite Hparse by lia.
    destruct (Int128.code c0 =? 45).
    + unfold Int128.neg. rewrite wrap_small by (unfold Int128.valid; lia).
      destruct (Z.leb_spec (- 2 ^ 127) (- dv)); [ | lia ].
      destruct (Z.ltb_spec (- dv) (2 ^ 127)); [ | lia ]. reflexivity.
    + destruct (Z.leb_spec (- 2 ^ 127) dv); [ | lia ].
      destruct (Z.ltb_spec dv (2 ^ 127)); [ | lia ]. reflexivity.
Qed.

(** X15. [Int128::fromString] accepts exactly an optional sign (['+'] or
    ['-']) followed by 1 to 39 digits that denote a value between [-2^127]
    and [2^127 - 1], and the result is that value: every other text is
    rejected, and ["-170141183460469231731687303715884105728"] gives the
    minimum. *)
Theorem Int128_fromString_value (str : list ascii) (x : Int128.t) :
  let v := if minus_sign str then - digits_value (digit_run str)
           else digits_value (digit_run str) in
  Int128.fromString str = Some x
  <-> (0 < List.length (digit_run str) <= 39)%nat
      /\ Forall is_digit (digit_run str)
      /\ - 2 ^ 127 <= v < 2 ^ 127
      /\ x = v.
Proof.
  cbv zeta. split.
  - intros H. destruct (fromString_run str x H) as [Hlen Hd].
    rewrite (fromString_decided str Hlen Hd) in H. cbv zeta in H.
    destruct (Z.leb_spec (- 2 ^ 127)
                (if minus_sign str then - digits_value (digit_run str)
                 else digits_value (digit_run str))); [ | discriminate ].
    destruct (Z.ltb_spec
                (if minus_sign str then - digits_value (digit_run str)
                 else digits_value (digit_run str)) (2 ^ 127));
      [ | discriminate ].
    cbn [andb] in H. injection H as <-. repeat split; trivial; lia.
  - intros (Hlen & Hd & Hr & ->).
    rewrite (fromString_decided str Hlen Hd). cbv zeta.
    destruct (Z.leb_spec (- 2 ^ 127)
                (if minus_sign str then - digits_value (digit_run str)
                 else digits_value (digit_run str))); [ | lia ].
    destruct (Z.ltb_spec
                (if minus_sign str then - digits_value (digit_run str)
                 else digits_value (digit_run str)) (2 ^ 127)); [ | lia ].
    reflexivity.
Qed.

Lemma Int128_fromString_value_witness :
  Int128.fromString
    (list_ascii_of_string "-170141183460469231731687303715884105728")
  = Some (- 2 ^ 127)
  /\ Int128.fromString (list_ascii_of_string "+42") = Some 42.
Proof.
  split.
  - apply (proj2 (Int128_fromString_value
                    (list_ascii_of_string "-170141183460469231731687303715884105728")
                    (- 2 ^ 127))).
    split; [ vm_compute; lia | ].
    split; [ repeat constructor | ].
    split; [ vm_compute; split; [ discriminate | reflexivity ] | ].
    vm_compute. reflexivity.
  - apply (proj2 (Int128_fromString_value (list_ascii_of_string "+42") 42)).
    split; [ vm_compute; lia | ].
    split; [ repeat constructor | ].
    split; [ vm_compute; split; [ discriminate | reflexivity ] | ].
    reflexivity.
Defined.

(** X16. [Int128::toString] prints the shortest decimal numeral: ["0"] for
    zero, otherwise the digits of the magnitude without leading zeros (1 to
    39 of them), after a ['-'] for a negative value and no sign for a
    positive one; the minimum [-2^127] prints the digits of [2^127]. *)
Theorem Int128_toString_shape (x : Int128.t) :
  Int128.valid x ->
  exists ds,
    Int128.toString x = Ok ((if x <? 0 then ["-"%char] else []) ++ ds)
    /\ (1 <= List.length ds <= 39)%nat
    /\ (x = 0 -> ds = ["0"%char])
    /\ (x <> 0 -> numeral ds (Z.abs x)).
Proof.
  intros Hv. unfold Int128.toString, Int128.eqb.
  destruct (Z.eqb_spec x 0) as [-> | Hnz].
  { exists ["0"%char]. repeat split; trivial; cbn; lia. }
  rewrite Int128_min_value.
  destruct (Z.eqb_spec x (- 2 ^ 127)) as [-> | Hnm].
  { exists constants.INT128_MAX_NEGATIVE_STRING.
    split; [ reflexivity | ].
    split; [ cbn; lia | ].
    split; [ intros H; discriminate H | ].
    intros _. split; [ repeat constructor | ].
    split; [ vm_compute; reflexivity | right; vm_compute; discriminate ]. }
  rewrite abs_value by assumption.
  unfold Int128.valid in Hv.
  destruct (toString_loop_spec Int128.toString_fuel (Z.abs x) [])
    as (ds & Hds & Hn);
    [ change (Z.of_nat Int128.toString_fuel) with 39; lia | lia | ].
  rewrite Hds, app_nil_r. cbn [bind]. unfold Int128.ltb.
  exists ds. split; [ destruct (x <? 0); reflexivity | ].
  split.
  { split.
    - destruct (numeral_nonempty ds (Z.abs x) Hn ltac:(lia)) as (c & ds' & -> & _).
      cbn [List.length]. lia.
    - apply (numeral_length ds (Z.abs x) 39 Hn).
      change (Z.of_nat 39) with 39. lia. }
  split; [ intros H; contradiction | intros _; exact Hn ].
Qed.

Lemma Int128_toString_shape_witness :
  exists ds,
    Int128.toString (-42) = Ok ((if -42 <? 0 then ["-"%char] else []) ++ ds)
    /\ (1 <= List.length ds <= 39)%nat
    /\ (-42 = 0 -> ds = ["0"%char])
    /\ (-42 <> 0 -> numeral ds (Z.abs (-42))).
Proof. apply (Int128_toString_shape (-42)). unfold Int128.valid. lia. Defined.

(** X17. The native comparisons of an Int128 with a [std::uint64_t] agree
    with the comparison of the two numbers when the Int128 is below [2^64]
    (a negative value is smaller than every [std::uint64_t]).  From [2^64]
    on they compare the low 64 bits only: [Int128( 2^64 + 5 ) == 5u] holds
    and [Int128( 2^64 ) < 1u] holds. *)
Theorem Int128_uint64_comparisons (x : Int128.t) (val : Z) :
  Int128.valid x -> 0 <= val < 2 ^ 64 ->
  (x < 2 ^ 64 ->
   Int128.eqb_uint64 x val = (x =? val)
   /\ Int128.ltb_uint64 x val = (x <? val)
   /\ Int128.gtb_uint64 x val = (x >? val)
   /\ Int128.leb_uint64 x val = (x <=? val)
   /\ Int128.geb_uint64 x val = (x >=? val))
  /\ (2 ^ 64 <= x ->
      Int128.eqb_uint64 x val = (x mod 2 ^ 64 =? val)
      /\ Int128.ltb_uint64 x val = (x mod 2 ^ 64 <? val)
      /\ Int128.gtb_uint64 x val = (x mod 2 ^ 64 >? val)).
Proof.
  intros Hv Hval.
  unfold Int128.leb_uint64, Int128.geb_uint64,
    Int128.eqb_uint64, Int128.ltb_uint64, Int128.gtb_uint64, u64.
  split.
  - intros Hx.
    destruct (Z.ltb_spec x 0) as [Hneg | Hpos].
    + pose proof (Z.mod_pos_bound x (2 ^ 64) ltac:(lia)).
      repeat match goal with
             | |- context [?a >=? ?b] => rewrite (Z.geb_leb a b)
             | |- context [?a >? ?b] => rewrite (Z.gtb_ltb a b)
             end.
      repeat match goal with
             | |- context [?a <=? ?b] => destruct (Z.leb_spec a b)
             | |- context [?a <? ?b] => destruct (Z.ltb_spec a b)
             | |- context [?a =? ?b] => destruct (Z.eqb_spec a b)
             end; cbn [andb orb]; repeat split; try reflexivity; lia.
    + rewrite Z.mod_small by lia.
      repeat match goal with
             | |- context [?a >=? ?b] => rewrite (Z.geb_leb a b)
             | |- context [?a >? ?b] => rewrite (Z.gtb_ltb a b)
             end.
      repeat match goal with
             | |- context [?a <=? ?b] => destruct (Z.leb_spec a b)
             | |- context [?a <? ?b] => destruct (Z.ltb_spec a b)
             | |- context [?a =? ?b] => destruct (Z.eqb_spec a b)
             end; cbn [andb orb]; repeat split; try reflexivity; lia.
  - intros Hx.
    destruct (Z.ltb_spec x 0); [ lia | ].
    destruct (Z.geb_spec x 0); [ | lia ].
    cbn [andb orb]. repeat split.
Qed.

Lemma Int128_uint64_comparisons_witness :
  Int128.eqb_uint64 (2 ^ 64 + 5) 5 = (((2 ^ 64 + 5) mod 2 ^ 64) =? 5)
  /\ Int128.ltb_uint64 (-1) 0 = (-1 <? 0).
Proof.
  split.
  - apply (proj2 (Int128_uint64_comparisons (2 ^ 64 + 5) 5
                    ltac:(unfold Int128.valid; lia) ltac:(lia))). lia.
  - apply (proj1 (Int128_uint64_comparisons (-1) 0
                    ltac:(unfold Int128.valid; lia) ltac:(lia))). lia.
Defined.

(** ** The portable Int128 against the native one *)

(** [a mod m] for [a] in [[-m, 2 * m)]. *)
Lemma mod_three (a m : Z) :
  0 < m -> - m <= a < 2 * m ->
  (a < 0 /\ a mod m = a + m) \/ (0 <= a < m /\ a mod m = a)
  \/ (m <= a /\ a mod m = a - m).
Proof.
  intros Hm Ha.
  destruct (Z.lt_ge_cases a 0); [ left | right ].
  - split; [ lia | ]. symmetry. apply (Z.mod_unique a m (-1)); lia.
  - destruct (Z.lt_ge_cases a m); [ left | right ].
    + split; [ lia | ]. apply Z.mod_small. lia.
    + split; [ lia | ]. symmetry. apply (Z.mod_unique a m 1); lia.
Qed.

Lemma mod_shift (a b k : Z) :
  a = b + k * 2 ^ 128 -> a mod 2 ^ 128 = b mod 2 ^ 128.
Proof. intros ->. apply Z.mod_add. lia. Qed.

Lemma wrap_congr (a b : Z) :
  a mod 2 ^ 128 = b mod 2 ^ 128 -> Int128.wrap a = Int128.wrap b.
Proof.
  intros H. unfold Int128.wrap. f_equal.
  rewrite (Z.add_mod a), (Z.add_mod b), H by lia. reflexivity.
Qed.

Lemma int64_range (w : Z) :
  0 <= w < 2 ^ 64 ->
  - 2 ^ 63 <= Int128Portable.int64 w < 2 ^ 63
  /\ (Int128Portable.int64 w = w \/ Int128Portable.int64 w = w - 2 ^ 64).
Proof.
  intros H. unfold Int128Portable.int64.
  destruct (Z.ltb_spec w (2 ^ 63)); lia.
Qed.

Lemma to_Z_valid (x : Int128Portable.t) :
  Int128Portable.valid x -> Int128.valid (Int128Portable.to_Z x).
Proof.
  intros [Hl Hu]. unfold Int128Portable.to_Z, Int128.valid.
  pose proof (int64_range _ Hu). lia.
Qed.

Lemma unsigned_range (x : Int128Portable.t) :
  Int128Portable.valid x -> 0 <= unsigned_value x < 2 ^ 128.
Proof. intros [Hl Hu]. unfold unsigned_value. lia. Qed.

Lemma unsigned_to_Z (x : Int128Portable.t) :
  Int128Portable.valid x ->
  unsigned_value x mod 2 ^ 128 = Int128Portable.to_Z x mod 2 ^ 128.
Proof.
  intros [Hl Hu]. unfold unsigned_value, Int128Portable.to_Z.
  destruct (int64_range _ Hu) as [_ [-> | ->]]; [ reflexivity | ].
  replace ((Int128Portable.upper64bits x - 2 ^ 64) * 2 ^ 64
           + Int128Portable.lower64bits x)
    with (Int128Portable.upper64bits x * 2 ^ 64 + Int128Portable.lower64bits x
          + (-1) * 2 ^ 128) by lia.
  rewrite Z.mod_add by lia. reflexivity.
Qed.

Lemma to_Z_of_unsigned (r : Int128Portable.t) (z : Z) :
  Int128Portable.valid r ->
  unsigned_value r mod 2 ^ 128 = z mod 2 ^ 128 ->
  Int128Portable.to_Z r = Int128.wrap z.
Proof.
  intros Hr H.
  rewrite <- (wrap_small (Int128Portable.to_Z r)) by (apply to_Z_valid; exact Hr).
  apply wrap_congr. rewrite <- unsigned_to_Z by exact Hr. exact H.
Qed.

Lemma to_Z_inj (x y : Int128Portable.t) :
  Int128Portable.valid x -> Int128Portable.valid y ->
  Int128Portable.to_Z x = Int128Portable.to_Z y -> x = y.
Proof.
  intros [Hlx Hux] [Hly Huy]. unfold Int128Portable.to_Z.
  destruct x as [lx ux], y as [ly uy]; cbn [Int128Portable.lower64bits
    Int128Portable.upper64bits] in *.
  intros H.
  destruct (int64_range _ Hux) as [_ [Ex | Ex]];
    destruct (int64_range _ Huy) as [_ [Ey | Ey]];
    rewrite Ex, Ey in H;
    assert (ux = uy /\ lx = ly) as [-> ->] by lia; reflexivity.
Qed.

Lemma add_unsigned (x y : Int128Portable.t) :
  Int128Portable.valid x -> Int128Portable.valid y ->
  Int128Portable.valid (Int128Portable.add x y)
  /\ unsigned_value (Int128Portable.add x y)
     = (unsigned_value x + unsigned_value y) mod 2 ^ 128.
Proof.
  intros [Hlx Hux] [Hly Huy].
  unfold Int128Portable.add, Int128Portable.valid, unsigned_value, u64,
    constants.BIT_MASK_ONE, constants.BIT_MASK_ZERO.
  cbn [Int128Portable.lower64bits Int128Portable.upper64bits].
  set (lx := Int128Portable.lower64bits x) in *.
  set (ly := Int128Portable.lower64bits y) in *.
  set (ux := Int128Portable.upper64bits x) in *.
  set (uy := Int128Portable.upper64bits y) in *.
  destruct (mod_three (lx + ly) (2 ^ 64) ltac:(lia) ltac:(lia))
    as [[? _] | [[Hc ->] | [Hc ->]]]; [ lia | | ].
  - destruct (Z.ltb_spec (lx + ly) lx); [ lia | ].
    destruct (mod_three (ux + uy + 0) (2 ^ 64) ltac:(lia) ltac:(lia))
      as [[? _] | [[Hh ->] | [Hh ->]]]; [ lia | | ].
    + split; [ lia | ]. rewrite Z.mod_small by lia. lia.
    + split; [ lia | ]. apply (Z.mod_unique _ _ 1); lia.
  - destruct (Z.ltb_spec (lx + ly - 2 ^ 64) lx); [ | lia ].
    destruct (mod_three (ux + uy + 1) (2 ^ 64) ltac:(lia) ltac:(lia))
      as [[? _] | [[Hh ->] | [Hh ->]]]; [ lia | | ].
    + split; [ lia | ]. rewrite Z.mod_small by lia. lia.
    + split; [ lia | ]. apply (Z.mod_unique _ _ 1); lia.
Qed.

Lemma sub_unsigned (x y : Int128Portable.t) :
  Int128Portable.valid x -> Int128Portable.valid y ->
  Int128Portable.valid (Int128Portable.sub x y)
  /\ unsigned_value (Int128Portable.sub x y)
     = (unsigned_value x - unsigned_value y) mod 2 ^ 128.
Proof.
  intros [Hlx Hux] [Hly Huy].
  unfold Int128Portable.sub, Int128Portable.valid, unsigned_value, u64,
    constants.BIT_MASK_ONE, constants.BIT_MASK_ZERO.
  cbn [Int128Portable.lower64bits Int128Portable.upper64bits].
  set (lx := Int128Portable.lower64bits x) in *.
  set (ly := Int128Portable.lower64bits y) in *.
  set (ux := Int128Portable.upper64bits x) in *.
  set (uy := Int128Portable.upper64bits y) in *.
  destruct (Z.ltb_spec lx ly).
  - destruct (mod_three (lx - ly) (2 ^ 64) ltac:(lia) ltac:(lia))
      as [[Hc ->] | [[? _] | [? _]]]; [ | lia | lia ].
    destruct (mod_three (ux - uy - 1) (2 ^ 64) ltac:(lia) ltac:(lia))
      as [[Hh ->] | [[Hh ->] | [? _]]]; [ | | lia ].
    + split; [ lia | ]. apply (Z.mod_unique _ _ (-1)); lia.
    + split; [ lia | ]. rewrite Z.mod_small by lia. lia.
  - destruct (mod_three (lx - ly) (2 ^ 64) ltac:(lia) ltac:(lia))
      as [[? _] | [[Hc ->] | [? _]]]; [ lia | | lia ].
    destruct (mod_three (ux - uy - 0) (2 ^ 64) ltac:(lia) ltac:(lia))
      as [[Hh ->] | [[Hh ->] | [? _]]]; [ | | lia ].
    + split; [ lia | ]. apply (Z.mod_unique _ _ (-1)); lia.
    + split; [ lia | ]. rewrite Z.mod_small by lia. lia.
Qed.

Lemma u64_lnot (w : Z) : 0 <= w < 2 ^ 64 -> u64 (Z.lnot w) = 2 ^ 64 - 1 - w.
Proof.
  intros H. unfold u64, Z.lnot.
  symmetry. apply (Z.mod_unique _ _ (-1)); lia.
Qed.

Lemma of_int_one : Int128Portable.of_int 1 = Int128Portable.mk 1 0.
Proof. vm_compute. reflexivity. Qed.

Lemma neg_unsigned (x : Int128Portable.t) :
  Int128Portable.valid x ->
  Int128Portable.valid (Int128Portable.neg x)
  /\ unsigned_value (Int128Portable.neg x) = (- unsigned_value x) mod 2 ^ 128.
Proof.
  intros [Hl Hu]. unfold Int128Portable.neg.
  rewrite !u64_lnot by assumption.
  set (r := Int128Portable.mk _ _).
  assert (Hr : Int128Portable.valid r) by (unfold r, Int128Portable.valid; fields; lia).
  rewrite of_int_one.
  assert (H1 : Int128Portable.valid (Int128Portable.mk 1 0))
    by (unfold Int128Portable.valid; fields; lia).
  destruct (add_unsigned r _ Hr H1) as [Hv E].
  split; [ exact Hv | ]. rewrite E.
  apply (mod_shift _ _ 1). unfold r, unsigned_value. fields. lia.
Qed.

Lemma compare_to_Z (x y : Int128Portable.t) :
  Int128Portable.valid x -> Int128Portable.valid y ->
  Int128Portable.compare x y = (Int128Portable.to_Z x ?= Int128Portable.to_Z y).
Proof.
  intros [Hlx Hux] [Hly Huy].
  unfold Int128Portable.compare, Int128Portable.to_Z, Int128Portable.int64.
  set (lx := Int128Portable.lower64bits x) in *.
  set (ly := Int128Portable.lower64bits y) in *.
  set (ux := Int128Portable.upper64bits x) in *.
  set (uy := Int128Portable.upper64bits y) in *.
  rewrite !Z.gtb_ltb.
  symmetry.
  destruct (Z.ltb_spec ux (2 ^ 63)), (Z.ltb_spec uy (2 ^ 63));
    repeat match goal with
           | |- context [?a <? ?b] => destruct (Z.ltb_spec a b); try lia
           end; cbn [andb negb];
    first [ apply Z.compare_lt_iff; lia | apply Z.compare_gt_iff; lia
          | apply Z.compare_eq_iff; lia ].
Qed.

Lemma ltb_to_Z (x y : Int128Portable.t) :
  Int128Portable.valid x -> Int128Portable.valid y ->
  Int128Portable.ltb x y = (Int128Portable.to_Z x <? Int128Portable.to_Z y).
Proof.
  intros Hx Hy. unfold Int128Portable.ltb. rewrite compare_to_Z by assumption.
  unfold Z.ltb. reflexivity.
Qed.

Lemma eqb_to_Z (x y : Int128Portable.t) :
  Int128Portable.valid x -> Int128Portable.valid y ->
  Int128Portable.eqb x y = (Int128Portable.to_Z x =? Int128Portable.to_Z y).
Proof.
  intros Hx Hy. unfold Int128Portable.eqb.
  destruct (Z.eqb_spec (Int128Portable.to_Z x) (Int128Portable.to_Z y)) as [E | N].
  - apply to_Z_inj in E; trivial. subst y. rewrite !Z.eqb_refl. reflexivity.
  - destruct (Z.eqb_spec (Int128Portable.lower64bits x) (Int128Portable.lower64bits y)) as [El | ];
      [ | reflexivity ].
    destruct (Z.eqb_spec (Int128Portable.upper64bits x) (Int128Portable.upper64bits y)) as [Eu | ];
      [ | reflexivity ].
    exfalso. apply N. unfold Int128Portable.to_Z. rewrite El, Eu. reflexivity.
Qed.

Lemma valid_zero : Int128Portable.valid Int128Portable.zero.
Proof. unfold Int128Portable.valid, Int128Portable.zero; fields; lia. Qed.

Lemma add_to_Z (x y : Int128Portable.t) :
  Int128Portable.valid x -> Int128Portable.valid y ->
  Int128Portable.to_Z (Int128Portable.add x y)
  = Int128.add (Int128Portable.to_Z x) (Int128Portable.to_Z y).
Proof.
  intros Hx Hy. destruct (add_unsigned x y Hx Hy) as [Hv E].
  apply to_Z_of_unsigned; [ exact Hv | ].
  rewrite E, Z.mod_mod by lia.
  rewrite Z.add_mod, (unsigned_to_Z x Hx), (unsigned_to_Z y Hy), <- Z.add_mod by lia.
  reflexivity.
Qed.

Lemma sub_to_Z (x y : Int128Portable.t) :
  Int128Portable.valid x -> Int128Portable.valid y ->
  Int128Portable.to_Z (Int128Portable.sub x y)
  = Int128.sub (Int128Portable.to_Z x) (Int128Portable.to_Z y).
Proof.
  intros Hx Hy. destruct (sub_unsigned x y Hx Hy) as [Hv E].
  apply to_Z_of_unsigned; [ exact Hv | ].
  rewrite E, Z.mod_mod by lia.
  rewrite Zminus_mod, (unsigned_to_Z x Hx), (unsigned_to_Z y Hy), <- Zminus_mod.
  reflexivity.
Qed.

Lemma neg_to_Z (x : Int128Portable.t) :
  Int128Portable.valid x ->
  Int128Portable.to_Z (Int128Portable.neg x) = Int128.neg (Int128Portable.to_Z x).
Proof.
  intros Hx. destruct (neg_unsigned x Hx) as [Hv E].
  apply to_Z_of_unsigned; [ exact Hv | ].
  rewrite E, Z.mod_mod by lia.
  change (- unsigned_value x) with (0 - unsigned_value x).
  change (- Int128Portable.to_Z x) with (0 - Int128Portable.to_Z x).
  rewrite Zminus_mod, (unsigned_to_Z x Hx), <- Zminus_mod.
  reflexivity.
Qed.

Lemma abs_to_Z (x : Int128Portable.t) :
  Int128Portable.valid x ->
  Int128Portable.valid (Int128Portable.abs x)
  /\ Int128Portable.to_Z (Int128Portable.abs x) = Int128.abs (Int128Portable.to_Z x).
Proof.
  intros Hx. unfold Int128Portable.abs, Int128.abs.
  rewrite ltb_to_Z by (trivial; apply valid_zero).
  change (Int128Portable.to_Z Int128Portable.zero) with 0.
  destruct (Z.ltb_spec (Int128Portable.to_Z x) 0); cbn [negb].
  - split; [ apply neg_unsigned; exact Hx | apply neg_to_Z; exact Hx ].
  - split; [ exact Hx | ]. symmetry. apply wrap_small. apply to_Z_valid. exact Hx.
Qed.

(** X18. The portable two-word [operator+], binary [operator-], unary
    [operator-] and [abs] return a pair of 64-bit words whose
    two's-complement value is the result of the native operation: the sum,
    the difference, the negation and the magnitude, wrapped to 128 bits
    (so [abs] of the minimum is the minimum). *)
Theorem portable_add_sub_neg (x y : Int128Portable.t) :
  Int128Portable.valid x -> Int128Portable.valid y ->
  (Int128Portable.valid (Int128Portable.add x y)
   /\ Int128Portable.to_Z (Int128Portable.add x y)
      = Int128.add (Int128Portable.to_Z x) (Int128Portable.to_Z y))
  /\ (Int128Portable.valid (Int128Portable.sub x y)
      /\ Int128Portable.to_Z (Int128Portable.sub x y)
         = Int128.sub (Int128Portable.to_Z x) (Int128Portable.to_Z y))
  /\ (Int128Portable.valid (Int128Portable.neg x)
      /\ Int128Portable.to_Z (Int128Portable.neg x)
         = Int128.neg (Int128Portable.to_Z x))
  /\ (Int128Portable.valid (Int128Portable.abs x)
      /\ Int128Portable.to_Z (Int128Portable.abs x)
         = Int128.abs (Int128Portable.to_Z x)).
Proof.
  intros Hx Hy.
  split; [ split; [ apply add_unsigned | apply add_to_Z ]; assumption | ].
  split; [ split; [ apply sub_unsigned | apply sub_to_Z ]; assumption | ].
  split; [ split; [ apply neg_unsigned | apply neg_to_Z ]; assumption | ].
  apply abs_to_Z; assumption.
Qed.

Lemma portable_add_sub_neg_witness :
  Int128Portable.to_Z
    (Int128Portable.add (Int128Portable.mk (2 ^ 64 - 1) (2 ^ 64 - 1))
       (Int128Portable.mk 1 0))
  = Int128.add
      (Int128Portable.to_Z (Int128Portable.mk (2 ^ 64 - 1) (2 ^ 64 - 1)))
      (Int128Portable.to_Z (Int128Portable.mk 1 0)).
Proof.
  apply (proj2 (proj1 (portable_add_sub_neg
                         (Int128Portable.mk (2 ^ 64 - 1) (2 ^ 64 - 1))
                         (Int128Portable.mk 1 0)
                         ltac:(unfold Int128Portable.valid; fields; lia)
                         ltac:(unfold Int128Portable.valid; fields; lia)))).
Defined.

(** X19. The portable [operator<=>] orders two-word values as their
    two's-complement values are ordered, and the portable [operator==] is
    true exactly for equal values, which are equal pairs of words. *)
Theorem portable_compare (x y : Int128Portable.t) :
  Int128Portable.valid x -> Int128Portable.valid y ->
  Int128Portable.compare x y = (Int128Portable.to_Z x ?= Int128Portable.to_Z y)
  /\ Int128Portable.ltb x y = Int128.ltb (Int128Portable.to_Z x) (Int128Portable.to_Z y)
  /\ Int128Portable.eqb x y = Int128.eqb (Int128Portable.to_Z x) (Int128Portable.to_Z y)
  /\ (Int128Portable.eqb x y = true <-> x = y).
Proof.
  intros Hx Hy.
  split; [ apply compare_to_Z; assumption | ].
  split; [ apply ltb_to_Z; assumption | ].
  split; [ apply eqb_to_Z; assumption | ].
  rewrite eqb_to_Z by assumption. split.
  - intros H. apply Z.eqb_eq in H. apply to_Z_inj; assumption.
  - intros ->. apply Z.eqb_refl.
Qed.

Lemma portable_compare_witness :
  Int128Portable.compare (Int128Portable.mk (2 ^ 64 - 1) (2 ^ 64 - 1))
    (Int128Portable.mk 1 0)
  = (Int128Portable.to_Z (Int128Portable.mk (2 ^ 64 - 1) (2 ^ 64 - 1))
     ?= Int128Portable.to_Z (Int128Portable.mk 1 0)).
Proof.
  apply (proj1 (portable_compare (Int128Portable.mk (2 ^ 64 - 1) (2 ^ 64 - 1))
                  (Int128Portable.mk 1 0)
                  ltac:(unfold Int128Portable.valid; fields; lia)
                  ltac:(unfold Int128Portable.valid; fields; lia))).
Defined.

(** X20. The portable comparisons [==], [<] and [>] of an Int128 with a
    [std::int64_t] and with a [std::uint64_t] agree with the comparison of
    the two numbers for every Int128, also from [2^64] on, where the native
    ones look at the low word only. *)
Theorem portable_builtin_comparisons (x : Int128Portable.t) (val : Z) :
  Int128Portable.valid x ->
  (- 2 ^ 63 <= val < 2 ^ 63 ->
   Int128Portable.eqb_int64 x val = (Int128Portable.to_Z x =? val)
   /\ Int128Portable.ltb_int64 x val = (Int128Portable.to_Z x <? val)
   /\ Int128Portable.gtb_int64 x val = (Int128Portable.to_Z x >? val))
  /\ (0 <= val < 2 ^ 64 ->
      Int128Portable.eqb_uint64 x val = (Int128Portable.to_Z x =? val)
      /\ Int128Portable.ltb_uint64 x val = (Int128Portable.to_Z x <? val)
      /\ Int128Portable.gtb_uint64 x val = (Int128Portable.to_Z x >? val)).
Proof.
  intros Hx. pose proof Hx as [Hl Hu]. split; intros Hval.
  - unfold Int128Portable.eqb_int64, Int128Portable.ltb_int64,
      Int128Portable.gtb_int64, Int128Portable.to_Z, Int128Portable.int64, u64.
    set (lx := Int128Portable.lower64bits x) in *.
    set (ux := Int128Portable.upper64bits x) in *.
    change ((-1) mod 2 ^ 64) with (2 ^ 64 - 1).
    rewrite !Z.gtb_ltb.
    destruct (Z.ltb_spec val 0) as [Hneg | Hpos]; cbv zeta.
    + replace (val mod 2 ^ 64) with (val + 2 ^ 64)
        by (apply (Z.mod_unique _ _ (-1)); lia).
      change (2 ^ 64 - 1 <? 2 ^ 63) with false. cbv iota.
      destruct (Z.ltb_spec ux (2 ^ 63));
        repeat match goal with
               | |- context [?a <? ?b] => destruct (Z.ltb_spec a b); try lia
               | |- context [?a =? ?b] => destruct (Z.eqb_spec a b); try lia
               end; cbn [andb negb]; repeat split; reflexivity.
    + rewrite (Z.mod_small val) by lia.
      change (0 <? 2 ^ 63) with true. cbv iota.
      destruct (Z.ltb_spec ux (2 ^ 63));
        repeat match goal with
               | |- context [?a <? ?b] => destruct (Z.ltb_spec a b); try lia
               | |- context [?a =? ?b] => destruct (Z.eqb_spec a b); try lia
               end; cbn [andb negb]; repeat split; reflexivity.
  - unfold Int128Portable.eqb_uint64, Int128Portable.ltb_uint64,
      Int128Portable.gtb_uint64.
    rewrite ltb_to_Z by (trivial; apply valid_zero).
    change (Int128Portable.to_Z Int128Portable.zero) with 0.
    unfold Int128Portable.to_Z, Int128Portable.int64.
    set (lx := Int128Portable.lower64bits x) in *.
    set (ux := Int128Portable.upper64bits x) in *.
    rewrite !Z.gtb_ltb.
    destruct (Z.ltb_spec ux (2 ^ 63));
      repeat match goal with
             | |- context [?a <? ?b] => destruct (Z.ltb_spec a b); try lia
             | |- context [?a =? ?b] => destruct (Z.eqb_spec a b); try lia
             end; cbn [andb negb]; repeat split; reflexivity.
Qed.

Lemma portable_builtin_comparisons_witness :
  Int128Portable.ltb_uint64 (Int128Portable.mk 5 1) 7
  = (Int128Portable.to_Z (Int128Portable.mk 5 1) <? 7)
  /\ Int128Portable.eqb_int64 (Int128Portable.mk (2 ^ 64 - 1) (2 ^ 64 - 1)) (-1)
     = (Int128Portable.to_Z (Int128Portable.mk (2 ^ 64 - 1) (2 ^ 64 - 1)) =? -1).
Proof.
  split.
  - apply (proj2 (portable_builtin_comparisons (Int128Portable.mk 5 1) 7
                    ltac:(unfold Int128Portable.valid; fields; lia))). lia.
  - apply (proj1 (portable_builtin_comparisons
                    (Int128Portable.mk (2 ^ 64 - 1) (2 ^ 64 - 1)) (-1)
                    ltac:(unfold Int128Portable.valid; fields; lia))). lia.
Defined.

Lemma land_mask32 (w : Z) : Z.land w constants.UINT32_MAX_VALUE = w mod 2 ^ 32.
Proof.
  change constants.UINT32_MAX_VALUE with (Z.ones 32).
  apply Z.land_ones. lia.
Qed.

Lemma split32 (w : Z) :
  0 <= w < 2 ^ 64 ->
  w = w / 2 ^ 32 * 2 ^ 32 + w mod 2 ^ 32
  /\ 0 <= w / 2 ^ 32 < 2 ^ 32 /\ 0 <= w mod 2 ^ 32 < 2 ^ 32.
Proof.
  intros H.
  pose proof (Z.div_mod w (2 ^ 32) ltac:(lia)).
  pose proof (Z.mod_pos_bound w (2 ^ 32) ltac:(lia)).
  assert (0 <= w / 2 ^ 32 < 2 ^ 32).
  { split; [ apply Z.div_pos; lia | apply Z.div_lt_upper_bound; lia ]. }
  lia.
Qed.

Lemma product32 (a b : Z) :
  0 <= a < 2 ^ 32 -> 0 <= b < 2 ^ 32 -> 0 <= a * b < 2 ^ 64.
Proof. intros Ha Hb. nia. Qed.

Lemma u64_small (w : Z) : 0 <= w < 2 ^ 64 -> u64 w = w.
Proof. intros H. apply Z.mod_small. exact H. Qed.

Lemma u64_shiftl32 (p : Z) :
  0 <= p < 2 ^ 64 -> u64 (Z.shiftl p 32) = p mod 2 ^ 32 * 2 ^ 32.
Proof.
  intros Hp. unfold u64. rewrite Z.shiftl_mul_pow2 by lia.
  destruct (split32 p Hp) as (E & Hh & Hl).
  symmetry. apply (Z.mod_unique _ _ (p / 2 ^ 32)); lia.
Qed.

Lemma mul_unsigned (x y : Int128Portable.t) :
  Int128Portable.valid x -> Int128Portable.valid y ->
  Int128Portable.valid (Int128Portable.mul x y)
  /\ unsigned_value (Int128Portable.mul x y) mod 2 ^ 128
     = (unsigned_value x * unsigned_value y) mod 2 ^ 128.
Proof.
  intros [Hlx Hux] [Hly Huy].
  unfold Int128Portable.mul, constants.BITS_PER_UINT32.
  set (lx := Int128Portable.lower64bits x) in *.
  set (ly := Int128Portable.lower64bits y) in *.
  set (ux := Int128Portable.upper64bits x) in *.
  set (uy := Int128Portable.upper64bits y) in *.
  cbv zeta. rewrite !land_mask32, !shiftr_div by lia.
  destruct (split32 lx Hlx) as (Ex & Ha1 & Ha0).
  destruct (split32 ly Hly) as (Ey & Hb1 & Hb0).
  set (a0 := lx mod 2 ^ 32) in *. set (a1 := lx / 2 ^ 32) in *.
  set (b0 := ly mod 2 ^ 32) in *. set (b1 := ly / 2 ^ 32) in *.
  pose proof (product32 a0 b0 Ha0 Hb0) as H0.
  pose proof (product32 a0 b1 Ha0 Hb1) as H1.
  pose proof (product32 a1 b0 Ha1 Hb0) as H2.
  pose proof (product32 a1 b1 Ha1 Hb1) as H3.
  assert (Hll : lx * ly
                = a0 * b0 + (a0 * b1 + a1 * b0) * 2 ^ 32 + a1 * b1 * 2 ^ 64)
    by (rewrite Ex, Ey; ring).
  rewrite !(u64_small (a0 * b0)), !(u64_small (a0 * b1)),
    !(u64_small (a1 * b0)), !(u64_small (a1 * b1)) by assumption.
  set (p0 := a0 * b0) in *. set (p1 := a0 * b1) in *.
  set (p2 := a1 * b0) in *. set (p3 := a1 * b1) in *.
  rewrite (u64_shiftl32 p1), (u64_shiftl32 p2) by assumption.
  destruct (split32 p0 H0) as (E0 & H0h & H0l).
  destruct (split32 p1 H1) as (E1 & H1h & H1l).
  destruct (split32 p2 H2) as (E2 & H2h & H2l).
  set (p0l := p0 mod 2 ^ 32) in *. set (p0h := p0 / 2 ^ 32) in *.
  set (p1l := p1 mod 2 ^ 32) in *. set (p1h := p1 / 2 ^ 32) in *.
  set (p2l := p2 mod 2 ^ 32) in *. set (p2h := p2 / 2 ^ 32) in *.
  set (mid := p0h + p1l + p2l).
  assert (Hmid : 0 <= mid < 2 ^ 64) by (unfold mid; lia).
  rewrite (u64_small mid) by assumption.
  destruct (split32 mid Hmid) as (Em & Hmh & Hml).
  set (carry := mid / 2 ^ 32) in *. set (midl := mid mod 2 ^ 32) in *.
  assert (Elow : u64 (p0 + p1l * 2 ^ 32 + p2l * 2 ^ 32) = p0l + midl * 2 ^ 32).
  { unfold u64. symmetry. apply (Z.mod_unique _ _ carry); [ lia | ].
    unfold mid in Em. lia. }
  rewrite Elow.
  set (c1 := u64 (ux * ly)). set (c2 := u64 (lx * uy)).
  assert (Ec1 : c1 = ux * ly - (ux * ly / 2 ^ 64) * 2 ^ 64).
  { unfold c1, u64. pose proof (Z.div_mod (ux * ly) (2 ^ 64) ltac:(lia)). lia. }
  assert (Ec2 : c2 = lx * uy - (lx * uy / 2 ^ 64) * 2 ^ 64).
  { unfold c2, u64. pose proof (Z.div_mod (lx * uy) (2 ^ 64) ltac:(lia)). lia. }
  set (S := p3 + p1h + p2h + carry + c1 + c2).
  assert (ES : u64 S = S - (S / 2 ^ 64) * 2 ^ 64).
  { unfold u64. pose proof (Z.div_mod S (2 ^ 64) ltac:(lia)). lia. }
  pose proof (Z.mod_pos_bound S (2 ^ 64) ltac:(lia)) as HSb. fold (u64 S) in HSb.
  split.
  { unfold Int128Portable.valid. fields. lia. }
  unfold unsigned_value. fields. fold lx ly ux uy.
  apply (mod_shift _ _ (- (S / 2 ^ 64) - ux * ly / 2 ^ 64 - lx * uy / 2 ^ 64
                         - ux * uy)).
  rewrite ES. unfold S. rewrite Ec1, Ec2.
  set (k := (p3 + p1h + p2h + carry + c1 + c2) / 2 ^ 64).
  set (k1 := ux * ly / 2 ^ 64). set (k2 := lx * uy / 2 ^ 64).
  replace ((ux * 2 ^ 64 + lx) * (uy * 2 ^ 64 + ly))
    with (ux * uy * 2 ^ 128 + (ux * ly + lx * uy) * 2 ^ 64 + lx * ly) by ring.
  rewrite Hll. unfold mid in Em. lia.
Qed.

Lemma mul_to_Z (x y : Int128Portable.t) :
  Int128Portable.valid x -> Int128Portable.valid y ->
  Int128Portable.to_Z (Int128Portable.mul x y)
  = Int128.mul (Int128Portable.to_Z x) (Int128Portable.to_Z y).
Proof.
  intros Hx Hy. destruct (mul_unsigned x y Hx Hy) as [Hv E].
  apply to_Z_of_unsigned; [ exact Hv | ].
  rewrite E.
  rewrite Z.mul_mod, (unsigned_to_Z x Hx), (unsigned_to_Z y Hy), <- Z.mul_mod by lia.
  reflexivity.
Qed.

(** X21. The portable [operator*] (four 32-by-32 products and a carry)
    returns the product wrapped to 128 bits, as the native one does; when
    the product fits in an Int128 it is the exact product. *)
Theorem portable_mul (x y : Int128Portable.t) :
  Int128Portable.valid x -> Int128Portable.valid y ->
  Int128Portable.valid (Int128Portable.mul x y)
  /\ Int128Portable.to_Z (Int128Portable.mul x y)
     = Int128.mul (Int128Portable.to_Z x) (Int128Portable.to_Z y)
  /\ (Int128.valid (Int128Portable.to_Z x * Int128Portable.to_Z y) ->
      Int128Portable.to_Z (Int128Portable.mul x y)
      = Int128Portable.to_Z x * Int128Portable.to_Z y).
Proof.
  intros Hx Hy.
  split; [ apply mul_unsigned; assumption | ].
  split; [ apply mul_to_Z; assumption | ].
  intros Hfit. rewrite mul_to_Z by assumption. apply wrap_small. exact Hfit.
Qed.

Lemma portable_mul_witness :
  Int128Portable.to_Z
    (Int128Portable.mul (Int128Portable.mk (2 ^ 64 - 3) (2 ^ 64 - 1))
       (Int128Portable.mk (2 ^ 63) 5))
  = Int128.mul
      (Int128Portable.to_Z (Int128Portable.mk (2 ^ 64 - 3) (2 ^ 64 - 1)))
      (Int128Portable.to_Z (Int128Portable.mk (2 ^ 63) 5)).
Proof.
  apply (proj1 (proj2 (portable_mul (Int128Portable.mk (2 ^ 64 - 3) (2 ^ 64 - 1))
                         (Int128Portable.mk (2 ^ 63) 5)
                         ltac:(unfold Int128Portable.valid; fields; lia)
                         ltac:(unfold Int128Portable.valid; fields; lia)))).
Defined.

(** ** The portable division *)

Lemma to_Z_small (x : Int128Portable.t) :
  Int128Portable.valid x -> unsigned_value x < 2 ^ 127 ->
  Int128Portable.to_Z x = unsigned_value x.
Proof.
  intros [Hl Hu] Hs. unfold Int128Portable.to_Z, unsigned_value in *.
  unfold Int128Portable.int64.
  destruct (Z.ltb_spec (Int128Portable.upper64bits x) (2 ^ 63)); lia.
Qed.

Lemma unsigned_words (x : Int128Portable.t) :
  Int128Portable.valid x ->
  Int128Portable.upper64bits x = unsigned_value x / 2 ^ 64
  /\ Int128Portable.lower64bits x = unsigned_value x mod 2 ^ 64.
Proof.
  intros [Hl Hu]. unfold unsigned_value. split.
  - apply (Z.div_unique _ _ _ (Int128Portable.lower64bits x)); lia.
  - apply (Z.mod_unique _ _ (Int128Portable.upper64bits x)); lia.
Qed.

(** Setting a bit that is clear: [w | (1 << j)] for [w] a multiple of
    [2^(j+1)]. *)
Lemma lor_pow2_add (w j : Z) :
  0 <= j -> w mod 2 ^ (j + 1) = 0 -> Z.lor w (2 ^ j) = w + 2 ^ j.
Proof.
  intros Hj Hw.
  assert (Hp : 0 < 2 ^ (j + 1)) by (apply Z.pow_pos_nonneg; lia).
  pose proof (Z.div_mod w (2 ^ (j + 1)) ltac:(lia)) as E.
  rewrite Hw, Z.add_0_r in E.
  rewrite E at 1 2. rewrite (Z.mul_comm (2 ^ (j + 1))).
  rewrite <- Z.shiftl_mul_pow2 by lia.
  rewrite lor_shiftl_add; [ rewrite Z.shiftl_mul_pow2 by lia; reflexivity | lia | ].
  split; [ apply Z.pow_nonneg; lia | apply Z.pow_lt_mono_r; lia ].
Qed.

Lemma bit_test (w k : Z) :
  0 <= k ->
  negb (Z.land (Z.shiftr w k) 1 =? 0) = ((w / 2 ^ k) mod 2 =? 1).
Proof.
  intros Hk. rewrite shiftr_div by assumption.
  change 1 with (Z.ones 1) at 1. rewrite Z.land_ones by lia.
  change (2 ^ 1) with 2.
  pose proof (Z.mod_pos_bound (w / 2 ^ k) 2 ltac:(lia)).
  destruct (Z.eqb_spec ((w / 2 ^ k) mod 2) 0), (Z.eqb_spec ((w / 2 ^ k) mod 2) 1);
    cbn [negb]; trivial; lia.
Qed.

(** Bit [i] of the two-word value. *)
Lemma dividend_bit (a : Int128Portable.t) (i : Z) :
  Int128Portable.valid a -> 0 <= i < 128 ->
  ((i >=? constants.BITS_PER_UINT64)
   && negb (Z.land (Z.shiftr (Int128Portable.upper64bits a)
                             (i - constants.BITS_PER_UINT64)) 1 =? 0))
  || ((i <? constants.BITS_PER_UINT64)
      && negb (Z.land (Z.shiftr (Int128Portable.lower64bits a) i) 1 =? 0))
  = ((unsigned_value a / 2 ^ i) mod 2 =? 1).
Proof.
  intros Ha Hi. destruct (unsigned_words a Ha) as [Eu El].
  pose proof (unsigned_range a Ha) as Hr.
  unfold constants.BITS_PER_UINT64.
  set (A := unsigned_value a) in *.
  destruct (Z.ltb_spec i 64) as [Hlo | Hhi].
  - destruct (Z.geb_spec i 64); [ lia | ]. cbn [andb orb].
    rewrite bit_test by lia. rewrite El.
    f_equal.
    (* (A mod 2^64 / 2^i) mod 2 = (A / 2^i) mod 2 *)
    assert (Hpi : 0 < 2 ^ i) by (apply Z.pow_pos_nonneg; lia).
    assert (E64 : 2 ^ 64 = 2 ^ i * (2 * 2 ^ (63 - i))).
    { replace (2 ^ 64) with (2 ^ (i + (1 + (63 - i)))) by (f_equal; lia).
      rewrite !Z.pow_add_r by lia. reflexivity. }
    assert (Hp2 : 0 < 2 ^ (63 - i)) by (apply Z.pow_pos_nonneg; lia).
    pose proof (Z.div_mod A (2 ^ 64) ltac:(lia)) as EA.
    rewrite EA at 2.
    rewrite E64 at 2.
    replace (2 ^ i * (2 * 2 ^ (63 - i)) * (A / 2 ^ 64) + A mod 2 ^ 64)
      with (A mod 2 ^ 64 + (2 * 2 ^ (63 - i) * (A / 2 ^ 64)) * 2 ^ i) by ring.
    rewrite Z.div_add by lia.
    replace (2 * 2 ^ (63 - i) * (A / 2 ^ 64))
      with ((2 ^ (63 - i) * (A / 2 ^ 64)) * 2) by ring.
    rewrite Z.mod_add by lia. reflexivity.
  - destruct (Z.geb_spec i 64); [ | lia ]. cbn [andb orb].
    rewrite orb_false_r, bit_test by lia. rewrite Eu.
    rewrite Z.div_div by (try apply Z.pow_pos_nonneg; lia).
    rewrite <- Z.pow_add_r by lia.
    replace (64 + (i - 64)) with i by lia. reflexivity.
Qed.

Lemma prefix_step (A i : Z) :
  0 <= A -> 0 <= i ->
  A / 2 ^ i = 2 * (A / 2 ^ (i + 1)) + (A / 2 ^ i) mod 2.
Proof.
  intros HA Hi.
  rewrite Z.pow_add_r, <- Z.div_div by (try apply Z.pow_pos_nonneg; lia).
  change (2 ^ 1) with 2.
  apply Z.div_mod. lia.
Qed.

(** Setting bit [i] of a two-word quotient that is a multiple of
    [2^(i+1)]. *)
Lemma set_quotient_bit (q : Int128Portable.t) (i c : Z) :
  Int128Portable.valid q -> 0 <= i < 128 -> 0 <= c ->
  unsigned_value q = c * 2 ^ (i + 1) ->
  unsigned_value q + 2 ^ i < 2 ^ 128 ->
  let q' :=
    if i >=? constants.BITS_PER_UINT64 then
      Int128Portable.mk (Int128Portable.lower64bits q)
        (Z.lor (Int128Portable.upper64bits q)
               (u64 (Z.shiftl constants.BIT_MASK_ONE
                              (i - constants.BITS_PER_UINT64))))
    else
      Int128Portable.mk
        (Z.lor (Int128Portable.lower64bits q)
               (u64 (Z.shiftl constants.BIT_MASK_ONE i)))
        (Int128Portable.upper64bits q) in
  Int128Portable.valid q' /\ unsigned_value q' = unsigned_value q + 2 ^ i.
Proof.
  intros Hq Hi Hc E Hfit. cbv zeta.
  destruct (unsigned_words q Hq) as [Eu El].
  pose proof Hq as [Hl Hu].
  unfold constants.BITS_PER_UINT64, constants.BIT_MASK_ONE.
  destruct (Z.geb_spec i 64) as [Hhi | Hlo].
  - rewrite Z.shiftl_mul_pow2, Z.mul_1_l by lia.
    assert (Hp : 0 < 2 ^ (i - 64) < 2 ^ 64).
    { split; [ apply Z.pow_pos_nonneg; lia | apply Z.pow_lt_mono_r; lia ]. }
    rewrite u64_small by lia.
    assert (Ei : 2 ^ i = 2 ^ (i - 64) * 2 ^ 64).
    { rewrite <- Z.pow_add_r by lia. f_equal. lia. }
    assert (Hmul : Int128Portable.upper64bits q mod 2 ^ (i - 64 + 1) = 0).
    { rewrite Eu, E.
      replace (c * 2 ^ (i + 1)) with (c * 2 ^ (i - 64 + 1) * 2 ^ 64).
      - rewrite Z.div_mul by lia. apply Z.mod_mul.
        apply Z.pow_nonzero; lia.
      - rewrite <- Z.mul_assoc, <- Z.pow_add_r by lia. do 2 f_equal. lia. }
    rewrite lor_pow2_add by (trivial; lia).
    unfold Int128Portable.valid, unsigned_value in *. fields. nia.
  - rewrite Z.shiftl_mul_pow2, Z.mul_1_l by lia.
    assert (Hp : 0 < 2 ^ i < 2 ^ 64).
    { split; [ apply Z.pow_pos_nonneg; lia | apply Z.pow_lt_mono_r; lia ]. }
    rewrite u64_small by lia.
    assert (Hmul : Int128Portable.lower64bits q mod 2 ^ (i + 1) = 0).
    { rewrite El, E.
      assert (E64 : 2 ^ 64 = 2 ^ (i + 1) * 2 ^ (63 - i)).
      { rewrite <- Z.pow_add_r by lia. f_equal. lia. }
      assert (Hp1 : 0 < 2 ^ (i + 1)) by (apply Z.pow_pos_nonneg; lia).
      assert (Hp2 : 0 < 2 ^ (63 - i)) by (apply Z.pow_pos_nonneg; lia).
      rewrite E64.
      rewrite Z.rem_mul_r by lia.
      rewrite Z.mod_mul by lia. rewrite Z.add_0_l.
      rewrite Z.mul_comm. apply Z.mod_mul. lia. }
    rewrite lor_pow2_add by (trivial; lia).
    assert (Hlt : Int128Portable.lower64bits q + 2 ^ i < 2 ^ 64).
    { (* a multiple of 2^(i+1) below 2^64, plus 2^i *)
      assert (E64 : 2 ^ 64 = 2 ^ (i + 1) * 2 ^ (63 - i)).
      { rewrite <- Z.pow_add_r by lia. f_equal. lia. }
      assert (Hp1 : 0 < 2 ^ (i + 1)) by (apply Z.pow_pos_nonneg; lia).
      assert (Hp2 : 0 < 2 ^ (63 - i)) by (apply Z.pow_pos_nonneg; lia).
      pose proof (Z.div_mod (Int128Portable.lower64bits q) (2 ^ (i + 1)) ltac:(lia)) as Ed.
      rewrite Hmul, Z.add_0_r in Ed.
      set (m := Int128Portable.lower64bits q / 2 ^ (i + 1)) in *.
      assert (Ei1 : 2 ^ (i + 1) = 2 * 2 ^ i)
        by (rewrite Z.pow_add_r by lia; change (2 ^ 1) with 2; ring).
      assert (m < 2 ^ (63 - i)) by nia.
      nia. }
    unfold Int128Portable.valid, unsigned_value in *. fields.
    split; [ split; [ lia | assumption ] | lia ].
Qed.

Lemma valid_one : Int128Portable.valid (Int128Portable.mk 1 0).
Proof. unfold Int128Portable.valid; fields; lia. Qed.

Lemma valid_mk00 : Int128Portable.valid (Int128Portable.mk 0 0).
Proof. unfold Int128Portable.valid; fields; lia. Qed.

(** The binary long division: with [n] bits of the dividend left, the
    quotient and the remainder of its upper bits have been computed. *)
Lemma div_bits_spec (a d : Int128Portable.t) :
  Int128Portable.valid a -> Int128Portable.valid d ->
  unsigned_value a < 2 ^ 127 -> 0 < unsigned_value d < 2 ^ 127 ->
  forall (n : nat) (q r : Int128Portable.t),
    (n <= 128)%nat ->
    Int128Portable.valid q -> Int128Portable.valid r ->
    unsigned_value r = (unsigned_value a / 2 ^ Z.of_nat n) mod unsigned_value d ->
    unsigned_value q
    = unsigned_value a / 2 ^ Z.of_nat n / unsigned_value d * 2 ^ Z.of_nat n ->
    Int128Portable.valid (Int128Portable.div_bits n a d q r)
    /\ unsigned_value (Int128Portable.div_bits n a d q r)
       = unsigned_value a / unsigned_value d.
Proof.
  intros Ha Hd HA HD.
  pose proof (unsigned_range a Ha) as HA0.
  set (A := unsigned_value a) in *. set (D := unsigned_value d) in *.
  induction n as [ | i IH]; intros q r Hn Hq Hr Er Eq.
  - cbn [Int128Portable.div_bits]. split; [ exact Hq | ].
    rewrite Eq. change (2 ^ Z.of_nat 0) with 1.
    rewrite Z.div_1_r. lia.
  - cbn [Int128Portable.div_bits]. cbv zeta.
    rewrite Nat2Z.inj_succ in Er, Eq.
    replace (Z.succ (Z.of_nat i)) with (Z.of_nat i + 1) in Er, Eq by lia.
    set (iz := Z.of_nat i) in *.
    assert (Hi : 0 <= iz < 128) by lia.
    assert (Hpi : 0 < 2 ^ iz) by (apply Z.pow_pos_nonneg; lia).
    assert (Hpi1 : 2 ^ (iz + 1) = 2 * 2 ^ iz)
      by (rewrite Z.pow_add_r by lia; change (2 ^ 1) with 2; ring).
    set (P1 := A / 2 ^ (iz + 1)) in *.
    set (P := A / 2 ^ iz).
    assert (HP1 : 0 <= P1) by (apply Z.div_pos; lia).
    assert (HP : 0 <= P <= A).
    { split; [ apply Z.div_pos; lia | ].
      apply Z.div_le_upper_bound; [ lia | nia ]. }
    pose proof (prefix_step A iz ltac:(lia) ltac:(lia)) as Estep.
    fold P P1 in Estep.
    pose proof (Z.mod_pos_bound P 2 ltac:(lia)) as Hbit.
    pose proof (Z.div_mod P1 D ltac:(lia)) as EP1.
    pose proof (Z.mod_pos_bound P1 D ltac:(lia)) as HR.
    assert (HQ1 : 0 <= P1 / D) by (apply Z.div_pos; lia).
    (* remainder + remainder *)
    destruct (add_unsigned r r Hr Hr) as [Hrr Err].
    rewrite Z.mod_small in Err by lia.
    rewrite (dividend_bit a iz Ha Hi). fold A P.
    (* the remainder with the next bit *)
    set (r1 := if P mod 2 =? 1
               then Int128Portable.add (Int128Portable.add r r) (Int128Portable.mk 1 0)
               else Int128Portable.add r r).
    assert (Hr1 : Int128Portable.valid r1
                  /\ unsigned_value r1 = 2 * (P1 mod D) + P mod 2).
    { unfold r1. destruct (Z.eqb_spec (P mod 2) 1) as [E1 | N1].
      - destruct (add_unsigned _ _ Hrr valid_one) as [Hv Ev].
        split; [ exact Hv | ]. rewrite Ev, Err, Er, E1.
        change (unsigned_value (Int128Portable.mk 1 0)) with (0 * 2 ^ 64 + 1).
        rewrite Z.mod_small by lia. lia.
      - split; [ exact Hrr | ]. rewrite Err, Er. lia. }
    destruct Hr1 as [Hr1 Er1].
    assert (Hr1b : unsigned_value r1 <= P) by lia.
    rewrite ltb_to_Z by assumption.
    rewrite (to_Z_small r1), (to_Z_small d) by (trivial; fold D; lia).
    fold D. rewrite Er1.
    destruct (Z.ltb_spec (2 * (P1 mod D) + P mod 2) D) as [Hlt | Hge]; cbn [negb].
    + (* no subtraction: the quotient bit stays clear *)
      apply IH; trivial; try lia; fold iz P.
      * rewrite Er1. apply (Z.mod_unique _ _ (2 * (P1 / D))); lia.
      * rewrite Eq.
        assert (EPD : P / D = 2 * (P1 / D)).
        { symmetry. apply (Z.div_unique _ _ _ (2 * (P1 mod D) + P mod 2)); lia. }
        rewrite EPD, Hpi1. ring.
    + (* subtract the divisor and set bit i of the quotient *)
      destruct (sub_unsigned r1 d Hr1 Hd) as [Hs Es]. fold D in Es.
      rewrite Er1, Z.mod_small in Es by lia.
      assert (EPD : P / D = 2 * (P1 / D) + 1).
      { symmetry.
        apply (Z.div_unique _ _ _ (2 * (P1 mod D) + P mod 2 - D)); lia. }
      assert (HqA : unsigned_value q + 2 ^ iz <= A).
      { rewrite Eq, Hpi1.
        replace (P1 / D * (2 * 2 ^ iz) + 2 ^ iz) with (P / D * 2 ^ iz)
          by (rewrite EPD; ring).
        assert (P / D <= P).
        { apply Z.div_le_upper_bound; [ lia | nia ]. }
        assert (P * 2 ^ iz <= A).
        { unfold P. rewrite Z.mul_comm. apply Z.mul_div_le. lia. }
        nia. }
      destruct (set_quotient_bit q iz (P1 / D) Hq Hi HQ1 Eq ltac:(lia))
        as [Hq' Eq'].
      apply IH; trivial; try lia; fold iz P.
      * rewrite Es. apply (Z.mod_unique _ _ (2 * (P1 / D) + 1)); lia.
      * rewrite Eq', Eq, EPD, Hpi1. ring.
Qed.

(** The magnitude of a two-word value, as [operator/] takes it. *)
Lemma magnitude (x : Int128Portable.t) :
  Int128Portable.valid x -> Int128Portable.to_Z x <> - 2 ^ 127 ->
  let a := if Int128Portable.ltb x Int128Portable.zero
           then Int128Portable.neg x else x in
  Int128Portable.valid a
  /\ unsigned_value a = Z.abs (Int128Portable.to_Z x)
  /\ Int128Portable.to_Z a = Z.abs (Int128Portable.to_Z x)
  /\ Int128Portable.ltb x Int128Portable.zero = (Int128Portable.to_Z x <? 0).
Proof.
  intros Hx Hmin. cbv zeta.
  pose proof (to_Z_valid x Hx) as Hv. unfold Int128.valid in Hv.
  rewrite ltb_to_Z by (trivial; apply valid_zero).
  change (Int128Portable.to_Z Int128Portable.zero) with 0.
  assert (Hgen : forall a, Int128Portable.valid a ->
                           Int128Portable.to_Z a = Z.abs (Int128Portable.to_Z x) ->
                           unsigned_value a = Z.abs (Int128Portable.to_Z x)).
  { intros a Ha Ea. pose proof (unsigned_to_Z a Ha) as E.
    pose proof (unsigned_range a Ha) as R.
    rewrite Ea in E. rewrite !Z.mod_small in E by lia. exact E. }
  destruct (Z.ltb_spec (Int128Portable.to_Z x) 0).
  - destruct (neg_unsigned x Hx) as [Hn _].
    assert (E : Int128Portable.to_Z (Int128Portable.neg x)
                = Z.abs (Int128Portable.to_Z x)).
    { rewrite neg_to_Z by exact Hx. rewrite neg_small by lia. lia. }
    split; [ exact Hn | ].
    split; [ apply Hgen; trivial | split; [ exact E | reflexivity ] ].
  - assert (E : Int128Portable.to_Z x = Z.abs (Int128Portable.to_Z x)) by lia.
    split; [ exact Hx | ].
    split; [ apply Hgen; trivial | split; [ exact E | reflexivity ] ].
Qed.

Lemma div_general_unfold (x y : Int128Portable.t) :
  Int128Portable.div_general x y
  = (let a := if Int128Portable.ltb x Int128Portable.zero
              then Int128Portable.neg x else x in
     let d := if Int128Portable.ltb y Int128Portable.zero
              then Int128Portable.neg y else y in
     let resultNegative :=
       xorb (Int128Portable.ltb x Int128Portable.zero)
            (Int128Portable.ltb y Int128Portable.zero) in
     if Int128Portable.ltb a d then Int128Portable.mk 0 0
     else if Int128Portable.eqb a d then
       if resultNegative
       then Int128Portable.sub (Int128Portable.mk 0 0) (Int128Portable.mk 1 0)
       else Int128Portable.mk 1 0
     else
       let quotient :=
         Int128Portable.div_bits
           (Z.to_nat constants.INT128_MAX_BIT_INDEX + 1) a d
           (Int128Portable.mk 0 0) (Int128Portable.mk 0 0) in
       if resultNegative
       then Int128Portable.sub (Int128Portable.mk 0 0) quotient
       else quotient).
Proof.
  unfold Int128Portable.div_general.
  destruct (Int128Portable.ltb x Int128Portable.zero),
    (Int128Portable.ltb y Int128Portable.zero);
    cbv beta iota zeta; cbn [negb xorb]; reflexivity.
Qed.

Lemma div_general_spec (x y : Int128Portable.t) :
  Int128Portable.valid x -> Int128Portable.valid y ->
  Int128Portable.to_Z x <> - 2 ^ 127 -> Int128Portable.to_Z y <> - 2 ^ 127 ->
  Int128Portable.to_Z y <> 0 ->
  Int128Portable.valid (Int128Portable.div_general x y)
  /\ Int128Portable.to_Z (Int128Portable.div_general x y)
     = Int128Portable.to_Z x ÷ Int128Portable.to_Z y.
Proof.
  intros Hx Hy Hxm Hym Hy0.
  destruct (magnitude x Hx Hxm) as (Ha & EaU & EaZ & Lx).
  destruct (magnitude y Hy Hym) as (Hd & EdU & EdZ & Ly).
  pose proof (to_Z_valid x Hx) as Hvx. pose proof (to_Z_valid y Hy) as Hvy.
  unfold Int128.valid in Hvx, Hvy.
  cbv zeta in Ha, EaU, EaZ, Hd, EdU, EdZ.
  set (X := Int128Portable.to_Z x) in *. set (Y := Int128Portable.to_Z y) in *.
  assert (Hquot : X ÷ Y = Z.sgn X * Z.sgn Y * (Z.abs X / Z.abs Y)).
  { rewrite <- Z.quot_div_nonneg by lia.
    destruct (Z.eq_dec X 0) as [E0 | N0].
    { rewrite E0. cbn [Z.abs Z.sgn]. rewrite !Z.quot_0_l by lia. lia. }
    destruct (Z.lt_trichotomy X 0) as [ | [ | ]];
      destruct (Z.lt_trichotomy Y 0) as [ | [ | ]]; try lia.
    - rewrite (Z.abs_neq X), (Z.abs_neq Y), Z.quot_opp_opp by lia.
      rewrite (Z.sgn_neg X), (Z.sgn_neg Y) by lia. lia.
    - rewrite (Z.abs_neq X), (Z.abs_eq Y), Z.quot_opp_l by lia.
      rewrite (Z.sgn_neg X), (Z.sgn_pos Y) by lia. lia.
    - rewrite (Z.abs_eq X), (Z.abs_neq Y), Z.quot_opp_r by lia.
      rewrite (Z.sgn_pos X), (Z.sgn_neg Y) by lia. lia.
    - rewrite (Z.abs_eq X), (Z.abs_eq Y) by lia.
      rewrite (Z.sgn_pos X), (Z.sgn_pos Y) by lia. lia. }
  rewrite div_general_unfold. cbv zeta. rewrite Lx, Ly.
  rewrite Lx in Ha, EaU, EaZ. rewrite Ly in Hd, EdU, EdZ.
  set (a := if X <? 0 then Int128Portable.neg x else x) in *.
  set (d := if Y <? 0 then Int128Portable.neg y else y) in *.
  set (resultNegative := xorb (X <? 0) (Y <? 0)).
  assert (Hsign : (if resultNegative then -1 else 1) = Z.sgn X * Z.sgn Y \/ X = 0).
  { unfold resultNegative.
    destruct (Z.ltb_spec X 0), (Z.ltb_spec Y 0); cbn [xorb];
      destruct (Z.eq_dec X 0); auto; left;
      rewrite ?(Z.sgn_neg X), ?(Z.sgn_pos X), ?(Z.sgn_neg Y), ?(Z.sgn_pos Y) by lia;
      reflexivity. }
  cbv zeta.
  rewrite ltb_to_Z, eqb_to_Z by assumption. rewrite EaZ, EdZ.
  assert (Hneg1 : forall q, Int128Portable.valid q ->
                    Int128Portable.to_Z q = Z.abs X / Z.abs Y ->
                    Int128Portable.valid
                      (if resultNegative
                       then Int128Portable.sub (Int128Portable.mk 0 0) q else q)
                    /\ Int128Portable.to_Z
                         (if resultNegative
                          then Int128Portable.sub (Int128Portable.mk 0 0) q else q)
                       = X ÷ Y).
  { intros q Hq Eq.
    assert (Hb : 0 <= Z.abs X / Z.abs Y <= Z.abs X).
    { split; [ apply Z.div_pos; lia | ].
      apply Z.div_le_upper_bound; [ lia | nia ]. }
    rewrite Hquot.
    destruct resultNegative.
    - split; [ apply sub_unsigned; trivial; apply valid_mk00 | ].
      rewrite sub_to_Z by (trivial; apply valid_mk00).
      change (Int128Portable.to_Z (Int128Portable.mk 0 0)) with 0.
      unfold Int128.sub. rewrite wrap_small by (unfold Int128.valid; lia).
      rewrite Eq. destruct Hsign as [<- | ->]; [ lia | ].
      cbn [Z.abs Z.sgn]. rewrite Z.div_0_l by lia. lia.
    - split; [ exact Hq | ].
      rewrite Eq. destruct Hsign as [<- | ->]; [ lia | ].
      cbn [Z.abs Z.sgn]. rewrite Z.div_0_l by lia. lia. }
  destruct (Z.ltb_spec (Z.abs X) (Z.abs Y)) as [Hlt | Hge].
  { split; [ apply valid_mk00 | ].
    change (Int128Portable.to_Z (Int128Portable.mk 0 0)) with 0.
    rewrite Hquot, Z.div_small by lia. lia. }
  destruct (Z.eqb_spec (Z.abs X) (Z.abs Y)) as [Heq | Hne].
  { assert (E1 : Z.abs X / Z.abs Y = 1) by (rewrite Heq; apply Z.div_same; lia).
    specialize (Hneg1 (Int128Portable.mk 1 0) valid_one).
    rewrite E1 in Hneg1.
    change (Int128Portable.to_Z (Int128Portable.mk 1 0)) with 1 in Hneg1.
    specialize (Hneg1 eq_refl).
    destruct resultNegative; exact Hneg1. }
  change (Z.to_nat constants.INT128_MAX_BIT_INDEX + 1)%nat with 128%nat.
  destruct (div_bits_spec a d Ha Hd ltac:(lia) ltac:(lia) 128
              (Int128Portable.mk 0 0) (Int128Portable.mk 0 0)
              ltac:(lia) valid_mk00 valid_mk00) as [Hq Eq].
  { change (unsigned_value (Int128Portable.mk 0 0)) with 0.
    change (Z.of_nat 128) with 128.
    rewrite (Z.div_small (unsigned_value a)) by lia.
    rewrite Z.mod_0_l by lia. reflexivity. }
  { change (unsigned_value (Int128Portable.mk 0 0)) with 0.
    change (Z.of_nat 128) with 128.
    rewrite (Z.div_small (unsigned_value a)) by lia.
    rewrite Z.div_0_l by lia. reflexivity. }
  rewrite EaU, EdU in Eq.
  apply Hneg1; [ exact Hq | ].
  rewrite to_Z_small; trivial.
  rewrite Eq.
  assert (Z.abs X / Z.abs Y <= Z.abs X).
  { apply Z.div_le_upper_bound; [ lia | nia ]. }
  lia.
Qed.

Lemma lor_mul_add (hi lo : Z) :
  0 <= lo < 2 ^ 32 -> Z.lor (hi * 2 ^ 32) lo = hi * 2 ^ 32 + lo.
Proof.
  intros H. rewrite <- Z.shiftl_mul_pow2 by lia.
  rewrite lor_shiftl_add by lia. rewrite Z.shiftl_mul_pow2 by lia. reflexivity.
Qed.

(** One 32-bit chunk of the 128-by-64 division. *)
Lemma chunk_step (r c d : Z) :
  0 < d < 2 ^ 64 -> 0 <= r < d -> r < 2 ^ 32 -> 0 <= c < 2 ^ 32 ->
  let dividendPart := Z.lor (u64 (Z.shiftl r 32)) c in
  dividendPart = r * 2 ^ 32 + c
  /\ 0 <= dividendPart / d < 2 ^ 32
  /\ 0 <= dividendPart mod d < d
  /\ r * 2 ^ 32 + c = d * (dividendPart / d) + dividendPart mod d.
Proof.
  intros Hd Hr Hr32 Hc. cbv zeta.
  rewrite u64_shiftl_small by lia. rewrite lor_mul_add by lia.
  split; [ reflexivity | ].
  split.
  { split; [ apply Z.div_pos; lia | apply Z.div_lt_upper_bound; lia ]. }
  split; [ apply Z.mod_pos_bound; lia | apply Z.div_mod; lia ].
Qed.

Lemma div_chunks_spec (low d hr : Z) :
  0 <= low < 2 ^ 64 -> 0 < d < 2 ^ 64 -> 0 <= hr < d -> hr < 2 ^ 32 ->
  match Int128Portable.div_chunks [32; 0] low d 0 hr with
  | Some qa => 0 <= qa < 2 ^ 64 /\ qa = (hr * 2 ^ 64 + low) / d
  | None =>
      2 ^ 32 <= (hr * 2 ^ 32 + low / 2 ^ 32) mod d
  end.
Proof.
  intros Hlow Hd Hhr Hhr32.
  destruct (split32 low Hlow) as (El & Hc1 & Hc0).
  cbn [Int128Portable.div_chunks]. cbv zeta.
  rewrite !land_mask32, !shiftr_div by lia.
  change (Z.shiftl 1 32) with (2 ^ 32).
  rewrite (Z.mod_small (low / 2 ^ 32)) by lia.
  change (2 ^ 0) with 1. rewrite Z.div_1_r.
  set (c1 := low / 2 ^ 32) in *. set (c0 := low mod 2 ^ 32) in *.
  destruct (Z.geb_spec hr (2 ^ 32)); [ lia | ].
  destruct (chunk_step hr c1 d Hd Hhr Hhr32 Hc1) as (E1 & Hq1 & Hr1 & D1).
  cbv zeta in E1, Hq1, Hr1, D1.
  set (dp1 := Z.lor (u64 (Z.shiftl hr 32)) c1) in *.
  change (Z.shiftl 0 32) with 0. change (u64 0) with 0.
  rewrite Z.lor_0_l.
  destruct (Z.geb_spec (dp1 mod d) (2 ^ 32)) as [Hbig | Hsmall].
  { rewrite <- E1. exact Hbig. }
  destruct (chunk_step (dp1 mod d) c0 d Hd Hr1 Hsmall Hc0) as (E2 & Hq2 & Hr2 & D2).
  cbv zeta in E2, Hq2, Hr2, D2.
  set (dp2 := Z.lor (u64 (Z.shiftl (dp1 mod d) 32)) c0) in *.
  rewrite u64_shiftl_small by lia. rewrite lor_mul_add by lia.
  split; [ lia | ].
  apply (Z.div_unique_pos _ _ _ (dp2 mod d)); [ lia | ].
  set (q1 := dp1 / d) in *. set (q2 := dp2 / d) in *.
  set (r1 := dp1 mod d) in *. set (r2 := dp2 mod d) in *.
  replace (d * (q1 * 2 ^ 32 + q2) + r2)
    with ((d * q1) * 2 ^ 32 + (d * q2 + r2)) by ring.
  rewrite <- D2.
  replace (d * q1) with (hr * 2 ^ 32 + c1 - r1) by lia.
  lia.
Qed.

(** The paths of [operator/] for a divisor that fits in 64 bits: the
    quotient of the two words read as an unsigned number, or the general
    case. *)
Lemma div_by_word (x y : Int128Portable.t) :
  Int128Portable.valid x -> Int128Portable.valid y ->
  Int128Portable.upper64bits y = 0 -> Int128Portable.lower64bits y <> 0 ->
  exists q,
    Int128Portable.div x y = Ok q
    /\ ((Int128Portable.valid q
         /\ unsigned_value q = unsigned_value x / Int128Portable.lower64bits y)
        \/ (q = Int128Portable.div_general x y
            /\ 2 ^ 32 <= Int128Portable.lower64bits y)).
Proof.
  intros Hx Hy Huy Hly. pose proof Hx as [Hl Hu]. pose proof Hy as [Hld _].
  unfold Int128Portable.div, Int128Portable.eqb, Int128Portable.zero.
  rewrite Huy. fields.
  destruct (Z.eqb_spec (Int128Portable.lower64bits y) 0); [ contradiction | ].
  cbn [andb]. change (0 =? 0) with true. rewrite andb_true_r. cbv zeta.
  set (d := Int128Portable.lower64bits y) in *.
  set (lx := Int128Portable.lower64bits x) in *.
  set (ux := Int128Portable.upper64bits x) in *.
  assert (Hd : 0 < d < 2 ^ 64) by lia.
  unfold unsigned_value. fold lx ux.
  destruct (Z.eqb_spec ux 0) as [E0 | N0].
  { eexists. split; [ reflexivity | left ].
    assert (0 <= lx / d <= lx).
    { split; [ apply Z.div_pos; lia | ].
      apply Z.div_le_upper_bound; [ lia | nia ]. }
    unfold Int128Portable.valid. fields. rewrite E0.
    split; [ lia | ]. rewrite Z.mul_0_l, !Z.add_0_l. reflexivity. }
  pose proof (Z.div_mod ux d ltac:(lia)) as Eu.
  pose proof (Z.mod_pos_bound ux d ltac:(lia)) as Hr.
  assert (Hq : 0 <= ux / d <= ux).
  { split; [ apply Z.div_pos; lia | ].
    apply Z.div_le_upper_bound; [ lia | nia ]. }
  destruct (Z.eqb_spec (ux mod d) 0) as [Er0 | Nr0].
  { eexists. split; [ reflexivity | left ].
    assert (0 <= lx / d <= lx).
    { split; [ apply Z.div_pos; lia | ].
      apply Z.div_le_upper_bound; [ lia | nia ]. }
    unfold Int128Portable.valid. fields.
    split; [ lia | ].
    apply (Z.div_unique_pos _ _ _ (lx mod d)); [ apply Z.mod_pos_bound; lia | ].
    pose proof (Z.div_mod lx d ltac:(lia)). nia. }
  change (Z.shiftl 1 32) with (2 ^ 32).
  destruct (Z.ltb_spec (ux mod d) (2 ^ 32)) as [Hsmall | Hbig].
  - pose proof (div_chunks_spec lx d (ux mod d) Hl Hd Hr Hsmall) as Hc.
    destruct (Int128Portable.div_chunks [32; 0] lx d 0 (ux mod d)) as [qa | ].
    + destruct Hc as [Hqa Eqa].
      eexists. split; [ reflexivity | left ].
      unfold Int128Portable.valid. fields.
      split; [ lia | ]. rewrite Eqa.
      apply (Z.div_unique_pos _ _ _ ((ux mod d * 2 ^ 64 + lx) mod d));
        [ apply Z.mod_pos_bound; lia | ].
      pose proof (Z.div_mod (ux mod d * 2 ^ 64 + lx) d ltac:(lia)). nia.
    + eexists. split; [ reflexivity | right ].
      split; [ reflexivity | ].
      pose proof (Z.mod_pos_bound (ux mod d * 2 ^ 32 + lx / 2 ^ 32) d ltac:(lia)).
      lia.
  - eexists. split; [ reflexivity | right ]. split; [ reflexivity | lia ].
Qed.

Lemma upper_zero (y : Int128Portable.t) :
  Int128Portable.valid y ->
  (Int128Portable.upper64bits y =? 0)
  = (0 <=? Int128Portable.to_Z y) && (Int128Portable.to_Z y <? 2 ^ 64).
Proof.
  intros [Hl Hu]. unfold Int128Portable.to_Z, Int128Portable.int64.
  destruct (Z.ltb_spec (Int128Portable.upper64bits y) (2 ^ 63));
    destruct (Z.eqb_spec (Int128Portable.upper64bits y) 0);
    repeat match goal with
           | |- context [?a <=? ?b] => destruct (Z.leb_spec a b)
           | |- context [?a <? ?b] => destruct (Z.ltb_spec a b)
           end; cbn [andb]; trivial; lia.
Qed.

Lemma eqb_zero_to_Z (y : Int128Portable.t) :
  Int128Portable.valid y -> Int128Portable.to_Z y <> 0 ->
  Int128Portable.eqb y Int128Portable.zero = false.
Proof.
  intros Hy H0. rewrite eqb_to_Z by (trivial; apply valid_zero).
  apply Z.eqb_neq. exact H0.
Qed.

Lemma word_divisor (y : Int128Portable.t) :
  Int128Portable.valid y -> 0 < Int128Portable.to_Z y < 2 ^ 64 ->
  Int128Portable.upper64bits y = 0
  /\ Int128Portable.lower64bits y = Int128Portable.to_Z y.
Proof.
  intros Hy H. pose proof (upper_zero y Hy) as E.
  destruct (Z.leb_spec 0 (Int128Portable.to_Z y)); [ | lia ].
  destruct (Z.ltb_spec (Int128Portable.to_Z y) (2 ^ 64)); [ | lia ].
  apply Z.eqb_eq in E. split; [ exact E | ].
  unfold Int128Portable.to_Z. rewrite E. reflexivity.
Qed.

Lemma div_exact (x y : Int128Portable.t) :
  Int128Portable.valid x -> Int128Portable.valid y ->
  Int128Portable.to_Z y <> 0 ->
  Int128Portable.to_Z x <> - 2 ^ 127 -> Int128Portable.to_Z y <> - 2 ^ 127 ->
  0 <= Int128Portable.to_Z x \/ Int128Portable.to_Z y < 0
  \/ 2 ^ 64 <= Int128Portable.to_Z y ->
  exists q,
    Int128Portable.div x y = Ok q /\ Int128Portable.valid q
    /\ Int128Portable.to_Z q = Int128Portable.to_Z x ÷ Int128Portable.to_Z y.
Proof.
  intros Hx Hy Hy0 Hxm Hym Hcase.
  pose proof (div_general_spec x y Hx Hy Hxm Hym Hy0) as [Hgv Hgq].
  pose proof (to_Z_valid x Hx) as Hvx. unfold Int128.valid in Hvx.
  destruct (Z.eqb_spec (Int128Portable.upper64bits y) 0) as [Euy | Nuy].
  - (* the divisor fits in 64 bits *)
    pose proof (upper_zero y Hy) as E. rewrite Euy in E.
    change (0 =? 0) with true in E. symmetry in E.
    apply andb_true_iff in E. destruct E as [E1 E2].
    apply Z.leb_le in E1. apply Z.ltb_lt in E2.
    destruct (word_divisor y Hy ltac:(lia)) as [_ Ely].
    destruct (div_by_word x y Hx Hy Euy ltac:(lia)) as (q & Hq & [[Hqv Equ] | [-> _]]).
    + assert (Hpos : 0 <= Int128Portable.to_Z x) by lia.
      assert (Eux : unsigned_value x = Int128Portable.to_Z x).
      { pose proof (unsigned_to_Z x Hx) as Em.
        pose proof (unsigned_range x Hx).
        rewrite !Z.mod_small in Em by lia. exact Em. }
      exists q. split; [ exact Hq | ]. split; [ exact Hqv | ].
      rewrite Eux, Ely in Equ.
      assert (Hb : 0 <= Int128Portable.to_Z x / Int128Portable.to_Z y
                   <= Int128Portable.to_Z x).
      { split; [ apply Z.div_pos; lia | ].
        apply Z.div_le_upper_bound; [ lia | nia ]. }
      rewrite to_Z_small by (trivial; lia).
      rewrite Equ. symmetry. apply Z.quot_div_nonneg; lia.
    + eexists. split; [ exact Hq | ]. split; assumption.
  - exists (Int128Portable.div_general x y).
    split; [ | split; assumption ].
    unfold Int128Portable.div.
    rewrite eqb_zero_to_Z by assumption.
    destruct (Z.eqb_spec (Int128Portable.upper64bits y) 0); [ contradiction | ].
    rewrite andb_false_r. reflexivity.
Qed.

Lemma div_small_divisor (x y : Int128Portable.t) :
  Int128Portable.valid x -> Int128Portable.valid y ->
  0 < Int128Portable.to_Z y < 2 ^ 32 ->
  exists q,
    Int128Portable.div x y = Ok q /\ Int128Portable.valid q
    /\ unsigned_value q = unsigned_value x / Int128Portable.to_Z y.
Proof.
  intros Hx Hy Hsmall.
  destruct (word_divisor y Hy ltac:(lia)) as [Euy Ely].
  destruct (div_by_word x y Hx Hy Euy ltac:(lia)) as (q & Hq & [[Hqv Equ] | [_ Hbig]]).
  - exists q. rewrite Ely in Equ. auto.
  - lia.
Qed.

Lemma rem_unfold (x y : Int128Portable.t) (q : Int128Portable.t) :
  Int128Portable.valid y -> Int128Portable.to_Z y <> 0 ->
  Int128Portable.div x y = Ok q ->
  Int128Portable.rem x y
  = if (Int128Portable.upper64bits x =? 0) && (Int128Portable.upper64bits y =? 0)
    then Ok (Int128Portable.mk
               (Int128Portable.lower64bits x mod Int128Portable.lower64bits y) 0)
    else Ok (Int128Portable.sub x (Int128Portable.mul q y)).
Proof.
  intros Hy Hy0 Hq. unfold Int128Portable.rem.
  rewrite eqb_zero_to_Z by assumption. rewrite Hq. reflexivity.
Qed.

Lemma rem_words (x y : Int128Portable.t) :
  Int128Portable.valid x -> Int128Portable.valid y ->
  Int128Portable.to_Z y <> 0 ->
  Int128Portable.upper64bits x = 0 -> Int128Portable.upper64bits y = 0 ->
  let r := Int128Portable.mk
             (Int128Portable.lower64bits x mod Int128Portable.lower64bits y) 0 in
  Int128Portable.valid r
  /\ unsigned_value r = unsigned_value x mod unsigned_value y.
Proof.
  intros [Hlx _] [Hly _] Hy0 Ex Ey. cbv zeta.
  unfold Int128Portable.to_Z in Hy0. rewrite Ey in Hy0.
  change (Int128Portable.int64 0) with 0 in Hy0.
  pose proof (Z.mod_pos_bound (Int128Portable.lower64bits x)
                (Int128Portable.lower64bits y) ltac:(lia)).
  unfold Int128Portable.valid, unsigned_value. fields. rewrite Ex, Ey.
  rewrite !Z.mul_0_l, !Z.add_0_l. lia.
Qed.

Lemma rem_facts (a b : Z) :
  b <> 0 ->
  Z.abs (Z.rem a b) <= Z.abs a
  /\ (0 <= a -> 0 <= Z.rem a b) /\ (a <= 0 -> Z.rem a b <= 0).
Proof.
  intros Hb. split; [ | split ].
  - rewrite <- Z.rem_abs by assumption. apply Z.rem_le; lia.
  - intros Ha. apply Z.rem_nonneg; assumption.
  - intros Ha. apply Z.rem_nonpos; assumption.
Qed.

Lemma rem_exact (x y : Int128Portable.t) :
  Int128Portable.valid x -> Int128Portable.valid y ->
  Int128Portable.to_Z y <> 0 ->
  Int128Portable.to_Z x <> - 2 ^ 127 -> Int128Portable.to_Z y <> - 2 ^ 127 ->
  0 <= Int128Portable.to_Z x \/ Int128Portable.to_Z y < 0
  \/ 2 ^ 64 <= Int128Portable.to_Z y ->
  exists r,
    Int128Portable.rem x y = Ok r /\ Int128Portable.valid r
    /\ Int128Portable.to_Z r = Z.rem (Int128Portable.to_Z x) (Int128Portable.to_Z y).
Proof.
  intros Hx Hy Hy0 Hxm Hym Hcase.
  destruct (div_exact x y Hx Hy Hy0 Hxm Hym Hcase) as (q & Hq & Hv & E).
  rewrite (rem_unfold x y q Hy Hy0 Hq).
  pose proof (to_Z_valid x Hx) as Hvx. pose proof (to_Z_valid y Hy) as Hvy.
  unfold Int128.valid in Hvx, Hvy.
  destruct (Z.eqb_spec (Int128Portable.upper64bits x) 0) as [Ex | Nx];
    destruct (Z.eqb_spec (Int128Portable.upper64bits y) 0) as [Ey | Ny];
    cbn [andb].
  1: { destruct (rem_words x y Hx Hy Hy0 Ex Ey) as [Hrv Er].
       eexists. split; [ reflexivity | ]. split; [ exact Hrv | ].
       assert (Eux : Int128Portable.to_Z x = unsigned_value x)
         by (unfold Int128Portable.to_Z, unsigned_value; rewrite Ex; reflexivity).
       assert (Euy : Int128Portable.to_Z y = unsigned_value y)
         by (unfold Int128Portable.to_Z, unsigned_value; rewrite Ey; reflexivity).
       pose proof (unsigned_range x Hx). pose proof (unsigned_range y Hy).
       pose proof (Z.mod_pos_bound (unsigned_value x) (unsigned_value y) ltac:(lia)).
       rewrite to_Z_small by (trivial; lia).
       rewrite Er, Eux, Euy. symmetry. apply Z.rem_mod_nonneg; lia. }
  all: eexists; (split; [ reflexivity | ]);
    pose proof (mul_unsigned q y Hv Hy) as [Hmv _];
    (split; [ apply sub_unsigned; assumption | ]);
    rewrite sub_to_Z, mul_to_Z by assumption;
    rewrite E;
    pose proof (Z.quot_rem' (Int128Portable.to_Z x) (Int128Portable.to_Z y)) as Eqr;
    pose proof (rem_facts (Int128Portable.to_Z x) (Int128Portable.to_Z y) Hy0) as HR;
    set (X := Int128Portable.to_Z x) in *; set (Y := Int128Portable.to_Z y) in *;
    set (Q := X ÷ Y) in *; set (R := Z.rem X Y) in *;
    (assert (Hqy : Y * Q = X - R) by lia);
    unfold Int128.sub, Int128.mul;
    rewrite (Z.mul_comm Q Y), Hqy;
    rewrite (wrap_small (X - R)) by (unfold Int128.valid; lia);
    replace (X - (X - R)) with R by lia;
    apply wrap_small; unfold Int128.valid; lia.
Qed.

Lemma rem_small_divisor (x y : Int128Portable.t) :
  Int128Portable.valid x -> Int128Portable.valid y ->
  0 < Int128Portable.to_Z y < 2 ^ 32 ->
  exists r,
    Int128Portable.rem x y = Ok r /\ Int128Portable.valid r
    /\ unsigned_value r = unsigned_value x mod Int128Portable.to_Z y.
Proof.
  intros Hx Hy Hd.
  destruct (div_small_divisor x y Hx Hy Hd) as (q & Hq & Hv & E).
  rewrite (rem_unfold x y q Hy ltac:(lia) Hq).
  destruct (word_divisor y Hy ltac:(lia)) as [Ey Ely].
  assert (Euy : unsigned_value y = Int128Portable.to_Z y)
    by (unfold unsigned_value; rewrite Ey, Ely; rewrite Z.mul_0_l; reflexivity).
  rewrite Ey. change (0 =? 0) with true. rewrite andb_true_r.
  destruct (Z.eqb_spec (Int128Portable.upper64bits x) 0) as [Ex | Nx].
  - destruct (rem_words x y Hx Hy ltac:(lia) Ex Ey) as [Hrv Er].
    eexists. split; [ reflexivity | ]. split; [ exact Hrv | ].
    rewrite <- Euy. exact Er.
  - eexists. split; [ reflexivity | ].
    pose proof (mul_unsigned q y Hv Hy) as [Hmv Em].
    destruct (sub_unsigned x _ Hx Hmv) as [Hsv Es].
    split; [ exact Hsv | ]. rewrite Es.
    pose proof (unsigned_range x Hx) as Hxr.
    pose proof (Z.div_mod (unsigned_value x) (Int128Portable.to_Z y) ltac:(lia)) as Ed.
    pose proof (Z.mod_pos_bound (unsigned_value x) (Int128Portable.to_Z y) ltac:(lia)) as Hm.
    rewrite E, Euy in Em.
    assert (Hqd : 0 <= unsigned_value x / Int128Portable.to_Z y
                       * Int128Portable.to_Z y <= unsigned_value x).
    { split; [ | lia ].
      apply Z.mul_nonneg_nonneg; [ apply Z.div_pos; lia | lia ]. }
    pose proof (unsigned_range _ Hmv) as Hmr.
    rewrite !Z.mod_small in Em by lia.
    rewrite Em. rewrite Z.mod_small by lia. lia.
Qed.

(** X22. The portable [operator/] and [operator%] return the quotient
    truncated toward zero and the remainder with the sign of the dividend,
    for operands other than the minimum and a non-zero divisor, whenever the
    dividend is not negative or the divisor is negative or at least
    [2^64]. *)
Theorem portable_div_rem_exact (x y : Int128Portable.t) :
  Int128Portable.valid x -> Int128Portable.valid y ->
  Int128Portable.to_Z y <> 0 ->
  Int128Portable.to_Z x <> - 2 ^ 127 -> Int128Portable.to_Z y <> - 2 ^ 127 ->
  0 <= Int128Portable.to_Z x \/ Int128Portable.to_Z y < 0
  \/ 2 ^ 64 <= Int128Portable.to_Z y ->
  exists q r,
    Int128Portable.div x y = Ok q /\ Int128Portable.rem x y = Ok r
    /\ Int128Portable.valid q /\ Int128Portable.valid r
    /\ Int128Portable.to_Z q = Int128Portable.to_Z x ÷ Int128Portable.to_Z y
    /\ Int128Portable.to_Z r
       = Z.rem (Int128Portable.to_Z x) (Int128Portable.to_Z y).
Proof.
  intros Hx Hy Hy0 Hxm Hym Hcase.
  destruct (div_exact x y Hx Hy Hy0 Hxm Hym Hcase) as (q & Hq & Hqv & Eq).
  destruct (rem_exact x y Hx Hy Hy0 Hxm Hym Hcase) as (r & Hr & Hrv & Er).
  exists q, r. repeat (split; [ assumption | ]). assumption.
Qed.

Lemma portable_div_rem_exact_witness :
  exists q r,
    Int128Portable.div (Int128Portable.mk 7 0)
      (Int128Portable.mk (2 ^ 64 - 2) (2 ^ 64 - 1)) = Ok q
    /\ Int128Portable.rem (Int128Portable.mk 7 0)
         (Int128Portable.mk (2 ^ 64 - 2) (2 ^ 64 - 1)) = Ok r
    /\ Int128Portable.valid q /\ Int128Portable.valid r
    /\ Int128Portable.to_Z q
       = Int128Portable.to_Z (Int128Portable.mk 7 0)
         ÷ Int128Portable.to_Z (Int128Portable.mk (2 ^ 64 - 2) (2 ^ 64 - 1))
    /\ Int128Portable.to_Z r
       = Z.rem (Int128Portable.to_Z (Int128Portable.mk 7 0))
           (Int128Portable.to_Z (Int128Portable.mk (2 ^ 64 - 2) (2 ^ 64 - 1))).
Proof.
  apply (portable_div_rem_exact (Int128Portable.mk 7 0)
           (Int128Portable.mk (2 ^ 64 - 2) (2 ^ 64 - 1))).
  - unfold Int128Portable.valid; fields; lia.
  - unfold Int128Portable.valid; fields; lia.
  - vm_compute. discriminate.
  - vm_compute. discriminate.
  - vm_compute. discriminate.
  - left. vm_compute. discriminate.
Defined.

(** X23. A negative dividend and a divisor between 2 and [2^32 - 1]: the
    portable [operator/] takes the 128-by-64 path, which reads the two words
    of the dividend as an unsigned number, so the quotient is
    [(2^128 + x) / y], a positive number of at least [2^95]
    ([Int128( -10 ) / Int128( 2 )] is [2^127 - 5]), and [operator%] returns
    [(2^128 + x) mod y]. *)
Theorem portable_div_negative_dividend (x y : Int128Portable.t) :
  Int128Portable.valid x -> Int128Portable.valid y ->
  Int128Portable.to_Z x < 0 -> 2 <= Int128Portable.to_Z y < 2 ^ 32 ->
  exists q r,
    Int128Portable.div x y = Ok q /\ Int128Portable.rem x y = Ok r
    /\ Int128Portable.to_Z q
       = (2 ^ 128 + Int128Portable.to_Z x) / Int128Portable.to_Z y
    /\ 2 ^ 95 <= Int128Portable.to_Z q
    /\ Int128Portable.to_Z r
       = (2 ^ 128 + Int128Portable.to_Z x) mod Int128Portable.to_Z y.
Proof.
  intros Hx Hy Hneg Hd.
  destruct (div_small_divisor x y Hx Hy ltac:(lia)) as (q & Hq & Hv & E).
  destruct (rem_small_divisor x y Hx Hy ltac:(lia)) as (r & Hr & Hrv & Er).
  pose proof (to_Z_valid x Hx) as Hvx. unfold Int128.valid in Hvx.
  assert (Eux : unsigned_value x = 2 ^ 128 + Int128Portable.to_Z x).
  { pose proof (unsigned_to_Z x Hx) as Em.
    pose proof (unsigned_range x Hx).
    rewrite (Z.mod_small (unsigned_value x)) in Em by lia.
    rewrite Em. symmetry. apply (Z.mod_unique _ _ (-1)); lia. }
  rewrite Eux in E, Er.
  set (X := Int128Portable.to_Z x) in *. set (d := Int128Portable.to_Z y) in *.
  assert (Hlo : 2 ^ 95 <= (2 ^ 128 + X) / d).
  { apply Z.div_le_lower_bound; [ lia | ]. nia. }
  assert (Hhi : (2 ^ 128 + X) / d < 2 ^ 127).
  { apply Z.div_lt_upper_bound; [ lia | ]. nia. }
  pose proof (Z.mod_pos_bound (2 ^ 128 + X) d ltac:(lia)) as Hm.
  exists q, r. split; [ exact Hq | ]. split; [ exact Hr | ].
  rewrite (to_Z_small q), (to_Z_small r) by (trivial; lia).
  rewrite E, Er. split; [ reflexivity | ]. split; [ exact Hlo | reflexivity ].
Qed.

Lemma portable_div_negative_dividend_witness :
  exists q r,
    Int128Portable.div (Int128Portable.mk (2 ^ 64 - 10) (2 ^ 64 - 1))
      (Int128Portable.mk 2 0) = Ok q
    /\ Int128Portable.rem (Int128Portable.mk (2 ^ 64 - 10) (2 ^ 64 - 1))
         (Int128Portable.mk 2 0) = Ok r
    /\ Int128Portable.to_Z q
       = (2 ^ 128
          + Int128Portable.to_Z (Int128Portable.mk (2 ^ 64 - 10) (2 ^ 64 - 1)))
         / Int128Portable.to_Z (Int128Portable.mk 2 0)
    /\ 2 ^ 95 <= Int128Portable.to_Z q
    /\ Int128Portable.to_Z r
       = (2 ^ 128
          + Int128Portable.to_Z (Int128Portable.mk (2 ^ 64 - 10) (2 ^ 64 - 1)))
         mod Int128Portable.to_Z (Int128Portable.mk 2 0).
Proof.
  apply (portable_div_negative_dividend
           (Int128Portable.mk (2 ^ 64 - 10) (2 ^ 64 - 1)) (Int128Portable.mk 2 0)).
  - unfold Int128Portable.valid; fields; lia.
  - unfold Int128Portable.valid; fields; lia.
  - vm_compute. reflexivity.
  - vm_compute. split; [ discriminate | reflexivity ].
Defined.

(** ** The two words of an Int128 *)

Lemma of_words_value (low high : Z) :
  0 <= low < 2 ^ 64 -> 0 <= high ->
  Int128.of_words low high = Int128.wrap (high * 2 ^ 64 + low).
Proof.
  intros Hl Hh. unfold Int128.of_words, constants.BITS_PER_UINT64.
  rewrite lor_shiftl_add by lia. reflexivity.
Qed.

(** X24. The constructor [Int128( low, high )] and the accessors [toLow()]
    and [toHigh()] are inverse to each other: the two words of a value
    build the value again, and the words of [Int128( low, high )] are [low]
    and [high]; the value is the two's-complement reading of the pair, the
    one that the portable representation stores. *)
Theorem words_roundtrip :
  (forall x : Int128.t,
      Int128.valid x ->
      Int128.of_words (Int128.toLow x) (Int128.toHigh x) = x)
  /\ (forall low high : Z,
         0 <= low < 2 ^ 64 -> 0 <= high < 2 ^ 64 ->
         Int128.toLow (Int128.of_words low high) = low
         /\ Int128.toHigh (Int128.of_words low high) = high
         /\ Int128.of_words low high
            = Int128Portable.to_Z (Int128Portable.mk low high)).
Proof.
  split.
  - intros x Hx.
    unfold Int128.toLow, Int128.toHigh, u64, constants.BITS_PER_UINT64.
    rewrite shiftr_div by lia.
    pose proof (Z.mod_pos_bound x (2 ^ 64) ltac:(lia)) as Hl.
    pose proof (Z.mod_pos_bound (x / 2 ^ 64) (2 ^ 64) ltac:(lia)) as Hh.
    rewrite of_words_value by lia.
    rewrite <- (wrap_small x Hx) at 3. apply wrap_congr.
    pose proof (Z.div_mod x (2 ^ 64) ltac:(lia)) as E1.
    pose proof (Z.div_mod (x / 2 ^ 64) (2 ^ 64) ltac:(lia)) as E2.
    apply (mod_shift _ _ (- (x / 2 ^ 64 / 2 ^ 64))). lia.
  - intros low high Hl Hh.
    assert (Hv : Int128Portable.valid (Int128Portable.mk low high))
      by (unfold Int128Portable.valid; fields; lia).
    assert (E : Int128.of_words low high
                = Int128Portable.to_Z (Int128Portable.mk low high)).
    { rewrite of_words_value by lia. symmetry.
      apply (to_Z_of_unsigned _ _ Hv). reflexivity. }
    pose proof (to_Z_valid _ Hv) as Hz.
    split; [ | split; [ | exact E ] ]; rewrite E;
      unfold Int128.toLow, Int128.toHigh, u64, constants.BITS_PER_UINT64,
        Int128Portable.to_Z, Int128Portable.int64; fields.
    + destruct (Z.ltb_spec high (2 ^ 63)).
      * symmetry. apply (Z.mod_unique _ _ high); lia.
      * symmetry. apply (Z.mod_unique _ _ (high - 2 ^ 64)); lia.
    + rewrite shiftr_div by lia.
      destruct (Z.ltb_spec high (2 ^ 63)).
      * replace ((high * 2 ^ 64 + low) / 2 ^ 64) with high
          by (apply (Z.div_unique_pos _ _ _ low); lia).
        apply Z.mod_small. lia.
      * replace (((high - 2 ^ 64) * 2 ^ 64 + low) / 2 ^ 64) with (high - 2 ^ 64)
          by (apply (Z.div_unique_pos _ _ _ low); lia).
        symmetry. apply (Z.mod_unique _ _ (-1)); lia.
Qed.

Lemma words_roundtrip_witness :
  Int128.of_words (Int128.toLow (-42)) (Int128.toHigh (-42)) = -42
  /\ Int128.toHigh (Int128.of_words 5 (2 ^ 64 - 1)) = 2 ^ 64 - 1.
Proof.
  split.
  - apply (proj1 words_roundtrip (-42)). unfold Int128.valid. lia.
  - apply (proj2 words_roundtrip 5 (2 ^ 64 - 1)); lia.
Defined.

(** ** The mantissa of a decimal *)

Lemma normalize_fixed (d : Decimal.t) :
  limbs_valid d -> normalized d -> Decimal.normalize d = Ok d.
Proof.
  intros Hl Hn. unfold Decimal.normalize.
  destruct (Z.to_nat (Decimal.scale d)) as [ | n] eqn:En; [ reflexivity | ].
  cbn [Decimal.normalize_loop].
  destruct (Z.gtb_spec (Decimal.scale d) 0) as [Hpos | ]; [ | reflexivity ].
  pose proof (mantissa_value_range d Hl) as Hr.
  rewrite mantissaAsInt128_value by exact Hl.
  rewrite rem10 by lia. cbn [bind]. unfold Int128.eqb.
  destruct Hn as [Hs | Hm]; [ lia | ].
  destruct (Z.eqb_spec (mantissa_value d mod 10) 0); [ contradiction | ].
  reflexivity.
Qed.

(** X25. [internal::normalize] keeps the value and the sign: it divides
    the mantissa by the power of ten by which it lowers the scale, the
    result is normalized (scale 0 or a mantissa that is not a multiple of
    ten), normalizing again changes nothing, and a normalized decimal is
    returned as it is. *)
Theorem normalize_value (d : Decimal.t) :
  limbs_valid d ->
  exists r,
    Decimal.normalize d = Ok r
    /\ limbs_valid r /\ normalized r
    /\ Decimal.sign_bit r = Decimal.sign_bit d
    /\ 0 <= Decimal.scale r <= Decimal.scale d
    /\ mantissa_value d
       = mantissa_value r * 10 ^ (Decimal.scale d - Decimal.scale r)
    /\ Decimal.normalize r = Ok r
    /\ (normalized d -> r = d).
Proof.
  intros Hl.
  destruct (normalize_spec d Hl) as (r & Hr & Hrl & Hrn & Hrs & Hrsc & Hrv).
  exists r. repeat (split; [ assumption | ]).
  split; [ apply normalize_fixed; assumption | ].
  intros Hn. rewrite (normalize_fixed d Hl Hn) in Hr.
  injection Hr as <-. reflexivity.
Qed.

Lemma normalize_value_witness :
  exists r,
    Decimal.normalize (Decimal.mk 0x00030000 1500 0 0) = Ok r
    /\ limbs_valid r /\ normalized r
    /\ Decimal.sign_bit r = Decimal.sign_bit (Decimal.mk 0x00030000 1500 0 0)
    /\ 0 <= Decimal.scale r <= Decimal.scale (Decimal.mk 0x00030000 1500 0 0)
    /\ mantissa_value (Decimal.mk 0x00030000 1500 0 0)
       = mantissa_value r
         * 10 ^ (Decimal.scale (Decimal.mk 0x00030000 1500 0 0) - Decimal.scale r)
    /\ Decimal.normalize r = Ok r
    /\ (normalized (Decimal.mk 0x00030000 1500 0 0)
        -> r = Decimal.mk 0x00030000 1500 0 0).
Proof.
  apply (normalize_value (Decimal.mk 0x00030000 1500 0 0)).
  unfold limbs_valid; fields; lia.
Defined.

Lemma setMantissa_own (d : Decimal.t) :
  limbs_valid d -> Decimal.setMantissa d (Decimal.mantissaAsInt128 d) = d.
Proof.
  intros Hl. rewrite mantissaAsInt128_value by exact Hl.
  destruct Hl as (H0 & H1 & H2).
  unfold Decimal.setMantissa, mantissa_value, u32,
    constants.BITS_PER_UINT64, constants.BITS_PER_UINT32.
  rewrite !shiftr_div by lia.
  destruct d as [f m0 m1 m2]. fields.
  set (v := m2 * 2 ^ 64 + m1 * 2 ^ 32 + m0).
  assert (E0 : v mod 2 ^ 32 = m0).
  { symmetry. apply (Z.mod_unique _ _ (m2 * 2 ^ 32 + m1)); unfold v; lia. }
  assert (D1 : v / 2 ^ 32 = m2 * 2 ^ 32 + m1).
  { symmetry. apply (Z.div_unique_pos _ _ _ m0); unfold v; lia. }
  assert (E1 : (v / 2 ^ 32) mod 2 ^ 32 = m1).
  { rewrite D1. symmetry. apply (Z.mod_unique _ _ m2); lia. }
  assert (D2 : v / 2 ^ 64 = m2).
  { symmetry. apply (Z.div_unique_pos _ _ _ (m1 * 2 ^ 32 + m0)); unfold v; lia. }
  rewrite E0, E1, D2, (Z.mod_small m2) by lia. reflexivity.
Qed.

(** X26. [internal::setMantissa] stores the low 96 bits of the Int128 it is
    given (the value modulo [2^96], also for a negative one) and leaves the
    flags alone, [internal::mantissaAsInt128] reads them back, and writing a
    decimal's own mantissa back gives the same decimal. *)
Theorem mantissa_roundtrip (d : Decimal.t) (v : Int128.t) :
  (Decimal.mantissaAsInt128 (Decimal.setMantissa d v) = v mod 2 ^ 96
   /\ Decimal.flags (Decimal.setMantissa d v) = Decimal.flags d)
  /\ (limbs_valid d -> Decimal.setMantissa d (Decimal.mantissaAsInt128 d) = d).
Proof.
  split; [ split | apply setMantissa_own ].
  - rewrite mantissaAsInt128_value by apply setMantissa_limbs.
    apply setMantissa_value.
  - reflexivity.
Qed.

Lemma mantissa_roundtrip_witness :
  Decimal.setMantissa (Decimal.mk 0x80020000 12345 7 1)
    (Decimal.mantissaAsInt128 (Decimal.mk 0x80020000 12345 7 1))
  = Decimal.mk 0x80020000 12345 7 1.
Proof.
  apply (proj2 (mantissa_roundtrip (Decimal.mk 0x80020000 12345 7 1) 0)).
  unfold limbs_valid; fields; lia.
Defined.

(** ** A decimal compared with a built-in integer *)

Lemma words_of (v : Z) :
  0 <= v < 2 ^ 64 ->
  let t := Decimal.mk 0 (u32 v) (u32 (Z.shiftr v constants.BITS_PER_UINT32)) 0 in
  limbs_valid t /\ mantissa_value t = v.
Proof.
  intros Hv. cbv zeta.
  unfold limbs_valid, mantissa_value, u32, constants.BITS_PER_UINT32. fields.
  rewrite shiftr_div by lia.
  destruct (split32 v Hv) as (E & Hh & Hl).
  rewrite (Z.mod_small (v / 2 ^ 32)) by lia. lia.
Qed.

Lemma of_uint64_value (val : Z) :
  0 <= val < 2 ^ 64 ->
  limbs_valid (Decimal.of_uint64 val)
  /\ Decimal.scale (Decimal.of_uint64 val) = 0
  /\ Decimal.sign_bit (Decimal.of_uint64 val) = false
  /\ mantissa_value (Decimal.of_uint64 val) = val.
Proof.
  intros Hv. destruct (words_of val Hv) as [Hl Hm].
  unfold Decimal.of_uint64.
  split; [ exact Hl | ]. split; [ reflexivity | ].
  split; [ reflexivity | exact Hm ].
Qed.

Lemma of_int64_value (val : Z) :
  - 2 ^ 63 < val < 2 ^ 63 ->
  limbs_valid (Decimal.of_int64 val)
  /\ Decimal.scale (Decimal.of_int64 val) = 0
  /\ Decimal.sign_bit (Decimal.of_int64 val) = (val <? 0)
  /\ mantissa_value (Decimal.of_int64 val) = Z.abs val.
Proof.
  intros Hv. unfold Decimal.of_int64. cbv zeta.
  destruct (Z.ltb_spec val 0) as [Hneg | Hpos].
  - destruct (words_of (- val) ltac:(lia)) as [Hl Hm].
    split; [ exact Hl | ]. split; [ reflexivity | ].
    split; [ reflexivity | ].
    unfold mantissa_value in *. fields. rewrite Hm. lia.
  - destruct (words_of val ltac:(lia)) as [Hl Hm].
    split; [ exact Hl | ]. split; [ reflexivity | ].
    split; [ reflexivity | ].
    unfold mantissa_value in *. fields. rewrite Hm. lia.
Qed.

(** A decimal against an integer-valued one of scale 0. *)
Lemma against_integer (d t : Decimal.t) (v : Z) :
  well_formed d -> normalized d ->
  (mantissa_value d = 0 -> Decimal.sign_bit d = false) ->
  limbs_valid t -> Decimal.scale t = 0 ->
  signed_mantissa t = v -> (v = 0 -> Decimal.sign_bit t = false) ->
  Z.abs v * 10 ^ Decimal.scale d < 2 ^ 127 ->
  (if Decimal.scale d >? 0 then false else Decimal.eqb d t)
  = (signed_mantissa d =? v * 10 ^ Decimal.scale d)
  /\ Decimal.ltb d t = (signed_mantissa d <? v * 10 ^ Decimal.scale d)
  /\ Decimal.gtb d t = (signed_mantissa d >? v * 10 ^ Decimal.scale d).
Proof.
  intros Hd Hn Hz Hlt Hst Hv Hv0 Hfit.
  pose proof Hd as [Hl Hs].
  pose proof (scale_range d) as Hr.
  pose proof (mantissa_value_range d Hl) as Hm.
  pose proof (mantissa_value_range t Hlt) as Hmt.
  pose proof (signed_mantissa_abs t Hlt) as Habs. rewrite Hv in Habs.
  assert (Ht : well_formed t) by (split; [ exact Hlt | lia ]).
  assert (Hmax : Z.max (Decimal.scale d) (Decimal.scale t) = Decimal.scale d)
    by lia.
  assert (Ha : alignable d t).
  { unfold alignable. cbv zeta. rewrite Hmax, Z.sub_diag, Hst, Z.sub_0_r.
    rewrite <- Habs. lia. }
  assert (Hsign : mantissa_value d = 0 -> mantissa_value t = 0 ->
                  Decimal.sign_bit d = Decimal.sign_bit t).
  { intros H1 H2. rewrite (Hz H1), Hv0; [ reflexivity | lia ]. }
  pose proof (compare_units d t Hd Ht Ha Hsign) as Hc.
  rewrite Hmax, units_self in Hc.
  assert (Ut : units (Decimal.scale d) t = v * 10 ^ Decimal.scale d).
  { unfold units. rewrite Hv, Hst, Z.sub_0_r. reflexivity. }
  rewrite Ut in Hc.
  split; [ | split ].
  - destruct (Z.gtb_spec (Decimal.scale d) 0) as [Hpos | Hz0].
    + symmetry. apply Z.eqb_neq. intros E.
      apply (normalized_scaled d v Hl Hn Hpos). lia.
    + rewrite (eqb_units d t Hd Ht Ha), Hmax, units_self, Ut. reflexivity.
  - unfold Decimal.ltb. rewrite Hc. unfold Z.ltb. reflexivity.
  - unfold Decimal.gtb. rewrite Hc. unfold Z.gtb. reflexivity.
Qed.

(** X27. The comparisons [==], [<] and [>] of a Decimal with a
    [std::int64_t] (above its minimum) and with a [std::uint64_t] compare
    the value of the decimal with the integer, for a normalized decimal that
    is not a zero with the sign bit set and an integer that can be scaled by
    [10^scale] within 128 bits. *)
Theorem Decimal_builtin_comparisons (d : Decimal.t) (val : Z) :
  well_formed d -> normalized d ->
  (mantissa_value d = 0 -> Decimal.sign_bit d = false) ->
  Z.abs val * 10 ^ Decimal.scale d < 2 ^ 127 ->
  (- 2 ^ 63 < val < 2 ^ 63 ->
   Decimal.eqb_int64 d val = (signed_mantissa d =? val * 10 ^ Decimal.scale d)
   /\ Decimal.ltb_int64 d val = (signed_mantissa d <? val * 10 ^ Decimal.scale d)
   /\ Decimal.gtb_int64 d val = (signed_mantissa d >? val * 10 ^ Decimal.scale d))
  /\ (0 <= val < 2 ^ 64 ->
      Decimal.eqb_uint64 d val = (signed_mantissa d =? val * 10 ^ Decimal.scale d)
      /\ Decimal.ltb_uint64 d val
         = (signed_mantissa d <? val * 10 ^ Decimal.scale d)
      /\ Decimal.gtb_uint64 d val
         = (signed_mantissa d >? val * 10 ^ Decimal.scale d)).
Proof.
  intros Hd Hn Hz Hfit. pose proof Hd as [Hl Hs].
  pose proof (scale_range d) as Hr.
  pose proof (mantissa_value_range d Hl) as Hm.
  pose proof (pow10_pos (Decimal.scale d) ltac:(lia)) as Hp.
  split; intros Hval.
  - destruct (of_int64_value val Hval) as (Htl & Hts & Htg & Htm).
    assert (Hv : signed_mantissa (Decimal.of_int64 val) = val).
    { unfold signed_mantissa. rewrite Htg, Htm.
      destruct (Z.ltb_spec val 0); lia. }
    assert (Hv0 : val = 0 -> Decimal.sign_bit (Decimal.of_int64 val) = false).
    { intros ->. rewrite Htg. reflexivity. }
    exact (against_integer d _ val Hd Hn Hz Htl Hts Hv Hv0 Hfit).
  - destruct (of_uint64_value val Hval) as (Htl & Hts & Htg & Htm).
    assert (Hv : signed_mantissa (Decimal.of_uint64 val) = val).
    { unfold signed_mantissa. rewrite Htg, Htm. reflexivity. }
    destruct (against_integer d _ val Hd Hn Hz Htl Hts Hv (fun _ => Htg) Hfit)
      as (He & Hlt & Hgt).
    unfold Decimal.eqb_uint64, Decimal.ltb_uint64, Decimal.gtb_uint64.
    cbv zeta. rewrite ltb_zero_sign by exact Hl.
    assert (Hneg : Decimal.sign_bit d = true ->
                   signed_mantissa d < 0 <= val * 10 ^ Decimal.scale d).
    { intros Sg. unfold signed_mantissa. rewrite Sg.
      destruct (Z.eq_dec (mantissa_value d) 0) as [E0 | N0].
      - rewrite (Hz E0) in Sg. discriminate.
      - split; [ lia | ]. apply Z.mul_nonneg_nonneg; lia. }
    destruct (Decimal.sign_bit d) eqn:Sg.
    + specialize (Hneg eq_refl).
      split; [ | split ].
      * destruct (Decimal.scale d >? 0); symmetry; apply Z.eqb_neq; lia.
      * symmetry. apply Z.ltb_lt. lia.
      * symmetry. rewrite Z.gtb_ltb. apply Z.ltb_ge. lia.
    + split; [ | split ]; assumption.
Qed.

Lemma Decimal_builtin_comparisons_witness :
  Decimal.ltb_int64 (Decimal.mk 0x80010000 25 0 0) (-2)
  = (signed_mantissa (Decimal.mk 0x80010000 25 0 0)
     <? -2 * 10 ^ Decimal.scale (Decimal.mk 0x80010000 25 0 0)).
Proof.
  apply (proj1 (Decimal_builtin_comparisons (Decimal.mk 0x80010000 25 0 0) (-2)
                  ltac:(split; [ unfold limbs_valid; fields; lia
                               | vm_compute; discriminate ])
                  ltac:(right; vm_compute; discriminate)
                  ltac:(vm_compute; discriminate)
                  ltac:(vm_compute; reflexivity))).
  lia.
Defined.

(** ** Decimal::fromString on a literal *)

Lemma pow10_28 : 10 ^ 28 < 2 ^ 96.
Proof. vm_compute. reflexivity. Qed.

Lemma digits_below (ds : list ascii) (n : nat) :
  Forall is_digit ds -> (List.length ds <= n)%nat ->
  0 <= digits_value ds < 10 ^ Z.of_nat n.
Proof.
  intros Hd Hn. pose proof (digits_value_bound ds Hd) as Hb.
  split; [ lia | ].
  eapply Z.lt_le_trans; [ apply Hb | ].
  apply Z.pow_le_mono_r; lia.
Qed.

(** Digits alone. *)
Lemma scan_integer (a : list ascii) (pos : nat) (str : list ascii) :
  Forall is_digit a -> (0 < List.length a <= 28)%nat ->
  skipn pos str = a -> List.length str = (pos + List.length a)%nat ->
  scanned str pos (digits_value a) 0.
Proof.
  intros Ha Hlen Hskip Hl. unfold scanned. rewrite Hskip.
  pose proof (digits_below a 28 Ha ltac:(lia)) as Hb.
  change (Z.of_nat 28) with 28 in Hb. pose proof pow10_28 as H28.
  exists None.
  destruct (accumulate_run None false a [] pos 0 0 0 0 false Ha)
    as (sig & _ & Heq); [ intros j _; reflexivity | lia .. | ].
  do 2 eexists. split; [ apply find_point_digits; exact Ha | ].
  split; [ reflexivity | ].
  rewrite <- (app_nil_r a) at 1. rewrite Heq.
  cbn [Decimal.accumulate_digits].
  destruct a; [ cbn in Hlen; lia | ]. reflexivity.
Qed.

(** Digits, a decimal point, digits; either run may be empty. *)
Lemma scan_fraction (a b : list ascii) (pos : nat) (str : list ascii) :
  Forall is_digit a -> Forall is_digit b ->
  (0 < List.length a + List.length b <= 28)%nat ->
  skipn pos str = a ++ "."%char :: b ->
  List.length str = (pos + (List.length a + 1 + List.length b))%nat ->
  scanned str pos (digits_value (a ++ b)) (Z.of_nat (List.length b)).
Proof.
  intros Ha Hb Hlen Hskip Hl. unfold scanned. rewrite Hskip, Hl.
  pose proof (digits_value_bound a Ha) as Hab.
  pose proof (digits_value_bound b Hb) as Hbb.
  assert (Hall : Forall is_digit (a ++ b)) by (apply Forall_app; auto).
  pose proof (digits_below (a ++ b) 28 Hall ltac:(rewrite length_app; lia)) as Hv.
  change (Z.of_nat 28) with 28 in Hv. pose proof pow10_28 as H28.
  rewrite digits_value_app in Hv.
  assert (Hp : 0 < 10 ^ Z.of_nat (List.length b)) by (apply Z.pow_pos_nonneg; lia).
  set (k := List.length a) in *. set (sc := List.length b) in *.
  exists (Some (pos + k)%nat).
  destruct (accumulate_run (Some (pos + k)%nat) false a ("."%char :: b)
              pos 0 0 0 (Z.of_nat sc) false Ha)
    as (sig1 & Hsig1 & Heq1);
    [ intros j Hj; cbn [after_point]; apply Nat.ltb_ge; lia | try lia .. | ].
  fold k in Hsig1, Heq1.
  destruct (accumulate_run (Some (pos + k)%nat) true b []
              (S (pos + k)) (0 * 10 ^ Z.of_nat k + digits_value a)
              sig1 0 (Z.of_nat sc)
              (false || negb (k =? 0)%nat) Hb)
    as (sig2 & _ & Heq2);
    [ intros j Hj; cbn [after_point]; apply Nat.ltb_lt; lia
    | try (fold k sc; lia) .. | ].
  fold sc in Heq2.
  do 2 eexists.
  split; [ apply find_point_one; assumption | ].
  split.
  { cbv zeta.
    match goal with
    | |- context [ u8 ?e ] => replace e with (Z.of_nat sc) by lia
    end.
    unfold u8. rewrite Z.mod_small by lia.
    unfold constants.DECIMAL_MAXIMUM_PLACES.
    destruct (Z.gtb_spec (Z.of_nat sc) 28); [ lia | reflexivity ]. }
  rewrite Heq1, accumulate_point.
  rewrite app_nil_r in Heq2. rewrite Heq2.
  cbn [Decimal.accumulate_digits].
  rewrite digits_value_app. fold sc.
  replace ((0 * 10 ^ Z.of_nat k + digits_value a) * 10 ^ Z.of_nat sc
           + digits_value b)
    with (digits_value a * 10 ^ Z.of_nat sc + digits_value b) by lia.
  assert (Hhd : (false || negb (k =? 0)%nat) || negb (sc =? 0)%nat = true).
  { destruct (Nat.eqb_spec k 0), (Nat.eqb_spec sc 0); trivial. lia. }
  rewrite Hhd. reflexivity.
Qed.

(** The sign of a literal and the position after it. *)
Lemma fromString_sign (sign body : list ascii) (c : ascii) (rest : list ascii) :
  sign = [] \/ sign = ["+"%char] \/ sign = ["-"%char] ->
  body = c :: rest ->
  (Int128.code c =? 45) = false -> (Int128.code c =? 43) = false ->
  Decimal.fromString (sign ++ body)
  = match Decimal.fromString_body (sign ++ body) (minus_sign sign)
            (List.length sign) with
    | Ok r => r
    | Error _ => None
    end.
Proof.
  intros Hs -> H45 H43. unfold Decimal.fromString.
  destruct Hs as [-> | [-> | ->]]; cbn [app List.length minus_sign].
  - rewrite H45, H43. cbv iota. reflexivity.
  - change (Int128.code "+" =? 45) with false.
    change (Int128.code "+" =? 43) with true. cbv iota. reflexivity.
  - change (Int128.code "-" =? 45) with true. cbv iota. reflexivity.
Qed.

Lemma skipn_sign (sign body : list ascii) :
  skipn (List.length sign) (sign ++ body) = body.
Proof. rewrite skipn_app, skipn_all, Nat.sub_diag. reflexivity. Qed.

(** What [fromString] returns for a scanned literal. *)
Lemma fromString_scanned (negative : bool) (str : list ascii) (pos : nat)
  (m sc : Z) :
  scanned str pos m sc -> 0 <= m < 10 ^ 28 -> 0 <= sc <= 28 ->
  exists r,
    Decimal.fromString_body str negative pos = Ok (Some r)
    /\ limbs_valid r /\ normalized r
    /\ Decimal.sign_bit r = negative
    /\ 0 <= Decimal.scale r <= sc
    /\ mantissa_value r * 10 ^ (sc - Decimal.scale r) = m.
Proof.
  intros Hscan Hm Hsc. pose proof pow10_28 as H28.
  rewrite (fromString_body_scanned str negative pos m sc Hscan) by lia.
  destruct (parsed_spec negative m sc) as (Hpl & Hpv & Hps & Hpn); [ lia | lia | ].
  destruct (normalize_spec _ Hpl) as (r & -> & Hrl & Hrn & Hrs & Hrsc & Hrv).
  cbn [bind]. exists r. split; [ reflexivity | ].
  rewrite Hps in Hrsc, Hrv. rewrite Hpv in Hrv. rewrite Hpn in Hrs.
  repeat (split; [ assumption | ]). symmetry. exact Hrv.
Qed.

Lemma body_head (a b : list ascii) :
  Forall is_digit a ->
  exists c rest,
    a ++ "."%char :: b = c :: rest
    /\ (Int128.code c =? 45) = false /\ (Int128.code c =? 43) = false.
Proof.
  intros Ha. destruct a as [ | c a'].
  - exists "."%char, b. repeat split; reflexivity.
  - inversion Ha as [ | ? ? Hc _]; subst.
    destruct (digit_not_sign c Hc) as [H45 H43].
    exists c, (a' ++ "."%char :: b). repeat split; assumption.
Qed.

(** X28. [Decimal::fromString] on a literal with at most 28 digits: an
    optional sign, digits, a decimal point and digits (either run of digits
    may be empty, not both) parses to the normalized decimal with that
    value, whose scale is at most the number of digits after the point; and
    an optional sign and digits alone parse to that integer with scale 0.
    The sign bit is set exactly for a leading ['-'], also when all digits
    are zero. *)
Theorem fromString_literal (sign a b : list ascii) :
  sign = [] \/ sign = ["+"%char] \/ sign = ["-"%char] ->
  Forall is_digit a -> Forall is_digit b ->
  (0 < List.length a + List.length b <= 28)%nat ->
  (exists r,
      Decimal.fromString (sign ++ a ++ "."%char :: b) = Some r
      /\ limbs_valid r /\ normalized r
      /\ Decimal.sign_bit r = minus_sign sign
      /\ 0 <= Decimal.scale r <= Z.of_nat (List.length b)
      /\ mantissa_value r * 10 ^ (Z.of_nat (List.length b) - Decimal.scale r)
         = digits_value (a ++ b))
  /\ (b = [] ->
      exists r,
        Decimal.fromString (sign ++ a) = Some r
        /\ limbs_valid r
        /\ Decimal.sign_bit r = minus_sign sign
        /\ Decimal.scale r = 0
        /\ mantissa_value r = digits_value a).
Proof.
  intros Hs Ha Hb Hlen. split.
  - destruct (body_head a b Ha) as (c & rest & Hbody & H45 & H43).
    rewrite (fromString_sign sign _ c rest Hs Hbody H45 H43).
    assert (Hall : Forall is_digit (a ++ b)) by (apply Forall_app; auto).
    pose proof (digits_below (a ++ b) 28 Hall ltac:(rewrite length_app; lia)) as Hv.
    change (Z.of_nat 28) with 28 in Hv.
    destruct (fromString_scanned (minus_sign sign) (sign ++ a ++ "."%char :: b)
                (List.length sign) (digits_value (a ++ b))
                (Z.of_nat (List.length b)))
      as (r & Hr & Hrest); [ | exact Hv | lia | ].
    { apply scan_fraction; trivial.
      - apply skipn_sign.
      - rewrite !length_app. cbn [List.length]. lia. }
    rewrite Hr. exists r. split; [ reflexivity | exact Hrest ].
  - intros ->. rewrite Nat.add_0_r in Hlen.
    destruct a as [ | c rest]; [ cbn in Hlen; lia | ].
    inversion Ha as [ | ? ? Hc _]; subst.
    destruct (digit_not_sign c Hc) as [H45 H43].
    rewrite (fromString_sign sign _ c rest Hs eq_refl H45 H43).
    pose proof (digits_below (c :: rest) 28 Ha ltac:(lia)) as Hv.
    change (Z.of_nat 28) with 28 in Hv.
    destruct (fromString_scanned (minus_sign sign) (sign ++ c :: rest)
                (List.length sign) (digits_value (c :: rest)) 0)
      as (r & Hr & Hrl & Hrn & Hrs & Hrsc & Hrv); [ | exact Hv | lia | ].
    { apply scan_integer; trivial.
      - apply skipn_sign.
      - rewrite length_app. reflexivity. }
    rewrite Hr. exists r. split; [ reflexivity | ].
    split; [ exact Hrl | ]. split; [ exact Hrs | ].
    assert (E0 : Decimal.scale r = 0) by lia.
    split; [ exact E0 | ].
    rewrite E0, Z.sub_diag, Z.pow_0_r, Z.mul_1_r in Hrv. exact Hrv.
Qed.

Lemma fromString_literal_witness :
  exists r,
    Decimal.fromString
      (["-"%char] ++ list_ascii_of_string "12" ++ "."%char :: list_ascii_of_string "50")
    = Some r
    /\ limbs_valid r /\ normalized r
    /\ Decimal.sign_bit r = minus_sign ["-"%char]
    /\ 0 <= Decimal.scale r <= Z.of_nat (List.length (list_ascii_of_string "50"))
    /\ mantissa_value r
       * 10 ^ (Z.of_nat (List.length (list_ascii_of_string "50")) - Decimal.scale r)
       = digits_value (list_ascii_of_string "12" ++ list_ascii_of_string "50").
Proof.
  apply (proj1 (fromString_literal ["-"%char] (list_ascii_of_string "12")
                  (list_ascii_of_string "50")
                  ltac:(right; right; reflexivity)
                  ltac:(repeat constructor) ltac:(repeat constructor)
                  ltac:(cbn; lia))).
Defined.

(** ** The text after the 28th significant digit *)

Lemma find_point_none (cs : list ascii) :
  forall i dp cnt,
    Forall (fun x => Int128.code x <> 46) cs ->
    Decimal.find_decimal_point cs i dp cnt = Some dp.
Proof.
  induction cs as [ | c cs IH]; intros i dp cnt Hd; [ reflexivity | ].
  inversion Hd as [ | ? ? Hc Hd']; subst.
  cbn [Decimal.find_decimal_point].
  destruct (Z.eqb_spec (Int128.code c) 46); [ contradiction | ].
  apply IH. exact Hd'.
Qed.

Lemma digit_is_not_point (cs : list ascii) :
  Forall is_digit cs -> Forall (fun x => Int128.code x <> 46) cs.
Proof.
  intros H. eapply Forall_impl; [ | exact H ].
  intros c Hc. pose proof (digit_not_point c Hc) as E.
  apply Z.eqb_neq in E. exact E.
Qed.

(** A run of digits after the first non-zero one: every digit counts as
    significant. *)
Lemma accumulate_significant (ds : list ascii) :
  forall (rest : list ascii) (i : nat) (M sig dec cs : Z) (hd : bool),
    Forall is_digit ds ->
    0 < M -> 0 <= sig ->
    sig + Z.of_nat (List.length ds) <= 28 ->
    M * 10 ^ Z.of_nat (List.length ds) + digits_value ds < 2 ^ 127 ->
    Decimal.accumulate_digits None (ds ++ rest) i
      (Decimal.mk_state M hd sig dec cs)
    = Decimal.accumulate_digits None rest (i + List.length ds)
        (Decimal.mk_state
           (M * 10 ^ Z.of_nat (List.length ds) + digits_value ds)
           (hd || negb (List.length ds =? 0)%nat)
           (sig + Z.of_nat (List.length ds)) dec cs).
Proof.
  induction ds as [ | c ds IH]; intros rest i M sig dec cs hd Hd HM Hsig Hs28 Hb.
  - cbn [app List.length Nat.eqb negb]. rewrite orb_false_r, Nat.add_0_r.
    unfold digits_value. cbn [fold_left Z.of_nat]. rewrite Z.pow_0_r.
    rewrite Z.mul_1_r, !Z.add_0_r. reflexivity.
  - inversion Hd as [ | ? ? Hc Hd']; subst.
    pose proof (digits_value_bound ds Hd') as Hv.
    assert (Hc' := Hc). apply is_digit_range in Hc'.
    rewrite digits_value_cons in Hb |- *.
    cbn [List.length] in *.
    rewrite Nat2Z.inj_succ in *. rewrite Z.pow_succ_r in Hb |- * by lia.
    assert (Hp : 0 < 10 ^ Z.of_nat (List.length ds))
      by (apply Z.pow_pos_nonneg; lia).
    assert (Hsmall : M * 10 + digit_of c < 2 ^ 127) by nia.
    cbn [app Decimal.accumulate_digits].
    rewrite (digit_not_point c Hc), Hc.
    cbn [Decimal.significantDigits Decimal.mantissaValue
         Decimal.decimalDigitsProcessed Decimal.currentScale].
    unfold constants.DECIMAL_MAXIMUM_PLACES.
    destruct (Z.geb_spec sig 28); [ lia | ].
    fold (digit_of c).
    unfold Int128.add, Int128.mul, constants.DECIMAL_BASE, Int128.eqb.
    rewrite (wrap_small (M * 10)) by (unfold Int128.valid; lia).
    rewrite (wrap_small (M * 10 + digit_of c)) by (unfold Int128.valid; lia).
    destruct (Z.eqb_spec M 0); [ lia | ].
    cbn [negb]. rewrite orb_true_r. cbn [orb].
    unfold u8. rewrite (Z.mod_small (sig + 1)) by lia.
    rewrite IH; trivial; try lia.
    f_equal; [ lia | ]. rewrite orb_true_r. cbn [orb].
    f_equal; lia.
Qed.

Lemma scan_tail (a : list ascii) (c : ascii) (tail : list ascii) (pos : nat)
  (str : list ascii) :
  Forall is_digit a -> List.length a = 28%nat -> 10 ^ 27 <= digits_value a ->
  is_digit c -> Forall (fun x => Int128.code x <> 46) tail ->
  skipn pos str = a ++ c :: tail ->
  scanned str pos (digits_value a) 0.
Proof.
  intros Ha Hlen Hlead Hc Htail Hskip. unfold scanned. rewrite Hskip.
  exists None.
  assert (Hnp : Forall (fun x => Int128.code x <> 46) (a ++ c :: tail)).
  { apply Forall_app. split; [ apply digit_is_not_point; exact Ha | ].
    constructor; [ | exact Htail ].
    pose proof (digit_not_point c Hc) as E. apply Z.eqb_neq in E. exact E. }
  destruct a as [ | c1 a']; [ discriminate Hlen | ].
  inversion Ha as [ | ? ? Hc1 Ha']; subst.
  cbn [List.length] in Hlen. injection Hlen as Hlen.
  pose proof (digits_value_bound a' Ha') as Hb. rewrite Hlen in Hb.
  change (Z.of_nat 27) with 27 in Hb.
  rewrite digits_value_cons, Hlen in Hlead |- *.
  change (Z.of_nat 27) with 27 in Hlead |- *.
  assert (Hc1' := Hc1). apply is_digit_range in Hc1'.
  assert (Hd1 : 1 <= digit_of c1) by lia.
  assert (H27 : 10 * 10 ^ 27 < 2 ^ 127) by (vm_compute; reflexivity).
  do 2 eexists. split; [ apply find_point_none; exact Hnp | ].
  split; [ reflexivity | ].
  cbn [app Decimal.accumulate_digits].
  rewrite (digit_not_point c1 Hc1), Hc1.
  cbn [Decimal.significantDigits Decimal.mantissaValue
       Decimal.decimalDigitsProcessed Decimal.currentScale].
  change (0 >=? constants.DECIMAL_MAXIMUM_PLACES) with false. cbv iota.
  fold (digit_of c1).
  destruct (Z.eqb_spec (digit_of c1) 0); [ lia | ].
  cbn [negb orb].
  unfold Int128.add, Int128.mul, constants.DECIMAL_BASE.
  change (Int128.wrap (0 * 10)) with 0.
  rewrite wrap_small by (unfold Int128.valid; lia). rewrite Z.add_0_l.
  change (u8 (0 + 1)) with 1.
  rewrite accumulate_significant; trivial; try lia;
    rewrite ?Hlen; change (Z.of_nat 27) with 27; try lia.
  cbn [Decimal.accumulate_digits].
  rewrite (digit_not_point c Hc), Hc.
  cbn [Decimal.significantDigits Decimal.mantissaValue
       Decimal.decimalDigitsProcessed Decimal.currentScale].
  change (1 + 27 >=? constants.DECIMAL_MAXIMUM_PLACES) with true. cbv iota.
  reflexivity.
Qed.

(** X29. [Decimal::fromString] stops reading at the 29th significant digit
    and does not look at what follows: 28 digits that start with a non-zero
    one, one more digit and then any characters other than ['.'] parse
    successfully to the integer of the first 28 digits
    (["12345678901234567890123456789abc"] is accepted). *)
Theorem fromString_ignores_tail (sign a : list ascii) (c : ascii)
  (tail : list ascii) :
  sign = [] \/ sign = ["+"%char] \/ sign = ["-"%char] ->
  Forall is_digit a -> List.length a = 28%nat -> 10 ^ 27 <= digits_value a ->
  is_digit c -> Forall (fun x => Int128.code x <> 46) tail ->
  exists r,
    Decimal.fromString (sign ++ a ++ c :: tail) = Some r
    /\ Decimal.sign_bit r = minus_sign sign
    /\ Decimal.scale r = 0
    /\ mantissa_value r = digits_value a.
Proof.
  intros Hs Ha Hlen Hlead Hc Htail.
  destruct a as [ | c1 a'] eqn:Ea; [ discriminate Hlen | ]. rewrite <- Ea in *.
  assert (Hc1 : is_digit c1) by (rewrite Ea in Ha; inversion Ha; assumption).
  destruct (digit_not_sign c1 Hc1) as [H45 H43].
  assert (Hbody : a ++ c :: tail = c1 :: (a' ++ c :: tail))
    by (rewrite Ea; reflexivity).
  rewrite (fromString_sign sign _ c1 _ Hs Hbody H45 H43).
  pose proof (digits_below a 28 Ha ltac:(lia)) as Hv.
  change (Z.of_nat 28) with 28 in Hv.
  destruct (fromString_scanned (minus_sign sign) (sign ++ a ++ c :: tail)
              (List.length sign) (digits_value a) 0)
    as (r & Hr & Hrl & Hrn & Hrs & Hrsc & Hrv); [ | exact Hv | lia | ].
  { apply (scan_tail a c tail); trivial. apply skipn_sign. }
  rewrite Hr. exists r. split; [ reflexivity | ]. split; [ exact Hrs | ].
  assert (E0 : Decimal.scale r = 0) by lia.
  split; [ exact E0 | ].
  rewrite E0, Z.sub_diag, Z.pow_0_r, Z.mul_1_r in Hrv. exact Hrv.
Qed.

Lemma fromString_ignores_tail_witness :
  exists r,
    Decimal.fromString
      ([] ++ list_ascii_of_string "1234567890123456789012345678"
          ++ "9"%char :: list_ascii_of_string "abc")
    = Some r
    /\ Decimal.sign_bit r = minus_sign []
    /\ Decimal.scale r = 0
    /\ mantissa_value r
       = digits_value (list_ascii_of_string "1234567890123456789012345678").
Proof.
  apply (fromString_ignores_tail [] (list_ascii_of_string "1234567890123456789012345678")
           "9"%char (list_ascii_of_string "abc")).
  - left. reflexivity.
  - repeat constructor.
  - reflexivity.
  - vm_compute. discriminate.
  - reflexivity.
  - repeat constructor; vm_compute; discriminate.
Defined.

(** ** Decimal::toString *)

(** The digits of a non-zero mantissa, for a digit buffer that holds
    them. *)
Lemma toString_digits (L : nat) (d : Decimal.t) :
  limbs_valid d ->
  0 < mantissa_value d < 10 ^ Z.of_nat L ->
  exists ds,
    numeral ds (mantissa_value d) /\
    Decimal.toString L d
    = (if Decimal.sign_bit d then ["-"%char] else [])
        ++ layout ds (Z.to_nat (Decimal.scale d)).
Proof.
  intros Hl Hm. unfold Decimal.toString.
  pose proof (mantissa_value_range d Hl) as Hr.
  rewrite (mantissa_value_zero d Hl).
  destruct (Z.eqb_spec (mantissa_value d) 0) as [ | _]; [ lia | ].
  rewrite mantissaAsInt128_value by assumption.
  rewrite abs_value by (unfold Int128.valid; lia).
  rewrite Z.abs_eq by lia.
  assert (Hdig : exists ds,
             numeral ds (mantissa_value d) /\
             (if mantissa_value d <=? 2 ^ 64 - 1
              then Decimal.extract_digits64 L (u64 (mantissa_value d))
              else Decimal.extract_digits128 L (mantissa_value d)) = rev ds).
  { destruct (Z.leb_spec (mantissa_value d) (2 ^ 64 - 1)).
    - unfold u64. rewrite Z.mod_small by lia.
      destruct (extract_digits64_spec L (mantissa_value d) ltac:(lia))
        as (ds & H1 & H2). eauto.
    - destruct (extract_digits128_spec L (mantissa_value d) ltac:(lia))
        as (ds & H1 & H2). eauto. }
  destruct Hdig as (ds & Hn & ->).
  exists ds. split; [ exact Hn | ].
  destruct (numeral_nonempty ds _ Hn ltac:(lia)) as (c & ds' & Eds & _).
  assert (Hrev : match rev ds with [] => ["0"%char] | _ :: _ => rev ds end = rev ds).
  { destruct (rev ds) eqn:Er; [ | reflexivity ].
    apply (f_equal (@List.length ascii)) in Er.
    rewrite length_rev, Eds in Er. discriminate Er. }
  rewrite Hrev. f_equal. unfold layout.
  rewrite length_rev, rev_involutive.
  rewrite skipn_rev, firstn_rev, !rev_involutive.
  reflexivity.
Qed.

(** The two parts of a laid-out numeral with a decimal point. *)
Lemma layout_parts (ds : list ascii) (m : Z) (sc : nat) :
  numeral ds m -> 0 < m -> (0 < sc)%nat ->
  exists ip fp,
    layout ds sc = ip ++ "."%char :: fp
    /\ Forall is_digit ip /\ Forall is_digit fp
    /\ List.length fp = sc
    /\ (ip = ["0"%char] \/ (ip <> [] /\ numeral ip (digits_value ip)))
    /\ digits_value (ip ++ fp) = m.
Proof.
  intros Hn Hm Hsc. pose proof Hn as (Hd & Hv & Hlead).
  unfold layout. destruct (Nat.ltb_spec 0 sc); [ | lia ].
  destruct (Nat.leb_spec (List.length ds) sc) as [Hle | Hgt].
  - set (zs := repeat "0"%char (sc - List.length ds)).
    destruct (zeros_digits (sc - List.length ds)) as [Hz1 Hz2].
    fold zs in Hz1, Hz2.
    exists ["0"%char], (zs ++ ds).
    split; [ reflexivity | ].
    split; [ repeat constructor | ].
    split; [ apply Forall_app; auto | ].
    split; [ rewrite length_app; unfold zs; rewrite repeat_length; lia | ].
    split; [ left; reflexivity | ].
    change (["0"%char] ++ zs ++ ds) with (("0"%char :: zs) ++ ds).
    rewrite digits_value_app, digits_value_cons, Hz2, Hv.
    change (digit_of "0") with 0. lia.
  - set (k := (List.length ds - sc)%nat).
    set (ip := firstn k ds). set (fp := skipn k ds).
    assert (Hsplit : ds = ip ++ fp) by (symmetry; apply firstn_skipn).
    assert (Hil : List.length ip = k) by (apply firstn_length_le; lia).
    assert (Hfl : List.length fp = sc)
      by (unfold fp; rewrite length_skipn; lia).
    assert (Hdd : Forall is_digit ip /\ Forall is_digit fp)
      by (apply Forall_app; rewrite <- Hsplit; exact Hd).
    destruct Hdd as [Hid Hfd].
    exists ip, fp.
    split; [ reflexivity | ].
    split; [ exact Hid | ]. split; [ exact Hfd | ]. split; [ exact Hfl | ].
    split; [ | rewrite <- Hsplit; exact Hv ].
    right. split.
    { intros E. rewrite E in Hil. cbn in Hil. lia. }
    split; [ exact Hid | ]. split; [ reflexivity | ]. right.
    destruct Hlead as [E | Hlead]; [ rewrite E in Hgt; cbn in Hgt; lia | ].
    pose proof (digits_value_bound fp Hfd) as Hfb. rewrite Hfl in Hfb.
    rewrite <- Hv, Hsplit, digits_value_app, Hfl in Hlead.
    rewrite length_app, Hil, Hfl in Hlead.
    assert (Hp : 0 < 10 ^ Z.of_nat sc) by (apply Z.pow_pos_nonneg; lia).
    replace (Z.of_nat (k + sc) - 1) with ((Z.of_nat k - 1) + Z.of_nat sc)
      in Hlead by lia.
    rewrite Z.pow_add_r in Hlead by lia.
    rewrite Hil.
    assert (Hq : 0 < 10 ^ (Z.of_nat k - 1)) by (apply Z.pow_pos_nonneg; lia).
    nia.
Qed.

(** X30. [Decimal::toString], when the digit buffer holds the digits of
    the mantissa: a zero mantissa prints ["0"] whatever the sign bit and the
    scale; otherwise the text is a ['-'] for a set sign bit, then the digits
    of the mantissa without leading zeros for scale 0, and for a positive
    scale an integer part (["0"] or a numeral without leading zeros), a
    decimal point and exactly [scale] digits, trailing zeros included. *)
Theorem Decimal_toString_shape (L : nat) (d : Decimal.t) :
  limbs_valid d -> mantissa_value d < 10 ^ Z.of_nat L ->
  let sign := if Decimal.sign_bit d then ["-"%char] else [] in
  (mantissa_value d = 0 -> Decimal.toString L d = ["0"%char])
  /\ (mantissa_value d <> 0 -> Decimal.scale d = 0 ->
      exists ds,
        Decimal.toString L d = sign ++ ds /\ numeral ds (mantissa_value d))
  /\ (mantissa_value d <> 0 -> 0 < Decimal.scale d ->
      exists ip fp,
        Decimal.toString L d = sign ++ ip ++ "."%char :: fp
        /\ Forall is_digit ip /\ Forall is_digit fp
        /\ Z.of_nat (List.length fp) = Decimal.scale d
        /\ (ip = ["0"%char] \/ (ip <> [] /\ numeral ip (digits_value ip)))
        /\ digits_value (ip ++ fp) = mantissa_value d).
Proof.
  intros Hl Hfit. cbv zeta.
  pose proof (mantissa_value_range d Hl) as Hr.
  split; [ | split ].
  - intros Hz. unfold Decimal.toString.
    rewrite (mantissa_value_zero d Hl), Hz. reflexivity.
  - intros Hnz Hs0.
    destruct (toString_digits L d Hl ltac:(lia)) as (ds & Hn & E).
    exists ds. split; [ | exact Hn ].
    rewrite E, Hs0. reflexivity.
  - intros Hnz Hpos.
    destruct (toString_digits L d Hl ltac:(lia)) as (ds & Hn & E).
    destruct (layout_parts ds _ (Z.to_nat (Decimal.scale d)) Hn ltac:(lia)
                ltac:(lia))
      as (ip & fp & Elay & Hid & Hfd & Hfl & Hip & Hv).
    exists ip, fp. rewrite E, Elay.
    split; [ reflexivity | ].
    repeat (split; [ assumption | ]).
    split; [ lia | ]. split; assumption.
Qed.

Lemma Decimal_toString_shape_witness :
  exists ip fp,
    Decimal.toString 32 (Decimal.mk 0x80030000 42 0 0)
    = (if Decimal.sign_bit (Decimal.mk 0x80030000 42 0 0)
       then ["-"%char] else []) ++ ip ++ "."%char :: fp
    /\ Forall is_digit ip /\ Forall is_digit fp
    /\ Z.of_nat (List.length fp) = Decimal.scale (Decimal.mk 0x80030000 42 0 0)
    /\ (ip = ["0"%char] \/ (ip <> [] /\ numeral ip (digits_value ip)))
    /\ digits_value (ip ++ fp) = mantissa_value (Decimal.mk 0x80030000 42 0 0).
Proof.
  apply (proj2 (proj2 (Decimal_toString_shape 32 (Decimal.mk 0x80030000 42 0 0)
                         ltac:(unfold limbs_valid; fields; lia)
                         ltac:(vm_compute; reflexivity)))).
  - vm_compute. discriminate.
  - vm_compute. reflexivity.
Defined.
